(** * bluebookify: a shallow embedding of the citation pipeline

    The development follows the TypeScript sources file by file:
    - [types.ts]     the records exchanged between the stages,
    - [extractor.ts] [extractCitations] (regular expressions, merging,
                     signal fusion, context windows),
    - [prompt.ts]    [buildMessages],
    - [replacer.ts]  [parseResponse] and [applyCorrections],
    - [core.ts]      [requireInt], [validateBatchIds] and [bluebookify].

    JavaScript strings are sequences of UTF-16 code units: a string is a
    list of code units, a code unit is a number in [N].  The two platform
    services the sources rely on, regular expressions and [JSON.parse], are
    modelled after the ECMAScript definition (a backtracking matcher written
    with continuations, and a recursive-descent reader of the JSON grammar).

    The first half of the file holds the definitions, the second half the
    lemmas and the theorems about them. *)

From Stdlib Require Import String Ascii.
From Stdlib Require Import List NArith ZArith QArith Qcanon Qround Lia Bool.
From Stdlib Require Import Permutation Sorted PeanoNat.
Import ListNotations.

Set Warnings "-register-all".
Local Open Scope nat_scope.
Local Open Scope list_scope.

(* ================================================================== *)
(** * Strings *)
(* ================================================================== *)

(** A UTF-16 code unit. *)
Definition char : Type := N.

(** A JavaScript string. *)
Definition str : Type := list char.

Definition char_eqb (a b : char) : bool := N.eqb a b.

Fixpoint str_eqb (a b : str) : bool :=
  match a, b with
  | [], [] => true
  | x :: a', y :: b' => char_eqb x y && str_eqb a' b'
  | _, _ => false
  end.

(** Code units of an ASCII literal of the sources. *)
Fixpoint lit (s : string) : str :=
  match s with
  | EmptyString => []
  | String c s' => N_of_ascii c :: lit s'
  end.

(** [s.slice(a, b)] of a string or an array, for [0 <= a] and [0 <= b]:
    the elements at the positions [a <= i < min b (length s)], nothing when
    [b <= a]. *)
Definition slice {A : Type} (s : list A) (a b : nat) : list A :=
  firstn (b - a) (skipn a s).

(** [s.slice(a)] for [0 <= a]. *)
Definition slice_from {A : Type} (s : list A) (a : nat) : list A := skipn a s.

(** [s.slice(-n)] for [0 < n]: the last [n] elements (all of [s] when it
    is shorter than [n]). *)
Definition slice_last {A : Type} (s : list A) (n : nat) : list A :=
  skipn (length s - n) s.

(** WhiteSpace and LineTerminator of ECMAScript: what [\s], [trim] and
    [trimStart] treat as white space. *)
Definition white_space : list (N * N) :=
  [ (9, 13); (32, 32); (160, 160); (5760, 5760); (8192, 8202);
    (8232, 8233); (8239, 8239); (8287, 8287); (12288, 12288);
    (65279, 65279) ]%N.

(** A character class is a finite union of closed intervals of code units. *)
Definition cls : Type := list (N * N).

Definition in_range (c : char) (r : N * N) : bool :=
  (N.leb (fst r) c && N.leb c (snd r))%bool.

Definition cls_mem (c : char) (k : cls) : bool := existsb (in_range c) k.

Definition is_space (c : char) : bool := cls_mem c white_space.

Fixpoint trimStart (s : str) : str :=
  match s with
  | c :: s' => if is_space c then trimStart s' else s
  | [] => []
  end.

Definition trimEnd (s : str) : str := rev (trimStart (rev s)).

Definition trim (s : str) : str := trimEnd (trimStart s).

(** Decimal digits of a natural number, most significant first: what
    [String(n)] and a template literal give for a non-negative integer. *)
Fixpoint digits_fuel (fuel n : nat) (acc : str) : str :=
  match fuel with
  | O => acc
  | S f =>
      let d := (48 + N.of_nat (n mod 10))%N in
      if n <? 10 then d :: acc else digits_fuel f (n / 10) (d :: acc)
  end.

Definition nat_to_str (n : nat) : str := digits_fuel (S n) n [].

Fixpoint join (sep : str) (parts : list str) : str :=
  match parts with
  | [] => []
  | [p] => p
  | p :: rest => p ++ sep ++ join sep rest
  end.

(* ================================================================== *)
(** * Numbers *)
(* ================================================================== *)

(** The finite values of the JavaScript type [number], as rationals in
    lowest terms, so that [===] and the SameValueZero test of [Set] and
    [Map] are plain equality.  Every finite double is such a rational; the
    rounding of a literal that is not a double is not part of the model. *)
Definition number : Type := Qc.

Definition num_of_Z (z : Z) : number := Q2Qc (inject_Z z).
Definition num_of_nat (n : nat) : number := num_of_Z (Z.of_nat n).

Definition num_eqb (a b : number) : bool := Qc_eq_bool a b.

(** The values a [number] option of the caller can hold. *)
Inductive jsnum : Type :=
| Finite (q : number)
| NaN
| Infinity (negative : bool).

(* ================================================================== *)
(** * [types.ts] *)
(* ================================================================== *)

(** A citation occurrence extracted from the input text.  The extractor
    numbers the occurrences with a counter, so [id] is a natural number,
    and [start] and [end] are positions in the text. *)
Record CitationContext : Type := mkContext {
  ctx_id : nat;
  ctx_original : str;
  ctx_before : str;
  ctx_after : str;
  ctx_start : nat;
  ctx_end : nat
}.

(** The oracle's correction for one citation: [id] is whatever number the
    reply carried. *)
Record CitationCorrection : Type := mkCorrection {
  cor_id : number;
  cor_citation : str
}.

(** A correction applied to the text, for audit. *)
Record Correction : Type := mkApplied {
  position : nat;
  original : str;
  replacement : str;
  context : str
}.

Record ApplyResult : Type := mkApplyResult {
  ar_text : str;
  appliedCorrections : list Correction
}.

Record BluebookifyResult : Type := mkResult {
  text : str;
  corrections : list Correction;
  unchanged : bool
}.

Inductive role : Type := System | User.

Record Message : Type := mkMessage {
  msg_role : role;
  content : str
}.

(** Nothing for [trim] to remove: no white space at either end. *)
Definition trimmed (s : str) : Prop :=
  match s with [] => True | c :: _ => is_space c = false end /\
  match rev s with [] => True | c :: _ => is_space c = false end.

(* ================================================================== *)
(** * Regular expressions *)
(* ================================================================== *)

(** ** Character classes *)

Definition range_inter (a b : N * N) : list (N * N) :=
  let lo := N.max (fst a) (fst b) in
  let hi := N.min (snd a) (snd b) in
  if N.leb lo hi then [(lo, hi)] else [].

(** The code units that are in both classes. *)
Definition cls_inter (a b : cls) : cls :=
  flat_map (fun x => flat_map (range_inter x) b) a.

Definition cls_disjoint (a b : cls) : bool :=
  match cls_inter a b with [] => true | _ :: _ => false end.

Definition max_code_unit : N := 65535.

Definition range_not (r : N * N) : cls :=
  (if N.eqb (fst r) 0 then [] else [(0%N, N.pred (fst r))]) ++
  (if N.leb max_code_unit (snd r) then [] else [(N.succ (snd r), max_code_unit)]).

(** The code units that are not in the class: [[^...]]. *)
Definition cls_not (k : cls) : cls :=
  fold_right (fun r acc => cls_inter (range_not r) acc) [(0%N, max_code_unit)] k.

Definition one (c : char) : cls := [(c, c)].
Definition ch (a : string) : cls :=
  match lit a with c :: _ => one c | [] => [] end.
Definition span_of (a b : string) : cls :=
  match lit a, lit b with c :: _, d :: _ => [(c, d)] | _, _ => [] end.

Definition digit : cls := span_of "0" "9".                      (* \d *)
Definition upper : cls := span_of "A" "Z".                      (* [A-Z] *)
Definition lower : cls := span_of "a" "z".
Definition word_chars : cls := lower ++ upper ++ digit ++ ch "_". (* \w *)
Definition not_space : cls := cls_not white_space.              (* [^\s] *)

(** ** Patterns

    The constructs the sources use.  Groups are non-capturing and no
    pattern has a back-reference, so a match is determined by the position
    where it ends. *)
Inductive regex : Type :=
| Empty                        (* the empty pattern *)
| Chars (k : cls)              (* one code unit of a class *)
| Seq (r1 r2 : regex)          (* r1 r2 *)
| Alt (r1 r2 : regex)          (* r1|r2, the left alternative first *)
| Star (r : regex)             (* r*, greedy *)
| WordBoundary                 (* \b *)
| InputStart                   (* ^ *)
| InputEnd.                    (* $ *)

Definition Plus (r : regex) : regex := Seq r (Star r).          (* r+ *)
Definition Opt (r : regex) : regex := Alt r Empty.              (* r?, greedy *)

Fixpoint seqs (l : list regex) : regex :=
  match l with
  | [] => Empty
  | [r] => r
  | r :: l' => Seq r (seqs l')
  end.

Fixpoint alts (l : list regex) : regex :=
  match l with
  | [] => Empty
  | [r] => r
  | r :: l' => Alt r (alts l')
  end.

(** A literal: its code units in sequence. *)
Definition word (s : string) : regex := seqs (map (fun c => Chars (one c)) (lit s)).

(** A literal under the flag [i]: both cases of each letter. *)
Definition fold_case (c : char) : cls :=
  if cls_mem c lower then [(c, c); ((c - 32)%N, (c - 32)%N)]
  else if cls_mem c upper then [(c, c); ((c + 32)%N, (c + 32)%N)]
  else one c.

Definition word_i (s : string) : regex := seqs (map (fun c => Chars (fold_case c)) (lit s)).

(** ** Matching

    The matcher of the ECMAScript definition: a pattern is run at a
    position of the input with a continuation that receives the end
    position; alternatives are tried in order and the first success is
    the answer.  An iteration of [r*] that consumes nothing is rejected, so
    at most [length input - i] iterations can follow position [i];
    [star_loop] counts them down. *)
Fixpoint star_loop {A : Type} (body : nat -> (nat -> option A) -> option A)
    (k : nat -> option A) (fuel : nat) (i : nat) : option A :=
  match fuel with
  | O => k i
  | S fuel' =>
      match body i (fun j => if i <? j then star_loop body k fuel' j else None) with
      | Some e => Some e
      | None => k i
      end
  end.

Section Matcher.

Variable input : str.

Definition word_at (i : nat) : bool :=
  match nth_error input i with
  | Some c => cls_mem c word_chars
  | None => false
  end.

Definition at_word_boundary (i : nat) : bool :=
  xorb (match i with O => false | S j => word_at j end) (word_at i).

Fixpoint rmatch {A : Type} (r : regex) (i : nat) (k : nat -> option A) : option A :=
  match r with
  | Empty => k i
  | Chars c =>
      match nth_error input i with
      | Some x => if cls_mem x c then k (S i) else None
      | None => None
      end
  | Seq r1 r2 => rmatch r1 i (fun j => rmatch r2 j k)
  | Alt r1 r2 =>
      match rmatch r1 i k with
      | Some e => Some e
      | None => rmatch r2 i k
      end
  | Star r1 => star_loop (rmatch r1) k (length input - i) i
  | WordBoundary => if at_word_boundary i then k i else None
  | InputStart => if i =? 0 then k i else None
  | InputEnd => if i =? length input then k i else None
  end.

(** The end of the match of [r] that starts at [i], if there is one. *)
Definition match_at (r : regex) (i : nat) : option nat := rmatch r i (@Some nat).

Fixpoint search_from (r : regex) (fuel : nat) (i : nat) : option (nat * nat) :=
  match match_at r i with
  | Some e => Some (i, e)
  | None =>
      match fuel with
      | O => None
      | S fuel' => search_from r fuel' (S i)
      end
  end.

(** [r.exec(input)] with [r.lastIndex = lastIndex]: the first position from
    [lastIndex] on where [r] matches, with the end of the match. *)
Definition exec (r : regex) (lastIndex : nat) : option (nat * nat) :=
  if length input <? lastIndex then None
  else search_from r (length input - lastIndex) lastIndex.

(** [input.search(r)]: the position of the first match. *)
Definition search (r : regex) : option nat := option_map fst (exec r 0).

(** [input.replace(r, "")] for a pattern without the flag [g]. *)
Definition remove_first (r : regex) : str :=
  match exec r 0 with
  | Some (s, e) => firstn s input ++ skipn e input
  | None => input
  end.

End Matcher.

(** ** What a pattern can match

    Read off the pattern: whether it can match the empty string, the code
    units a match can begin and end with, those it can contain, and the
    pairs of code units that can follow each other in a match.  An
    assertion consumes nothing, so it counts as the empty pattern. *)
Fixpoint nullable (r : regex) : bool :=
  match r with
  | Chars _ => false
  | Seq r1 r2 => nullable r1 && nullable r2
  | Alt r1 r2 => nullable r1 || nullable r2
  | _ => true
  end.

Fixpoint first_of (r : regex) : cls :=
  match r with
  | Chars k => k
  | Seq r1 r2 => first_of r1 ++ (if nullable r1 then first_of r2 else [])
  | Alt r1 r2 => first_of r1 ++ first_of r2
  | Star r1 => first_of r1
  | _ => []
  end.

Fixpoint last_of (r : regex) : cls :=
  match r with
  | Chars k => k
  | Seq r1 r2 => last_of r2 ++ (if nullable r2 then last_of r1 else [])
  | Alt r1 r2 => last_of r1 ++ last_of r2
  | Star r1 => last_of r1
  | _ => []
  end.

Fixpoint alphabet (r : regex) : cls :=
  match r with
  | Chars k => k
  | Seq r1 r2 => alphabet r1 ++ alphabet r2
  | Alt r1 r2 => alphabet r1 ++ alphabet r2
  | Star r1 => alphabet r1
  | _ => []
  end.

Fixpoint pairs_of (r : regex) : list (cls * cls) :=
  match r with
  | Seq r1 r2 => (last_of r1, first_of r2) :: pairs_of r1 ++ pairs_of r2
  | Alt r1 r2 => pairs_of r1 ++ pairs_of r2
  | Star r1 => (last_of r1, first_of r1) :: pairs_of r1
  | _ => []
  end.

Definition pair_mem (c d : char) (ps : list (cls * cls)) : bool :=
  existsb (fun p => cls_mem c (fst p) && cls_mem d (snd p)) ps.

(** No match of [p] can end inside or at the end of a match of [s]: the
    last code unit of the one would have to be a code unit of the other,
    in a place where the two patterns agree on nothing. *)
Definition never_ends_within (p s : regex) : bool :=
  negb (nullable p) &&
  cls_disjoint (last_of p) (first_of s) &&
  forallb (fun q =>
     cls_disjoint (cls_inter (snd q) (first_of p)) (last_of p) &&
     forallb (fun q' =>
        cls_disjoint (fst q) (fst q') ||
        cls_disjoint (cls_inter (snd q) (snd q')) (last_of p))
       (pairs_of p))
    (pairs_of s).

(** ** The matches of a pattern

    [matches input r i j]: the code units of [input] from position [i] up
    to position [j] are a match of [r].  This is what the matcher searches
    for ([rmatch_sound] below); which of several matches it returns is the
    business of the matcher alone. *)
Inductive matches (input : str) : regex -> nat -> nat -> Prop :=
| m_empty (i : nat) : matches input Empty i i
| m_chars (k : cls) (i : nat) (c : char) :
    nth_error input i = Some c -> cls_mem c k = true ->
    matches input (Chars k) i (S i)
| m_seq (r1 r2 : regex) (i j l : nat) :
    matches input r1 i j -> matches input r2 j l -> matches input (Seq r1 r2) i l
| m_alt_l (r1 r2 : regex) (i j : nat) :
    matches input r1 i j -> matches input (Alt r1 r2) i j
| m_alt_r (r1 r2 : regex) (i j : nat) :
    matches input r2 i j -> matches input (Alt r1 r2) i j
| m_star_stop (r : regex) (i : nat) : matches input (Star r) i i
| m_star_more (r : regex) (i j l : nat) :
    matches input r i j -> i < j -> matches input (Star r) j l ->
    matches input (Star r) i l
| m_word_boundary (i : nat) :
    at_word_boundary input i = true -> matches input WordBoundary i i
| m_input_start : matches input InputStart 0 0
| m_input_end : matches input InputEnd (length input) (length input).

(** A pattern that looks at nothing before the position where it starts. *)
Fixpoint forward_only (r : regex) : bool :=
  match r with
  | Seq r1 r2 | Alt r1 r2 => forward_only r1 && forward_only r2
  | Star r1 => forward_only r1
  | WordBoundary | InputStart => false
  | _ => true
  end.

(** A pattern whose matches end where the input ends. *)
Fixpoint ends_at_end (r : regex) : bool :=
  match r with
  | Seq _ r2 => ends_at_end r2
  | Alt r1 r2 => ends_at_end r1 && ends_at_end r2
  | InputEnd => true
  | _ => false
  end.

(* ================================================================== *)
(** * JSON values and errors *)
(* ================================================================== *)

(** What [JSON.parse] returns.  An object keeps its members in source
    order; a later member with the same key overrides an earlier one. *)
Inductive json : Type :=
| JNull
| JBool (b : bool)
| JNumber (n : number)
| JString (s : str)
| JArray (items : list json)
| JObject (members : list (str * json)).

(** [rec.key] on a value with [typeof rec === "object"], for a key that
    [Object.prototype] and [Array.prototype] do not define: the value of
    the last member named [key], [undefined] ([None]) otherwise. *)
Fixpoint member (key : str) (members : list (str * json)) : option json :=
  match members with
  | [] => None
  | (k, v) :: rest =>
      match member key rest with
      | Some later => Some later
      | None => if str_eqb k key then Some v else None
      end
  end.

Definition get_property (rec : json) (key : str) : option json :=
  match rec with
  | JObject members => member key members
  | _ => None
  end.

(** The failures of the pipeline.  Each constructor stands for one
    [throw new Error(...)] of the sources and carries the values that the
    message interpolates. *)
Inductive error : Type :=
| NoJsonArrayFound (preview : str)
    (* Invalid LLM response: no JSON array found. Response: ... *)
| NotAJsonArray
    (* LLM response is not a JSON array *)
| InvalidCorrection (idx : nat) (item : json)
    (* Invalid correction at index idx: item *)
| EmptyCitation (idx : nat) (id : number)
    (* Empty citation at index idx (id id): ... *)
| DuplicateCorrectionId (id : number) (idx : nat)
    (* Duplicate correction id id at index idx *)
| MissingCorrection (id : number)
    (* Missing correction for citation id id *)
| UnknownCorrectionId (id : number)
    (* Unknown correction id id: no matching citation context *)
| UnexpectedBatchId (id : number)
    (* LLM returned unexpected id id (not in this batch) *)
| MissingBatchId (id : number)
    (* LLM missing correction for id id in batch *)
| InvalidOption (name : str) (value : jsnum) (min : Z)
    (* Invalid name: value. Must be a finite integer >= min. *)
| OptionsRequired
    (* bluebookify requires an options object ... *)
| Thrown (message : str).
    (* an error raised by resolveLlm or by the oracle, passed on as it is *)

Inductive result (A : Type) : Type :=
| Ok (a : A)
| Err (e : error).

Arguments Ok {A} a.
Arguments Err {A} e.

Definition bind {A B : Type} (r : result A) (f : A -> result B) : result B :=
  match r with
  | Ok a => f a
  | Err e => Err e
  end.

Notation "x <- r ;; k" := (bind r (fun x => k))
  (at level 61, r at next level, right associativity).

(* ================================================================== *)
(** * [Map], [Set] and [Array.prototype.sort] *)
(* ================================================================== *)

(** A [Map<number, string>]: the entries in insertion order.  Setting a key
    that is present replaces its value and keeps its place. *)
Definition jsmap : Type := list (number * str).

Fixpoint map_set (m : jsmap) (k : number) (v : str) : jsmap :=
  match m with
  | [] => [(k, v)]
  | (k', v') :: m' =>
      if num_eqb k' k then (k', v) :: m' else (k', v') :: map_set m' k v
  end.

Fixpoint map_get (m : jsmap) (k : number) : option str :=
  match m with
  | [] => None
  | (k', v') :: m' => if num_eqb k' k then Some v' else map_get m' k
  end.

Definition map_has (m : jsmap) (k : number) : bool :=
  match map_get m k with Some _ => true | None => false end.

Definition map_keys (m : jsmap) : list number := map fst m.

(** A [Set<number>]: the elements in insertion order, each once. *)
Definition jsset : Type := list number.

Definition set_has (s : jsset) (k : number) : bool := existsb (num_eqb k) s.

Definition set_add (s : jsset) (k : number) : jsset :=
  if set_has s k then s else s ++ [k].

Definition new_Set (l : list number) : jsset := fold_left set_add l [].

(** [Array.prototype.sort] is stable: elements that the comparator does not
    separate keep their order.  Insertion from the right gives that order
    for any comparator that is a consistent ordering. *)
Fixpoint insert_by {A : Type} (cmp : A -> A -> Z) (x : A) (l : list A) : list A :=
  match l with
  | [] => [x]
  | y :: l' => if (cmp x y <=? 0)%Z then x :: l else y :: insert_by cmp x l'
  end.

Definition sort_by {A : Type} (cmp : A -> A -> Z) (l : list A) : list A :=
  fold_right (insert_by cmp) [] l.

(* ================================================================== *)
(** * [JSON.parse] *)
(* ================================================================== *)

(** A reader of the JSON grammar (ECMA-404), as [JSON.parse] applies it:
    white space is space, tab, line feed and carriage return; a string is
    double-quoted, holds no control character, and a backslash escapes a
    quote, a backslash, a slash, one of [b f n r t] or [uXXXX]; a number is
    an optional minus sign, an integer part ([0], or digits that start
    with [1-9]), an optional fraction and an optional exponent.  Every function
    returns the value read and the rest of the input. *)
Module Json.

Definition is_ws (c : char) : bool :=
  (N.eqb c 32 || N.eqb c 9 || N.eqb c 10 || N.eqb c 13)%bool.

Fixpoint skip_ws (s : str) : str :=
  match s with
  | c :: s' => if is_ws c then skip_ws s' else s
  | [] => []
  end.

Definition is_digit (c : char) : bool := (N.leb 48 c && N.leb c 57)%bool.

Definition hex_value (c : char) : option N :=
  if (N.leb 48 c && N.leb c 57)%bool then Some (c - 48)%N
  else if (N.leb 65 c && N.leb c 70)%bool then Some (c - 55)%N
  else if (N.leb 97 c && N.leb c 102)%bool then Some (c - 87)%N
  else None.

(** The characters of a string after the opening quote. *)
Fixpoint read_string (s : str) : option (str * str) :=
  match s with
  | [] => None
  | c :: rest =>
      if N.eqb c 34 then Some ([], rest)
      else if N.ltb c 32 then None
      else if N.eqb c 92 then
        match rest with
        | e :: rest' =>
            let escaped (x : char) :=
              match read_string rest' with
              | Some (t, r) => Some (x :: t, r)
              | None => None
              end in
            if N.eqb e 34 then escaped 34%N            (* quote *)
            else if N.eqb e 92 then escaped 92%N       (* backslash *)
            else if N.eqb e 47 then escaped 47%N       (* slash *)
            else if N.eqb e 98 then escaped 8%N        (* \b *)
            else if N.eqb e 102 then escaped 12%N      (* \f *)
            else if N.eqb e 110 then escaped 10%N      (* \n *)
            else if N.eqb e 114 then escaped 13%N      (* \r *)
            else if N.eqb e 116 then escaped 9%N       (* \t *)
            else if N.eqb e 117 then                   (* \uXXXX *)
              match rest' with
              | h1 :: h2 :: h3 :: h4 :: rest'' =>
                  match hex_value h1, hex_value h2, hex_value h3, hex_value h4 with
                  | Some a, Some b, Some c', Some d =>
                      match read_string rest'' with
                      | Some (t, r) =>
                          Some ((a * 4096 + b * 256 + c' * 16 + d)%N :: t, r)
                      | None => None
                      end
                  | _, _, _, _ => None
                  end
              | _ => None
              end
            else None
        | [] => None
        end
      else
        match read_string rest with
        | Some (t, r) => Some (c :: t, r)
        | None => None
        end
  end.

(** A run of digits: their value, their count, the rest. *)
Fixpoint read_digits (s : str) (value : Z) (count : nat) : Z * nat * str :=
  match s with
  | c :: rest =>
      if is_digit c
      then read_digits rest (value * 10 + Z.of_N (c - 48))%Z (S count)
      else (value, count, s)
  | [] => (value, count, s)
  end.

(** The integer part: a single [0], or digits that do not start with 0. *)
Definition read_int (s : str) : option (Z * str) :=
  match s with
  | c :: rest =>
      if N.eqb c 48 then Some (0%Z, rest)
      else if is_digit c then
        let '(v, _, r) := read_digits s 0 0 in Some (v, r)
      else None
  | [] => None
  end.

Definition read_frac (s : str) : option (Z * nat * str) :=
  match s with
  | c :: rest =>
      if N.eqb c 46 then
        let '(v, n, r) := read_digits rest 0 0 in
        match n with O => None | S _ => Some (v, n, r) end
      else Some (0%Z, O, s)
  | [] => Some (0%Z, O, s)
  end.

Definition read_exp (s : str) : option (Z * str) :=
  match s with
  | c :: rest =>
      if (N.eqb c 101 || N.eqb c 69)%bool then
        let '(neg, rest') :=
          match rest with
          | d :: r' =>
              if N.eqb d 45 then (true, r')
              else if N.eqb d 43 then (false, r')
              else (false, rest)
          | [] => (false, rest)
          end in
        let '(v, n, r) := read_digits rest' 0 0 in
        match n with
        | O => None
        | S _ => Some ((if neg then - v else v)%Z, r)
        end
      else Some (0%Z, s)
  | [] => Some (0%Z, s)
  end.

(** [(-1)^neg * (int + frac / 10^n) * 10^e]: the exact value of the
    literal.  [JSON.parse] returns the double nearest to that value, so the
    two agree on the literals that are doubles, among them every integer
    of at most 15 digits; the rounding of the other literals (an integer
    above 2^53, a fraction such as 0.1, an exponent out of range) is not
    modelled. *)
Definition number_value (neg : bool) (int frac : Z) (n : nat) (e : Z) : number :=
  let scale := (10 ^ Z.of_nat n)%Z in
  let mantissa := Qmake (int * scale + frac) (Z.to_pos scale) in
  let signed := if neg then Qopp mantissa else mantissa in
  Q2Qc (Qmult signed (Qpower (inject_Z 10) e)).

Definition read_number (s : str) : option (number * str) :=
  let '(neg, s1) :=
    match s with
    | c :: rest => if N.eqb c 45 then (true, rest) else (false, s)
    | [] => (false, s)
    end in
  match read_int s1 with
  | Some (int, s2) =>
      match read_frac s2 with
      | Some (frac, n, s3) =>
          match read_exp s3 with
          | Some (e, s4) => Some (number_value neg int frac n e, s4)
          | None => None
          end
      | None => None
      end
  | None => None
  end.

(** [s] starts with the literal [l]: the rest of [s]. *)
Fixpoint strip_prefix (l s : str) : option str :=
  match l, s with
  | [], _ => Some s
  | a :: l', b :: s' => if char_eqb a b then strip_prefix l' s' else None
  | _ :: _, [] => None
  end.

(** A value, the elements of an array after the first [[], and the members
    of an object after the first [{]; every call that reads on has first
    consumed a character or passed to a smaller [fuel]. *)
Fixpoint read_value (fuel : nat) (s : str) {struct fuel} : option (json * str) :=
  match fuel with
  | O => None
  | S fuel' =>
      match skip_ws s with
      | [] => None
      | c :: rest =>
          if N.eqb c 91 then                                   (* [ *)
            match skip_ws rest with
            | d :: rest' =>
                if N.eqb d 93 then Some (JArray [], rest')
                else
                  match read_elements fuel' rest with
                  | Some (items, r) => Some (JArray items, r)
                  | None => None
                  end
            | [] => None
            end
          else if N.eqb c 123 then                             (* { *)
            match skip_ws rest with
            | d :: rest' =>
                if N.eqb d 125 then Some (JObject [], rest')
                else
                  match read_members fuel' rest with
                  | Some (members, r) => Some (JObject members, r)
                  | None => None
                  end
            | [] => None
            end
          else if N.eqb c 34 then                              (* string *)
            match read_string rest with
            | Some (t, r) => Some (JString t, r)
            | None => None
            end
          else if N.eqb c 116 then                             (* true *)
            option_map (pair (JBool true)) (strip_prefix (lit "rue") rest)
          else if N.eqb c 102 then                             (* false *)
            option_map (pair (JBool false)) (strip_prefix (lit "alse") rest)
          else if N.eqb c 110 then                             (* null *)
            option_map (pair JNull) (strip_prefix (lit "ull") rest)
          else
            match read_number (c :: rest) with
            | Some (n, r) => Some (JNumber n, r)
            | None => None
            end
      end
  end

with read_elements (fuel : nat) (s : str) {struct fuel} : option (list json * str) :=
  match fuel with
  | O => None
  | S fuel' =>
      match read_value fuel' s with
      | Some (v, r) =>
          match skip_ws r with
          | c :: r' =>
              if N.eqb c 44 then                               (* , *)
                match read_elements fuel' r' with
                | Some (vs, r'') => Some (v :: vs, r'')
                | None => None
                end
              else if N.eqb c 93 then Some ([v], r')           (* ] *)
              else None
          | [] => None
          end
      | None => None
      end
  end

with read_members (fuel : nat) (s : str) {struct fuel} : option (list (str * json) * str) :=
  match fuel with
  | O => None
  | S fuel' =>
      match skip_ws s with
      | q :: r0 =>
          if N.eqb q 34 then
            match read_string r0 with
            | Some (key, r1) =>
                match skip_ws r1 with
                | colon :: r2 =>
                    if N.eqb colon 58 then
                      match read_value fuel' r2 with
                      | Some (v, r3) =>
                          match skip_ws r3 with
                          | c :: r4 =>
                              if N.eqb c 44 then               (* , *)
                                match read_members fuel' r4 with
                                | Some (ms, r5) => Some ((key, v) :: ms, r5)
                                | None => None
                                end
                              else if N.eqb c 125 then Some ([(key, v)], r4)
                              else None
                          | [] => None
                          end
                      | None => None
                      end
                    else None
                | [] => None
                end
            | None => None
            end
          else None
      | [] => None
      end
  end.

(** [JSON.parse(s)]: one value and nothing but white space around it;
    [None] stands for the [SyntaxError].  A value nests at most as deep as
    the text is long, and each level takes two units of [fuel]. *)
Definition parse (s : str) : option json :=
  match read_value (2 * length s + 2) s with
  | Some (v, rest) =>
      match skip_ws rest with
      | [] => Some v
      | _ :: _ => None
      end
  | None => None
  end.

End Json.

(** ** Vocabulary for the statements about the reader *)

(** [rest] is what is left of [s] after some code units. *)
Definition left_of (s rest : str) : Prop := exists pre, s = pre ++ rest.

(** [rest] is what is left of [s] after some code units that end with the
    code unit [c]. *)
Definition left_after (c : char) (s rest : str) : Prop := exists pre, s = pre ++ c :: rest.

(* ================================================================== *)
(** * [extractor.ts] *)
(* ================================================================== *)

Definition ws : regex := Chars white_space.                       (* \s *)
Definition dg : regex := Chars digit.                             (* \d *)
Definition name_chars : cls := upper ++ lower ++ ch "'" ++ ch ".". (* [A-Za-z'.] *)
Definition alnum : cls := lower ++ upper ++ digit.                (* [a-zA-Z0-9] *)
Definition section_sign : char := 167%N.                          (* § *)
Definition en_dash : char := 8211%N.                              (* – *)

(** [[A-Z][A-Za-z'.]+] *)
Definition NAME : regex := Seq (Chars upper) (Plus (Chars name_chars)).

(** [[A-Z][A-Za-z'.]+(?:\s+[A-Z][A-Za-z'.]+)*] *)
Definition NAMES : regex := Seq NAME (Star (Seq (Plus ws) NAME)).

(** [(?:U\.S\.|S\.\s*Ct\.|L\.\s*Ed\.(?:\s*2d)?|F\.(?:2d|3d|4th)|F\.\s*Supp\.(?:\s*(?:2d|3d))?|F\.\s*App'x)] *)
Definition REPORTER : regex :=
  alts [ word "U.S.";
         seqs [word "S."; Star ws; word "Ct."];
         seqs [word "L."; Star ws; word "Ed."; Opt (Seq (Star ws) (word "2d"))];
         seqs [word "F."; alts [word "2d"; word "3d"; word "4th"]];
         seqs [word "F."; Star ws; word "Supp.";
               Opt (Seq (Star ws) (alts [word "2d"; word "3d"]))];
         seqs [word "F."; Star ws; word "App'x"] ].

(** Case citations: "Name v. Name, 123 Reporter 456" with optional pincite
    and parenthetical. *)
Definition CASE_RE : regex :=
  seqs [ NAMES; Plus ws; word "v."; Plus ws; NAMES; Opt (word ","); Plus ws;
         Plus dg; Plus ws; REPORTER; Plus ws; Plus dg;
         Opt (seqs [word ","; Star ws; Plus dg]);
         Opt (seqs [Star ws; word "("; Star (Chars (cls_not (ch ")")));
                    dg; dg; dg; dg; word ")"]) ].

(** Statutory citations: "42 U.S.C. § 1983" or "29 C.F.R. § 1926.1053". *)
Definition STATUTE_RE : regex :=
  seqs [ Plus dg; Plus ws; alts [word "U.S.C."; word "C.F.R."]; Star ws;
         Plus (Chars (one section_sign)); Star ws; Plus dg;
         Opt (Seq (word ".") (Plus dg));
         Star (seqs [word "("; Plus (Chars alnum); word ")"]);
         Opt (seqs [Alt (Chars (one en_dash)) (word "-"); Plus dg;
                    Opt (Seq (word ".") (Plus dg))]) ].

(** Short form with reporter: "Smith, 123 F.3d at 456". *)
Definition SHORT_FORM_RE : regex :=
  seqs [ NAME; word ","; Plus ws; Plus dg; Plus ws; REPORTER; Plus ws;
         word "at"; Plus ws; Plus dg ].

(** Id. citations: "Id." or "Id. at 123". *)
Definition ID_RE : regex :=
  seqs [ WordBoundary; word "Id.";
         Opt (seqs [Plus ws; word "at"; Plus ws; Plus dg;
                    Opt (seqs [Chars (ch "," ++ one en_dash ++ ch "-");
                               Star ws; Plus dg])]) ].

(** Signals before citations. *)
Definition SIGNAL_RE : regex :=
  seqs [ WordBoundary;
         alts [ seqs [word "See"; Plus ws; word "also"];
                seqs [word "But"; Plus ws; word "see"];
                seqs [word "But"; Plus ws; word "cf."];
                seqs [word "See"; Opt (word ","); Plus ws; word "e.g.,"];
                word "See";
                word "Cf.";
                seqs [word "Accord"; Opt (word ",")];
                word "Compare";
                word "E.g.," ];
         ws ].

Definition patterns : list regex := [CASE_RE; STATUTE_RE; SHORT_FORM_RE; ID_RE].

Record PatternMatch : Type := mkMatch {
  pm_text : str;
  pm_start : nat;
  pm_end : nat
}.

(** The loop [while ((match = pattern.exec(text)) !== null) push(...)] from
    [lastIndex]: every successful [exec] moves [lastIndex] to the end of
    its match.  [None] when the loop is still running after [fuel] turns. *)
Fixpoint exec_loop (text : str) (r : regex) (fuel : nat) (lastIndex : nat)
  : option (list PatternMatch) :=
  match fuel with
  | O => None
  | S fuel' =>
      match exec text r lastIndex with
      | None => Some []
      | Some (s, e) =>
          option_map
            (cons {| pm_text := slice text s e; pm_start := s; pm_end := e |})
            (exec_loop text r fuel' e)
      end
  end.

(** The matches of a pattern over the whole text.  The patterns of this
    file match no empty string, so the loop ends within [length text + 1]
    turns ([exec_loop_total] below) and the second branch is never taken. *)
Definition all_matches (text : str) (r : regex) : list PatternMatch :=
  match exec_loop text r (S (length text)) 0 with
  | Some l => l
  | None => []
  end.

(** [(a, b) => a.start - b.start || b.end - a.end] *)
Definition by_start_then_longest (a b : PatternMatch) : Z :=
  let d := (Z.of_nat (pm_start a) - Z.of_nat (pm_start b))%Z in
  if (d =? 0)%Z then (Z.of_nat (pm_end b) - Z.of_nat (pm_end a))%Z else d.

(** One turn of the merging loop.  The array [merged] is kept with its last
    element first. *)
Definition merge_step (text : str) (merged : list PatternMatch) (m : PatternMatch)
  : list PatternMatch :=
  match merged with
  | last :: earlier =>
      if pm_start m <=? pm_end last then
        if pm_end last <? pm_end m then
          {| pm_text := slice text (pm_start last) (pm_end m);
             pm_start := pm_start last;
             pm_end := pm_end m |} :: earlier
        else merged
      else m :: merged
  | [] => [m]
  end.

Definition merge_matches (text : str) (sorted : list PatternMatch) : list PatternMatch :=
  rev (fold_left (merge_step text) sorted []).

(** The body of the inner loop over the signals: [signal.end] is
    [citation.start] or [citation.start - 1]. *)
Definition fuse_signal (text : str) (citation signal : PatternMatch) : PatternMatch :=
  if (pm_end signal =? pm_start citation) || (S (pm_end signal) =? pm_start citation)
  then {| pm_text := slice text (pm_start signal) (pm_end citation);
          pm_start := pm_start signal;
          pm_end := pm_end citation |}
  else citation.

Definition fuse_signals (text : str) (signals : list PatternMatch)
    (citation : PatternMatch) : PatternMatch :=
  fold_left (fuse_signal text) signals citation.

(** [/\s[^\s]*$/] *)
Definition LAST_SPACE_RE : regex := seqs [ws; Star (Chars not_space); InputEnd].

Definition context_before (text : str) (contextSize start : nat) : str :=
  let bStart := start - contextSize in
  let before := slice text bStart start in
  if 0 <? bStart then
    match search before ws with
    | Some idx => trimStart (slice_from before idx)
    | None => before
    end
  else before.

Definition context_after (text : str) (contextSize end_ : nat) : str :=
  let aEnd := Nat.min (length text) (end_ + contextSize) in
  let after := slice text end_ aEnd in
  if aEnd <? length text then
    match search after LAST_SPACE_RE with
    | Some idx => if 0 <? idx then slice after 0 idx else after
    | None => after
    end
  else after.

Fixpoint build_contexts (text : str) (contextSize : nat) (id : nat)
    (merged : list PatternMatch) : list CitationContext :=
  match merged with
  | [] => []
  | m :: rest =>
      {| ctx_id := id;
         ctx_original := pm_text m;
         ctx_before := context_before text contextSize (pm_start m);
         ctx_after := context_after text contextSize (pm_end m);
         ctx_start := pm_start m;
         ctx_end := pm_end m |}
      :: build_contexts text contextSize (S id) rest
  end.

(** The spans before the context windows are attached. *)
Definition citation_spans (text : str) : list PatternMatch :=
  let allMatches := flat_map (all_matches text) patterns in
  let signals := all_matches text SIGNAL_RE in
  let merged := merge_matches text (sort_by by_start_then_longest allMatches) in
  map (fuse_signals text signals) merged.

Definition extractCitations (text : str) (contextSize : nat) : list CitationContext :=
  build_contexts text contextSize 0 (citation_spans text).

Definition default_contextSize : nat := 100.

(** ** Vocabulary for the statements about the spans *)

(** The record of a match of [r] as the loops build it. *)
Definition match_of (text : str) (r : regex) (m : PatternMatch) : Prop :=
  matches text r (pm_start m) (pm_end m) /\
  pm_text m = slice text (pm_start m) (pm_end m).

(** Matches that follow each other from position [lo] on without overlap,
    none of them empty. *)
Fixpoint in_order (lo : nat) (l : list PatternMatch) : Prop :=
  match l with
  | [] => True
  | m :: rest => lo <= pm_start m /\ pm_start m < pm_end m /\ in_order (pm_end m) rest
  end.

(** Position [e] is where a match of one of the citation patterns ends. *)
Definition citation_end (text : str) (e : nat) : Prop :=
  exists r s, In r patterns /\ matches text r s e.

(** A span of the merged list: a non-empty range of the text with its
    text, ending where a match of a citation pattern ends. *)
Definition merged_span (text : str) (m : PatternMatch) : Prop :=
  pm_start m < pm_end m /\ pm_end m <= length text /\
  pm_text m = slice text (pm_start m) (pm_end m) /\
  citation_end text (pm_end m).

(** The merged list: every span starts at [lo] or later and strictly after
    the end of the span before it. *)
Fixpoint merged_from (text : str) (lo : nat) (l : list PatternMatch) : Prop :=
  match l with
  | [] => True
  | m :: rest =>
      lo <= pm_start m /\ merged_span text m /\ merged_from text (S (pm_end m)) rest
  end.

(** The bound for the span that would follow the list. *)
Fixpoint next_lo (lo : nat) (l : list PatternMatch) : nat :=
  match l with
  | [] => lo
  | m :: rest => next_lo (S (pm_end m)) rest
  end.

(** A bound of [merged_from]: the start of the text, or the position after
    the end of a citation match. *)
Definition boundary (text : str) (lo : nat) : Prop :=
  lo = 0 \/ exists e, lo = S e /\ citation_end text e.

(** The final spans: non-empty ranges of the text with their text, from
    left to right, each starting at [lo] or later and not before the end of
    the span before it. *)
Fixpoint laid_out (text : str) (lo : nat) (l : list PatternMatch) : Prop :=
  match l with
  | [] => True
  | m :: rest =>
      lo <= pm_start m /\ pm_start m < pm_end m /\ pm_end m <= length text /\
      pm_text m = slice text (pm_start m) (pm_end m) /\
      laid_out text (pm_end m) rest
  end.

(** A text with a signal between two citations. *)
Definition signal_between : str :=
  lit "Id. at 5. See Smith v. Jones, 100 F.3d 200 (1st Cir. 1996).".

Definition no_context : CitationContext :=
  {| ctx_id := 0; ctx_original := []; ctx_before := []; ctx_after := [];
     ctx_start := 0; ctx_end := 0 |}.

(** The two spans of [signal_between]: the second begins with the signal. *)
Definition first_span : CitationContext := nth 0 (extractCitations signal_between 100) no_context.
Definition second_span : CitationContext := nth 1 (extractCitations signal_between 100) no_context.

(** ** The context windows, without regular expressions *)

(** The position of the first white space of a string. *)
Fixpoint first_space (s : str) : option nat :=
  match s with
  | [] => None
  | c :: s' => if is_space c then Some 0 else option_map S (first_space s')
  end.

(** The position of the white space that only code units of [[^\s]] follow
    up to the end of the string: the start of the last, possibly cut,
    token with the white space before it. *)
Fixpoint last_space (s : str) : option nat :=
  match s with
  | [] => None
  | c :: s' =>
      if is_space c && forallb (fun x => cls_mem x not_space) s' then Some 0
      else option_map S (last_space s')
  end.

(** The window before position [start]: the [contextSize] code units
    before it; when the window does not reach the start of the text and
    holds white space, what comes before its first white space is dropped
    together with the white space that follows. *)
Definition before_window (text : str) (contextSize start : nat) : str :=
  let window := slice text (start - contextSize) start in
  if start <=? contextSize then window
  else
    match first_space window with
    | Some i => trimStart (skipn i window)
    | None => window
    end.

(** The window after position [end_]: the [contextSize] code units after
    it; when the window does not reach the end of the text and its last
    white space is not its first code unit, the window is cut at that
    white space. *)
Definition after_window (text : str) (contextSize end_ : nat) : str :=
  let window := slice text end_ (end_ + contextSize) in
  if length text <=? end_ + contextSize then window
  else
    match last_space window with
    | Some (S i) => firstn (S i) window
    | _ => window
    end.

(** A citation after a preamble that a window of ten code units cuts
    exactly at the start of a word. *)
Definition preamble_text : str :=
  lit "A very long preamble before the citation. Smith v. Jones, 100 F.3d 200 (1st Cir. 1996) followed by more text.".

Definition preamble_span : CitationContext := nth 0 (extractCitations preamble_text 10) no_context.

(* ================================================================== *)
(** * [prompt.ts] *)
(* ================================================================== *)

Definition nl : str := [10%N].
Definition dquote : str := [34%N].
Definition ldquo : str := [8220%N].
Definition rdquo : str := [8221%N].

Definition lines (l : list str) : str := join nl l.

(** The request line of one citation. *)
Definition context_line (ctx : CitationContext) : str :=
  lit "[" ++ nat_to_str (ctx_id ctx) ++ lit "] " ++
  ldquo ++ ctx_before ctx ++ rdquo ++
  lit " [" ++ ctx_original ctx ++ lit "] " ++
  ldquo ++ ctx_after ctx ++ rdquo.

(** The instructions: the same for every call, with the caller's rules
    between the first line and the task when there are any. *)
Definition system_prompt (rules : option str) : str :=
  let ruleBlock :=
    match rules with
    | Some (c :: r) => nl ++ (c :: r) ++ nl
    | _ => []
    end in
  lines
    [ lit "You are a legal citation expert specializing in Bluebook format (The Bluebook: A Uniform System of Citation).";
      ruleBlock;
      lit "Your task is to correct each citation below to proper Bluebook format.";
      [];
      lit "Key Bluebook rules to apply:";
      lit "- Case names italicized (use *asterisks* for italic markers)";
      lit "- Proper reporter abbreviations with correct spacing (e.g., " ++ dquote
        ++ lit "F.3d" ++ dquote ++ lit " not " ++ dquote ++ lit "F. 3d" ++ dquote ++ lit ")";
      lit "- Correct use of " ++ dquote ++ lit "v." ++ dquote ++ lit " (not " ++ dquote
        ++ lit "vs." ++ dquote ++ lit " or " ++ dquote ++ lit "vs" ++ dquote ++ lit ")";
      lit "- Proper pincite format with comma separators";
      lit "- Proper short-form citations (Id. rules)";
      lit "- Correct section symbols and spacing for statutes";
      lit "- Proper parenthetical format for court and year";
      [];
      lit "IMPORTANT: You must return exactly one entry for every id provided. Do not skip any.";
      lit "If a citation is already correctly formatted, return it unchanged.";
      lit "Respond with ONLY a JSON array. No explanation, no markdown fences.";
      lit "Format: [{" ++ dquote ++ lit "id" ++ dquote ++ lit ":0," ++ dquote
        ++ lit "citation" ++ dquote ++ lit ":" ++ dquote
        ++ lit "*Marbury v. Madison*, 5 U.S. (1 Cranch) 137 (1803)" ++ dquote ++ lit "}]" ].

Definition buildMessages (contexts : list CitationContext) (rules : option str)
  : list Message :=
  [ {| msg_role := System; content := system_prompt rules |};
    {| msg_role := User; content := lines (map context_line contexts) |} ].

(** The text of one record of the reply format: an object with the members
    [id] and [citation]. *)
Definition reply_record (id : str) (citation : str) : str :=
  lit "{" ++ dquote ++ lit "id" ++ dquote ++ lit ":" ++ id ++ lit "," ++
  dquote ++ lit "citation" ++ dquote ++ lit ":" ++ dquote ++ citation ++ dquote ++ lit "}".

(* ================================================================== *)
(** * [replacer.ts]: [parseResponse] *)
(* ================================================================== *)

Definition backticks : regex := Seq (Chars (ch "`")) (Seq (Chars (ch "`")) (Chars (ch "`"))).
Definition line_feed : regex := Chars (one 10%N).

(** An opening fence at the very start, with the flag [i]:
    three backticks, an optional [json], white space, an optional line feed. *)
Definition FENCE_OPEN_RE : regex :=
  seqs [InputStart; backticks; Opt (word_i "json"); Star ws; Opt line_feed].

(** A closing fence at the very end:
    an optional line feed, three backticks, white space. *)
Definition FENCE_CLOSE_RE : regex :=
  seqs [Opt line_feed; backticks; Star ws; InputEnd].

Definition strip_fences (response : str) : str :=
  trim (remove_first (remove_first (trim response) FENCE_OPEN_RE) FENCE_CLOSE_RE).

Definition open_bracket : char := 91%N.
Definition close_bracket : char := 93%N.

(** [s.lastIndexOf("]")] *)
Fixpoint last_index_of (c : char) (s : str) : option nat :=
  match s with
  | [] => None
  | x :: s' =>
      match last_index_of c s' with
      | Some i => Some (S i)
      | None => if char_eqb x c then Some 0 else None
      end
  end.

(** [JSON.parse] inside [try], kept only when the value is an array. *)
Definition parse_array (s : str) : option (list json) :=
  match Json.parse s with
  | Some (JArray items) => Some items
  | _ => None
  end.

(** The fallback loop [for (let i = 0; i < end; i++)] from position [i],
    [todo] positions before [end] being left. *)
Fixpoint scan_brackets (cleaned : str) (end_ : nat) (todo : nat) (i : nat)
  : option (list json) :=
  match todo with
  | O => None
  | S todo' =>
      match nth_error cleaned i with
      | Some c =>
          if char_eqb c open_bracket then
            match parse_array (slice cleaned i (S end_)) with
            | Some items => Some items
            | None => scan_brackets cleaned end_ todo' (S i)
            end
          else scan_brackets cleaned end_ todo' (S i)
      | None => scan_brackets cleaned end_ todo' (S i)
      end
  end.

(** The array found in the reply. *)
Definition find_array (cleaned : str) : result (list json) :=
  match parse_array cleaned with
  | Some items => Ok items
  | None =>
      match last_index_of close_bracket cleaned with
      | None => Err (NoJsonArrayFound (slice cleaned 0 200))
      | Some end_ =>
          match scan_brackets cleaned end_ end_ 0 with
          | Some items => Ok items
          | None => Err (NoJsonArrayFound (slice cleaned 0 200))
          end
      end
  end.

(** The shape test of one element: an object (not [null]) whose [id] is a
    number and whose [citation] is a string. *)
Definition correction_of_item (item : json) : option CitationCorrection :=
  match get_property item (lit "id"), get_property item (lit "citation") with
  | Some (JNumber id), Some (JString citation) =>
      Some {| cor_id := id; cor_citation := citation |}
  | _, _ => None
  end.

(** The callback of [parsed.map], element by element, with the index and
    the set [seenIds]. *)
Fixpoint validate_items (items : list json) (idx : nat) (seenIds : jsset)
  : result (list CitationCorrection) :=
  match items with
  | [] => Ok []
  | item :: rest =>
      match correction_of_item item with
      | None => Err (InvalidCorrection idx item)
      | Some correction =>
          if length (trim (cor_citation correction)) =? 0 then
            Err (EmptyCitation idx (cor_id correction))
          else if set_has seenIds (cor_id correction) then
            Err (DuplicateCorrectionId (cor_id correction) idx)
          else
            rest' <- validate_items rest (S idx) (set_add seenIds (cor_id correction)) ;;
            Ok (correction :: rest')
      end
  end.

Definition parseResponse (response : str) : result (list CitationCorrection) :=
  parsed <- find_array (strip_fences response) ;;
  validate_items parsed 0 [].

(** ** Vocabulary for the statements about a reply *)

(** Empty or white space only. *)
Definition blank (s : str) : bool := forallb is_space s.

(** The corrections of the elements that have the shape of a record. *)
Definition corrections_of (items : list json) (cs : list CitationCorrection) : Prop :=
  Forall2 (fun item c => correction_of_item item = Some c) items cs.

(** A reply with one record, whose id is the number 1.5. *)
Definition fractional_reply : str := lit "[" ++ reply_record (lit "1.5") (lit "x") ++ lit "]".

(** The array that [foreign_reply]-like replies hold, for the samples. *)
Definition items_of (response : str) : list json :=
  match find_array (strip_fences response) with
  | Ok items => items
  | Err _ => []
  end.

(** A reply with two records for the ids 0 and 1. *)
Definition two_records : str :=
  lit "[" ++ reply_record (lit "0") (lit "Id.") ++ lit "," ++
  reply_record (lit "1") (lit "Id. at 5") ++ lit "]".

Definition two_corrections : list CitationCorrection :=
  [ {| cor_id := num_of_nat 0; cor_citation := lit "Id." |};
    {| cor_id := num_of_nat 1; cor_citation := lit "Id. at 5" |} ].

Definition backtick : char := 96%N.

(** A reply inside a fenced block: the opening fence with its tag on a
    line, the reply, and the closing fence on a line. *)
Definition fenced (tag reply : str) : str :=
  lit "```" ++ tag ++ nl ++ reply ++ nl ++ lit "```".

(** The text of a JSON array with nothing around it: it begins with the
    opening bracket, ends with the closing bracket, and reads as the
    array [items]. *)
Definition array_text (A : str) (items : list json) : Prop :=
  parse_array A = Some items /\
  exists body, A = open_bracket :: body ++ [close_bracket].

(** No opening bracket of the prose [P] begins a text that, with the array
    that follows, reads as an array. *)
Definition unrelated_brackets (P A : str) : Prop :=
  forall j, nth_error P j = Some open_bracket -> parse_array (skipn j P ++ A) = None.

(** A reply in the array format with prose after it that holds a bracket. *)
Definition reply_then_note : str :=
  lit "[" ++ reply_record (lit "0") (lit "Id.") ++ lit "] (see [note])".

Definition reply_alone : str := lit "[" ++ reply_record (lit "0") (lit "Id.") ++ lit "]".

(** The reply of the tests: a bracketed phrase in the prose before. *)
Definition reply_after_phrase : str :=
  lit "Here is [my analysis] of the citations: " ++ reply_alone ++ lit " Hope this helps!".

(* ================================================================== *)
(** * [replacer.ts]: [applyCorrections] *)
(* ================================================================== *)

(** The JavaScript number held by the [id] field of a context. *)
Definition ctx_num (c : CitationContext) : number := num_of_nat (ctx_id c).

(** An entry of the local array [changes]. *)
Record change : Type := mkChange {
  ch_context : CitationContext;
  ch_replacement : str
}.

(** [correctionMap.get(ctx.id)!]: the validation before the loop makes the
    key present; an absent key would read [undefined]. *)
Definition map_get_bang (m : jsmap) (k : number) : str :=
  match map_get m k with
  | Some v => v
  | None => lit "undefined"
  end.

Definition arrow : char := 8594%N.

(** One turn of the splicing loop, on the text so far and the array
    [appliedCorrections] so far ([push] appends). *)
Definition apply_change (acc : str * list Correction) (ch : change)
  : str * list Correction :=
  let ctx := ch_context ch in
  let replacement := ch_replacement ch in
  let snippetBefore := slice_last (ctx_before ctx) 30 in
  let snippetAfter := slice (ctx_after ctx) 0 30 in
  let contextSnippet :=
    snippetBefore ++ lit "[" ++ ctx_original ctx ++ [arrow] ++ replacement
      ++ lit "]" ++ snippetAfter in
  let result := fst acc in
  (slice result 0 (ctx_start ctx) ++ replacement ++ slice_from result (ctx_end ctx),
   snd acc ++ [ {| position := ctx_start ctx;
                   original := ctx_original ctx;
                   replacement := replacement;
                   context := contextSnippet |} ]).

Definition build_changes (correctionMap : jsmap) (contexts : list CitationContext)
  : list change :=
  flat_map
    (fun ctx =>
       let replacement := map_get_bang correctionMap (ctx_num ctx) in
       if str_eqb replacement (ctx_original ctx) then []
       else [ {| ch_context := ctx; ch_replacement := replacement |} ])
    contexts.

Definition by_start_desc (a b : change) : Z :=
  (Z.of_nat (ctx_start (ch_context b)) - Z.of_nat (ctx_start (ch_context a)))%Z.

(** [correctionMap]: the corrections by id, a later one replacing an
    earlier one with the same id. *)
Definition correction_map (corrections : list CitationCorrection) : jsmap :=
  fold_left (fun m c => map_set m (cor_id c) (cor_citation c)) corrections [].

Definition applyCorrections (text : str) (contexts : list CitationContext)
    (corrections : list CitationCorrection) : result ApplyResult :=
  let correctionMap := correction_map corrections in
  let contextIds := new_Set (map ctx_num contexts) in
  match find (fun id => negb (map_has correctionMap id)) contextIds with
  | Some id => Err (MissingCorrection id)
  | None =>
      match find (fun id => negb (set_has contextIds id)) (map_keys correctionMap) with
      | Some id => Err (UnknownCorrectionId id)
      | None =>
          let changes := sort_by by_start_desc (build_changes correctionMap contexts) in
          let '(result, applied) := fold_left apply_change changes (text, []) in
          Ok {| ar_text := result; appliedCorrections := rev applied |}
      end
  end.

(** ** What the splicing is meant to compute

    The layout of a list of spans over a text: every span is a non-empty
    range inside the text holding the stored text, and the spans follow
    each other from left to right without overlapping.  [lo] bounds the
    first span from below. *)
Definition span_ok (text : str) (c : CitationContext) : Prop :=
  ctx_start c < ctx_end c /\ ctx_end c <= length text /\
  ctx_original c = slice text (ctx_start c) (ctx_end c).

Fixpoint spans_laid_out (text : str) (lo : nat) (spans : list CitationContext) : Prop :=
  match spans with
  | [] => True
  | c :: rest =>
      lo <= ctx_start c /\ span_ok text c /\ spans_laid_out text (ctx_end c) rest
  end.

(** The correction of a span in a list of corrections: the citation of the
    last correction that carries the span's id. *)
Definition correction_for (corrections : list CitationCorrection)
    (c : CitationContext) : option str :=
  option_map cor_citation
    (find (fun k => num_eqb (cor_id k) (ctx_num c)) (rev corrections)).

(** The two id sets are the same. *)
Definition ids_match (spans : list CitationContext)
    (corrections : list CitationCorrection) : Prop :=
  (forall c, In c spans -> exists k, In k corrections /\ cor_id k = ctx_num c) /\
  (forall k, In k corrections -> exists c, In c spans /\ cor_id k = ctx_num c).

(** The text from position [pos] on, with every span replaced by [repl]:
    what lies between the spans is copied from the original. *)
Fixpoint spliced (text : str) (pos : nat) (spans : list CitationContext)
    (repl : CitationContext -> str) : str :=
  match spans with
  | [] => slice_from text pos
  | c :: rest =>
      slice text pos (ctx_start c) ++ repl c ++ spliced text (ctx_end c) rest repl
  end.

(** The replacement of a span: its correction, and its own text when the
    correction is the same text. *)
Definition replacement_of (corrections : list CitationCorrection)
    (c : CitationContext) : str :=
  match correction_for corrections c with
  | Some r => r
  | None => ctx_original c
  end.

Definition is_changed (corrections : list CitationCorrection)
    (c : CitationContext) : bool :=
  negb (str_eqb (replacement_of corrections c) (ctx_original c)).

(** The audit record of a changed span. *)
Definition audit_of (corrections : list CitationCorrection)
    (c : CitationContext) : Correction :=
  let r := replacement_of corrections c in
  {| position := ctx_start c;
     original := ctx_original c;
     replacement := r;
     context := slice_last (ctx_before c) 30 ++ lit "[" ++ ctx_original c
                  ++ [arrow] ++ r ++ lit "]" ++ slice (ctx_after c) 0 30 |}.

(** Strictly ascending positions. *)
Fixpoint ascending (l : list nat) : Prop :=
  match l with
  | [] => True
  | x :: rest => match rest with [] => True | y :: _ => x < y end /\ ascending rest
  end.

(** The text from [pos] up to position [stop], with every span replaced. *)
Fixpoint spliced_to (text : str) (pos : nat) (spans : list CitationContext)
    (repl : CitationContext -> str) (stop : nat) : str :=
  match spans with
  | [] => slice text pos stop
  | c :: rest =>
      slice text pos (ctx_start c) ++ repl c ++ spliced_to text (ctx_end c) rest repl stop
  end.

(** Two spans and their corrections, one longer and one shorter than the
    text it replaces. *)
Definition sample_text : str := lit "AAA then BBB end".

Definition sample_spans : list CitationContext :=
  [ {| ctx_id := 0; ctx_original := lit "AAA"; ctx_before := [];
       ctx_after := lit "then"; ctx_start := 0; ctx_end := 3 |};
    {| ctx_id := 1; ctx_original := lit "BBB"; ctx_before := lit "then";
       ctx_after := lit "end"; ctx_start := 9; ctx_end := 12 |} ].

Definition sample_corrections : list CitationCorrection :=
  [ {| cor_id := num_of_nat 0; cor_citation := lit "AAAAAAA" |};
    {| cor_id := num_of_nat 1; cor_citation := lit "B" |} ].

(* ================================================================== *)
(** * [core.ts] *)
(* ================================================================== *)

(** [requireInt]: a finite number, at least [min], equal to its floor. *)
Definition requireInt (value : jsnum) (name : str) (min : Z) : result unit :=
  match value with
  | Finite q =>
      if Qle_bool (inject_Z min) q && Qeq_bool (inject_Z (Qfloor q)) q
      then Ok tt
      else Err (InvalidOption name value min)
  | _ => Err (InvalidOption name value min)
  end.

(** The natural number held by a number that passed [requireInt]. *)
Definition to_index (value : jsnum) : nat :=
  match value with
  | Finite q => Z.to_nat (Qfloor q)
  | _ => 0
  end.

(** [validateBatchIds]: the first id of the reply that the batch does not
    have, then the first id of the batch that the reply does not have. *)
Definition validateBatchIds (corrections : list CitationCorrection)
    (expectedIds : jsset) : result unit :=
  match find (fun c => negb (set_has expectedIds (cor_id c))) corrections with
  | Some c => Err (UnexpectedBatchId (cor_id c))
  | None =>
      match find (fun id => negb (existsb (fun c => num_eqb (cor_id c) id) corrections))
                 expectedIds with
      | Some id => Err (MissingBatchId id)
      | None => Ok tt
      end
  end.

Section Core.

(** The oracle is a function of the caller: it receives the messages, may
    fail, and may change the state of the world it lives in (a test double
    counts its calls).  The calls are awaited one after the other, so a run
    threads that state through them. *)
Variable World : Type.

Definition LlmFn : Type := list Message -> World -> result str * World.

(** The options of [@lexstyle/llm-client] ([apiKey], [provider], [model],
    [llm]) and its [resolveLlm], which returns the oracle or throws. *)
Variable LlmOptions : Type.

Record BluebookifyOptions : Type := mkOptions {
  llmOptions : LlmOptions;
  contextSize : option jsnum;
  rules : option str;
  batchSize : option jsnum
}.

Variable resolveLlm : BluebookifyOptions -> result LlmFn.

(** What a run leaves behind: the requests sent to the oracle in order,
    the state of the world, and the value or the error of the promise. *)
Record run : Type := mkRun {
  calls : list (list Message);
  world : World;
  outcome : result BluebookifyResult
}.

(** The work on one reply. *)
Definition check_reply (batch : list CitationContext) (response : result str)
  : result (list CitationCorrection) :=
  r <- response ;;
  corrections <- parseResponse r ;;
  _ <- validateBatchIds corrections (new_Set (map ctx_num batch)) ;;
  Ok corrections.

(** The loop [for (let i = 0; i < contexts.length; i += batchSize)] from
    [i]; [None] when it is still running after [fuel] turns. *)
Fixpoint batch_loop (llmFn : LlmFn) (rules : option str)
    (contexts : list CitationContext) (batchSize : nat) (fuel : nat) (i : nat)
    (allCorrections : list CitationCorrection) (sent : list (list Message))
    (w : World)
  : option (list (list Message) * World * result (list CitationCorrection)) :=
  if length contexts <=? i then Some (sent, w, Ok allCorrections)
  else
    match fuel with
    | O => None
    | S fuel' =>
        let batch := slice contexts i (i + batchSize) in
        let messages := buildMessages batch rules in
        let '(response, w') := llmFn messages w in
        match check_reply batch response with
        | Err e => Some (sent ++ [messages], w', Err e)
        | Ok corrections =>
            batch_loop llmFn rules contexts batchSize fuel' (i + batchSize)
              (allCorrections ++ corrections) (sent ++ [messages]) w'
        end
    end.

Definition failed (w : World) (e : error) : option run :=
  Some {| calls := []; world := w; outcome := Err e |}.

(** [options.batchSize ?? 20] and [options.contextSize ?? 100] *)
Definition batchSize_of (options : BluebookifyOptions) : jsnum :=
  match batchSize options with Some b => b | None => Finite (num_of_nat 20) end.

Definition contextSize_of (options : BluebookifyOptions) : jsnum :=
  match contextSize options with Some c => c | None => Finite (num_of_nat 100) end.

(** [bluebookify]; [None] only if the batch loop were not to end. *)
Definition bluebookify (text : str) (options : option BluebookifyOptions)
    (w : World) : option run :=
  match options with
  | None => failed w OptionsRequired
  | Some options =>
      let batchSize := batchSize_of options in
      match requireInt batchSize (lit "batchSize") 1 with
      | Err e => failed w e
      | Ok _ =>
          let contextSize := contextSize_of options in
          match requireInt contextSize (lit "contextSize") 0 with
          | Err e => failed w e
          | Ok _ =>
              match resolveLlm options with
              | Err e => failed w e
              | Ok llmFn =>
                  let contexts := extractCitations text (to_index contextSize) in
                  if length contexts =? 0 then
                    Some {| calls := []; world := w;
                            outcome := Ok {| text := text; corrections := [];
                                             unchanged := true |} |}
                  else
                    match batch_loop llmFn (rules options) contexts (to_index batchSize)
                            (length contexts) 0 [] [] w with
                    | None => None
                    | Some (sent, w', Err e) =>
                        Some {| calls := sent; world := w'; outcome := Err e |}
                    | Some (sent, w', Ok allCorrections) =>
                        Some {| calls := sent; world := w';
                                outcome :=
                                  r <- applyCorrections text contexts allCorrections ;;
                                  Ok {| text := ar_text r;
                                        corrections := appliedCorrections r;
                                        unchanged := length (appliedCorrections r) =? 0 |} |}
                    end
              end
          end
      end
  end.

(** ** Vocabulary for the statements about a run *)

(** A configuration that passes the three checks made before extraction. *)
Definition valid_configuration (options : BluebookifyOptions) (llmFn : LlmFn) : Prop :=
  requireInt (batchSize_of options) (lit "batchSize") 1 = Ok tt /\
  requireInt (contextSize_of options) (lit "contextSize") 0 = Ok tt /\
  resolveLlm options = Ok llmFn.

(** The spans the pipeline works on. *)
Definition spans_of (text : str) (options : BluebookifyOptions) : list CitationContext :=
  extractCitations text (to_index (contextSize_of options)).

(** The state of the batch loop at the head of a turn. *)
Record loop_state : Type := mkLoop {
  ls_fuel : nat;
  ls_i : nat;
  ls_all : list CitationCorrection;
  ls_sent : list (list Message);
  ls_world : World
}.

(** One turn whose reply is accepted, and any number of them. *)
Inductive accepted_turn (llmFn : LlmFn) (rules : option str)
    (contexts : list CitationContext) (batchSize : nat)
  : loop_state -> loop_state -> Prop :=
| accepted_turn_intro (fuel i : nat) (all : list CitationCorrection)
    (sent : list (list Message)) (w w' : World) (response : result str)
    (corrections : list CitationCorrection) :
    i < length contexts ->
    llmFn (buildMessages (slice contexts i (i + batchSize)) rules) w = (response, w') ->
    check_reply (slice contexts i (i + batchSize)) response = Ok corrections ->
    accepted_turn llmFn rules contexts batchSize
      (mkLoop (S fuel) i all sent w)
      (mkLoop fuel (i + batchSize) (all ++ corrections)
         (sent ++ [buildMessages (slice contexts i (i + batchSize)) rules]) w').

Inductive reached (llmFn : LlmFn) (rules : option str)
    (contexts : list CitationContext) (batchSize : nat)
  : loop_state -> loop_state -> Prop :=
| reached_here (s : loop_state) : reached llmFn rules contexts batchSize s s
| reached_later (s1 s2 s3 : loop_state) :
    reached llmFn rules contexts batchSize s1 s2 ->
    accepted_turn llmFn rules contexts batchSize s2 s3 ->
    reached llmFn rules contexts batchSize s1 s3.

(** The state in which [bluebookify] enters the loop. *)
Definition loop_entry (contexts : list CitationContext) (w : World) : loop_state :=
  mkLoop (length contexts) 0 [] [] w.

End Core.

Arguments mkOptions {LlmOptions}.
Arguments llmOptions {LlmOptions}.
Arguments contextSize {LlmOptions}.
Arguments rules {LlmOptions}.
Arguments batchSize {LlmOptions}.
Arguments batchSize_of {LlmOptions}.
Arguments contextSize_of {LlmOptions}.
Arguments spans_of {LlmOptions}.
Arguments mkRun {World}.
Arguments calls {World}.
Arguments world {World}.
Arguments outcome {World}.
Arguments batch_loop {World}.
Arguments failed {World}.
Arguments bluebookify {World LlmOptions}.
Arguments valid_configuration {World LlmOptions}.
Arguments mkLoop {World}.
Arguments ls_fuel {World}.
Arguments ls_i {World}.
Arguments ls_all {World}.
Arguments ls_sent {World}.
Arguments ls_world {World}.
Arguments accepted_turn {World}.
Arguments reached {World}.
Arguments loop_entry {World}.

(** ** Batches *)

(** [ceil(n / b)] *)
Definition ceil_div (n b : nat) : nat := (n + b - 1) / b.

(** The spans with indices in [[i * b, min ((i + 1) * b) n)]. *)
Definition batch_of (contexts : list CitationContext) (b i : nat) : list CitationContext :=
  slice contexts (i * b) (Nat.min ((i + 1) * b) (length contexts)).

(** The requests of all the batches, in order. *)
Definition batch_requests (contexts : list CitationContext) (b : nat)
    (rules : option str) : list (list Message) :=
  map (fun i => buildMessages (batch_of contexts b i) rules)
      (seq 0 (ceil_div (length contexts) b)).

(** ** Sample runs *)

(** An oracle that answers from a list of replies, one per call, and
    counts its calls: the state of its world is the number of calls made.
    Once the list is used up it answers with an empty array. *)
Definition scripted_oracle (replies : list str) : LlmFn nat :=
  fun _ calls_made => (Ok (nth calls_made replies (lit "[]")), S calls_made).

(** [resolveLlm] when the caller passes the oracle itself. *)
Definition resolve_to (llmFn : LlmFn nat) : BluebookifyOptions unit -> result (LlmFn nat) :=
  fun _ => Ok llmFn.

Definition options_with_batchSize (b : nat) : BluebookifyOptions unit :=
  {| llmOptions := tt; contextSize := None; rules := None;
     batchSize := Some (Finite (num_of_nat b)) |}.

Definition default_options : BluebookifyOptions unit :=
  {| llmOptions := tt; contextSize := None; rules := None; batchSize := None |}.

Definition plain_text : str := lit "This paragraph has no legal citations.".

Definition one_statute : str :=
  lit "Under 42 U.S.C. " ++ [section_sign] ++ lit " 1983, plaintiffs may sue.".

Definition three_citations : str :=
  lit "First 42 U.S.C. " ++ [section_sign] ++ lit " 1983 and 28 U.S.C. " ++
  [section_sign] ++ lit " 1331 and Id. at 100.".

Definition three_good_replies : list str :=
  [ lit "[" ++ reply_record (lit "0") (lit "42 U.S.C. " ++ [section_sign] ++ lit " 1983")
      ++ lit "," ++ reply_record (lit "1") (lit "28 U.S.C. " ++ [section_sign] ++ lit " 1331")
      ++ lit "]";
    lit "[" ++ reply_record (lit "2") (lit "Id. at 100") ++ lit "]" ].

(** A reply for the wrong citation: id 5 where id 0 is owed. *)
Definition foreign_reply : str := lit "[" ++ reply_record (lit "5") (lit "x") ++ lit "]".

(* ================================================================== *)
(** * Vocabulary for the further properties *)
(* ================================================================== *)

(** A finite number that is an integer not below [min]. *)
Definition integer_at_least (min : Z) (value : jsnum) : Prop :=
  exists z : Z, value = Finite (num_of_Z z) /\ (min <= z)%Z.

(** Options with the two sizes given, for the samples. *)
Definition options_with_sizes (b c : jsnum) : BluebookifyOptions unit :=
  {| llmOptions := tt; contextSize := Some c; rules := None; batchSize := Some b |}.

(** The corrections [corrections] answer the spans [spans] one for one:
    the ids are the same, no id comes twice, and no citation is blank. *)
Definition one_each (spans : list CitationContext)
    (corrections : list CitationCorrection) : Prop :=
  ids_match spans corrections /\
  NoDup (map cor_id corrections) /\
  (forall k, In k corrections -> blank (cor_citation k) = false).

(** An oracle that throws at every call, and counts its calls. *)
Definition throwing_oracle : LlmFn nat :=
  fun _ calls_made => (Err (Thrown (lit "timeout")), S calls_made).

(** The range of [m] lies inside the range of [x]. *)
Definition covers (x m : PatternMatch) : Prop :=
  pm_start x <= pm_start m /\ pm_end m <= pm_end x.

(** The code units from [s] up to [e] are a match of one of the four
    citation patterns. *)
Definition citation_match (text : str) (s e : nat) : Prop :=
  exists p, In p patterns /\ matches text p s e.

(** A span that begins where a citation match begins and ends where a
    citation match inside it ends. *)
Definition grown_from_matches (text : str) (x : PatternMatch) : Prop :=
  (exists e, citation_match text (pm_start x) e) /\
  (exists s, pm_start x <= s /\ citation_match text s (pm_end x)).

(** What of a span does not depend on the context width. *)
Definition span_range (c : CitationContext) : nat * str * nat * nat :=
  (ctx_id c, ctx_original c, ctx_start c, ctx_end c).

(** Every range of the class [a] lies inside a range of the class [b]. *)
Definition cls_subset (a b : cls) : bool :=
  forallb (fun x => existsb (fun y => N.leb (fst y) (fst x) && N.leb (snd x) (snd y)) b) a.

(** Every match of the pattern holds a code unit of the class [k]. *)
Fixpoint must_have (k : cls) (r : regex) : bool :=
  match r with
  | Chars c => cls_subset c k
  | Seq r1 r2 => must_have k r1 || must_have k r2
  | Alt r1 r2 => must_have k r1 && must_have k r2
  | _ => false
  end.

(** The range from [s] to [e] ends with a citation match, and begins with
    a citation match or with a signal that a citation match follows, at
    once or after one code unit. *)
Definition citation_span (text : str) (s e : nat) : Prop :=
  (exists s', s <= s' /\ citation_match text s' e) /\
  ((exists e', citation_match text s e') \/
   (exists e' s' e'',
      matches text SIGNAL_RE s e' /\ (s' = e' \/ s' = S e') /\
      citation_match text s' e'')).

(** A sentence with a signal and no period. *)
Definition signal_alone : str := lit "See the appendix for details".

(** [messages[0].content] and [messages[1].content] of a request. *)
Definition system_message (messages : list Message) : str :=
  match messages with m :: _ => content m | [] => [] end.

Definition user_message (messages : list Message) : str :=
  match messages with _ :: m :: _ => content m | _ => [] end.

(** A text that a JSON string holds as it is: no control character, no
    double quote, no backslash. *)
Definition plain (s : str) : bool :=
  forallb (fun c => negb (N.ltb c 32) && negb (N.eqb c 34) && negb (N.eqb c 92)) s.

(** A reply in the format that the prompt asks for: one record for every
    span of the batch, with the id as the request prints it and the
    citation that [answer] gives. *)
Definition record_for (answer : CitationContext -> str) (c : CitationContext) : str :=
  reply_record (nat_to_str (ctx_id c)) (answer c).

Definition reply_for (answer : CitationContext -> str) (batch : list CitationContext) : str :=
  lit "[" ++ join (lit ",") (map (record_for answer) batch) ++ lit "]".

(** The corrections that such a reply stands for. *)
Definition corrections_for (answer : CitationContext -> str)
    (batch : list CitationContext) : list CitationCorrection :=
  map (fun c => {| cor_id := ctx_num c; cor_citation := answer c |}) batch.

(** The value of an element of such a reply. *)
Definition record_value (answer : CitationContext -> str) (c : CitationContext) : json :=
  JObject [ (lit "id", JNumber (ctx_num c)); (lit "citation", JString (answer c)) ].

(** The replies of an oracle that answers every batch of the run in the
    format of the prompt, in the order of the batches. *)
Definition replies_for (answer : CitationContext -> str)
    (contexts : list CitationContext) (b : nat) : list str :=
  map (fun i => reply_for answer (batch_of contexts b i))
      (seq 0 (ceil_div (length contexts) b)).

(** The answer for the span is another text than the span holds. *)
Definition answered_otherwise (answer : CitationContext -> str)
    (c : CitationContext) : bool :=
  negb (str_eqb (answer c) (ctx_original c)).

(** The most code units that the line of a span takes in a request, for
    the context width [k]: the id, the text of the span, two windows and
    eleven code units of punctuation. *)
Definition line_bound (k : nat) (c : CitationContext) : nat :=
  11 + length (nat_to_str (ctx_id c)) + length (ctx_original c) + 2 * k.

(* ================================================================== *)
(** * Vocabulary for the statements about requests and replies *)
(* ================================================================== *)

(** The request line that shows the number [j] with the windows and the
    text of the span [c]: the number in decimal between brackets, the
    window before in curly quotes, the text between brackets, the window
    after in curly quotes. *)
Definition numbered_line (j : nat) (c : CitationContext) : str :=
  lit "[" ++ nat_to_str j ++ lit "] " ++
  ldquo ++ ctx_before c ++ rdquo ++
  lit " [" ++ ctx_original c ++ lit "] " ++
  ldquo ++ ctx_after c ++ rdquo.

(** The text that shows the spans with the indices from [lo] up to, and
    without, [hi], each under its index, one per line and nothing else. *)
Definition data_message (contexts : list CitationContext) (lo hi : nat) : str :=
  lines (map (fun j => numbered_line j (nth j contexts no_context)) (seq lo (hi - lo))).

(** ** The lexical structure of a JSON text

    Where a reader of JSON is in a text: outside a string, at some depth
    of square brackets; inside a string; or inside a string just after a
    backslash.  Outside a string a quote opens a string, a bracket changes
    the depth, and a backslash or a closing bracket at depth 0 cannot
    occur; inside a string a quote closes it and a backslash protects the
    code unit that follows. *)
Inductive lex_mode : Type := LexOut | LexIn | LexEsc.

Definition lex_state : Type := (lex_mode * nat)%type.

Definition lex_step (st : lex_state) (c : char) : option lex_state :=
  let '(m, d) := st in
  match m with
  | LexOut =>
      if N.eqb c 34 then Some (LexIn, d)
      else if N.eqb c 92 then None
      else if N.eqb c 91 then Some (LexOut, S d)
      else if N.eqb c 93 then
        match d with
        | O => None
        | S d' => Some (LexOut, d')
        end
      else Some (LexOut, d)
  | LexIn =>
      if N.eqb c 34 then Some (LexOut, d)
      else if N.eqb c 92 then Some (LexEsc, d)
      else Some (LexIn, d)
  | LexEsc => Some (LexIn, d)
  end.

Fixpoint lex (st : lex_state) (s : str) : option lex_state :=
  match s with
  | [] => Some st
  | c :: s' =>
      match lex_step st c with
      | Some st' => lex st' s'
      | None => None
      end
  end.

(** A text that a reader outside a string passes and leaves outside a
    string at the depth it came with, never going below that depth. *)
Definition balanced (s : str) : Prop :=
  forall d, lex (LexOut, d) s = Some (LexOut, d).

(** A text that closes the string a reader is in. *)
Definition closes_string (s : str) : Prop :=
  forall d, lex (LexIn, d) s = Some (LexOut, d).

(** A code unit that is neither a quote, a backslash nor a square bracket. *)
Definition quiet (c : char) : bool :=
  negb (N.eqb c 34) && negb (N.eqb c 92) && negb (N.eqb c 91) && negb (N.eqb c 93).

Definition all_quiet (s : str) : Prop := forallb quiet s = true.

(** A reader that is given [s] and leaves [rest] has passed a text with
    the property [P]. *)
Definition took (P : str -> Prop) (s rest : str) : Prop :=
  exists pre, s = pre ++ rest /\ P pre.

(** A reply in the array format between prose that holds brackets,
    backticks and a fence. *)
Definition reply_in_noisy_prose : str :=
  lit "```" ++ nl ++ lit "As [requested], see `ids` [0]: " ++ reply_alone ++
  lit " -- `done`" ++ nl ++ lit "```".

(* ################################################################## *)
(** * Lemmas and theorems *)
(* ################################################################## *)

(* ================================================================== *)
(** * Strings, numbers and lists *)
(* ================================================================== *)

Lemma str_eqb_eq (a b : str) : str_eqb a b = true <-> a = b.
Proof.
  revert b; induction a as [|x a IH]; intros [|y b]; simpl; split;
    try congruence; try reflexivity.
  - intros H. apply andb_true_iff in H as [H1 H2].
    apply N.eqb_eq in H1. apply IH in H2. congruence.
  - intros H. injection H as -> ->. apply andb_true_iff. split.
    + apply N.eqb_refl.
    + now apply IH.
Qed.

Lemma str_eqb_refl (a : str) : str_eqb a a = true.
Proof. now apply str_eqb_eq. Qed.

Lemma num_eqb_eq (a b : number) : num_eqb a b = true <-> a = b.
Proof.
  unfold num_eqb. split.
  - apply Qc_eq_bool_correct.
  - intros ->. unfold Qc_eq_bool. destruct (Qc_eq_dec b b); congruence.
Qed.

Lemma num_eqb_refl (a : number) : num_eqb a a = true.
Proof. now apply num_eqb_eq. Qed.

Lemma num_eqb_neq (a b : number) : num_eqb a b = false <-> a <> b.
Proof.
  split.
  - intros H E. apply num_eqb_eq in E. congruence.
  - intros H. destruct (num_eqb a b) eqn:E; [apply num_eqb_eq in E; contradiction | reflexivity].
Qed.

Lemma num_of_nat_inj (a b : nat) : num_of_nat a = num_of_nat b -> a = b.
Proof.
  unfold num_of_nat, num_of_Z. intros H.
  apply Q2Qc_eq_iff in H. unfold Qeq, inject_Z in H. simpl in H. lia.
Qed.

Lemma find_none_iff {A : Type} (f : A -> bool) (l : list A) :
  find f l = None <-> (forall x, In x l -> f x = false).
Proof.
  split.
  - apply find_none.
  - induction l as [|a l IH]; simpl; intros H; [reflexivity|].
    rewrite (H a (or_introl eq_refl)). apply IH. intros x Hx. apply H. now right.
Qed.

Lemma find_app {A : Type} (f : A -> bool) (l1 l2 : list A) :
  find f (l1 ++ l2) = match find f l1 with Some x => Some x | None => find f l2 end.
Proof.
  induction l1 as [|a l1 IH]; simpl; [reflexivity|].
  destruct (f a); [reflexivity | apply IH].
Qed.

(** ** [Map] and [Set] *)

Lemma map_get_set (m : jsmap) (k k' : number) (v : str) :
  map_get (map_set m k v) k' = if num_eqb k k' then Some v else map_get m k'.
Proof.
  induction m as [|[k0 v0] m IH]; simpl.
  - reflexivity.
  - destruct (num_eqb k0 k) eqn:E0; simpl.
    + apply num_eqb_eq in E0. subst k0.
      destruct (num_eqb k k'); reflexivity.
    + destruct (num_eqb k0 k') eqn:E1.
      * apply num_eqb_eq in E1. subst k0.
        destruct (num_eqb k k') eqn:E2; [|reflexivity].
        apply num_eqb_eq in E2. subst k. rewrite num_eqb_refl in E0. discriminate.
      * apply IH.
Qed.

Lemma map_keys_has (m : jsmap) (k : number) :
  In k (map_keys m) -> map_has m k = true.
Proof.
  unfold map_has, map_keys. induction m as [|[k0 v0] m IH]; simpl; [tauto|].
  intros [<- | H].
  - now rewrite num_eqb_refl.
  - destruct (num_eqb k0 k); [reflexivity | now apply IH].
Qed.

Lemma set_has_In (s : jsset) (k : number) : set_has s k = true <-> In k s.
Proof.
  unfold set_has. rewrite existsb_exists. split.
  - intros [x [Hx E]]. apply num_eqb_eq in E. now subst.
  - intros H. exists k. split; [assumption | apply num_eqb_refl].
Qed.

Lemma In_fold_set_add (l : list number) (s : jsset) (k : number) :
  In k (fold_left set_add l s) <-> In k s \/ In k l.
Proof.
  revert s; induction l as [|a l IH]; intros s; simpl.
  - tauto.
  - rewrite IH. unfold set_add. destruct (set_has s a) eqn:E.
    + apply set_has_In in E. split; [tauto|]. intros [H|[<-|H]]; tauto.
    + rewrite in_app_iff. simpl. tauto.
Qed.

Lemma In_new_Set (l : list number) (k : number) : In k (new_Set l) <-> In k l.
Proof. unfold new_Set. rewrite In_fold_set_add. simpl. tauto. Qed.

(** ** Stable sorting *)

Lemma insert_by_last {A : Type} (cmp : A -> A -> Z) (x : A) (l : list A) :
  (forall y, In y l -> (0 < cmp x y)%Z) -> insert_by cmp x l = l ++ [x].
Proof.
  induction l as [|y l IH]; simpl; intros H; [reflexivity|].
  assert (Hy := H y (or_introl eq_refl)).
  destruct (Z.leb_spec (cmp x y) 0); [lia|].
  f_equal. apply IH. intros z Hz. apply H. now right.
Qed.

Lemma insert_by_perm {A : Type} (cmp : A -> A -> Z) (x : A) (l : list A) :
  Permutation (x :: l) (insert_by cmp x l).
Proof.
  induction l as [|y l IH]; simpl; [reflexivity|].
  destruct (cmp x y <=? 0)%Z; [reflexivity|].
  rewrite perm_swap. now apply perm_skip.
Qed.

Lemma sort_by_perm {A : Type} (cmp : A -> A -> Z) (l : list A) :
  Permutation l (sort_by cmp l).
Proof.
  induction l as [|x l IH]; simpl; [reflexivity|].
  rewrite <- insert_by_perm. now apply perm_skip.
Qed.

(** ** Slices *)

Lemma slice_0 (s : str) (n : nat) : slice s 0 n = firstn n s.
Proof. unfold slice. now rewrite Nat.sub_0_r. Qed.

Lemma slice_length (s : str) (a b : nat) :
  a <= b -> b <= length s -> length (slice s a b) = b - a.
Proof.
  intros Hab Hb. unfold slice. rewrite length_firstn, length_skipn. lia.
Qed.

Lemma firstn_plus {A : Type} (p q : nat) (l : list A) :
  firstn (p + q) l = firstn p l ++ firstn q (skipn p l).
Proof.
  revert l; induction p as [|p IH]; intros [|x l]; simpl;
    try reflexivity.
  - now rewrite firstn_nil.
  - now rewrite IH.
Qed.

Lemma slice_split (s : str) (a b c : nat) :
  a <= b -> b <= c -> slice s a c = slice s a b ++ slice s b c.
Proof.
  intros Hab Hbc. unfold slice.
  replace (c - a) with ((b - a) + (c - b)) by lia.
  rewrite firstn_plus. f_equal.
  rewrite skipn_skipn. replace (b - a + a) with b by lia. reflexivity.
Qed.

Lemma slice_then_rest (s : str) (a b : nat) :
  a <= b -> slice_from s a = slice s a b ++ slice_from s b.
Proof.
  intros Hab. unfold slice, slice_from.
  rewrite <- (firstn_skipn (b - a) (skipn a s)) at 1. f_equal.
  rewrite skipn_skipn. now replace (b - a + a) with b by lia.
Qed.

Lemma slice_clip {A : Type} (l : list A) (a b : nat) :
  slice l a b = slice l a (Nat.min b (length l)).
Proof.
  unfold slice. destruct (Nat.le_gt_cases b (length l)) as [H|H].
  - now rewrite Nat.min_l.
  - rewrite Nat.min_r by lia.
    rewrite !firstn_all2; try reflexivity; rewrite length_skipn; lia.
Qed.

Lemma firstn_snoc {A : Type} (l : list A) (j : nat) (x : A) :
  nth_error l j = Some x -> firstn (S j) l = firstn j l ++ [x].
Proof.
  revert j; induction l as [|y l IH]; intros [|j] H; simpl in *; try discriminate.
  - now injection H as ->.
  - f_equal. now apply IH.
Qed.

Lemma nth_error_map_seq {A : Type} (f : nat -> A) (n j : nat) :
  j < n -> nth_error (map f (seq 0 n)) j = Some (f j).
Proof.
  intros H. rewrite nth_error_map, nth_error_seq.
  destruct (Nat.ltb_spec j n); [reflexivity | lia].
Qed.

Lemma firstn_seq_le (k a m : nat) : k <= m -> firstn k (seq a m) = seq a k.
Proof.
  revert a m; induction k as [|k IH]; intros a [|m] H; simpl; try reflexivity; try lia.
  f_equal. apply IH. lia.
Qed.

Lemma slice_seq (a n lo hi : nat) :
  hi <= n -> slice (seq a n) lo hi = seq (a + lo) (hi - lo).
Proof.
  intros H. unfold slice. rewrite skipn_seq. apply firstn_seq_le. lia.
Qed.

Lemma map_slice {A B : Type} (f : A -> B) (l : list A) (a b : nat) :
  map f (slice l a b) = slice (map f l) a b.
Proof. unfold slice. now rewrite skipn_map, firstn_map. Qed.

Lemma slice_length_bound {A : Type} (l : list A) (a b : nat) : length (slice l a b) <= b - a.
Proof. unfold slice. rewrite length_firstn. lia. Qed.


(* ================================================================== *)
(** * [trim] *)
(* ================================================================== *)

Lemma trimStart_head (s : str) :
  match trimStart s with [] => True | c :: _ => is_space c = false end.
Proof.
  induction s as [|c s IH]; simpl; [exact I|].
  destruct (is_space c) eqn:E; [exact IH | exact E].
Qed.

Lemma trimStart_keeps_end (s : str) :
  match rev s with [] => True | c :: _ => is_space c = false end ->
  match rev (trimStart s) with [] => True | c :: _ => is_space c = false end.
Proof.
  induction s as [|c s IH]; simpl; [trivial|].
  destruct (is_space c) eqn:E; [|trivial].
  intros H. apply IH.
  destruct (rev s) as [|d t]; [exact I|]. exact H.
Qed.

Lemma trimStart_id (s : str) :
  match s with [] => True | c :: _ => is_space c = false end -> trimStart s = s.
Proof. destruct s as [|c s]; simpl; [reflexivity|]. now intros ->. Qed.

Lemma trim_trimmed (s : str) : trimmed (trim s).
Proof.
  unfold trimmed, trim, trimEnd. rewrite rev_involutive. split.
  - apply trimStart_keeps_end. rewrite rev_involutive. apply trimStart_head.
  - apply trimStart_head.
Qed.

Lemma trimmed_trim (s : str) : trimmed s -> trim s = s.
Proof.
  intros [H1 H2]. unfold trim, trimEnd.
  rewrite (trimStart_id s H1), (trimStart_id (rev s) H2). apply rev_involutive.
Qed.

Lemma trim_trim (s : str) : trim (trim s) = trim s.
Proof. apply trimmed_trim, trim_trimmed. Qed.

Lemma trimmed_last (s : str) (c : char) : trimmed (s ++ [c]) -> is_space c = false.
Proof. intros [_ H]. rewrite rev_app_distr in H. exact H. Qed.

Lemma trimmed_ends (c d : char) (body : str) :
  is_space c = false -> is_space d = false -> trimmed (c :: body ++ [d]).
Proof.
  intros Hc Hd. split; [exact Hc|].
  change (c :: body ++ [d]) with ((c :: body) ++ [d]).
  rewrite rev_app_distr. exact Hd.
Qed.

(* ================================================================== *)
(** * Regular expressions: the matcher and what it can return *)
(* ================================================================== *)

Lemma cls_mem_app (c : char) (a b : cls) :
  cls_mem c (a ++ b) = cls_mem c a || cls_mem c b.
Proof. unfold cls_mem. apply existsb_app. Qed.

Lemma range_inter_mem (c : char) (x y : N * N) :
  in_range c x = true -> in_range c y = true ->
  cls_mem c (range_inter x y) = true.
Proof.
  unfold in_range, range_inter, cls_mem. intros Hx Hy.
  apply andb_true_iff in Hx as [Hx1 Hx2]. apply andb_true_iff in Hy as [Hy1 Hy2].
  apply N.leb_le in Hx1, Hx2, Hy1, Hy2.
  destruct (N.leb_spec (N.max (fst x) (fst y)) (N.min (snd x) (snd y))) as [L|L].
  - simpl. unfold in_range. simpl.
    rewrite orb_false_r. apply andb_true_iff. split; apply N.leb_le; lia.
  - lia.
Qed.

Lemma cls_inter_mem (c : char) (a b : cls) :
  cls_mem c a = true -> cls_mem c b = true -> cls_mem c (cls_inter a b) = true.
Proof.
  unfold cls_mem at 1 2. intros Ha Hb.
  apply existsb_exists in Ha as [x [Hx Hxc]].
  apply existsb_exists in Hb as [y [Hy Hyc]].
  pose proof (range_inter_mem c x y Hxc Hyc) as H.
  unfold cls_mem in *. apply existsb_exists in H as [z [Hz Hzc]].
  apply existsb_exists. exists z. split; [|assumption].
  unfold cls_inter. apply in_flat_map. exists x. split; [assumption|].
  apply in_flat_map. exists y. now split.
Qed.

Lemma cls_disjoint_spec (c : char) (a b : cls) :
  cls_disjoint a b = true -> cls_mem c a = true -> cls_mem c b = true -> False.
Proof.
  unfold cls_disjoint. intros D Ha Hb.
  pose proof (cls_inter_mem c a b Ha Hb) as H.
  destruct (cls_inter a b); [discriminate H | discriminate D].
Qed.

Section MatcherFacts.

Variable input : str.

(** ** The matcher returns matches *)

Lemma rmatch_sound {A : Type} (r : regex) :
  forall (i : nat) (k : nat -> option A) (x : A),
    rmatch input r i k = Some x ->
    exists j, matches input r i j /\ k j = Some x.
Proof.
  induction r as [|c|r1 IH1 r2 IH2|r1 IH1 r2 IH2|r1 IH1| | |]; intros i k x H; simpl in H.
  - exists i. split; [constructor | assumption].
  - destruct (nth_error input i) as [y|] eqn:E; [|discriminate].
    destruct (cls_mem y c) eqn:M; [|discriminate].
    exists (S i). split; [econstructor; eassumption | assumption].
  - apply IH1 in H as [j [M1 H]]. apply IH2 in H as [l [M2 H]].
    exists l. split; [econstructor; eassumption | assumption].
  - destruct (rmatch input r1 i k) as [e|] eqn:E.
    + injection H as ->. apply IH1 in E as [j [M E]].
      exists j. split; [now apply m_alt_l | assumption].
    + apply IH2 in H as [j [M H]].
      exists j. split; [now apply m_alt_r | assumption].
  - remember (length input - i) as fuel eqn:Hfuel. clear Hfuel.
    revert i H. induction fuel as [|fuel IHf]; intros i H; simpl in H.
    + exists i. split; [apply m_star_stop | assumption].
    + destruct (rmatch input r1 i _) as [e|] eqn:E.
      * injection H as ->. apply IH1 in E as [j [M E]].
        destruct (Nat.ltb_spec i j) as [L|L]; [|discriminate].
        apply IHf in E as [l [Ms E]].
        exists l. split; [eapply m_star_more; eassumption | assumption].
      * exists i. split; [apply m_star_stop | assumption].
  - destruct (at_word_boundary input i) eqn:E; [|discriminate].
    exists i. split; [now constructor | assumption].
  - destruct (Nat.eqb_spec i 0) as [->|]; [|discriminate].
    exists 0. split; [constructor | assumption].
  - destruct (Nat.eqb_spec i (length input)) as [->|]; [|discriminate].
    exists (length input). split; [constructor | assumption].
Qed.

Lemma match_at_sound (r : regex) (i e : nat) :
  match_at input r i = Some e -> matches input r i e.
Proof.
  unfold match_at. intros H. apply rmatch_sound in H as [j [M E]].
  now injection E as <-.
Qed.

Lemma search_from_sound (r : regex) (fuel i s e : nat) :
  search_from input r fuel i = Some (s, e) ->
  matches input r s e /\ i <= s <= i + fuel.
Proof.
  revert i; induction fuel as [|fuel IH]; intros i H; simpl in H.
  - destruct (match_at input r i) as [e'|] eqn:E; [|discriminate].
    injection H as <- <-. split; [now apply match_at_sound | lia].
  - destruct (match_at input r i) as [e'|] eqn:E.
    + injection H as <- <-. split; [now apply match_at_sound | lia].
    + apply IH in H as [M L]. split; [assumption | lia].
Qed.

Lemma exec_sound (r : regex) (lastIndex s e : nat) :
  exec input r lastIndex = Some (s, e) ->
  matches input r s e /\ lastIndex <= s <= length input.
Proof.
  unfold exec. destruct (Nat.ltb_spec (length input) lastIndex) as [B|B]; [discriminate|].
  intros H. apply search_from_sound in H as [M L]. split; [assumption | lia].
Qed.

(** The first position where the pattern matches is the one found. *)
Lemma search_from_first (r : regex) (fuel i s e : nat) :
  i <= s <= i + fuel ->
  (forall p, i <= p < s -> match_at input r p = None) ->
  match_at input r s = Some e ->
  search_from input r fuel i = Some (s, e).
Proof.
  revert i; induction fuel as [|fuel IH]; intros i L Hnone Hs; simpl.
  - assert (i = s) as -> by lia. now rewrite Hs.
  - destruct (Nat.eq_dec i s) as [->|N]; [now rewrite Hs|].
    rewrite (Hnone i) by lia. apply IH; [lia | | assumption].
    intros p Hp. apply Hnone. lia.
Qed.

Lemma search_from_none (r : regex) (fuel i : nat) :
  (forall p, i <= p <= i + fuel -> match_at input r p = None) ->
  search_from input r fuel i = None.
Proof.
  revert i; induction fuel as [|fuel IH]; intros i H; simpl.
  - now rewrite (H i) by lia.
  - rewrite (H i) by lia. apply IH. intros p Hp. apply H. lia.
Qed.

(** ** Bounds and the read-off sets *)

Lemma matches_bounds (r : regex) (i j : nat) :
  matches input r i j -> i <= j /\ (i <= length input -> j <= length input).
Proof.
  induction 1; try (split; lia).
  - split; [lia|]. intros _.
    assert (i < length input) by (apply nth_error_Some; congruence). lia.
Qed.

Lemma matches_nonempty (r : regex) (i j : nat) :
  matches input r i j -> nullable r = false -> i < j.
Proof.
  induction 1 as [ | | r1 r2 i j l M1 IH1 M2 IH2 | | | | | | | ];
    simpl; intros N; try discriminate; try lia; try auto.
  - apply andb_false_iff in N.
    pose proof (matches_bounds _ _ _ M1). pose proof (matches_bounds _ _ _ M2).
    destruct N as [N|N]; [specialize (IH1 N) | specialize (IH2 N)]; lia.
  - apply orb_false_iff in N. tauto.
  - apply orb_false_iff in N. tauto.
Qed.

Lemma matches_first (r : regex) (i j : nat) :
  matches input r i j -> i < j ->
  exists c, nth_error input i = Some c /\ cls_mem c (first_of r) = true.
Proof.
  induction 1 as [ | k i c E M | r1 r2 i j l M1 IH1 M2 IH2 | r1 r2 i j M IH
                 | r1 r2 i j M IH | | r i j l M1 IH1 L M2 IH2 | | | ];
    simpl; intros Hlt; try lia.
  - exists c. now split.
  - pose proof (matches_bounds _ _ _ M1) as [B1 _].
    destruct (Nat.eq_dec i j) as [->|N].
    + destruct (IH2 Hlt) as [c [E Hc]]. exists c. split; [assumption|].
      rewrite cls_mem_app.
      destruct (nullable r1) eqn:Nu.
      * rewrite Hc. apply orb_true_r.
      * pose proof (matches_nonempty _ _ _ M1 Nu). lia.
    + destruct (IH1 ltac:(lia)) as [c [E Hc]]. exists c. split; [assumption|].
      rewrite cls_mem_app, Hc. reflexivity.
  - destruct (IH Hlt) as [c [E Hc]]. exists c. split; [assumption|].
    rewrite cls_mem_app, Hc. reflexivity.
  - destruct (IH Hlt) as [c [E Hc]]. exists c. split; [assumption|].
    rewrite cls_mem_app, Hc. apply orb_true_r.
  - apply IH1. assumption.
Qed.

Lemma matches_last (r : regex) (i j : nat) :
  matches input r i j -> i < j ->
  exists c, nth_error input (j - 1) = Some c /\ cls_mem c (last_of r) = true.
Proof.
  induction 1 as [ | k i c E M | r1 r2 i j l M1 IH1 M2 IH2 | r1 r2 i j M IH
                 | r1 r2 i j M IH | | r i j l M1 IH1 L M2 IH2 | | | ];
    simpl; intros Hlt; try lia.
  - exists c. rewrite Nat.sub_0_r. now split.
  - pose proof (matches_bounds _ _ _ M2) as [B2 _].
    destruct (Nat.eq_dec j l) as [<-|N].
    + destruct (IH1 Hlt) as [c [E Hc]]. exists c. split; [assumption|].
      rewrite cls_mem_app.
      destruct (nullable r2) eqn:Nu.
      * rewrite Hc. apply orb_true_r.
      * pose proof (matches_nonempty _ _ _ M2 Nu). lia.
    + destruct (IH2 ltac:(lia)) as [c [E Hc]]. exists c. split; [assumption|].
      rewrite cls_mem_app, Hc. reflexivity.
  - destruct (IH Hlt) as [c [E Hc]]. exists c. split; [assumption|].
    rewrite cls_mem_app, Hc. reflexivity.
  - destruct (IH Hlt) as [c [E Hc]]. exists c. split; [assumption|].
    rewrite cls_mem_app, Hc. apply orb_true_r.
  - pose proof (matches_bounds _ _ _ M2) as [B2 _].
    destruct (Nat.eq_dec j l) as [<-|N].
    + apply IH1. assumption.
    + apply IH2. lia.
Qed.

Lemma matches_alphabet (r : regex) (i j : nat) :
  matches input r i j ->
  forall p, i <= p < j ->
  exists c, nth_error input p = Some c /\ cls_mem c (alphabet r) = true.
Proof.
  induction 1 as [ | k i c E M | r1 r2 i j l M1 IH1 M2 IH2 | r1 r2 i j M IH
                 | r1 r2 i j M IH | | r i j l M1 IH1 L M2 IH2 | | | ];
    simpl; intros p Hp; try lia.
  - assert (p = i) as -> by lia. exists c. now split.
  - destruct (Nat.lt_ge_cases p j) as [C|C].
    + destruct (IH1 p ltac:(lia)) as [c [E Hc]]. exists c. split; [assumption|].
      rewrite cls_mem_app, Hc. reflexivity.
    + destruct (IH2 p ltac:(lia)) as [c [E Hc]]. exists c. split; [assumption|].
      rewrite cls_mem_app, Hc. apply orb_true_r.
  - destruct (IH p Hp) as [c [E Hc]]. exists c. split; [assumption|].
    rewrite cls_mem_app, Hc. reflexivity.
  - destruct (IH p Hp) as [c [E Hc]]. exists c. split; [assumption|].
    rewrite cls_mem_app, Hc. apply orb_true_r.
  - destruct (Nat.lt_ge_cases p j) as [C|C].
    + apply IH1. lia.
    + apply IH2. lia.
Qed.

Lemma pair_mem_app (c d : char) (a b : list (cls * cls)) :
  pair_mem c d (a ++ b) = pair_mem c d a || pair_mem c d b.
Proof. unfold pair_mem. apply existsb_app. Qed.

Lemma matches_pairs (r : regex) (i j : nat) :
  matches input r i j ->
  forall p, i <= p -> S p < j ->
  exists c d, nth_error input p = Some c /\ nth_error input (S p) = Some d /\
              pair_mem c d (pairs_of r) = true.
Proof.
  induction 1 as [ | k i c E M | r1 r2 i j l M1 IH1 M2 IH2 | r1 r2 i j M IH
                 | r1 r2 i j M IH | | r i j l M1 IH1 L M2 IH2 | | | ];
    simpl; intros p Hp1 Hp2; try lia.
  - destruct (Nat.lt_ge_cases (S p) j) as [C|C].
    + destruct (IH1 p Hp1 C) as [c [d [E1 [E2 Hm]]]].
      exists c, d. repeat split; try assumption.
      change (pair_mem c d ((last_of r1, first_of r2) :: pairs_of r1 ++ pairs_of r2) = true).
      unfold pair_mem in *. simpl. rewrite existsb_app, Hm.
      now rewrite orb_true_r.
    + destruct (Nat.le_gt_cases j p) as [D|D].
      * destruct (IH2 p D Hp2) as [c [d [E1 [E2 Hm]]]].
        exists c, d. repeat split; try assumption.
        unfold pair_mem in *. simpl. rewrite existsb_app, Hm.
        now rewrite !orb_true_r.
      * assert (j = S p) as -> by lia.
        destruct (matches_last _ _ _ M1 ltac:(lia)) as [c [E1 Hc]].
        destruct (matches_first _ _ _ M2 ltac:(lia)) as [d [E2 Hd]].
        replace (S p - 1) with p in E1 by lia.
        exists c, d. repeat split; try assumption.
        unfold pair_mem. simpl. now rewrite Hc, Hd.
  - destruct (IH p Hp1 Hp2) as [c [d [E1 [E2 Hm]]]].
    exists c, d. repeat split; try assumption.
    rewrite pair_mem_app, Hm. reflexivity.
  - destruct (IH p Hp1 Hp2) as [c [d [E1 [E2 Hm]]]].
    exists c, d. repeat split; try assumption.
    rewrite pair_mem_app, Hm. apply orb_true_r.
  - destruct (Nat.lt_ge_cases (S p) j) as [C|C].
    + destruct (IH1 p Hp1 C) as [c [d [E1 [E2 Hm]]]].
      exists c, d. repeat split; try assumption.
      unfold pair_mem in *. simpl. rewrite Hm. apply orb_true_r.
    + destruct (Nat.le_gt_cases j p) as [D|D].
      * apply IH2; assumption.
      * assert (j = S p) as -> by lia.
        destruct (matches_last _ _ _ M1 ltac:(lia)) as [c [E1 Hc]].
        destruct (matches_first _ _ _ M2 ltac:(lia)) as [d [E2 Hd]].
        replace (S p - 1) with p in E1 by lia.
        exists c, d. repeat split; try assumption.
        simpl in Hd. unfold pair_mem. simpl. now rewrite Hc, Hd.
Qed.

(** ** Matches of one pattern that cannot end inside matches of another *)

Lemma never_ends_within_sound (p s : regex) (qs qe ss se : nat) :
  never_ends_within p s = true ->
  matches input p qs qe -> matches input s ss se ->
  ss < qe -> qe <= se -> False.
Proof.
  unfold never_ends_within. intros H Mp Ms L1 L2.
  apply andb_true_iff in H as [H Hpairs]. apply andb_true_iff in H as [Hnull Hfirst].
  apply negb_true_iff in Hnull.
  pose proof (matches_nonempty _ _ _ Mp Hnull) as Hq.
  destruct (matches_last _ _ _ Mp Hq) as [c [Ec Hc]].
  destruct (Nat.eq_dec ss (qe - 1)) as [E|N].
  - destruct (matches_first _ _ _ Ms ltac:(lia)) as [c' [Ec' Hc']].
    rewrite E, Ec in Ec'. injection Ec' as <-.
    exact (cls_disjoint_spec c _ _ Hfirst Hc Hc').
  - destruct (matches_pairs _ _ _ Ms (qe - 2) ltac:(lia) ltac:(lia))
      as [a [c' [Ea [Ec' Hm]]]].
    replace (S (qe - 2)) with (qe - 1) in Ec' by lia.
    rewrite Ec in Ec'. injection Ec' as <-.
    unfold pair_mem in Hm. apply existsb_exists in Hm as [q [Hq1 Hq2]].
    apply andb_true_iff in Hq2 as [Hqa Hqc].
    rewrite forallb_forall in Hpairs. specialize (Hpairs q Hq1).
    apply andb_true_iff in Hpairs as [Hsingle Hdouble].
    destruct (Nat.eq_dec qs (qe - 1)) as [E1|N1].
    + destruct (matches_first _ _ _ Mp Hq) as [c' [Ec' Hc']].
      rewrite E1, Ec in Ec'. injection Ec' as <-.
      exact (cls_disjoint_spec c _ _ Hsingle (cls_inter_mem c _ _ Hqc Hc') Hc).
    + destruct (matches_pairs _ _ _ Mp (qe - 2) ltac:(lia) ltac:(lia))
        as [a' [c' [Ea' [Ec' Hm']]]].
      replace (S (qe - 2)) with (qe - 1) in Ec' by lia.
      rewrite Ec in Ec'. injection Ec' as <-.
      rewrite Ea in Ea'. injection Ea' as <-.
      unfold pair_mem in Hm'. apply existsb_exists in Hm' as [q' [Hq1' Hq2']].
      apply andb_true_iff in Hq2' as [Hqa' Hqc'].
      rewrite forallb_forall in Hdouble. specialize (Hdouble q' Hq1').
      apply orb_true_iff in Hdouble as [D|D].
      * exact (cls_disjoint_spec a _ _ D Hqa Hqa').
      * exact (cls_disjoint_spec c _ _ D (cls_inter_mem c _ _ Hqc Hqc') Hc).
Qed.

End MatcherFacts.

(** ** Continuations and prefixes *)

Lemma star_loop_ext {A : Type} (body : nat -> (nat -> option A) -> option A)
    (k1 k2 : nat -> option A) :
  (forall i c1 c2, (forall j, c1 j = c2 j) -> body i c1 = body i c2) ->
  (forall j, k1 j = k2 j) ->
  forall fuel i, star_loop body k1 fuel i = star_loop body k2 fuel i.
Proof.
  intros Hbody H. induction fuel as [|fuel IHf]; intros i; simpl; [apply H|].
  rewrite (Hbody i _ (fun j => if i <? j then star_loop body k2 fuel j else None)).
  - now rewrite H.
  - intros j. destruct (i <? j); [apply IHf | reflexivity].
Qed.

Lemma rmatch_ext {A : Type} (input : str) (r : regex) :
  forall (i : nat) (k1 k2 : nat -> option A),
    (forall j, k1 j = k2 j) -> rmatch input r i k1 = rmatch input r i k2.
Proof.
  induction r as [|c|r1 IH1 r2 IH2|r1 IH1 r2 IH2|r1 IH1| | |]; intros i k1 k2 H;
    cbn [rmatch].
  - apply H.
  - destruct (nth_error input i) as [x|]; [|reflexivity].
    destruct (cls_mem x c); [apply H | reflexivity].
  - apply IH1. intros j. now apply IH2.
  - rewrite (IH1 i k1 k2 H), (IH2 i k1 k2 H). reflexivity.
  - apply star_loop_ext; [exact IH1 | exact H].
  - destruct (at_word_boundary input i); [apply H | reflexivity].
  - destruct (i =? 0); [apply H | reflexivity].
  - destruct (i =? length input); [apply H | reflexivity].
Qed.

(** A pattern that does not look behind runs on the rest of the input as
    it runs on the input. *)
Lemma rmatch_shift {A : Type} (pre suf : str) (r : regex) :
  forward_only r = true ->
  forall (i : nat) (k : nat -> option A),
    rmatch (pre ++ suf) r (length pre + i) k =
    rmatch suf r i (fun j => k (length pre + j)).
Proof.
  induction r as [|c|r1 IH1 r2 IH2|r1 IH1 r2 IH2|r1 IH1| | |]; intros F i k;
    cbn [rmatch]; simpl in F; try discriminate.
  - reflexivity.
  - rewrite nth_error_app2 by lia.
    replace (length pre + i - length pre) with i by lia.
    destruct (nth_error suf i) as [x|]; [|reflexivity].
    destruct (cls_mem x c); [|reflexivity].
    now replace (S (length pre + i)) with (length pre + S i) by lia.
  - apply andb_true_iff in F as [F1 F2].
    rewrite (IH1 F1). apply rmatch_ext. intros j. apply (IH2 F2).
  - apply andb_true_iff in F as [F1 F2].
    rewrite (IH1 F1), (IH2 F2). reflexivity.
  - rewrite length_app.
    replace (length pre + length suf - (length pre + i)) with (length suf - i) by lia.
    generalize (length suf - i) as fuel. intros fuel. revert i.
    induction fuel as [|fuel IHf]; intros i; simpl; [reflexivity|].
    rewrite (IH1 F).
    rewrite (rmatch_ext suf r1 i _
               (fun j => if i <? j
                         then star_loop (rmatch suf r1) (fun j0 => k (length pre + j0)) fuel j
                         else None)); [reflexivity|].
    intros j.
    destruct (Nat.ltb_spec (length pre + i) (length pre + j)) as [L|L];
      destruct (Nat.ltb_spec i j) as [M|M]; try lia; [apply IHf | reflexivity].
  - rewrite length_app.
    destruct (Nat.eqb_spec (length pre + i) (length pre + length suf)) as [L|L];
      destruct (Nat.eqb_spec i (length suf)) as [M|M]; try lia; reflexivity.
Qed.

(** The end of the match goes through a function applied to the result. *)
Lemma rmatch_map {A B : Type} (g : A -> B) (input : str) (r : regex) :
  forall (i : nat) (k : nat -> option A),
    rmatch input r i (fun j => option_map g (k j)) = option_map g (rmatch input r i k).
Proof.
  induction r as [|c|r1 IH1 r2 IH2|r1 IH1 r2 IH2|r1 IH1| | |]; intros i k; cbn [rmatch].
  - reflexivity.
  - destruct (nth_error input i) as [x|]; [|reflexivity].
    destruct (cls_mem x c); reflexivity.
  - rewrite <- IH1. apply rmatch_ext. intros j. apply IH2.
  - rewrite IH1, IH2. destruct (rmatch input r1 i k); reflexivity.
  - generalize (length input - i) as fuel. intros fuel. revert i.
    induction fuel as [|fuel IHf]; intros i; simpl; [reflexivity|].
    rewrite (rmatch_ext input r1 i _
               (fun j => option_map g
                           (if i <? j then star_loop (rmatch input r1) k fuel j else None))).
    + rewrite IH1. destruct (rmatch input r1 i _); reflexivity.
    + intros j. destruct (i <? j); [apply IHf | reflexivity].
  - destruct (at_word_boundary input i); reflexivity.
  - destruct (i =? 0); reflexivity.
  - destruct (i =? length input); reflexivity.
Qed.

Lemma match_at_shift (pre suf : str) (r : regex) (i : nat) :
  forward_only r = true ->
  match_at (pre ++ suf) r (length pre + i) =
  option_map (Nat.add (length pre)) (match_at suf r i).
Proof.
  intros F. unfold match_at. rewrite (rmatch_shift pre suf r F).
  apply (rmatch_map (Nat.add (length pre)) suf r i (@Some nat)).
Qed.

(* ================================================================== *)
(** * [JSON.parse]: where an array begins and ends *)
(* ================================================================== *)

Lemma left_of_refl (s : str) : left_of s s.
Proof. now exists []. Qed.

Lemma left_of_trans (s t u : str) : left_of s t -> left_of t u -> left_of s u.
Proof. intros [p ->] [q ->]. exists (p ++ q). now rewrite app_assoc. Qed.

Lemma left_of_cons (c : char) (s : str) : left_of (c :: s) s.
Proof. now exists [c]. Qed.

Lemma left_after_of (c : char) (s t u : str) :
  left_of s t -> left_after c t u -> left_after c s u.
Proof. intros [p ->] [q ->]. exists (p ++ q). now rewrite app_assoc. Qed.

Lemma left_after_here (c : char) (s : str) : left_after c (c :: s) s.
Proof. now exists []. Qed.

Lemma left_after_is_left (c : char) (s t : str) : left_after c s t -> left_of s t.
Proof. intros [p ->]. exists (p ++ [c]). now rewrite <- app_assoc. Qed.

Lemma skip_ws_left (s : str) : left_of s (Json.skip_ws s).
Proof.
  induction s as [|c s IH]; simpl; [apply left_of_refl|].
  destruct (Json.is_ws c); [|apply left_of_refl].
  eapply left_of_trans; [apply left_of_cons | exact IH].
Qed.

Lemma skip_ws_all (s : str) : Json.skip_ws s = [] -> forallb Json.is_ws s = true.
Proof.
  induction s as [|c s IH]; simpl; [reflexivity|].
  destruct (Json.is_ws c); simpl; [exact IH | discriminate].
Qed.

Lemma json_ws_is_space (c : char) : Json.is_ws c = true -> is_space c = true.
Proof.
  unfold Json.is_ws. intros H.
  repeat (apply orb_true_iff in H as [H|H]); apply N.eqb_eq in H; subst; reflexivity.
Qed.

Lemma read_string_left (n : nat) :
  forall s t r, length s <= n -> Json.read_string s = Some (t, r) -> left_of s r.
Proof.
  induction n as [|n IH]; intros s t r Hn H.
  - destruct s; [discriminate | simpl in Hn; lia].
  - destruct s as [|c rest]; [discriminate|]. simpl in Hn.
    cbn [Json.read_string] in H.
    destruct (N.eqb c 34).
    { injection H as <- <-. apply left_of_cons. }
    destruct (N.ltb c 32); [discriminate|].
    destruct (N.eqb c 92).
    + destruct rest as [|e rest']; [discriminate|]. simpl in Hn.
      assert (Step : forall x, match Json.read_string rest' with
                               | Some (t0, r0) => Some (x :: t0, r0)
                               | None => None
                               end = Some (t, r) -> left_of (c :: e :: rest') r).
      { intros x Hx. destruct (Json.read_string rest') as [[t0 r0]|] eqn:E; [|discriminate].
        injection Hx as <- <-.
        eapply left_of_trans; [apply left_of_cons|].
        eapply left_of_trans; [apply left_of_cons|].
        apply (IH rest' t0 r0); [lia | assumption]. }
      repeat match type of H with
             | (if ?b then _ else _) = _ => destruct b; [now apply (Step _ H)|]
             end.
      destruct (N.eqb e 117); [|discriminate].
      destruct rest' as [|h1 [|h2 [|h3 [|h4 rest'']]]]; try discriminate.
      destruct (Json.hex_value h1); [|discriminate].
      destruct (Json.hex_value h2); [|discriminate].
      destruct (Json.hex_value h3); [|discriminate].
      destruct (Json.hex_value h4); [|discriminate].
      destruct (Json.read_string rest'') as [[t0 r0]|] eqn:E; [|discriminate].
      injection H as <- <-. simpl in Hn.
      do 6 (eapply left_of_trans; [apply left_of_cons|]).
      apply (IH rest'' t0 r0); [lia | assumption].
    + destruct (Json.read_string rest) as [[t0 r0]|] eqn:E; [|discriminate].
      injection H as <- <-.
      eapply left_of_trans; [apply left_of_cons|].
      apply (IH rest t0 r0); [lia | assumption].
Qed.

Lemma read_digits_left (s : str) :
  forall v n v' n' r, Json.read_digits s v n = (v', n', r) -> left_of s r.
Proof.
  induction s as [|c s IH]; intros v n v' n' r H; simpl in H.
  - injection H as <- <- <-. apply left_of_refl.
  - destruct (Json.is_digit c).
    + eapply left_of_trans; [apply left_of_cons | exact (IH _ _ _ _ _ H)].
    + injection H as <- <- <-. apply left_of_refl.
Qed.

Lemma read_int_left (s : str) (v : Z) (r : str) :
  Json.read_int s = Some (v, r) -> left_of s r.
Proof.
  unfold Json.read_int. destruct s as [|c rest]; [discriminate|].
  destruct (N.eqb c 48).
  - intros H. injection H as <- <-. apply left_of_cons.
  - destruct (Json.is_digit c); [|discriminate].
    destruct (Json.read_digits (c :: rest) 0 0) as [[v' n'] r'] eqn:E.
    intros H. injection H as <- <-. exact (read_digits_left _ _ _ _ _ _ E).
Qed.

Lemma read_frac_left (s : str) (v : Z) (n : nat) (r : str) :
  Json.read_frac s = Some (v, n, r) -> left_of s r.
Proof.
  unfold Json.read_frac. destruct s as [|c rest].
  - intros H. injection H as <- <- <-. apply left_of_refl.
  - destruct (N.eqb c 46).
    + destruct (Json.read_digits rest 0 0) as [[v' n'] r'] eqn:E.
      destruct n'; [discriminate|]. intros H. injection H as <- <- <-.
      eapply left_of_trans; [apply left_of_cons | exact (read_digits_left _ _ _ _ _ _ E)].
    + intros H. injection H as <- <- <-. apply left_of_refl.
Qed.

Lemma read_exp_left (s : str) (v : Z) (r : str) :
  Json.read_exp s = Some (v, r) -> left_of s r.
Proof.
  unfold Json.read_exp. destruct s as [|c rest].
  - intros H. injection H as <- <-. apply left_of_refl.
  - destruct (N.eqb c 101 || N.eqb c 69).
    + assert (L : left_of rest
                (snd (match rest with
                      | d :: r' =>
                          if N.eqb d 45 then (true, r')
                          else if N.eqb d 43 then (false, r') else (false, rest)
                      | [] => (false, rest)
                      end))).
      { destruct rest as [|d r']; [apply left_of_refl|].
        destruct (N.eqb d 45); [apply left_of_cons|].
        destruct (N.eqb d 43); [apply left_of_cons | apply left_of_refl]. }
      destruct (match rest with
                | d :: r' =>
                    if N.eqb d 45 then (true, r')
                    else if N.eqb d 43 then (false, r') else (false, rest)
                | [] => (false, rest)
                end) as [neg rest'].
      simpl in L.
      destruct (Json.read_digits rest' 0 0) as [[v' n'] r'] eqn:E.
      destruct n'; [discriminate|]. intros H. injection H as <- <-.
      eapply left_of_trans; [apply left_of_cons|].
      eapply left_of_trans; [exact L | exact (read_digits_left _ _ _ _ _ _ E)].
    + intros H. injection H as <- <-. apply left_of_refl.
Qed.

Lemma read_number_left (s : str) (v : number) (r : str) :
  Json.read_number s = Some (v, r) -> left_of s r.
Proof.
  unfold Json.read_number.
  assert (L : left_of s
              (snd (match s with
                    | c :: rest => if N.eqb c 45 then (true, rest) else (false, s)
                    | [] => (false, s)
                    end))).
  { destruct s as [|c rest]; [apply left_of_refl|].
    destruct (N.eqb c 45); [apply left_of_cons | apply left_of_refl]. }
  destruct (match s with
            | c :: rest => if N.eqb c 45 then (true, rest) else (false, s)
            | [] => (false, s)
            end) as [neg s1].
  simpl in L.
  destruct (Json.read_int s1) as [[int s2]|] eqn:E1; [|discriminate].
  destruct (Json.read_frac s2) as [[[frac n] s3]|] eqn:E2; [|discriminate].
  destruct (Json.read_exp s3) as [[e s4]|] eqn:E3; [|discriminate].
  intros H. injection H as <- <-.
  eapply left_of_trans; [exact L|].
  eapply left_of_trans; [exact (read_int_left _ _ _ E1)|].
  eapply left_of_trans; [exact (read_frac_left _ _ _ _ E2)|].
  exact (read_exp_left _ _ _ E3).
Qed.

Lemma strip_prefix_left (l s r : str) : Json.strip_prefix l s = Some r -> left_of s r.
Proof.
  revert s; induction l as [|a l IH]; intros s H; simpl in H.
  - injection H as <-. apply left_of_refl.
  - destruct s as [|b s']; [discriminate|].
    destruct (char_eqb a b); [|discriminate].
    eapply left_of_trans; [apply left_of_cons | exact (IH _ H)].
Qed.

(** What the three readers leave: a rest of the input, and for an array
    the rest after its closing bracket. *)
Lemma readers_left (fuel : nat) :
  (forall s v r, Json.read_value fuel s = Some (v, r) ->
     left_of s r /\ (forall items, v = JArray items -> left_after close_bracket s r)) /\
  (forall s vs r, Json.read_elements fuel s = Some (vs, r) ->
     left_after close_bracket s r) /\
  (forall s ms r, Json.read_members fuel s = Some (ms, r) -> left_of s r).
Proof.
  induction fuel as [|fuel [IHv [IHe IHm]]].
  - repeat split; intros; discriminate.
  - split; [|split].
    + intros s v r H. cbn [Json.read_value] in H.
      pose proof (skip_ws_left s) as Ls.
      destruct (Json.skip_ws s) as [|c rest]; [discriminate|].
      destruct (N.eqb c 91) eqn:E91.
      { pose proof (skip_ws_left rest) as Lr.
        destruct (Json.skip_ws rest) as [|d rest']; [discriminate|].
        destruct (N.eqb d 93) eqn:E93.
        - injection H as <- <-. apply N.eqb_eq in E93. subst d.
          assert (A : left_after close_bracket s rest').
          { eapply left_after_of; [exact Ls|].
            eapply left_after_of; [apply left_of_cons|].
            eapply left_after_of; [exact Lr|]. apply left_after_here. }
          split; [exact (left_after_is_left _ _ _ A) | intros _ _; exact A].
        - destruct (Json.read_elements fuel rest) as [[items r']|] eqn:Ee; [|discriminate].
          injection H as <- <-.
          assert (A : left_after close_bracket s r').
          { eapply left_after_of; [exact Ls|].
            eapply left_after_of; [apply left_of_cons|]. exact (IHe _ _ _ Ee). }
          split; [exact (left_after_is_left _ _ _ A) | intros _ _; exact A]. }
      destruct (N.eqb c 123).
      { pose proof (skip_ws_left rest) as Lr.
        destruct (Json.skip_ws rest) as [|d rest']; [discriminate|].
        destruct (N.eqb d 125).
        - injection H as <- <-. split; [|discriminate].
          eapply left_of_trans; [exact Ls|].
          eapply left_of_trans; [apply left_of_cons|].
          eapply left_of_trans; [exact Lr | apply left_of_cons].
        - destruct (Json.read_members fuel rest) as [[ms r']|] eqn:Em; [|discriminate].
          injection H as <- <-. split; [|discriminate].
          eapply left_of_trans; [exact Ls|].
          eapply left_of_trans; [apply left_of_cons | exact (IHm _ _ _ Em)]. }
      destruct (N.eqb c 34).
      { destruct (Json.read_string rest) as [[t r']|] eqn:Es; [|discriminate].
        injection H as <- <-. split; [|discriminate].
        eapply left_of_trans; [exact Ls|].
        eapply left_of_trans; [apply left_of_cons|].
        exact (read_string_left (length rest) rest t r' (le_n _) Es). }
      assert (Lit : forall (b : json) (l : str),
                option_map (pair b) (Json.strip_prefix l rest) = Some (v, r) ->
                (forall items, b <> JArray items) ->
                left_of s r /\ (forall items, v = JArray items -> left_after close_bracket s r)).
      { intros b l Hl Hb.
        destruct (Json.strip_prefix l rest) as [r'|] eqn:Ep; [|discriminate].
        injection Hl as <- <-. split.
        - eapply left_of_trans; [exact Ls|].
          eapply left_of_trans; [apply left_of_cons | exact (strip_prefix_left _ _ _ Ep)].
        - intros items E. exfalso. exact (Hb items E). }
      destruct (N.eqb c 116); [apply (Lit _ _ H); discriminate|].
      destruct (N.eqb c 102); [apply (Lit _ _ H); discriminate|].
      destruct (N.eqb c 110); [apply (Lit _ _ H); discriminate|].
      destruct (Json.read_number (c :: rest)) as [[n r']|] eqn:En; [|discriminate].
      injection H as <- <-. split; [|discriminate].
      eapply left_of_trans; [exact Ls | exact (read_number_left _ _ _ En)].
    + intros s vs r H. cbn [Json.read_elements] in H.
      destruct (Json.read_value fuel s) as [[v r1]|] eqn:Ev; [|discriminate].
      destruct (IHv _ _ _ Ev) as [Lv _].
      pose proof (skip_ws_left r1) as L1.
      destruct (Json.skip_ws r1) as [|c r2]; [discriminate|].
      destruct (N.eqb c 44).
      * destruct (Json.read_elements fuel r2) as [[vs' r3]|] eqn:Ee; [|discriminate].
        injection H as <- <-.
        eapply left_after_of; [exact Lv|].
        eapply left_after_of; [exact L1|].
        eapply left_after_of; [apply left_of_cons | exact (IHe _ _ _ Ee)].
      * destruct (N.eqb c 93) eqn:E93; [|discriminate].
        injection H as <- <-. apply N.eqb_eq in E93. subst c.
        eapply left_after_of; [exact Lv|].
        eapply left_after_of; [exact L1 | apply left_after_here].
    + intros s ms r H. cbn [Json.read_members] in H.
      pose proof (skip_ws_left s) as Ls.
      destruct (Json.skip_ws s) as [|q r0]; [discriminate|].
      destruct (N.eqb q 34); [|discriminate].
      destruct (Json.read_string r0) as [[key r1]|] eqn:Es; [|discriminate].
      pose proof (read_string_left (length r0) r0 key r1 (le_n _) Es) as Lk.
      pose proof (skip_ws_left r1) as L1.
      destruct (Json.skip_ws r1) as [|colon r2]; [discriminate|].
      destruct (N.eqb colon 58); [|discriminate].
      destruct (Json.read_value fuel r2) as [[v r3]|] eqn:Ev; [|discriminate].
      destruct (IHv _ _ _ Ev) as [Lv _].
      pose proof (skip_ws_left r3) as L3.
      destruct (Json.skip_ws r3) as [|c r4]; [discriminate|].
      assert (L4 : left_of s r4).
      { eapply left_of_trans; [exact Ls|].
        eapply left_of_trans; [apply left_of_cons|].
        eapply left_of_trans; [exact Lk|].
        eapply left_of_trans; [exact L1|].
        eapply left_of_trans; [apply left_of_cons|].
        eapply left_of_trans; [exact Lv|].
        eapply left_of_trans; [exact L3 | apply left_of_cons]. }
      destruct (N.eqb c 44).
      * destruct (Json.read_members fuel r4) as [[ms' r5]|] eqn:Em; [|discriminate].
        injection H as <- <-.
        eapply left_of_trans; [exact L4 | exact (IHm _ _ _ Em)].
      * destruct (N.eqb c 125); [|discriminate].
        injection H as <- <-. exact L4.
Qed.

(** A text that [JSON.parse] reads as an array begins, after white space,
    with an opening bracket, and ends, before white space, with a closing
    bracket. *)
Lemma parse_array_first (s : str) (items : list json) :
  parse_array s = Some items -> exists s', Json.skip_ws s = open_bracket :: s'.
Proof.
  unfold parse_array, Json.parse.
  replace (2 * length s + 2) with (S (2 * length s + 1)) by lia.
  cbn [Json.read_value].
  destruct (Json.skip_ws s) as [|c rest]; [discriminate|].
  destruct (N.eqb c 91) eqn:E91.
  - apply N.eqb_eq in E91. subst c. intros _. now exists rest.
  - intros H. exfalso.
    destruct (N.eqb c 123).
    { destruct (Json.skip_ws rest) as [|d rest']; [discriminate|].
      destruct (N.eqb d 125).
      - destruct (Json.skip_ws rest'); discriminate.
      - destruct (Json.read_members _ rest) as [[ms r']|]; [|discriminate].
        destruct (Json.skip_ws r'); discriminate. }
    destruct (N.eqb c 34).
    { destruct (Json.read_string rest) as [[t r']|]; [|discriminate].
      destruct (Json.skip_ws r'); discriminate. }
    destruct (N.eqb c 116).
    { destruct (Json.strip_prefix _ rest) as [r'|]; [|discriminate].
      simpl in H. destruct (Json.skip_ws r'); discriminate. }
    destruct (N.eqb c 102).
    { destruct (Json.strip_prefix _ rest) as [r'|]; [|discriminate].
      simpl in H. destruct (Json.skip_ws r'); discriminate. }
    destruct (N.eqb c 110).
    { destruct (Json.strip_prefix _ rest) as [r'|]; [|discriminate].
      simpl in H. destruct (Json.skip_ws r'); discriminate. }
    destruct (Json.read_number (c :: rest)) as [[n r']|]; [|discriminate].
    destruct (Json.skip_ws r'); discriminate.
Qed.

Lemma parse_array_last (s : str) (items : list json) :
  parse_array s = Some items ->
  exists pre rest, s = pre ++ close_bracket :: rest /\ forallb Json.is_ws rest = true.
Proof.
  unfold parse_array, Json.parse.
  destruct (Json.read_value _ s) as [[v rest]|] eqn:E; [|discriminate].
  destruct (Json.skip_ws rest) eqn:W; [|discriminate].
  destruct v; try discriminate. intros _.
  destruct (readers_left (2 * length s + 2)) as [Hv _].
  destruct (Hv _ _ _ E) as [_ Ha].
  destruct (Ha _ eq_refl) as [pre ->].
  exists pre, rest. split; [reflexivity | now apply skip_ws_all].
Qed.

(* ================================================================== *)
(** * [extractCitations]: the spans *)
(* ================================================================== *)

Lemma build_contexts_ids (text : str) (contextSize id : nat) (l : list PatternMatch) :
  map ctx_id (build_contexts text contextSize id l) = seq id (length l).
Proof.
  revert id; induction l as [|m l IH]; intros id; simpl; [reflexivity|].
  now rewrite IH.
Qed.

Lemma build_contexts_length (text : str) (contextSize id : nat) (l : list PatternMatch) :
  length (build_contexts text contextSize id l) = length l.
Proof.
  rewrite <- (length_map ctx_id), build_contexts_ids. apply length_seq.
Qed.

Lemma extractCitations_ids (text : str) (contextSize : nat) :
  map ctx_id (extractCitations text contextSize) =
  seq 0 (length (extractCitations text contextSize)).
Proof.
  unfold extractCitations. now rewrite build_contexts_ids, build_contexts_length.
Qed.

Section Spans.

Variable text : str.

(** ** The matching loops *)

Lemma exec_loop_sound (r : regex) (fuel lastIndex : nat) (l : list PatternMatch) :
  nullable r = false ->
  exec_loop text r fuel lastIndex = Some l ->
  Forall (match_of text r) l /\ in_order lastIndex l /\
  Forall (fun m => pm_end m <= length text) l.
Proof.
  intros Hnull. revert lastIndex l.
  induction fuel as [|fuel IH]; intros lastIndex l H; simpl in H; [discriminate|].
  destruct (exec text r lastIndex) as [[s e]|] eqn:E.
  - destruct (exec_loop text r fuel e) as [l'|] eqn:E'; [|discriminate].
    injection H as <-.
    apply exec_sound in E as [M B].
    pose proof (matches_nonempty _ _ _ _ M Hnull) as Hlt.
    pose proof (matches_bounds _ _ _ _ M) as [_ Hb].
    destruct (IH _ _ E') as [F [O L]].
    repeat split.
    + constructor; [|assumption]. split; [assumption | reflexivity].
    + simpl. lia.
    + assumption.
    + assumption.
    + constructor; [simpl; lia | assumption].
  - injection H as <-. repeat split; constructor.
Qed.

(** The loop ends: a match is not empty, so [lastIndex] grows with every
    turn and [length text + 1 - lastIndex] turns are enough. *)
Lemma exec_loop_total (r : regex) (fuel lastIndex : nat) :
  nullable r = false ->
  1 <= fuel ->
  length text < lastIndex + fuel ->
  exists l, exec_loop text r fuel lastIndex = Some l.
Proof.
  intros Hnull. revert lastIndex.
  induction fuel as [|fuel IH]; intros lastIndex Hpos Hfuel; simpl; [lia|].
  destruct (exec text r lastIndex) as [[s e]|] eqn:E.
  - apply exec_sound in E as [M B].
    pose proof (matches_nonempty _ _ _ _ M Hnull) as Hlt.
    pose proof (matches_bounds _ _ _ _ M) as [_ Hb].
    destruct (IH e ltac:(lia) ltac:(lia)) as [l' ->]. eexists. reflexivity.
  - eexists. reflexivity.
Qed.

Lemma all_matches_sound (r : regex) :
  nullable r = false ->
  Forall (match_of text r) (all_matches text r) /\
  in_order 0 (all_matches text r) /\
  Forall (fun m => pm_end m <= length text) (all_matches text r).
Proof.
  intros Hnull. unfold all_matches.
  destruct (exec_loop text r (S (length text)) 0) as [l|] eqn:E.
  - exact (exec_loop_sound r _ _ l Hnull E).
  - repeat split; constructor.
Qed.

Lemma all_matches_total (r : regex) :
  nullable r = false ->
  exec_loop text r (S (length text)) 0 = Some (all_matches text r).
Proof.
  intros Hnull. unfold all_matches.
  destruct (exec_loop_total r (S (length text)) 0 Hnull ltac:(lia) ltac:(lia)) as [l ->].
  reflexivity.
Qed.

Lemma in_order_nonempty (lo : nat) (l : list PatternMatch) :
  in_order lo l -> Forall (fun m => lo <= pm_start m /\ pm_start m < pm_end m) l.
Proof.
  revert lo; induction l as [|m l IH]; intros lo H; constructor.
  - simpl in H. lia.
  - destruct H as [H1 [H2 H3]]. specialize (IH _ H3).
    eapply Forall_impl; [|exact IH]. simpl. intros; lia.
Qed.

(** Every match collected from the four patterns. *)
Lemma allMatches_spans (m : PatternMatch) :
  In m (flat_map (all_matches text) patterns) -> merged_span text m.
Proof.
  intros H. apply in_flat_map in H as [r [Hr Hm]].
  assert (Hnull : nullable r = false).
  { destruct Hr as [<-|[<-|[<-|[<-|[]]]]]; reflexivity. }
  destruct (all_matches_sound r Hnull) as [F [O L]].
  rewrite Forall_forall in F, L.
  destruct (F m Hm) as [M T].
  pose proof (in_order_nonempty _ _ O) as NE. rewrite Forall_forall in NE.
  repeat split.
  - apply (NE m Hm).
  - apply (L m Hm).
  - assumption.
  - exists r, (pm_start m). now split.
Qed.

(** ** Merging *)

Lemma merged_from_snoc (lo : nat) (l : list PatternMatch) (x : PatternMatch) :
  merged_from text lo (l ++ [x]) <->
  merged_from text lo l /\ merged_span text x /\ next_lo lo l <= pm_start x.
Proof.
  revert lo; induction l as [|m l IH]; intros lo; simpl.
  - tauto.
  - rewrite IH. tauto.
Qed.

Lemma next_lo_snoc (lo : nat) (l : list PatternMatch) (x : PatternMatch) :
  next_lo lo (l ++ [x]) = S (pm_end x).
Proof.
  revert lo; induction l as [|m l IH]; intros lo; simpl; [reflexivity | apply IH].
Qed.

Lemma merge_step_ok (merged : list PatternMatch) (m : PatternMatch) :
  merged_span text m ->
  merged_from text 0 (rev merged) ->
  merged_from text 0 (rev (merge_step text merged m)).
Proof.
  intros Hm Hacc. unfold merge_step.
  destruct merged as [|last earlier];
    [simpl; split; [lia | split; [assumption | exact I]]|].
  simpl in Hacc. apply merged_from_snoc in Hacc as [He [Hl Hlo]].
  destruct (Nat.leb_spec (pm_start m) (pm_end last)) as [A|A].
  - destruct (Nat.ltb_spec (pm_end last) (pm_end m)) as [B|B].
    + simpl. apply merged_from_snoc. split; [assumption|]. split; [|exact Hlo].
      destruct Hl as [L1 [L2 [L3 L4]]]. destruct Hm as [M1 [M2 [M3 M4]]].
      repeat split; simpl; try lia. assumption.
    + simpl. apply merged_from_snoc. split; [assumption | split; assumption].
  - simpl. apply merged_from_snoc. split.
    + apply merged_from_snoc. split; [assumption | split; assumption].
    + split; [assumption|]. rewrite next_lo_snoc. lia.
Qed.

Lemma merge_matches_ok (sorted : list PatternMatch) :
  (forall m, In m sorted -> merged_span text m) ->
  merged_from text 0 (merge_matches text sorted).
Proof.
  unfold merge_matches.
  assert (G : forall acc, merged_from text 0 (rev acc) ->
                (forall m, In m sorted -> merged_span text m) ->
                merged_from text 0 (rev (fold_left (merge_step text) sorted acc))).
  { induction sorted as [|m sorted IH]; intros acc Hacc Hall; simpl; [assumption|].
    apply IH.
    - apply merge_step_ok; [apply Hall; now left | assumption].
    - intros m' Hm'. apply Hall. now right. }
  intros Hall. apply G; [exact I | assumption].
Qed.

(** ** Signal fusion *)

Lemma fuse_signals_skip (signals : list PatternMatch) (c : PatternMatch) :
  Forall (fun sg => pm_start c < pm_end sg) signals ->
  fuse_signals text signals c = c.
Proof.
  unfold fuse_signals. induction signals as [|sg signals IH]; intros H; simpl;
    [reflexivity|].
  inversion H as [|? ? Hsg Hrest]; subst.
  assert (E : fuse_signal text c sg = c).
  { unfold fuse_signal.
    destruct (Nat.eqb_spec (pm_end sg) (pm_start c)); [lia|].
    destruct (Nat.eqb_spec (S (pm_end sg)) (pm_start c)); [lia|].
    reflexivity. }
  rewrite E. now apply IH.
Qed.

(** The signals are met in the order of the text, so at most one of them
    is fused: the first that ends at the start of the citation or one
    position before it. *)
Lemma fuse_signals_result (lo : nat) (signals : list PatternMatch) (c : PatternMatch) :
  in_order lo signals ->
  fuse_signals text signals c = c \/
  exists sg, In sg signals /\
    (pm_end sg = pm_start c \/ S (pm_end sg) = pm_start c) /\
    fuse_signals text signals c =
      {| pm_text := slice text (pm_start sg) (pm_end c);
         pm_start := pm_start sg;
         pm_end := pm_end c |}.
Proof.
  revert lo; induction signals as [|sg signals IH]; intros lo H; [now left|].
  destruct H as [H1 [H2 H3]].
  change (fuse_signals text (sg :: signals) c)
    with (fuse_signals text signals (fuse_signal text c sg)).
  unfold fuse_signal.
  destruct ((pm_end sg =? pm_start c) || (S (pm_end sg) =? pm_start c)) eqn:E.
  - right. exists sg. split; [now left|]. split.
    + apply orb_true_iff in E as [E|E]; apply Nat.eqb_eq in E; tauto.
    + apply fuse_signals_skip. simpl.
      eapply Forall_impl; [|exact (in_order_nonempty _ _ H3)].
      simpl. intros; lia.
  - destruct (IH _ H3) as [Hsame | [sg' [Hin [Hcond Hres]]]].
    + now left.
    + right. exists sg'. split; [now right | now split].
Qed.

Lemma signal_after_citation (e : nat) (sg : PatternMatch) :
  citation_end text e -> match_of text SIGNAL_RE sg -> e <= pm_end sg ->
  e <= pm_start sg.
Proof.
  intros [r [s [Hr Mr]]] [Ms _] Hle.
  destruct (Nat.le_gt_cases e (pm_start sg)) as [G|G]; [assumption|].
  exfalso.
  assert (N : never_ends_within r SIGNAL_RE = true).
  { destruct Hr as [<-|[<-|[<-|[<-|[]]]]]; vm_compute; reflexivity. }
  exact (never_ends_within_sound text r SIGNAL_RE s e _ _ N Mr Ms G Hle).
Qed.

Lemma fuse_signals_ok (lo : nat) (c : PatternMatch) :
  boundary text lo -> lo <= pm_start c -> merged_span text c ->
  let c' := fuse_signals text (all_matches text SIGNAL_RE) c in
  lo - 1 <= pm_start c' /\ pm_start c' <= pm_start c /\ pm_end c' = pm_end c /\
  pm_text c' = slice text (pm_start c') (pm_end c').
Proof.
  intros Hb Hlo [C1 [C2 [C3 C4]]] c'. subst c'.
  destruct (all_matches_sound SIGNAL_RE eq_refl) as [F [O L]].
  destruct (fuse_signals_result 0 _ c O) as [-> | [sg [Hin [Hcond ->]]]].
  - repeat split; try lia. assumption.
  - simpl. rewrite Forall_forall in F. pose proof (F sg Hin) as Hsg.
    pose proof (in_order_nonempty _ _ O) as NE. rewrite Forall_forall in NE.
    pose proof (NE sg Hin) as [_ Hne].
    repeat split; try lia.
    destruct Hb as [-> | [e [-> He]]]; [lia|].
    pose proof (signal_after_citation e sg He Hsg ltac:(lia)). lia.
Qed.

Lemma fused_laid_out (lo : nat) (merged : list PatternMatch) :
  boundary text lo -> merged_from text lo merged ->
  laid_out text (lo - 1) (map (fuse_signals text (all_matches text SIGNAL_RE)) merged).
Proof.
  revert lo; induction merged as [|c merged IH]; intros lo Hb H; simpl; [exact I|].
  destruct H as [Hlo [Hc Hrest]].
  destruct (fuse_signals_ok lo c Hb Hlo Hc) as [F1 [F2 [F3 F4]]].
  destruct Hc as [C1 [C2 [C3 C4]]].
  repeat split; try lia; try assumption.
  rewrite F3.
  replace (pm_end c) with (S (pm_end c) - 1) at 1 by lia.
  apply IH; [|assumption].
  right. exists (pm_end c). now split.
Qed.

(** The spans of the text are laid out from left to right. *)
Lemma citation_spans_laid_out : laid_out text 0 (citation_spans text).
Proof.
  unfold citation_spans.
  apply (fused_laid_out 0); [now left|].
  apply merge_matches_ok. intros m Hm.
  apply allMatches_spans.
  eapply Permutation_in; [|exact Hm].
  apply Permutation_sym, sort_by_perm.
Qed.

Lemma build_contexts_laid_out (contextSize id lo : nat) (l : list PatternMatch) :
  laid_out text lo l ->
  spans_laid_out text lo (build_contexts text contextSize id l).
Proof.
  revert id lo; induction l as [|m l IH]; intros id lo H; simpl; [exact I|].
  destruct H as [H1 [H2 [H3 [H4 H5]]]].
  split; [assumption|]. split.
  - unfold span_ok. simpl. now repeat split.
  - simpl. now apply IH.
Qed.

Lemma extractCitations_laid_out (contextSize : nat) :
  spans_laid_out text 0 (extractCitations text contextSize).
Proof. apply build_contexts_laid_out, citation_spans_laid_out. Qed.

End Spans.

(* ================================================================== *)
(** * [extractCitations]: the context windows *)
(* ================================================================== *)

Lemma nth_error_skipn {A : Type} (s : list A) (i : nat) (x : A) :
  nth_error s i = Some x -> skipn i s = x :: skipn (S i) s.
Proof.
  revert i; induction s as [|y s IH]; intros [|i] H; simpl in *; try discriminate.
  - now injection H as ->.
  - now apply IH.
Qed.

Lemma nth_error_None_skipn {A : Type} (s : list A) (i : nat) :
  nth_error s i = None -> skipn i s = [].
Proof. intros H. apply skipn_all2. now apply nth_error_None. Qed.

Section Searches.

Variable s : str.

Lemma match_at_ws (i : nat) :
  match_at s ws i =
  match nth_error s i with
  | Some x => if is_space x then Some (S i) else None
  | None => None
  end.
Proof. reflexivity. Qed.

Lemma search_from_ws (fuel i : nat) :
  i + fuel = length s ->
  search_from s ws fuel i =
  option_map (fun k => (i + k, S (i + k))) (first_space (skipn i s)).
Proof.
  revert i; induction fuel as [|fuel IH]; intros i H; simpl; rewrite match_at_ws.
  - rewrite (proj2 (nth_error_None s i)) by lia.
    now rewrite skipn_all2 by lia.
  - destruct (nth_error s i) as [x|] eqn:E.
    + rewrite (nth_error_skipn s i x E).
      change (first_space (x :: skipn (S i) s))
        with (if is_space x then Some 0 else option_map S (first_space (skipn (S i) s))).
      destruct (is_space x).
      * cbn [option_map]. now rewrite Nat.add_0_r.
      * rewrite IH by lia.
        destruct (first_space (skipn (S i) s)); cbn [option_map]; [|reflexivity].
        do 2 f_equal; lia.
    + apply nth_error_None in E. lia.
Qed.

Lemma search_ws : search s ws = first_space s.
Proof.
  unfold search, exec. destruct (Nat.ltb_spec (length s) 0) as [L|L]; [lia|].
  rewrite search_from_ws by lia. simpl.
  destruct (first_space s); reflexivity.
Qed.

(** [k*$] from position [i], for a class [k]: the rest of the string,
    when it holds code units of [k] only. *)
Lemma rest_in_class (k : cls) (i : nat) :
  i <= length s ->
  rmatch s (Star (Chars k)) i (fun j => rmatch s InputEnd j (@Some nat)) =
  if forallb (fun x => cls_mem x k) (skipn i s) then Some (length s) else None.
Proof.
  cbn [rmatch]. remember (length s - i) as fuel eqn:Hfuel.
  revert i Hfuel; induction fuel as [|fuel IH]; intros i Hfuel Hi; cbn [star_loop rmatch].
  - assert (i = length s) as -> by lia.
    rewrite Nat.eqb_refl, skipn_all. reflexivity.
  - destruct (nth_error s i) as [x|] eqn:E; [|apply nth_error_None in E; lia].
    rewrite (nth_error_skipn s i x E). cbn [forallb].
    destruct (cls_mem x k); cbn [andb].
    + destruct (Nat.ltb_spec i (S i)) as [_|]; [|lia].
      rewrite IH by lia.
      destruct (forallb _ (skipn (S i) s)); [reflexivity|].
      destruct (Nat.eqb_spec i (length s)); [lia | reflexivity].
    + destruct (Nat.eqb_spec i (length s)); [lia | reflexivity].
Qed.

Lemma match_at_last_space (i : nat) :
  match_at s LAST_SPACE_RE i =
  match nth_error s i with
  | Some x =>
      if is_space x && forallb (fun y => cls_mem y not_space) (skipn (S i) s)
      then Some (length s) else None
  | None => None
  end.
Proof.
  unfold match_at, LAST_SPACE_RE, ws.
  change (rmatch s (seqs [Chars white_space; Star (Chars not_space); InputEnd]) i (@Some nat))
    with (match nth_error s i with
          | Some x =>
              if cls_mem x white_space
              then rmatch s (Star (Chars not_space)) (S i)
                     (fun j => rmatch s InputEnd j (@Some nat))
              else None
          | None => None
          end).
  destruct (nth_error s i) as [x|] eqn:E; [|reflexivity].
  assert (S i <= length s) by (apply nth_error_Some; congruence).
  rewrite rest_in_class by assumption.
  unfold is_space. destruct (cls_mem x white_space); reflexivity.
Qed.

Lemma search_from_last_space (fuel i : nat) :
  i + fuel = length s ->
  search_from s LAST_SPACE_RE fuel i =
  option_map (fun k => (i + k, length s)) (last_space (skipn i s)).
Proof.
  revert i; induction fuel as [|fuel IH]; intros i H; simpl; rewrite match_at_last_space.
  - rewrite (proj2 (nth_error_None s i)) by lia.
    now rewrite skipn_all2 by lia.
  - destruct (nth_error s i) as [x|] eqn:E.
    + rewrite (nth_error_skipn s i x E).
      change (last_space (x :: skipn (S i) s))
        with (if is_space x && forallb (fun y => cls_mem y not_space) (skipn (S i) s)
              then Some 0 else option_map S (last_space (skipn (S i) s))).
      destruct (is_space x && forallb _ (skipn (S i) s)).
      * cbn [option_map]. now rewrite Nat.add_0_r.
      * rewrite IH by lia.
        destruct (last_space (skipn (S i) s)); cbn [option_map]; [|reflexivity].
        do 2 f_equal; lia.
    + apply nth_error_None in E. lia.
Qed.

Lemma search_last_space : search s LAST_SPACE_RE = last_space s.
Proof.
  unfold search, exec. destruct (Nat.ltb_spec (length s) 0) as [L|L]; [lia|].
  rewrite search_from_last_space by lia. simpl.
  destruct (last_space s); reflexivity.
Qed.

End Searches.

Lemma trimStart_length (s : str) : length (trimStart s) <= length s.
Proof.
  induction s as [|c s IH]; simpl; [lia|].
  destruct (is_space c); simpl; lia.
Qed.

Lemma context_before_window (text : str) (contextSize start : nat) :
  context_before text contextSize start = before_window text contextSize start.
Proof.
  unfold context_before, before_window. rewrite search_ws.
  destruct (Nat.ltb_spec 0 (start - contextSize)) as [L|L];
    destruct (Nat.leb_spec start contextSize) as [M|M]; try lia; reflexivity.
Qed.

Lemma context_after_window (text : str) (contextSize end_ : nat) :
  context_after text contextSize end_ = after_window text contextSize end_.
Proof.
  unfold context_after, after_window. rewrite search_last_space.
  rewrite (Nat.min_comm (length text) (end_ + contextSize)).
  rewrite <- (slice_clip text end_ (end_ + contextSize)).
  destruct (Nat.ltb_spec (Nat.min (end_ + contextSize) (length text)) (length text)) as [L|L];
    destruct (Nat.leb_spec (length text) (end_ + contextSize)) as [M|M]; try lia;
    try reflexivity.
  destruct (last_space (slice text end_ (end_ + contextSize))) as [[|i]|]; reflexivity.
Qed.

Lemma build_contexts_windows (text : str) (contextSize id : nat)
    (l : list PatternMatch) (c : CitationContext) :
  In c (build_contexts text contextSize id l) ->
  ctx_before c = context_before text contextSize (ctx_start c) /\
  ctx_after c = context_after text contextSize (ctx_end c).
Proof.
  revert id; induction l as [|m l IH]; intros id H; [contradiction|].
  destruct H as [<-|H]; [now split | now apply (IH (S id))].
Qed.

(* ================================================================== *)
(** * [parseResponse]: the validation of the elements *)
(* ================================================================== *)

Lemma trimStart_nil_iff (s : str) : trimStart s = [] <-> forallb is_space s = true.
Proof.
  induction s as [|c s IH]; simpl; [tauto|].
  destruct (is_space c); simpl; [exact IH|]. split; discriminate.
Qed.

Lemma forallb_rev {A : Type} (f : A -> bool) (l : list A) :
  forallb f (rev l) = forallb f l.
Proof.
  induction l as [|x l IH]; simpl; [reflexivity|].
  rewrite forallb_app, IH. simpl. rewrite andb_true_r. apply andb_comm.
Qed.

Lemma trimStart_spaces (s : str) :
  forallb is_space (trimStart s) = forallb is_space s.
Proof.
  induction s as [|c s IH]; simpl; [reflexivity|].
  destruct (is_space c) eqn:E; simpl; [exact IH | now rewrite E].
Qed.

(** [s.trim().length === 0] *)
Lemma trim_blank (s : str) : (length (trim s) =? 0) = blank s.
Proof.
  unfold trim, trimEnd, blank.
  rewrite length_rev.
  destruct (forallb is_space s) eqn:E.
  - apply trimStart_nil_iff in E. rewrite E. reflexivity.
  - destruct (trimStart (rev (trimStart s))) as [|c t] eqn:T; [|reflexivity].
    apply trimStart_nil_iff in T.
    rewrite forallb_rev, trimStart_spaces in T. congruence.
Qed.

Lemma set_has_fold_add (ids : list number) (seen : jsset) (id : number) :
  set_has (fold_left set_add ids seen) id = true <-> In id seen \/ In id ids.
Proof. rewrite set_has_In. apply In_fold_set_add. Qed.

Lemma set_has_add (seen : jsset) (a id : number) :
  set_has (set_add seen a) id = true <-> In id seen \/ a = id.
Proof.
  change (set_add seen a) with (fold_left set_add [a] seen).
  rewrite set_has_fold_add. simpl. tauto.
Qed.

(** The loop succeeds exactly on records with citations that are not blank
    and ids that are new. *)
Lemma validate_items_ok (items : list json) (idx : nat) (seen : jsset)
    (cs : list CitationCorrection) :
  validate_items items idx seen = Ok cs <->
  corrections_of items cs /\
  (forall c, In c cs -> blank (cor_citation c) = false) /\
  NoDup (map cor_id cs) /\
  (forall c, In c cs -> ~ In (cor_id c) seen).
Proof.
  revert idx seen cs; induction items as [|item items IH]; intros idx seen cs; simpl.
  - split.
    + intros H. injection H as <-. repeat split; try constructor; intros c [].
    + intros [H _]. inversion H. reflexivity.
  - destruct (correction_of_item item) as [c|] eqn:Ec.
    + rewrite trim_blank.
      destruct (blank (cor_citation c)) eqn:Eb.
      * split; [discriminate|]. intros [H [Hb _]].
        inversion H as [|? c' ? cs' Hc Hrest]; subst.
        rewrite Ec in Hc. injection Hc as <-.
        specialize (Hb c (or_introl eq_refl)). congruence.
      * destruct (set_has seen (cor_id c)) eqn:Es.
        -- split; [discriminate|]. intros [H [_ [_ Hs]]].
           inversion H as [|? c' ? cs' Hc Hrest]; subst.
           rewrite Ec in Hc. injection Hc as <-.
           apply set_has_In in Es. exfalso. exact (Hs c (or_introl eq_refl) Es).
        -- destruct (validate_items items (S idx) (set_add seen (cor_id c))) as [cs'|e] eqn:Ev;
             simpl.
           ++ pose proof (proj1 (IH _ _ _) Ev) as [V1 [V2 [V3 V4]]]. split.
              ** intros H. injection H as <-. repeat split.
                 --- constructor; assumption.
                 --- intros c' [<-|Hc']; [assumption | now apply V2].
                 --- simpl. constructor; [|assumption].
                     intros Hin. apply in_map_iff in Hin as [c' [E Hc']].
                     apply (V4 c' Hc'). unfold set_add. rewrite Es.
                     apply in_or_app. right. left. now symmetry.
                 --- intros c' [<-|Hc'].
                     +++ intros Hin. apply set_has_In in Hin. congruence.
                     +++ intros Hin. apply (V4 c' Hc'). unfold set_add. rewrite Es.
                         apply in_or_app. now left.
              ** intros [H [Hb [Hn Hs]]].
                 inversion H as [|? c' ? cs'' Hc Hrest]; subst.
                 rewrite Ec in Hc. injection Hc as <-.
                 f_equal. f_equal.
                 assert (X : validate_items items (S idx) (set_add seen (cor_id c)) = Ok cs'').
                 { apply IH. repeat split.
                   - assumption.
                   - intros c' Hc'. apply Hb. now right.
                   - now inversion Hn.
                   - intros c' Hc' Hin. unfold set_add in Hin. rewrite Es in Hin.
                     apply in_app_or in Hin as [Hin|[E|[]]].
                     + exact (Hs c' (or_intror Hc') Hin).
                     + inversion Hn as [|? ? Hnot _]; subst. apply Hnot.
                       apply in_map_iff. exists c'. split; [now symmetry | assumption]. }
                 rewrite Ev in X. now injection X.
           ++ split; [discriminate|]. intros [H [Hb [Hn Hs]]].
              inversion H as [|? c' ? cs'' Hc Hrest]; subst.
              rewrite Ec in Hc. injection Hc as <-.
              assert (X : validate_items items (S idx) (set_add seen (cor_id c)) = Ok cs'').
              { apply IH. repeat split.
                - assumption.
                - intros c' Hc'. apply Hb. now right.
                - now inversion Hn.
                - intros c' Hc' Hin. unfold set_add in Hin. rewrite Es in Hin.
                  apply in_app_or in Hin as [Hin|[E|[]]].
                  + exact (Hs c' (or_intror Hc') Hin).
                  + inversion Hn as [|? ? Hnot _]; subst. apply Hnot.
                    apply in_map_iff. exists c'. split; [now symmetry | assumption]. }
              rewrite Ev in X. discriminate.
    + split; [discriminate|]. intros [H _].
      inversion H as [|? c' ? cs' Hc Hrest]; subst. congruence.
Qed.

(** After a prefix that passes, the loop goes on with the rest. *)
Lemma validate_items_app (pre rest : list json) (idx : nat) (seen : jsset)
    (cs : list CitationCorrection) :
  validate_items pre idx seen = Ok cs ->
  validate_items (pre ++ rest) idx seen =
  (rest' <- validate_items rest (idx + length pre) (fold_left set_add (map cor_id cs) seen) ;;
   Ok (cs ++ rest')).
Proof.
  revert idx seen cs; induction pre as [|item pre IH]; intros idx seen cs H; simpl in *.
  - injection H as <-. rewrite Nat.add_0_r. simpl.
    destruct (validate_items rest idx seen); reflexivity.
  - destruct (correction_of_item item) as [c|]; [|discriminate].
    destruct (length (trim (cor_citation c)) =? 0); [discriminate|].
    destruct (set_has seen (cor_id c)); [discriminate|].
    destruct (validate_items pre (S idx) (set_add seen (cor_id c))) as [cs'|e] eqn:Ev;
      simpl in H; [|discriminate].
    injection H as <-.
    rewrite (IH _ _ _ Ev). simpl.
    replace (idx + S (length pre)) with (S idx + length pre) by lia.
    destruct (validate_items rest _ _); reflexivity.
Qed.

(** The shape test: an object with a number under [id] and a string under
    [citation]; any number will do. *)
Lemma correction_of_item_spec (item : json) (c : CitationCorrection) :
  correction_of_item item = Some c <->
  get_property item (lit "id") = Some (JNumber (cor_id c)) /\
  get_property item (lit "citation") = Some (JString (cor_citation c)).
Proof.
  unfold correction_of_item. split.
  - destruct (get_property item (lit "id")) as [[| |n| | |]|]; try discriminate.
    destruct (get_property item (lit "citation")) as [[| | |s| |]|]; try discriminate.
    intros H. injection H as <-. now split.
  - intros [-> ->]. now destruct c.
Qed.

(** C6, as the code has it.  For the array found in a reply:
    [parseResponse] returns corrections exactly when every element is an
    object with a number under [id] (an integer or not) and a string under
    [citation], no citation is empty or white space only, and no id occurs
    twice; the corrections are then those of the elements, one per element
    in array order.  Otherwise it fails at the first element that does not
    pass, with the index of that element: with [InvalidCorrection] when
    the id is not a number or the citation not a string, with
    [EmptyCitation] when the citation is blank, with
    [DuplicateCorrectionId] when the id occurred before. *)
Theorem reply_elements_validated (response : str) (items : list json) :
  find_array (strip_fences response) = Ok items ->
  (forall cs,
     parseResponse response = Ok cs <->
     corrections_of items cs /\
     (forall c, In c cs -> blank (cor_citation c) = false) /\
     NoDup (map cor_id cs)) /\
  (forall pre item post cs,
     items = pre ++ item :: post ->
     corrections_of pre cs ->
     (forall c, In c cs -> blank (cor_citation c) = false) ->
     NoDup (map cor_id cs) ->
     (correction_of_item item = None ->
      parseResponse response = Err (InvalidCorrection (length pre) item)) /\
     (forall c, correction_of_item item = Some c ->
        blank (cor_citation c) = true ->
        parseResponse response = Err (EmptyCitation (length pre) (cor_id c))) /\
     (forall c, correction_of_item item = Some c ->
        blank (cor_citation c) = false ->
        In (cor_id c) (map cor_id cs) ->
        parseResponse response = Err (DuplicateCorrectionId (cor_id c) (length pre)))) /\
  (forall item c,
     correction_of_item item = Some c <->
     get_property item (lit "id") = Some (JNumber (cor_id c)) /\
     get_property item (lit "citation") = Some (JString (cor_citation c))).
Proof.
  intros Hfound. unfold parseResponse. rewrite Hfound. simpl.
  split; [|split].
  - intros cs. rewrite validate_items_ok. split.
    + intros [H1 [H2 [H3 _]]]. now repeat split.
    + intros [H1 [H2 H3]]. repeat split; try assumption. intros c _ [].
  - intros pre item post cs -> Hpre Hblank Hdup.
    assert (Hok : validate_items pre 0 [] = Ok cs).
    { apply validate_items_ok. repeat split; try assumption. intros c _ []. }
    rewrite (validate_items_app pre (item :: post) 0 [] cs Hok). simpl.
    split; [|split].
    + intros ->. reflexivity.
    + intros c -> Hb. rewrite trim_blank, Hb. reflexivity.
    + intros c -> Hb Hin. rewrite trim_blank, Hb.
      assert (S : set_has (fold_left set_add (map cor_id cs) []) (cor_id c) = true).
      { apply set_has_fold_add. now right. }
      rewrite S. reflexivity.
  - apply correction_of_item_spec.
Qed.

Lemma reply_elements_validated_witness :
  parseResponse two_records = Ok two_corrections <->
  corrections_of (items_of two_records) two_corrections /\
  (forall c, In c two_corrections -> blank (cor_citation c) = false) /\
  NoDup (map cor_id two_corrections).
Proof.
  destruct (reply_elements_validated two_records (items_of two_records)) as [H _].
  - vm_compute. reflexivity.
  - apply H.
Defined.

(** C6 as stated fails on an id that is a number but not an integer: the
    reply with the id 1.5 is accepted, and 1.5 is no integer. *)
Lemma fractional_id_counterexample :
  parseResponse fractional_reply =
    Ok [ {| cor_id := Q2Qc (3 # 2); cor_citation := lit "x" |} ] /\
  ~ (exists z, Q2Qc (3 # 2) = num_of_Z z).
Proof.
  split.
  - assert (E : exists q, parseResponse fractional_reply =
                          Ok [ {| cor_id := q; cor_citation := lit "x" |} ] /\
                          this q = (3 # 2)%Q).
    { eexists. split; [vm_compute; reflexivity | reflexivity]. }
    destruct E as [q [-> Hq]]. do 3 f_equal.
    apply Qc_is_canon. rewrite Hq. reflexivity.
  - intros [z H]. unfold num_of_Z in H. apply Q2Qc_eq_iff in H.
    unfold Qeq, inject_Z in H. simpl in H. lia.
Qed.

(* ================================================================== *)
(** * [parseResponse]: fences, prose and the bracket scan *)
(* ================================================================== *)

Lemma matches_end (input : str) (r : regex) (i j : nat) :
  matches input r i j -> ends_at_end r = true -> j = length input.
Proof.
  induction 1; simpl; intros E; try discriminate; auto.
  - apply andb_true_iff in E. tauto.
  - apply andb_true_iff in E. tauto.
Qed.

Lemma one_mem (c d : char) : cls_mem c (one d) = true -> c = d.
Proof.
  unfold cls_mem, one, in_range. simpl. rewrite orb_false_r.
  intros H. apply andb_true_iff in H as [H1 H2]. apply N.leb_le in H1, H2. lia.
Qed.

(** ** A text without fences is left alone *)

Lemma no_opening_fence (X : str) :
  match X with [] => True | c :: _ => c <> backtick end ->
  remove_first X FENCE_OPEN_RE = X.
Proof.
  intros H. unfold remove_first.
  destruct (exec X FENCE_OPEN_RE 0) as [[s e]|] eqn:E; [|reflexivity].
  exfalso. apply exec_sound in E as [M _].
  unfold FENCE_OPEN_RE in M. cbn [seqs] in M.
  inversion M as [ | | ? ? ? j ? M1 M2 | | | | | | | ]; subst.
  inversion M1; subst.
  inversion M2 as [ | | ? ? ? j' ? M3 M4 | | | | | | | ]; subst.
  unfold backticks in M3.
  inversion M3 as [ | | ? ? ? j'' ? M5 M6 | | | | | | | ]; subst.
  inversion M5 as [ | ? ? c Hn Hc | | | | | | | | ]; subst.
  apply one_mem in Hc. destruct X as [|x X']; [discriminate|].
  simpl in Hn. injection Hn as ->. apply H. exact Hc.
Qed.

Lemma fence_close_last (c : char) :
  cls_mem c (last_of FENCE_CLOSE_RE) = true -> is_space c = true \/ c = backtick.
Proof.
  change (last_of FENCE_CLOSE_RE) with (white_space ++ one backtick).
  rewrite cls_mem_app. intros H. apply orb_true_iff in H as [H|H].
  - now left.
  - right. now apply one_mem.
Qed.

Lemma no_closing_fence (X : str) :
  match rev X with [] => True | c :: _ => is_space c = false /\ c <> backtick end ->
  remove_first X FENCE_CLOSE_RE = X.
Proof.
  intros H. unfold remove_first.
  destruct (exec X FENCE_CLOSE_RE 0) as [[s e]|] eqn:E; [|reflexivity].
  exfalso. apply exec_sound in E as [M _].
  pose proof (matches_end _ _ _ _ M eq_refl) as ->.
  pose proof (matches_nonempty _ _ _ _ M eq_refl) as L.
  destruct (matches_last _ _ _ _ M L) as [c [Hn Hc]].
  apply fence_close_last in Hc.
  destruct (rev X) as [|d t] eqn:R.
  - apply (f_equal (@length char)) in R. rewrite length_rev in R. simpl in R. lia.
  - assert (X = rev t ++ [d]) as ->.
    { rewrite <- (rev_involutive X), R. reflexivity. }
    rewrite length_app, length_rev in Hn. simpl in Hn.
    rewrite nth_error_app2 in Hn by (rewrite length_rev; lia).
    rewrite length_rev in Hn.
    replace (length t + 1 - 1 - length t) with 0 in Hn by lia.
    simpl in Hn. injection Hn as <-.
    destruct H as [H1 H2]. destruct Hc as [Hc|Hc]; [congruence | contradiction].
Qed.

Lemma strip_plain (R X : str) :
  trim R = X ->
  match X with [] => True | c :: _ => c <> backtick end ->
  match rev X with [] => True | c :: _ => c <> backtick end ->
  strip_fences R = X.
Proof.
  intros <- H1 H2. unfold strip_fences.
  rewrite (no_opening_fence _ H1).
  rewrite no_closing_fence.
  - apply trim_trim.
  - destruct (trim_trimmed R) as [_ T].
    destruct (rev (trim R)); [exact I | now split].
Qed.

(** ** A fenced array *)

Lemma closing_fence_found (A body : str) :
  A = open_bracket :: body ++ [close_bracket] ->
  remove_first (A ++ nl ++ lit "```") FENCE_CLOSE_RE = A.
Proof.
  intros HA. unfold remove_first, exec.
  destruct (Nat.ltb_spec (length (A ++ nl ++ lit "```")) 0) as [L|_]; [lia|].
  rewrite (search_from_first _ FENCE_CLOSE_RE _ 0 (length A) (length A + 4)).
  - rewrite firstn_app, firstn_all, Nat.sub_diag. simpl firstn.
    rewrite skipn_all2 by (rewrite length_app; simpl; lia).
    now rewrite !app_nil_r.
  - rewrite length_app. simpl. lia.
  - intros p Hp.
    destruct (match_at (A ++ nl ++ lit "```") FENCE_CLOSE_RE p) as [e|] eqn:E; [|reflexivity].
    exfalso. apply match_at_sound in E.
    pose proof (matches_end _ _ _ _ E eq_refl) as ->.
    destruct (matches_alphabet _ _ _ _ E (length A - 1)) as [c [Hn Hc]].
    + rewrite length_app. simpl. lia.
    + rewrite nth_error_app1 in Hn by lia.
      rewrite HA in Hn.
      change (open_bracket :: body ++ [close_bracket])
        with ((open_bracket :: body) ++ [close_bracket]) in Hn.
      rewrite length_app in Hn. simpl length in Hn.
      rewrite nth_error_app2 in Hn by (simpl; lia).
      replace (S (length body) + 1 - 1 - length (open_bracket :: body)) with 0 in Hn
        by (simpl; lia).
      simpl in Hn. injection Hn as <-.
      vm_compute in Hc. discriminate.
  - replace (length A) with (length A + 0) at 1 by lia.
    rewrite match_at_shift by reflexivity.
    reflexivity.
Qed.

Lemma opening_fence_found (tag rest : str) :
  In tag [ []; lit "json"; lit "JSON" ] ->
  remove_first (lit "```" ++ tag ++ nl ++ open_bracket :: rest) FENCE_OPEN_RE =
  open_bracket :: rest.
Proof.
  intros [<-|[<-|[<-|[]]]]; unfold remove_first, exec;
    cbn [lit app length Nat.ltb Nat.leb Nat.sub nl];
    destruct (length rest); reflexivity.
Qed.

Lemma strip_fenced (tag A body : str) :
  In tag [ []; lit "json"; lit "JSON" ] ->
  A = open_bracket :: body ++ [close_bracket] ->
  strip_fences (fenced tag A) = A.
Proof.
  intros Htag HA. unfold strip_fences.
  assert (T : trimmed (fenced tag A)).
  { unfold fenced.
    replace (lit "```" ++ tag ++ nl ++ A ++ nl ++ lit "```")
      with (backtick :: (lit "``" ++ tag ++ nl ++ A ++ nl ++ lit "``") ++ [backtick]).
    - apply trimmed_ends; reflexivity.
    - unfold backtick. repeat (rewrite <- ?app_assoc; simpl). reflexivity. }
  rewrite (trimmed_trim _ T).
  assert (E : fenced tag A =
              lit "```" ++ tag ++ nl ++ open_bracket :: (body ++ [close_bracket] ++ nl ++ lit "```")).
  { unfold fenced. rewrite HA. repeat (rewrite <- ?app_assoc; simpl). reflexivity. }
  rewrite E, (opening_fence_found tag _ Htag).
  replace (open_bracket :: body ++ [close_bracket] ++ nl ++ lit "```")
    with (A ++ nl ++ lit "```")
    by (rewrite HA; repeat (rewrite <- ?app_assoc; simpl); reflexivity).
  rewrite (closing_fence_found A body HA).
  apply trimmed_trim. rewrite HA. apply trimmed_ends; reflexivity.
Qed.

(** ** The bracket scan *)

Lemma last_index_of_none (c : char) (s : str) :
  ~ In c s -> last_index_of c s = None.
Proof.
  induction s as [|x s IH]; simpl; intros H; [reflexivity|].
  rewrite IH by tauto.
  destruct (char_eqb x c) eqn:E; [|reflexivity].
  apply N.eqb_eq in E. subst. exfalso. apply H. now left.
Qed.

Lemma last_index_of_app (c : char) (s t : str) :
  last_index_of c (s ++ t) =
  match last_index_of c t with
  | Some i => Some (length s + i)
  | None => last_index_of c s
  end.
Proof.
  induction s as [|x s IH]; simpl.
  - destruct (last_index_of c t); reflexivity.
  - rewrite IH. destruct (last_index_of c t); reflexivity.
Qed.

Lemma last_index_of_sound (c : char) (s : str) (e : nat) :
  last_index_of c s = Some e -> nth_error s e = Some c.
Proof.
  revert e; induction s as [|x s IH]; intros e H; simpl in H; [discriminate|].
  destruct (last_index_of c s) as [i|].
  - injection H as <-. simpl. now apply IH.
  - destruct (char_eqb x c) eqn:E; [|discriminate].
    injection H as <-. apply N.eqb_eq in E. now subst.
Qed.

Lemma last_index_of_last (c : char) (s : str) :
  last_index_of c (s ++ [c]) = Some (length s).
Proof.
  rewrite last_index_of_app. simpl. unfold char_eqb. rewrite N.eqb_refl.
  now rewrite Nat.add_0_r.
Qed.

Lemma scan_brackets_first (cleaned : str) (e i0 : nat) (items : list json) :
  forall todo i,
    i <= i0 < i + todo ->
    (forall j, i <= j < i0 -> nth_error cleaned j = Some open_bracket ->
               parse_array (slice cleaned j (S e)) = None) ->
    nth_error cleaned i0 = Some open_bracket ->
    parse_array (slice cleaned i0 (S e)) = Some items ->
    scan_brackets cleaned e todo i = Some items.
Proof.
  induction todo as [|todo IH]; intros i Hi Hnone Hopen Hparse; [lia|].
  cbn [scan_brackets].
  destruct (Nat.eq_dec i i0) as [->|N].
  - rewrite Hopen. unfold char_eqb. rewrite N.eqb_refl. now rewrite Hparse.
  - assert (Next : scan_brackets cleaned e todo (S i) = Some items).
    { apply IH; try assumption; [lia|]. intros j Hj. apply Hnone. lia. }
    destruct (nth_error cleaned i) as [c|] eqn:E; [|exact Next].
    destruct (char_eqb c open_bracket) eqn:B; [|exact Next].
    apply N.eqb_eq in B. subst c.
    rewrite (Hnone i ltac:(lia) E). exact Next.
Qed.

Lemma scan_brackets_none (cleaned : str) (e : nat) :
  forall todo i,
    (forall j, nth_error cleaned j = Some open_bracket ->
               parse_array (slice cleaned j (S e)) = None) ->
    scan_brackets cleaned e todo i = None.
Proof.
  induction todo as [|todo IH]; intros i Hnone; [reflexivity|].
  cbn [scan_brackets].
  destruct (nth_error cleaned i) as [c|] eqn:E; [|now apply IH].
  destruct (char_eqb c open_bracket) eqn:B; [|now apply IH].
  apply N.eqb_eq in B. subst c.
  rewrite (Hnone i E). now apply IH.
Qed.

Lemma slice_through_array (P A Q : str) (j : nat) :
  j <= length P ->
  slice (P ++ A ++ Q) j (length P + length A) = skipn j P ++ A.
Proof.
  intros Hj. unfold slice.
  rewrite skipn_app. replace (j - length P) with 0 by lia. rewrite skipn_0.
  rewrite app_assoc.
  rewrite firstn_app.
  rewrite length_app, length_skipn.
  replace (length P + length A - j - (length P - j + length A)) with 0 by lia.
  rewrite firstn_0, app_nil_r.
  apply firstn_all2. rewrite length_app, length_skipn. lia.
Qed.

(** ** The strict reading of a text with prose around the array *)

Lemma not_array_with_tail (X : str) (c : char) :
  is_space c = false -> c <> close_bracket -> parse_array (X ++ [c]) = None.
Proof.
  intros Hs Hc. destruct (parse_array (X ++ [c])) as [items|] eqn:E; [|reflexivity].
  exfalso. apply parse_array_last in E as [pre [rest [Eq Hws]]].
  destruct rest as [|d rest'] using rev_ind.
  - apply app_inj_tail in Eq as [_ Eq]. congruence.
  - clear IHrest'.
    replace (pre ++ close_bracket :: rest' ++ [d])
      with ((pre ++ close_bracket :: rest') ++ [d]) in Eq
      by (rewrite <- app_assoc; reflexivity).
    apply app_inj_tail in Eq as [_ ->].
    rewrite forallb_app in Hws. apply andb_true_iff in Hws as [_ Hd].
    simpl in Hd. rewrite andb_true_r in Hd.
    apply json_ws_is_space in Hd. congruence.
Qed.

Lemma not_array_with_head (c : char) (X : str) :
  is_space c = false -> c <> open_bracket -> parse_array (c :: X) = None.
Proof.
  intros Hs Hc. destruct (parse_array (c :: X)) as [items|] eqn:E; [|reflexivity].
  exfalso. apply parse_array_first in E as [s' E]. simpl in E.
  destruct (Json.is_ws c) eqn:W.
  - apply json_ws_is_space in W. congruence.
  - injection E as -> _. now apply Hc.
Qed.

(** ** [find_array] *)

Lemma find_array_strict (A : str) (items : list json) :
  parse_array A = Some items -> find_array A = Ok items.
Proof. intros H. unfold find_array. now rewrite H. Qed.

(** A trimmed text that reads as an array is its own candidate: it begins
    with the opening bracket and its last closing bracket is its end. *)
Lemma strict_is_candidate (X : str) (items : list json) :
  trimmed X -> parse_array X = Some items ->
  exists e, last_index_of close_bracket X = Some e /\
            nth_error X 0 = Some open_bracket /\ slice X 0 (S e) = X.
Proof.
  intros [T1 T2] H.
  pose proof (parse_array_first X items H) as [s' F].
  pose proof (parse_array_last X items H) as [pre [rest [E W]]].
  assert (rest = []) as ->.
  { destruct rest as [|d rest'] using rev_ind; [reflexivity|]. exfalso.
    rewrite forallb_app in W. apply andb_true_iff in W as [_ Hd].
    simpl in Hd. rewrite andb_true_r in Hd. apply json_ws_is_space in Hd.
    rewrite E in T2.
    replace (pre ++ close_bracket :: rest' ++ [d])
      with ((pre ++ close_bracket :: rest') ++ [d]) in T2
      by (rewrite <- app_assoc; reflexivity).
    rewrite rev_app_distr in T2. simpl in T2. congruence. }
  exists (length pre). split; [|split].
  - rewrite E. apply last_index_of_last.
  - destruct X as [|c X']; [discriminate F|]. simpl in F, T1.
    destruct (Json.is_ws c) eqn:Wc.
    + apply json_ws_is_space in Wc. congruence.
    + injection F as -> _. reflexivity.
  - rewrite slice_0. apply firstn_all2. rewrite E, length_app. simpl. lia.
Qed.

Lemma find_array_in_prose (P A Q body : str) (items : list json) :
  parse_array A = Some items ->
  A = open_bracket :: body ++ [close_bracket] ->
  trimmed (P ++ A ++ Q) ->
  ~ In close_bracket Q ->
  unrelated_brackets P A ->
  find_array (P ++ A ++ Q) = Ok items.
Proof.
  intros Hparse HA T HQ HP.
  assert (LA : length A = S (S (length body))).
  { rewrite HA. simpl. rewrite length_app. simpl. lia. }
  assert (Hlast : last_index_of close_bracket (P ++ A ++ Q) = Some (length P + S (length body))).
  { rewrite HA.
    replace (P ++ (open_bracket :: body ++ [close_bracket]) ++ Q)
      with ((P ++ open_bracket :: body) ++ [close_bracket] ++ Q)
      by (repeat (rewrite <- ?app_assoc; simpl); reflexivity).
    rewrite last_index_of_app, (last_index_of_app close_bracket [close_bracket] Q).
    rewrite (last_index_of_none _ _ HQ). simpl.
    rewrite length_app. simpl. f_equal. lia. }
  assert (Hscan : scan_brackets (P ++ A ++ Q) (length P + S (length body))
                    (length P + S (length body)) 0 = Some items).
  { apply (scan_brackets_first _ _ (length P)).
    - lia.
    - intros j Hj Hopen.
      replace (S (length P + S (length body))) with (length P + length A) by lia.
      rewrite slice_through_array by lia.
      apply HP. now rewrite nth_error_app1 in Hopen by lia.
    - rewrite nth_error_app2 by lia. rewrite Nat.sub_diag, HA. reflexivity.
    - replace (S (length P + S (length body))) with (length P + length A) by lia.
      rewrite slice_through_array by lia.
      now rewrite skipn_all. }
  unfold find_array.
  destruct (parse_array (P ++ A ++ Q)) as [items'|] eqn:Strict.
  - destruct (strict_is_candidate _ _ T Strict) as [e [He [H0 Hs]]].
    rewrite Hlast in He. injection He as <-.
    destruct P as [|c P'].
    + simpl in Hs, Strict.
      replace (S (S (length body))) with (length A + 0) in Hs by lia.
      destruct Q as [|q Q'].
      * rewrite app_nil_r in Strict. congruence.
      * exfalso.
        apply (f_equal (@length char)) in Hs.
        rewrite length_app in Hs. simpl in Hs.
        pose proof (slice_length_bound (A ++ q :: Q') 0 (length A + 0)) as B. lia.
    + exfalso. simpl in H0. injection H0 as ->.
      specialize (HP 0 eq_refl). simpl in HP.
      destruct Q as [|q Q'].
      * rewrite app_nil_r in Strict. simpl in Strict. congruence.
      * apply (f_equal (@length char)) in Hs.
        pose proof (slice_length_bound ((open_bracket :: P') ++ A ++ q :: Q') 0
                      (S (length (open_bracket :: P') + S (length body)))) as B.
        rewrite Hs in B. rewrite !length_app in B. simpl in B. lia.
  - now rewrite Hlast, Hscan.
Qed.

Lemma strip_array (A body : str) :
  A = open_bracket :: body ++ [close_bracket] -> strip_fences A = A.
Proof.
  intros HA. apply strip_plain.
  - apply trimmed_trim. rewrite HA. apply trimmed_ends; reflexivity.
  - rewrite HA. discriminate.
  - rewrite HA.
    change (open_bracket :: body ++ [close_bracket])
      with ((open_bracket :: body) ++ [close_bracket]).
    rewrite rev_app_distr. discriminate.
Qed.

(* ================================================================== *)
(** * [applyCorrections] *)
(* ================================================================== *)

Section ApplyCorrections.

Variable text : str.
Variable corrections : list CitationCorrection.

Local Abbreviation correctionMap := (correction_map corrections).

Lemma map_get_fold (l : list CitationCorrection) (m : jsmap) (k : number) :
  map_get (fold_left (fun m c => map_set m (cor_id c) (cor_citation c)) l m) k =
  match find (fun c => num_eqb (cor_id c) k) (rev l) with
  | Some c => Some (cor_citation c)
  | None => map_get m k
  end.
Proof.
  revert m; induction l as [|c l IH]; intros m; simpl; [reflexivity|].
  rewrite IH, find_app. destruct (find _ (rev l)); [reflexivity|].
  simpl. rewrite map_get_set. destruct (num_eqb (cor_id c) k); reflexivity.
Qed.

Lemma correctionMap_get (c : CitationContext) :
  map_get correctionMap (ctx_num c) = correction_for corrections c.
Proof.
  unfold correction_map, correction_for. rewrite map_get_fold.
  destruct (find _ (rev corrections)); reflexivity.
Qed.

Lemma correction_for_Some (c : CitationContext) :
  (exists k, In k corrections /\ cor_id k = ctx_num c) ->
  exists r, correction_for corrections c = Some r.
Proof.
  intros [k [Hk E]]. unfold correction_for.
  destruct (find _ (rev corrections)) as [k'|] eqn:F.
  - now exists (cor_citation k').
  - exfalso. apply find_none with (x := k) in F.
    + rewrite E, num_eqb_refl in F. discriminate.
    + now apply in_rev in Hk.
Qed.

Lemma correctionMap_key (id : number) :
  In id (map_keys correctionMap) -> exists k, In k corrections /\ cor_id k = id.
Proof.
  intros H. apply map_keys_has in H. unfold map_has, correction_map in H.
  rewrite map_get_fold in H. simpl in H.
  destruct (find _ (rev corrections)) as [k|] eqn:F; [|discriminate].
  apply find_some in F as [Hin E]. exists k. split.
  - now apply in_rev.
  - now apply num_eqb_eq.
Qed.

(** Under the two-way match of the ids neither validation loop throws. *)
Lemma no_missing_correction (spans : list CitationContext) :
  ids_match spans corrections ->
  find (fun id => negb (map_has correctionMap id)) (new_Set (map ctx_num spans)) = None.
Proof.
  intros [H _]. apply find_none_iff. intros id Hid.
  apply In_new_Set, in_map_iff in Hid as [c [<- Hc]].
  unfold map_has. rewrite correctionMap_get.
  destruct (correction_for_Some c (H c Hc)) as [r ->]. reflexivity.
Qed.

Lemma no_unknown_correction (spans : list CitationContext) :
  ids_match spans corrections ->
  find (fun id => negb (set_has (new_Set (map ctx_num spans)) id))
       (map_keys correctionMap) = None.
Proof.
  intros [_ H]. apply find_none_iff. intros id Hid.
  apply correctionMap_key in Hid as [k [Hk <-]].
  destruct (H k Hk) as [c [Hc E]].
  apply negb_false_iff. apply set_has_In. apply In_new_Set. apply in_map_iff.
  exists c. now split.
Qed.

(** The array [changes] before sorting: the changed spans in span order. *)
Lemma build_changes_filter (spans : list CitationContext) :
  (forall c, In c spans -> exists k, In k corrections /\ cor_id k = ctx_num c) ->
  build_changes correctionMap spans =
  map (fun c => {| ch_context := c; ch_replacement := replacement_of corrections c |})
      (filter (is_changed corrections) spans).
Proof.
  induction spans as [|c spans IH]; intros H; simpl; [reflexivity|].
  rewrite IH by (intros c' Hc'; apply H; now right).
  destruct (correction_for_Some c (H c (or_introl eq_refl))) as [r Hr].
  assert (E : map_get_bang correctionMap (ctx_num c) = replacement_of corrections c).
  { unfold map_get_bang, replacement_of. now rewrite correctionMap_get, Hr. }
  rewrite E. unfold is_changed.
  destruct (str_eqb (replacement_of corrections c) (ctx_original c)); reflexivity.
Qed.

Lemma laid_out_starts (lo : nat) (spans : list CitationContext) :
  spans_laid_out text lo spans ->
  forall c, In c spans -> lo <= ctx_start c.
Proof.
  revert lo; induction spans as [|d spans IH]; simpl; intros lo H c Hc; [tauto|].
  destruct H as [Hlo [[Hse _] Hrest]]. destruct Hc as [<- | Hc]; [assumption|].
  specialize (IH _ Hrest c Hc). lia.
Qed.

(** Spans laid out from left to right come out of the descending sort in
    reverse order. *)
Lemma sort_changes_rev (lo : nat) (spans : list CitationContext)
    (f : CitationContext -> str) (keep : CitationContext -> bool) :
  spans_laid_out text lo spans ->
  sort_by by_start_desc
    (map (fun c => {| ch_context := c; ch_replacement := f c |}) (filter keep spans)) =
  rev (map (fun c => {| ch_context := c; ch_replacement := f c |}) (filter keep spans)).
Proof.
  revert lo; induction spans as [|c spans IH]; intros lo H; simpl; [reflexivity|].
  destruct H as [Hlo [[Hse Hok] Hrest]].
  destruct (keep c); simpl.
  - rewrite (IH _ Hrest). apply insert_by_last.
    intros y Hy. apply in_rev, in_map_iff in Hy as [d [<- Hd]].
    apply filter_In in Hd as [Hd _].
    pose proof (laid_out_starts _ _ Hrest d Hd).
    unfold by_start_desc; simpl. lia.
  - apply (IH _ Hrest).
Qed.

(** The splicing loop, read from the last change to the first. *)
Lemma splice_loop (lo : nat) (spans : list CitationContext) :
  spans_laid_out text lo spans -> lo <= length text ->
  fold_right (fun ch acc => apply_change acc ch) (text, [])
    (map (fun c => {| ch_context := c; ch_replacement := replacement_of corrections c |})
         (filter (is_changed corrections) spans)) =
  (firstn lo text ++ spliced text lo spans (replacement_of corrections),
   rev (map (audit_of corrections) (filter (is_changed corrections) spans))).
Proof.
  revert lo; induction spans as [|c spans IH]; intros lo H Hlen; simpl.
  - unfold slice_from. now rewrite firstn_skipn.
  - destruct H as [Hlo [[Hse [Hend Horig]] Hrest]].
    specialize (IH _ Hrest Hend).
    assert (Hsplit : firstn lo text ++ slice text lo (ctx_start c) = firstn (ctx_start c) text).
    { rewrite <- !slice_0. symmetry. apply slice_split; lia. }
    destruct (is_changed corrections c) eqn:Hch; simpl.
    + rewrite IH. unfold apply_change; simpl. f_equal.
      * rewrite (app_assoc (firstn lo text)), Hsplit, slice_0. f_equal.
        -- rewrite firstn_app, firstn_firstn.
           rewrite length_firstn.
           replace (ctx_start c - Nat.min (ctx_end c) (length text)) with 0 by lia.
           rewrite firstn_0, app_nil_r. f_equal. lia.
        -- f_equal. unfold slice_from. rewrite skipn_app.
           rewrite length_firstn.
           replace (ctx_end c - Nat.min (ctx_end c) (length text)) with 0 by lia.
           rewrite skipn_0.
           rewrite skipn_all2 by (rewrite length_firstn; lia). reflexivity.
    + rewrite IH. f_equal.
      unfold is_changed in Hch. apply negb_false_iff, str_eqb_eq in Hch.
      rewrite Hch, Horig, (app_assoc (firstn lo text)), Hsplit.
      rewrite <- !slice_0. rewrite app_assoc. f_equal.
      apply slice_split; lia.
Qed.

(** [applyCorrections] on spans laid out over the text and corrections with
    the same ids. *)
Lemma applyCorrections_ok (spans : list CitationContext) :
  spans_laid_out text 0 spans -> ids_match spans corrections ->
  applyCorrections text spans corrections =
  Ok {| ar_text := spliced text 0 spans (replacement_of corrections);
        appliedCorrections :=
          map (audit_of corrections) (filter (is_changed corrections) spans) |}.
Proof.
  intros Hlay Hids. unfold applyCorrections.
  rewrite (no_missing_correction _ Hids), (no_unknown_correction _ Hids).
  rewrite build_changes_filter by apply Hids.
  rewrite (sort_changes_rev _ _ _ _ Hlay).
  rewrite <- fold_left_rev_right, rev_involutive.
  rewrite (splice_loop _ _ Hlay) by lia.
  simpl. now rewrite rev_involutive.
Qed.

(** Replacing every span by its own text gives the text back. *)
Lemma spliced_original (lo : nat) (spans : list CitationContext)
    (repl : CitationContext -> str) :
  spans_laid_out text lo spans ->
  (forall c, In c spans -> repl c = ctx_original c) ->
  spliced text lo spans repl = slice_from text lo.
Proof.
  revert lo; induction spans as [|c spans IH]; intros lo H Hr; simpl; [reflexivity|].
  destruct H as [Hlo [[Hse [Hend Horig]] Hrest]].
  rewrite (IH _ Hrest) by (intros d Hd; apply Hr; now right).
  rewrite (Hr c (or_introl eq_refl)), Horig.
  rewrite (slice_then_rest text lo (ctx_start c)) by lia.
  f_equal. symmetry. apply slice_then_rest. lia.
Qed.

End ApplyCorrections.

Lemma spliced_app (text : str) (repl : CitationContext -> str)
    (l1 : list CitationContext) (c : CitationContext) (l2 : list CitationContext)
    (pos : nat) :
  spliced text pos (l1 ++ c :: l2) repl =
  spliced_to text pos l1 repl (ctx_start c) ++ repl c ++ spliced text (ctx_end c) l2 repl.
Proof.
  revert pos; induction l1 as [|d l1 IH]; intros pos; simpl; [reflexivity|].
  rewrite IH. now rewrite <- !app_assoc.
Qed.

Lemma ascending_starts (text : str) (keep : CitationContext -> bool)
    (lo : nat) (spans : list CitationContext) :
  spans_laid_out text lo spans ->
  ascending (map ctx_start (filter keep spans)) /\
  forall x, In x (map ctx_start (filter keep spans)) -> lo <= x.
Proof.
  revert lo; induction spans as [|c spans IH]; intros lo H; simpl.
  - split; [exact I | tauto].
  - destruct H as [Hlo [[Hse _] Hrest]].
    destruct (IH _ Hrest) as [Hasc Hlow].
    destruct (keep c); simpl.
    + split.
      * split; [|assumption].
        destruct (map ctx_start (filter keep spans)) as [|y ys] eqn:E; [exact I|].
        specialize (Hlow y (or_introl eq_refl)). lia.
      * intros x [<- | Hx]; [assumption|]. specialize (Hlow x Hx). lia.
    + split; [assumption|]. intros x Hx. specialize (Hlow x Hx). lia.
Qed.

Lemma sample_laid_out : spans_laid_out sample_text 0 sample_spans.
Proof.
  simpl. unfold span_ok. simpl.
  repeat split; try lia; reflexivity.
Qed.

Lemma sample_ids_match : ids_match sample_spans sample_corrections.
Proof.
  split.
  - intros c [<- | [<- | []]].
    + exists {| cor_id := num_of_nat 0; cor_citation := lit "AAAAAAA" |}.
      simpl; auto.
    + exists {| cor_id := num_of_nat 1; cor_citation := lit "B" |}.
      simpl; auto.
  - intros k [<- | [<- | []]].
    + exists {| ctx_id := 0; ctx_original := lit "AAA"; ctx_before := [];
                ctx_after := lit "then"; ctx_start := 0; ctx_end := 3 |}.
      simpl; auto.
    + exists {| ctx_id := 1; ctx_original := lit "BBB"; ctx_before := lit "then";
                ctx_after := lit "end"; ctx_start := 9; ctx_end := 12 |}.
      simpl; auto.
Qed.

(** C1.  For a text, spans laid out over it (each a non-empty range of the
    text holding the stored text, from left to right without overlap) and
    corrections whose ids are exactly the spans' ids, [applyCorrections]
    succeeds; every span has a correction; the returned text is the
    original with every span replaced by its correction and everything
    between the spans copied, where an unchanged span's correction is its
    own text; the part of the result before a span's replacement depends
    only on the spans before it, whatever the lengths of the later
    replacements; and when every correction equals its span's text the
    result is the original text with no change recorded. *)
Theorem applyCorrections_splices (text : str) (spans : list CitationContext)
    (corrections : list CitationCorrection) :
  spans_laid_out text 0 spans ->
  ids_match spans corrections ->
  exists r,
    applyCorrections text spans corrections = Ok r /\
    (forall c, In c spans ->
       correction_for corrections c = Some (replacement_of corrections c)) /\
    ar_text r = spliced text 0 spans (replacement_of corrections) /\
    (forall c, In c spans -> is_changed corrections c = false ->
       replacement_of corrections c = slice text (ctx_start c) (ctx_end c)) /\
    (forall l1 c l2, spans = l1 ++ c :: l2 ->
       ar_text r =
       spliced_to text 0 l1 (replacement_of corrections) (ctx_start c) ++
       replacement_of corrections c ++
       spliced text (ctx_end c) l2 (replacement_of corrections)) /\
    ((forall c, In c spans -> correction_for corrections c = Some (ctx_original c)) ->
       ar_text r = text /\ appliedCorrections r = []).
Proof.
  intros Hlay Hids. eexists. split; [apply applyCorrections_ok; assumption|].
  simpl. repeat split.
  - intros c Hc. destruct (correction_for_Some corrections c (proj1 Hids c Hc)) as [x Hx].
    unfold replacement_of. now rewrite Hx.
  - intros c Hc Hch. unfold is_changed in Hch.
    apply negb_false_iff, str_eqb_eq in Hch. rewrite Hch.
    clear Hch Hids. revert Hlay Hc. generalize 0.
    induction spans as [|d spans' IH]; simpl; intros lo Hlay Hc; [tauto|].
    destruct Hlay as [_ [[_ [_ Ho]] Hrest]].
    destruct Hc as [<- | Hc]; [assumption | now apply (IH _ Hrest)].
  - intros l1 c l2 ->. apply spliced_app.
  - rewrite (spliced_original text 0 spans (replacement_of corrections) Hlay).
    + reflexivity.
    + intros c Hc. unfold replacement_of. now rewrite (H c Hc).
  - assert (E : filter (is_changed corrections) spans = []).
    { clear Hlay Hids. induction spans as [|c spans' IH]; simpl; [reflexivity|].
      unfold is_changed at 1, replacement_of.
      rewrite (H c (or_introl eq_refl)), str_eqb_refl. simpl.
      apply IH. intros d Hd. apply H. now right. }
    now rewrite E.
Qed.

Lemma applyCorrections_splices_witness :
  exists r,
    applyCorrections sample_text sample_spans sample_corrections = Ok r /\
    ar_text r = lit "AAAAAAA then B end".
Proof.
  destruct (applyCorrections_splices sample_text sample_spans sample_corrections
              sample_laid_out sample_ids_match) as [r [E [_ [T _]]]].
  exists r. split; [exact E|]. rewrite T. reflexivity.
Defined.

(** C7.  For spans laid out over the text and corrections with the same
    ids, the change list that [applyCorrections] returns holds the changed
    spans' start offsets in strictly ascending order, although the splices
    are applied in descending order. *)
Theorem applyCorrections_changes_ascending (text : str)
    (spans : list CitationContext) (corrections : list CitationCorrection) :
  spans_laid_out text 0 spans ->
  ids_match spans corrections ->
  exists r,
    applyCorrections text spans corrections = Ok r /\
    map position (appliedCorrections r) =
      map ctx_start (filter (is_changed corrections) spans) /\
    ascending (map position (appliedCorrections r)).
Proof.
  intros Hlay Hids. eexists. split; [apply applyCorrections_ok; assumption|].
  simpl.
  assert (E : map position (map (audit_of corrections) (filter (is_changed corrections) spans))
              = map ctx_start (filter (is_changed corrections) spans)).
  { rewrite map_map. reflexivity. }
  split; [exact E|]. rewrite E.
  apply (ascending_starts text (is_changed corrections) 0 spans Hlay).
Qed.

Lemma applyCorrections_changes_ascending_witness :
  exists r,
    applyCorrections sample_text sample_spans sample_corrections = Ok r /\
    map position (appliedCorrections r) = [0; 9].
Proof.
  destruct (applyCorrections_changes_ascending sample_text sample_spans
              sample_corrections sample_laid_out sample_ids_match)
    as [r [E [P _]]].
  exists r. split; [exact E|]. rewrite P. reflexivity.
Defined.

(* ================================================================== *)
(** * [extractCitations]: what the spans satisfy *)
(* ================================================================== *)

Lemma laid_out_nth (text : str) (lo : nat) (spans : list CitationContext)
    (i j : nat) (a b : CitationContext) :
  spans_laid_out text lo spans -> i < j ->
  nth_error spans i = Some a -> nth_error spans j = Some b ->
  ctx_end a <= ctx_start b /\ ctx_start a < ctx_start b.
Proof.
  revert lo i j; induction spans as [|c spans IH]; intros lo i j H Hij Ha Hb.
  - destruct i; discriminate.
  - destruct H as [Hlo [[Hse _] Hrest]].
    destruct j as [|j]; [lia|]. simpl in Hb.
    destruct i as [|i]; simpl in Ha.
    + injection Ha as <-.
      pose proof (laid_out_starts text _ _ Hrest b (nth_error_In _ _ Hb)). lia.
    + apply (IH _ i j Hrest); [lia | assumption | assumption].
Qed.

Lemma laid_out_each (text : str) (lo : nat) (spans : list CitationContext)
    (c : CitationContext) :
  spans_laid_out text lo spans -> In c spans -> span_ok text c.
Proof.
  revert lo; induction spans as [|d spans IH]; intros lo H Hc; [contradiction|].
  destruct H as [_ [Hd Hrest]]. destruct Hc as [<-|Hc]; [assumption|].
  now apply (IH _ Hrest).
Qed.

(** C9.  Whatever the text and the context width: every span that
    [extractCitations] returns is a non-empty range inside the text
    ([start < end <= length text], and [0 <= start] as positions are
    natural numbers), its stored text is the text of that range, the ids
    are 0, 1, 2, ... in the order of the list, and the start offsets grow
    strictly along the list, so the ids follow the spans from left to
    right.  The spans are those left by merging and signal fusion. *)
Theorem extracted_spans_well_formed (text : str) (contextSize : nat) :
  (forall c, In c (extractCitations text contextSize) ->
     0 <= ctx_start c /\ ctx_start c < ctx_end c /\ ctx_end c <= length text /\
     ctx_original c = slice text (ctx_start c) (ctx_end c)) /\
  map ctx_id (extractCitations text contextSize) =
    seq 0 (length (extractCitations text contextSize)) /\
  ascending (map ctx_start (extractCitations text contextSize)).
Proof.
  pose proof (extractCitations_laid_out text contextSize) as H.
  split; [|split].
  - intros c Hc. destruct (laid_out_each text 0 _ c H Hc) as [H1 [H2 H3]].
    repeat split; try lia; assumption.
  - apply extractCitations_ids.
  - pose proof (ascending_starts text (fun _ => true) 0 _ H) as [A _].
    assert (E : forall l : list CitationContext, filter (fun _ => true) l = l).
    { induction l as [|x l IH]; simpl; [reflexivity | now rewrite IH]. }
    now rewrite E in A.
Qed.

(** C10.  Whatever the text and the context width: of two spans that
    [extractCitations] returns, the one that comes first in the list ends
    at or before the start of the other, and starts strictly before it.
    This is about the spans as returned, after signal fusion has moved
    starts backward. *)
Theorem extracted_spans_disjoint (text : str) (contextSize : nat) (i j : nat)
    (a b : CitationContext) :
  i < j ->
  nth_error (extractCitations text contextSize) i = Some a ->
  nth_error (extractCitations text contextSize) j = Some b ->
  ctx_end a <= ctx_start b /\ ctx_start a < ctx_start b.
Proof.
  intros Hij Ha Hb.
  exact (laid_out_nth text 0 _ i j a b (extractCitations_laid_out text contextSize)
           Hij Ha Hb).
Qed.

Lemma extracted_spans_disjoint_witness :
  ctx_end first_span <= ctx_start second_span /\
  ctx_start first_span < ctx_start second_span.
Proof.
  apply (extracted_spans_disjoint signal_between 100 0 1 first_span second_span).
  - lia.
  - vm_compute. reflexivity.
  - vm_compute. reflexivity.
Defined.

(** The windows of a span, as the code computes them.  For every span
    that [extractCitations] returns: [before] is the window of at most
    [contextSize] code units that ends at the span's start, and whenever
    that window does not reach the start of the text and holds white
    space, it loses what comes before its first white space and the white
    space that follows; [after] is the window of at most [contextSize]
    code units that starts at the span's end, and whenever that window
    does not reach the end of the text it is cut at its last white space,
    unless that is its first code unit or it has none.  A span at the
    start of the text has an empty [before], a span at the end an empty
    [after], and with [contextSize = 0] both are empty. *)
Theorem context_windows (text : str) (contextSize : nat) (c : CitationContext) :
  In c (extractCitations text contextSize) ->
  ctx_before c = before_window text contextSize (ctx_start c) /\
  ctx_after c = after_window text contextSize (ctx_end c) /\
  length (ctx_before c) <= contextSize /\
  length (ctx_after c) <= contextSize /\
  (ctx_start c = 0 -> ctx_before c = []) /\
  (ctx_end c = length text -> ctx_after c = []) /\
  (contextSize = 0 -> ctx_before c = [] /\ ctx_after c = []).
Proof.
  intros Hc. unfold extractCitations in Hc.
  apply build_contexts_windows in Hc as [Hb Ha].
  rewrite context_before_window in Hb. rewrite context_after_window in Ha.
  rewrite Hb, Ha. clear Hb Ha.
  generalize (ctx_start c) as start, (ctx_end c) as end_. intros start end_.
  assert (Lb : length (before_window text contextSize start) <= contextSize).
  { unfold before_window.
    pose proof (slice_length_bound text (start - contextSize) start) as W.
    destruct (start <=? contextSize); [lia|].
    destruct (first_space _) as [i|]; [|lia].
    pose proof (trimStart_length (skipn i (slice text (start - contextSize) start))) as T.
    rewrite length_skipn in T. lia. }
  assert (La : length (after_window text contextSize end_) <= contextSize).
  { unfold after_window.
    pose proof (slice_length_bound text end_ (end_ + contextSize)) as W.
    destruct (length text <=? end_ + contextSize); [lia|].
    destruct (last_space _) as [[|i]|]; try lia.
    rewrite length_firstn. lia. }
  split; [reflexivity|]. split; [reflexivity|].
  split; [assumption|]. split; [assumption|].
  split; [|split].
  - intros ->. reflexivity.
  - intros ->. unfold after_window.
    destruct (Nat.leb_spec (length text) (length text + contextSize)) as [L|L]; [|lia].
    unfold slice. now rewrite skipn_all, firstn_nil.
  - intros ->. split.
    + destruct (before_window text 0 start); [reflexivity | simpl in Lb; lia].
    + destruct (after_window text 0 end_); [reflexivity | simpl in La; lia].
Qed.

Lemma context_windows_witness :
  ctx_before preamble_span = before_window preamble_text 10 (ctx_start preamble_span) /\
  ctx_after preamble_span = after_window preamble_text 10 (ctx_end preamble_span) /\
  length (ctx_before preamble_span) <= 10 /\
  length (ctx_after preamble_span) <= 10.
Proof.
  destruct (context_windows preamble_text 10 preamble_span) as [B [A [Lb [La _]]]].
  - vm_compute. left. reflexivity.
  - repeat split; assumption.
Defined.

(** C8.  The code at an input where the claim, and the comment of the
    code on the trimming (trim to word boundary if we sliced mid-word),
    ask for the window as it is.  With a context width of 10 the span
    starts at position 42 and the window of ten code units before it is
    the word and the space that precede the span; the code unit before
    the window is a space and the window begins with a letter, so the cut
    fell between two words, not inside one; and yet the word is dropped:
    [before] is empty.  The same on the other side: with a context width
    of 12 the span ends at position 86 and the window after it ends with
    a whole word, the next code unit being a space; and yet that word is
    dropped from [after]. *)
Theorem context_cut_between_words :
  (ctx_start preamble_span = 42 /\
   slice preamble_text (42 - 10) 42 = lit "citation. " /\
   nth_error preamble_text 31 = Some 32%N /\
   is_space 32%N = true /\
   ctx_before preamble_span = []) /\
  (ctx_end (nth 0 (extractCitations preamble_text 12) no_context) = 86 /\
   slice preamble_text 86 (86 + 12) = lit " followed by" /\
   nth_error preamble_text (86 + 12) = Some 32%N /\
   ctx_after (nth 0 (extractCitations preamble_text 12) no_context) = lit " followed").
Proof. repeat split; vm_compute; reflexivity. Qed.

(* ================================================================== *)
(** * [bluebookify]: batches and their validation *)
(* ================================================================== *)

Lemma ceil_div_le (n b j : nat) : 1 <= b -> (ceil_div n b <= j <-> n <= j * b).
Proof.
  intros Hb. unfold ceil_div.
  pose proof (Nat.Div0.mul_div_le (n + b - 1) b) as H1.
  pose proof (Nat.mul_succ_div_gt (n + b - 1) b ltac:(lia)) as H2.
  split; intros H; nia.
Qed.

Lemma requireInt_index (value : jsnum) (name : str) (min : Z) :
  requireInt value name min = Ok tt -> (min <= Z.of_nat (to_index value))%Z \/ (min <= 0)%Z.
Proof.
  destruct value as [q| |neg]; simpl; try discriminate.
  destruct (Qle_bool (inject_Z min) q) eqn:E; simpl; [|discriminate].
  intros _. apply Qle_bool_iff in E.
  apply Qfloor_resp_le in E. rewrite Qfloor_Z in E.
  destruct (Z.le_gt_cases min 0); [now right | left]. lia.
Qed.

Lemma batchSize_positive (value : jsnum) (name : str) :
  requireInt value name 1 = Ok tt -> 1 <= to_index value.
Proof. intros H. apply requireInt_index in H. lia. Qed.

Section Runs.

Variable World : Type.
Variable LlmOptions : Type.
Variable resolveLlm : BluebookifyOptions LlmOptions -> result (LlmFn World).
Variable llmFn : LlmFn World.
Variable rules : option str.
Variable contexts : list CitationContext.
Variable b : nat.
Hypothesis b_positive : 1 <= b.

Local Abbreviation n := (length contexts).
Local Abbreviation requests := (batch_requests contexts b rules).

Lemma request_of_batch (j : nat) :
  j * b < n ->
  nth_error requests j = Some (buildMessages (slice contexts (j * b) (j * b + b)) rules).
Proof.
  intros H. unfold batch_requests.
  rewrite nth_error_map_seq.
  - unfold batch_of. rewrite (slice_clip contexts (j * b) (j * b + b)).
    now replace ((j + 1) * b) with (j * b + b) by lia.
  - destruct (Nat.le_gt_cases (ceil_div n b) j) as [L|L]; [|exact L].
    apply ceil_div_le in L; [lia | assumption].
Qed.

(** The loop from the head of batch [j] on: it ends, the requests sent are
    the requests of the first [k] batches, and all the batches are sent
    when no reply is rejected. *)
Lemma batch_loop_sent (fuel j : nat) (all : list CitationCorrection) (w : World) :
  n - j * b <= fuel -> j <= ceil_div n b ->
  exists k w' res,
    batch_loop llmFn rules contexts b fuel (j * b) all (firstn j requests) w =
      Some (firstn k requests, w', res) /\
    j <= k <= ceil_div n b /\
    (j * b < n -> j < k) /\
    (forall cs, res = Ok cs -> k = ceil_div n b).
Proof.
  revert j all w; induction fuel as [|fuel IH]; intros j all w Hfuel Hj.
  - simpl. destruct (Nat.leb_spec n (j * b)) as [L|L]; [|lia].
    exists j, w, (Ok all). repeat split; try lia.
    intros _ _. apply (ceil_div_le n b j b_positive) in L. lia.
  - simpl. destruct (Nat.leb_spec n (j * b)) as [L|L].
    + exists j, w, (Ok all). repeat split; try lia.
      intros _ _. apply (ceil_div_le n b j b_positive) in L. lia.
    + assert (Hlt : j < ceil_div n b).
      { destruct (Nat.le_gt_cases (ceil_div n b) j) as [C|C]; [|exact C].
        apply ceil_div_le in C; [lia | assumption]. }
      destruct (llmFn _ w) as [response w'] eqn:Ecall.
      rewrite <- (firstn_snoc requests j _ (request_of_batch j L)).
      destruct (check_reply _ response) as [cs|e] eqn:Echeck.
      * replace (j * b + b) with (S j * b) by lia.
        destruct (IH (S j) (all ++ cs) w') as [k [w'' [res [E [Hk [_ Hres]]]]]];
          [lia | lia |].
        exists k, w'', res. rewrite E. repeat split; try lia. exact Hres.
      * exists (S j), w', (Err e). repeat split; try lia. discriminate.
Qed.

(** Turns whose replies are accepted do not change what the loop returns,
    and leave enough fuel for the rest. *)
Lemma reached_same_result (s0 s : loop_state World) :
  reached llmFn rules contexts b s0 s ->
  batch_loop llmFn rules contexts b (ls_fuel s0) (ls_i s0) (ls_all s0) (ls_sent s0)
    (ls_world s0) =
  batch_loop llmFn rules contexts b (ls_fuel s) (ls_i s) (ls_all s) (ls_sent s)
    (ls_world s).
Proof.
  induction 1 as [s|s1 s2 s3 _ IH Hturn]; [reflexivity|].
  rewrite IH. destruct Hturn as [fuel i all sent w w' response cs Hi Hcall Hcheck].
  simpl. destruct (Nat.leb_spec n i); [lia|].
  now rewrite Hcall, Hcheck.
Qed.

Lemma reached_fuel (s0 s : loop_state World) :
  reached llmFn rules contexts b s0 s ->
  n - ls_i s0 <= ls_fuel s0 -> n - ls_i s <= ls_fuel s.
Proof.
  induction 1 as [s|s1 s2 s3 _ IH Hturn]; intros H0; [assumption|].
  specialize (IH H0). destruct Hturn; simpl in *. lia.
Qed.

(** The turn at a state of the loop that can be reached, when the reply
    is rejected. *)
Lemma rejected_turn (s : loop_state World) (response : result str) (w' : World)
    (e : error) :
  n - ls_i s <= ls_fuel s ->
  ls_i s < n ->
  llmFn (buildMessages (slice contexts (ls_i s) (ls_i s + b)) rules) (ls_world s) =
    (response, w') ->
  check_reply (slice contexts (ls_i s) (ls_i s + b)) response = Err e ->
  batch_loop llmFn rules contexts b (ls_fuel s) (ls_i s) (ls_all s) (ls_sent s)
    (ls_world s) =
  Some (ls_sent s ++ [buildMessages (slice contexts (ls_i s) (ls_i s + b)) rules],
        w', Err e).
Proof.
  intros Hfuel Hi Hcall Hcheck.
  destruct s as [fuel i all sent w]; simpl in *.
  destruct fuel as [|fuel]; [lia|].
  simpl. destruct (Nat.leb_spec n i); [lia|].
  now rewrite Hcall, Hcheck.
Qed.

End Runs.

(** ** [validateBatchIds] *)

Lemma validate_foreign (cs : list CitationCorrection) (ids : list number) :
  (exists c, In c cs /\ ~ In (cor_id c) ids) ->
  exists c, In c cs /\ ~ In (cor_id c) ids /\
            validateBatchIds cs (new_Set ids) = Err (UnexpectedBatchId (cor_id c)).
Proof.
  intros [c [Hc Hf]]. unfold validateBatchIds.
  destruct (find _ cs) as [c'|] eqn:F.
  - apply find_some in F as [Hin Hneg]. exists c'.
    split; [assumption|]. split; [|reflexivity].
    apply negb_true_iff in Hneg. intros Hid.
    apply (proj2 (In_new_Set _ _)) in Hid. apply set_has_In in Hid. congruence.
  - exfalso. apply find_none with (x := c) in F; [|assumption].
    apply negb_false_iff in F. apply set_has_In in F.
    apply (proj1 (In_new_Set _ _)) in F. contradiction.
Qed.

Lemma validate_missing (cs : list CitationCorrection) (ids : list number) :
  (forall c, In c cs -> In (cor_id c) ids) ->
  (exists id, In id ids /\ forall c, In c cs -> cor_id c <> id) ->
  exists id, In id ids /\ (forall c, In c cs -> cor_id c <> id) /\
             validateBatchIds cs (new_Set ids) = Err (MissingBatchId id).
Proof.
  intros Hall [id [Hid Hno]]. unfold validateBatchIds.
  assert (F : find (fun c => negb (set_has (new_Set ids) (cor_id c))) cs = None).
  { apply find_none_iff. intros c Hc.
    apply negb_false_iff. apply set_has_In. apply In_new_Set. now apply Hall. }
  rewrite F.
  destruct (find _ (new_Set ids)) as [id'|] eqn:G.
  - apply find_some in G as [Hin Hneg]. exists id'.
    split; [|split; [|reflexivity]].
    + now apply In_new_Set.
    + intros c Hc E. apply negb_true_iff in Hneg.
      assert (X : existsb (fun c0 => num_eqb (cor_id c0) id') cs = true).
      { apply existsb_exists. exists c. split; [assumption | now apply num_eqb_eq]. }
      congruence.
  - exfalso. apply find_none with (x := id) in G; [|now apply In_new_Set].
    apply negb_false_iff in G. apply existsb_exists in G as [c [Hc E]].
    apply num_eqb_eq in E. exact (Hno c Hc E).
Qed.

(** ** The run *)

Section Pipeline.

Variable World : Type.
Variable LlmOptions : Type.
Variable resolveLlm : BluebookifyOptions LlmOptions -> result (LlmFn World).

(** [bluebookify] under a valid configuration, in terms of the loop. *)
Lemma bluebookify_valid (text : str) (options : BluebookifyOptions LlmOptions)
    (llmFn : LlmFn World) (w : World) :
  valid_configuration resolveLlm options llmFn ->
  bluebookify resolveLlm text (Some options) w =
  let contexts := spans_of text options in
  if length contexts =? 0 then
    Some {| calls := []; world := w;
            outcome := Ok {| text := text; corrections := []; unchanged := true |} |}
  else
    match batch_loop llmFn (rules options) contexts (to_index (batchSize_of options))
            (length contexts) 0 [] [] w with
    | None => None
    | Some (sent, w', Err e) => Some {| calls := sent; world := w'; outcome := Err e |}
    | Some (sent, w', Ok allCorrections) =>
        Some {| calls := sent; world := w';
                outcome :=
                  r <- applyCorrections text contexts allCorrections ;;
                  Ok {| text := ar_text r;
                        corrections := appliedCorrections r;
                        unchanged := length (appliedCorrections r) =? 0 |} |}
    end.
Proof.
  intros [Hb [Hc Hr]]. unfold bluebookify. rewrite Hb, Hc, Hr. reflexivity.
Qed.

(** Every run ends, whatever the options and the oracle: the bound given
    to the loop is never what stops it. *)
Lemma bluebookify_total (text : str) (options : option (BluebookifyOptions LlmOptions))
    (w : World) :
  exists r, bluebookify resolveLlm text options w = Some r.
Proof.
  unfold bluebookify, failed. destruct options as [options|]; [|eexists; reflexivity].
  destruct (requireInt (batchSize_of options) _ 1) as [[]|e] eqn:Hb;
    [|eexists; reflexivity].
  destruct (requireInt (contextSize_of options) _ 0) as [[]|e];
    [|eexists; reflexivity].
  destruct (resolveLlm options) as [llmFn|e]; [|eexists; reflexivity].
  cbv zeta. destruct (length _ =? 0); [eexists; reflexivity|].
  apply batchSize_positive in Hb.
  destruct (batch_loop_sent World llmFn (rules options)
              (extractCitations text (to_index (contextSize_of options)))
              (to_index (batchSize_of options)) Hb
              (length (extractCitations text (to_index (contextSize_of options))))
              0 [] w) as [k [w' [res [E _]]]]; [lia | lia |].
  simpl in E. rewrite E. destruct res; eexists; reflexivity.
Qed.

(** C2.  Under a valid configuration, a text in which the extractor finds
    no span is returned as it is, with no correction and [unchanged] set,
    and the oracle is not called: no request is sent and the state of the
    oracle's world is the one the run began with. *)
Theorem no_span_no_oracle_call (text : str) (options : BluebookifyOptions LlmOptions)
    (llmFn : LlmFn World) (w : World) :
  valid_configuration resolveLlm options llmFn ->
  spans_of text options = [] ->
  bluebookify resolveLlm text (Some options) w =
  Some {| calls := []; world := w;
          outcome := Ok {| text := text; corrections := []; unchanged := true |} |}.
Proof.
  intros Hvalid Hnone. rewrite (bluebookify_valid text options llmFn w Hvalid).
  cbv zeta. now rewrite Hnone.
Qed.

End Pipeline.

(** A run on a text without citations. *)
Lemma no_span_no_oracle_call_witness :
  bluebookify (resolve_to (scripted_oracle [])) plain_text (Some default_options) 0 =
  Some {| calls := []; world := 0;
          outcome := Ok {| text := plain_text; corrections := []; unchanged := true |} |}.
Proof.
  apply (no_span_no_oracle_call nat unit (resolve_to (scripted_oracle []))
           plain_text default_options (scripted_oracle []) 0).
  - repeat split; vm_compute; reflexivity.
  - vm_compute. reflexivity.
Defined.

(* ================================================================== *)
(** * [core.ts]: the configuration *)
(* ================================================================== *)

Lemma num_of_Z_this (z : Z) : (this (num_of_Z z) == inject_Z z)%Q.
Proof. unfold num_of_Z. exact (Qred_correct (inject_Z z)). Qed.

Lemma integer_floor (q : Qc) :
  (inject_Z (Qfloor q) == q)%Q -> q = num_of_Z (Qfloor q).
Proof.
  intros H. apply Qc_is_canon. rewrite num_of_Z_this. now symmetry.
Qed.

Lemma requireInt_passes (value : jsnum) (name : str) (min : Z) :
  integer_at_least min value -> requireInt value name min = Ok tt.
Proof.
  intros [z [-> Hmin]]. unfold requireInt.
  assert (L : Qle_bool (inject_Z min) (num_of_Z z) = true).
  { apply Qle_bool_iff. rewrite num_of_Z_this. now rewrite <- Zle_Qle. }
  assert (E : Qeq_bool (inject_Z (Qfloor (num_of_Z z))) (num_of_Z z) = true).
  { apply Qeq_bool_iff. rewrite num_of_Z_this at 2.
    rewrite (Qfloor_comp _ _ (num_of_Z_this z)), Qfloor_Z. reflexivity. }
  now rewrite L, E.
Qed.

Lemma requireInt_passed (value : jsnum) (name : str) (min : Z) :
  requireInt value name min = Ok tt -> integer_at_least min value.
Proof.
  destruct value as [q| |neg]; simpl; try discriminate.
  destruct (Qle_bool (inject_Z min) q) eqn:L; simpl; [|discriminate].
  destruct (Qeq_bool (inject_Z (Qfloor q)) q) eqn:E; [|discriminate].
  intros _. apply Qeq_bool_iff in E. apply Qle_bool_iff in L.
  exists (Qfloor q). split.
  - f_equal. now apply integer_floor.
  - apply Qfloor_resp_le in L. now rewrite Qfloor_Z in L.
Qed.

Lemma requireInt_error (value : jsnum) (name : str) (min : Z) (e : error) :
  requireInt value name min = Err e -> e = InvalidOption name value min.
Proof.
  destruct value as [q| |neg]; simpl.
  - destruct (_ && _); [discriminate|]. now intros [= <-].
  - now intros [= <-].
  - now intros [= <-].
Qed.

(** X1.  [requireInt] passes exactly the finite integers that are not below
    [min]: not a number, an infinity, a fraction or a smaller number is
    refused, and the error carries the name, the value and the bound. *)
Theorem requireInt_accepts (value : jsnum) (name : str) (min : Z) :
  (requireInt value name min = Ok tt <-> integer_at_least min value) /\
  (forall e, requireInt value name min = Err e -> e = InvalidOption name value min).
Proof.
  split.
  - unfold integer_at_least. destruct value as [q| |neg]; simpl.
    + destruct (Qle_bool (inject_Z min) q) eqn:L; simpl.
      * destruct (Qeq_bool (inject_Z (Qfloor q)) q) eqn:E.
        -- split; [intros _ | reflexivity].
           apply Qeq_bool_iff in E. apply Qle_bool_iff in L.
           exists (Qfloor q). split.
           ++ f_equal. now apply integer_floor.
           ++ apply Qfloor_resp_le in L. now rewrite Qfloor_Z in L.
        -- split; [discriminate|]. intros [z [Hz _]]. injection Hz as ->.
           exfalso. apply Qeq_bool_neq in E. apply E.
           rewrite num_of_Z_this at 2.
           rewrite (Qfloor_comp _ _ (num_of_Z_this z)), Qfloor_Z. reflexivity.
      * split; [discriminate|]. intros [z [Hz Hmin]]. injection Hz as ->.
        exfalso. assert (X : Qle_bool (inject_Z min) (num_of_Z z) = true).
        { apply Qle_bool_iff. rewrite num_of_Z_this. now rewrite <- Zle_Qle. }
        congruence.
    + split; [discriminate|]. intros [z [Hz _]]. discriminate.
    + split; [discriminate|]. intros [z [Hz _]]. discriminate.
  - intros e. destruct value as [q| |neg]; simpl.
    + destruct (_ && _); [discriminate|]. now intros [= <-].
    + now intros [= <-].
    + now intros [= <-].
Qed.

Section Configuration.

Variable World : Type.
Variable LlmOptions : Type.
Variable resolveLlm : BluebookifyOptions LlmOptions -> result (LlmFn World).

(** X2.  The checks that [bluebookify] makes before it looks at the text, in
    their order: the options must be there, [batchSize] (20 when absent)
    must be an integer from 1 on, [contextSize] (100 when absent) an
    integer from 0 on, and [resolveLlm] must return an oracle.  The first
    check that fails gives the error of the run, whatever the later ones
    would say, and the oracle is not called.  A configuration is valid
    exactly when the three last checks pass. *)
Theorem configuration_checked_first (text : str) (w : World) :
  bluebookify resolveLlm text None w =
    Some {| calls := []; world := w; outcome := Err OptionsRequired |} /\
  forall options : BluebookifyOptions LlmOptions,
    (~ integer_at_least 1 (batchSize_of options) ->
     bluebookify resolveLlm text (Some options) w =
       Some {| calls := []; world := w;
               outcome := Err (InvalidOption (lit "batchSize") (batchSize_of options) 1) |}) /\
    (integer_at_least 1 (batchSize_of options) ->
     ~ integer_at_least 0 (contextSize_of options) ->
     bluebookify resolveLlm text (Some options) w =
       Some {| calls := []; world := w;
               outcome := Err (InvalidOption (lit "contextSize") (contextSize_of options) 0) |}) /\
    (integer_at_least 1 (batchSize_of options) ->
     integer_at_least 0 (contextSize_of options) ->
     forall e, resolveLlm options = Err e ->
     bluebookify resolveLlm text (Some options) w =
       Some {| calls := []; world := w; outcome := Err e |}) /\
    (forall llmFn,
       valid_configuration resolveLlm options llmFn <->
       integer_at_least 1 (batchSize_of options) /\
       integer_at_least 0 (contextSize_of options) /\
       resolveLlm options = Ok llmFn).
Proof.
  split; [reflexivity|]. intros options.
  assert (Bi : requireInt (batchSize_of options) (lit "batchSize") 1 = Ok tt <->
               integer_at_least 1 (batchSize_of options))
    by (split; [apply requireInt_passed | apply requireInt_passes]).
  assert (Ci : requireInt (contextSize_of options) (lit "contextSize") 0 = Ok tt <->
               integer_at_least 0 (contextSize_of options))
    by (split; [apply requireInt_passed | apply requireInt_passes]).
  pose proof (requireInt_error (batchSize_of options) (lit "batchSize") 1) as Be.
  pose proof (requireInt_error (contextSize_of options) (lit "contextSize") 0) as Ce.
  assert (Bok : integer_at_least 1 (batchSize_of options) ->
                requireInt (batchSize_of options) (lit "batchSize") 1 = Ok tt)
    by apply Bi.
  assert (Cok : integer_at_least 0 (contextSize_of options) ->
                requireInt (contextSize_of options) (lit "contextSize") 0 = Ok tt)
    by apply Ci.
  split; [|split; [|split]].
  - intros Hb. unfold bluebookify, failed.
    destruct (requireInt (batchSize_of options) (lit "batchSize") 1) as [[]|e] eqn:E.
    + exfalso. now apply Hb, Bi.
    + now rewrite (Be e eq_refl).
  - intros Hb Hc. unfold bluebookify, failed. rewrite (Bok Hb).
    destruct (requireInt (contextSize_of options) (lit "contextSize") 0) as [[]|e] eqn:E.
    + exfalso. now apply Hc, Ci.
    + now rewrite (Ce e eq_refl).
  - intros Hb Hc e He. unfold bluebookify, failed.
    now rewrite (Bok Hb), (Cok Hc), He.
  - intros llmFn. unfold valid_configuration. rewrite Bi, Ci. reflexivity.
Qed.

End Configuration.

(** A batch size that is not a number and a negative context size: the run
    fails on the batch size. *)
Lemma configuration_checked_first_witness :
  bluebookify (resolve_to (scripted_oracle [])) plain_text
    (Some (options_with_sizes NaN (Finite (num_of_Z (-1))))) 0 =
  Some {| calls := []; world := 0;
          outcome := Err (InvalidOption (lit "batchSize") NaN 1) |}.
Proof.
  apply (proj1 (proj2 (configuration_checked_first nat unit
                         (resolve_to (scripted_oracle [])) plain_text 0)
                 (options_with_sizes NaN (Finite (num_of_Z (-1)))))).
  intros [z [H _]]. discriminate H.
Defined.

(* ================================================================== *)
(** * [core.ts]: [validateBatchIds] *)
(* ================================================================== *)

Lemma validateBatchIds_passed (corrections : list CitationCorrection)
    (expectedIds : jsset) :
  validateBatchIds corrections expectedIds = Ok tt ->
  (forall c, In c corrections -> In (cor_id c) expectedIds) /\
  (forall id, In id expectedIds -> exists c, In c corrections /\ cor_id c = id).
Proof.
  unfold validateBatchIds.
  destruct (find _ corrections) as [c|] eqn:F; [discriminate|].
  destruct (find _ expectedIds) as [id|] eqn:G; [discriminate|].
  intros _. split.
  - intros c Hc. apply set_has_In.
    apply (find_none _ _ F) in Hc. now apply negb_false_iff in Hc.
  - intros id Hid. apply (find_none _ _ G) in Hid. apply negb_false_iff in Hid.
    apply existsb_exists in Hid as [c [Hc E]]. exists c.
    split; [assumption | now apply num_eqb_eq].
Qed.

Lemma validateBatchIds_passes (corrections : list CitationCorrection)
    (expectedIds : jsset) :
  (forall c, In c corrections -> In (cor_id c) expectedIds) ->
  (forall id, In id expectedIds -> exists c, In c corrections /\ cor_id c = id) ->
  validateBatchIds corrections expectedIds = Ok tt.
Proof.
  intros H1 H2. unfold validateBatchIds.
  assert (F : find (fun c => negb (set_has expectedIds (cor_id c))) corrections = None).
  { apply find_none_iff. intros c Hc. apply negb_false_iff, set_has_In. now apply H1. }
  rewrite F.
  assert (G : find (fun id => negb (existsb (fun c => num_eqb (cor_id c) id) corrections))
                expectedIds = None).
  { apply find_none_iff. intros id Hid. apply negb_false_iff.
    destruct (H2 id Hid) as [c [Hc E]]. apply existsb_exists. exists c.
    split; [assumption | now apply num_eqb_eq]. }
  now rewrite G.
Qed.

(** X3.  [validateBatchIds] passes a reply exactly when its ids are the ids of
    the batch: every correction carries an id of the batch and every id of
    the batch has a correction. *)
Theorem validateBatchIds_accepts (corrections : list CitationCorrection)
    (expectedIds : jsset) :
  validateBatchIds corrections expectedIds = Ok tt <->
  (forall c, In c corrections -> In (cor_id c) expectedIds) /\
  (forall id, In id expectedIds -> exists c, In c corrections /\ cor_id c = id).
Proof.
  unfold validateBatchIds.
  destruct (find _ corrections) as [c|] eqn:F.
  - split; [discriminate|]. intros [H _]. exfalso.
    apply find_some in F as [Hc Hn]. apply negb_true_iff in Hn.
    apply H, set_has_In in Hc. congruence.
  - pose proof (find_none _ _ F) as Hall.
    destruct (find _ expectedIds) as [id|] eqn:G.
    + split; [discriminate|]. intros [_ H]. exfalso.
      apply find_some in G as [Hid Hn]. apply negb_true_iff in Hn.
      destruct (H id Hid) as [c [Hc E]].
      assert (X : existsb (fun c0 => num_eqb (cor_id c0) id) corrections = true).
      { apply existsb_exists. exists c. split; [assumption | now apply num_eqb_eq]. }
      congruence.
    + pose proof (find_none _ _ G) as Hexp. split; [intros _ | reflexivity]. split.
      * intros c Hc. apply set_has_In. specialize (Hall c Hc).
        now apply negb_false_iff in Hall.
      * intros id Hid. specialize (Hexp id Hid). apply negb_false_iff in Hexp.
        apply existsb_exists in Hexp as [c [Hc E]]. exists c.
        split; [assumption | now apply num_eqb_eq].
Qed.

(* ================================================================== *)
(** * [core.ts]: how a run ends *)
(* ================================================================== *)

Lemma parseResponse_ok (response : str) (cs : list CitationCorrection) :
  parseResponse response = Ok cs ->
  NoDup (map cor_id cs) /\ (forall k, In k cs -> blank (cor_citation k) = false).
Proof.
  unfold parseResponse. destruct (find_array _) as [items|e]; simpl; [|discriminate].
  intros H. apply validate_items_ok in H as [_ [H1 [H2 _]]]. now split.
Qed.

Lemma check_reply_ok (batch : list CitationContext) (response : result str)
    (cs : list CitationCorrection) :
  check_reply batch response = Ok cs <->
  exists reply, response = Ok reply /\ parseResponse reply = Ok cs /\
                validateBatchIds cs (new_Set (map ctx_num batch)) = Ok tt.
Proof.
  unfold check_reply. split.
  - destruct response as [reply|e]; simpl; [|discriminate].
    destruct (parseResponse reply) as [cs'|e] eqn:P; simpl; [|discriminate].
    destruct (validateBatchIds cs' _) as [[]|e] eqn:V; simpl; [|discriminate].
    intros [= <-]. now exists reply.
  - intros [reply [-> [P H]]]. simpl. rewrite P. simpl. now rewrite H.
Qed.

Lemma check_reply_err (batch : list CitationContext) (response : result str)
    (e : error) :
  check_reply batch response = Err e <->
  response = Err e \/
  exists reply, response = Ok reply /\
    (parseResponse reply = Err e \/
     exists cs, parseResponse reply = Ok cs /\
                validateBatchIds cs (new_Set (map ctx_num batch)) = Err e).
Proof.
  unfold check_reply. split.
  - destruct response as [reply|e']; simpl; [|intros [= ->]; now left].
    intros H. right. exists reply. split; [reflexivity|].
    destruct (parseResponse reply) as [cs|e'] eqn:P; simpl in H;
      [|injection H as ->; now left].
    right. exists cs. split; [reflexivity|].
    destruct (validateBatchIds cs _) as [[]|e'] eqn:V; simpl in H; [discriminate|].
    now injection H as ->.
  - intros [-> | [reply [-> [P | [cs [P V]]]]]]; simpl; [reflexivity | |].
    + now rewrite P.
    + rewrite P. simpl. now rewrite V.
Qed.

Lemma ids_distinct (l : list CitationContext) :
  NoDup (map ctx_id l) -> NoDup (map ctx_num l).
Proof.
  intros H. unfold ctx_num. rewrite <- (map_map ctx_id num_of_nat).
  apply Finite.Injective_map_NoDup; [|assumption].
  intros x y. apply num_of_nat_inj.
Qed.

Lemma same_id_same_element {A B : Type} (f : A -> B) (l : list A) (x y : A) :
  NoDup (map f l) -> In x l -> In y l -> f x = f y -> x = y.
Proof.
  induction l as [|a l IH]; simpl; intros H Hx Hy E; [contradiction|].
  inversion H as [|? ? Hn Hl]; subst.
  destruct Hx as [<-|Hx], Hy as [<-|Hy]; try reflexivity.
  - exfalso. apply Hn. rewrite E. now apply in_map.
  - exfalso. apply Hn. rewrite <- E. now apply in_map.
  - now apply IH.
Qed.

Lemma ids_match_app (s1 s2 : list CitationContext) (c1 c2 : list CitationCorrection) :
  ids_match s1 c1 -> ids_match s2 c2 -> ids_match (s1 ++ s2) (c1 ++ c2).
Proof.
  intros [A1 A2] [B1 B2]. split.
  - intros c Hc. apply in_app_or in Hc as [Hc|Hc].
    + destruct (A1 c Hc) as [k [Hk E]]. exists k. split; [apply in_or_app; now left | exact E].
    + destruct (B1 c Hc) as [k [Hk E]]. exists k. split; [apply in_or_app; now right | exact E].
  - intros k Hk. apply in_app_or in Hk as [Hk|Hk].
    + destruct (A2 k Hk) as [c [Hc E]]. exists c. split; [apply in_or_app; now left | exact E].
    + destruct (B2 k Hk) as [c [Hc E]]. exists c. split; [apply in_or_app; now right | exact E].
Qed.

Lemma validated_ids_match (batch : list CitationContext) (cs : list CitationCorrection) :
  validateBatchIds cs (new_Set (map ctx_num batch)) = Ok tt -> ids_match batch cs.
Proof.
  intros H. apply validateBatchIds_passed in H as [H1 H2]. split.
  - intros c Hc.
    destruct (H2 (ctx_num c)) as [k [Hk E]]; [apply In_new_Set; now apply in_map|].
    now exists k.
  - intros k Hk. specialize (H1 k Hk).
    apply In_new_Set, in_map_iff in H1 as [c [E Hc]]. exists c. now split.
Qed.

Lemma one_each_app (s1 s2 : list CitationContext) (c1 c2 : list CitationCorrection) :
  NoDup (map ctx_id (s1 ++ s2)) ->
  one_each s1 c1 -> one_each s2 c2 -> one_each (s1 ++ s2) (c1 ++ c2).
Proof.
  intros Hnd [A1 [A2 A3]] [B1 [B2 B3]]. split; [|split].
  - now apply ids_match_app.
  - rewrite map_app. apply NoDup_app; try assumption.
    intros id H1 H2.
    apply in_map_iff in H1 as [k1 [E1 Hk1]]. apply in_map_iff in H2 as [k2 [E2 Hk2]].
    destruct (proj2 A1 k1 Hk1) as [x [Hx Ex]]. destruct (proj2 B1 k2 Hk2) as [y [Hy Ey]].
    assert (E : x = y).
    { apply (same_id_same_element ctx_id (s1 ++ s2)); try assumption.
      - apply in_or_app; now left.
      - apply in_or_app; now right.
      - apply num_of_nat_inj. fold (ctx_num x) (ctx_num y). congruence. }
    subst y. rewrite map_app in Hnd. clear - Hnd Hx Hy.
    induction s1 as [|a s1 IH]; simpl in *; [contradiction|].
    inversion Hnd as [|? ? Hn Hl]; subst.
    destruct Hx as [->|Hx]; [|now apply IH].
    apply Hn. apply in_or_app. right. now apply in_map.
  - intros k Hk. apply in_app_or in Hk as [Hk|Hk]; [now apply A3 | now apply B3].
Qed.

Section Loop.

Variable World : Type.
Variable llmFn : LlmFn World.
Variable rules : option str.
Variable contexts : list CitationContext.
Variable b : nat.

Local Abbreviation turns := (reached llmFn rules contexts b).

Lemma reached_first (s s1 s2 : loop_state World) :
  accepted_turn llmFn rules contexts b s s1 -> turns s1 s2 -> turns s s2.
Proof.
  intros Hturn H. induction H as [s1|s1 s2 s3 _ IH Hlast].
  - eapply reached_later; [apply reached_here | exact Hturn].
  - eapply reached_later; [exact (IH Hturn) | exact Hlast].
Qed.

(** A loop that ends well has gone through accepted turns only. *)
Lemma batch_loop_ok (fuel i : nat) (all : list CitationCorrection)
    (sent : list (list Message)) (w : World)
    (sent' : list (list Message)) (w' : World) (all' : list CitationCorrection) :
  batch_loop llmFn rules contexts b fuel i all sent w = Some (sent', w', Ok all') ->
  exists s', turns (mkLoop fuel i all sent w) s' /\
             length contexts <= ls_i s' /\ ls_all s' = all' /\
             ls_sent s' = sent' /\ ls_world s' = w'.
Proof.
  revert i all sent w. induction fuel as [|fuel IH]; intros i all sent w H; simpl in H.
  - destruct (Nat.leb_spec (length contexts) i) as [L|L]; [|discriminate].
    injection H as <- <- <-. eexists. split; [apply reached_here|]. now simpl.
  - destruct (Nat.leb_spec (length contexts) i) as [L|L].
    + injection H as <- <- <-. eexists. split; [apply reached_here|]. now simpl.
    + destruct (llmFn _ w) as [response w1] eqn:Ecall.
      destruct (check_reply _ response) as [cs|e] eqn:Echeck; [|discriminate].
      destruct (IH _ _ _ _ H) as [s' [Hr Hs']].
      exists s'. split; [|exact Hs'].
      eapply reached_first; [|exact Hr].
      apply accepted_turn_intro with (response := response); assumption.
Qed.

(** A loop that ends with an error has gone through accepted turns up to
    the call whose reply was rejected. *)
Lemma batch_loop_err (fuel i : nat) (all : list CitationCorrection)
    (sent : list (list Message)) (w : World)
    (sent' : list (list Message)) (w' : World) (e : error) :
  batch_loop llmFn rules contexts b fuel i all sent w = Some (sent', w', Err e) ->
  exists s' response,
    turns (mkLoop fuel i all sent w) s' /\
    ls_i s' < length contexts /\
    llmFn (buildMessages (slice contexts (ls_i s') (ls_i s' + b)) rules) (ls_world s') =
      (response, w') /\
    check_reply (slice contexts (ls_i s') (ls_i s' + b)) response = Err e /\
    sent' = ls_sent s' ++ [buildMessages (slice contexts (ls_i s') (ls_i s' + b)) rules].
Proof.
  revert i all sent w. induction fuel as [|fuel IH]; intros i all sent w H; simpl in H.
  - destruct (Nat.leb_spec (length contexts) i) as [L|L]; discriminate.
  - destruct (Nat.leb_spec (length contexts) i) as [L|L]; [discriminate|].
    destruct (llmFn _ w) as [response w1] eqn:Ecall.
    destruct (check_reply _ response) as [cs|e'] eqn:Echeck.
    + destruct (IH _ _ _ _ H) as [s' [response' [Hr Hs']]].
      exists s', response'. split; [|exact Hs'].
      eapply reached_first; [|exact Hr].
      apply accepted_turn_intro with (response := response); assumption.
    + injection H as <- <- <-.
      exists (mkLoop (S fuel) i all sent w), response. simpl.
      split; [apply reached_here|]. now repeat split.
Qed.

(** What the accepted turns have gathered answers the spans met so far one
    for one. *)
Lemma reached_one_each (s0 s : loop_state World) :
  NoDup (map ctx_id contexts) ->
  turns s0 s ->
  one_each (firstn (ls_i s0) contexts) (ls_all s0) ->
  one_each (firstn (ls_i s) contexts) (ls_all s).
Proof.
  intros Hnd H. induction H as [s|s1 s2 s3 _ IH Hturn]; intros H0; [assumption|].
  specialize (IH H0).
  destruct Hturn as [fuel i all sent w w' response cs Hi Hcall Hcheck]. simpl in *.
  apply check_reply_ok in Hcheck as [reply [_ [Hparse Hvalid]]].
  rewrite firstn_plus.
  replace (firstn b (skipn i contexts)) with (slice contexts i (i + b))
    by (unfold slice; f_equal; lia).
  apply one_each_app.
  - assert (E : firstn i contexts ++ slice contexts i (i + b) = firstn (i + b) contexts).
    { rewrite firstn_plus. unfold slice. do 2 f_equal. lia. }
    rewrite E. rewrite <- (firstn_skipn (i + b) contexts), map_app in Hnd.
    now apply NoDup_app_remove_r in Hnd.
  - exact IH.
  - split; [now apply validated_ids_match | now apply parseResponse_ok in Hparse].
Qed.

End Loop.

Lemma unchanged_spans (corrections : list CitationCorrection)
    (spans : list CitationContext) :
  filter (is_changed corrections) spans = [] <->
  forall c, In c spans -> replacement_of corrections c = ctx_original c.
Proof.
  induction spans as [|c spans IH]; simpl; [tauto|].
  unfold is_changed at 1.
  destruct (str_eqb (replacement_of corrections c) (ctx_original c)) eqn:E; simpl.
  - apply str_eqb_eq in E. rewrite IH. split.
    + intros H d [<-|Hd]; [assumption | now apply H].
    + intros H d Hd. apply H. now right.
  - split; [discriminate|]. intros H. exfalso.
    specialize (H c (or_introl eq_refl)). apply str_eqb_eq in H. congruence.
Qed.

Lemma replacement_of_unique (corrections : list CitationCorrection)
    (k : CitationCorrection) (c : CitationContext) :
  NoDup (map cor_id corrections) -> In k corrections -> cor_id k = ctx_num c ->
  replacement_of corrections c = cor_citation k.
Proof.
  intros Hnd Hk E. unfold replacement_of, correction_for.
  destruct (find _ (rev corrections)) as [k'|] eqn:F; simpl.
  - apply find_some in F as [Hk' E']. apply num_eqb_eq in E'.
    apply in_rev in Hk'.
    now rewrite (same_id_same_element cor_id corrections k' k Hnd Hk' Hk) by congruence.
  - exfalso. apply find_none with (x := k) in F; [|now apply in_rev in Hk].
    rewrite E, num_eqb_refl in F. discriminate.
Qed.

Section Outcome.

Variable World : Type.
Variable LlmOptions : Type.
Variable resolveLlm : BluebookifyOptions LlmOptions -> result (LlmFn World).

(** X4.  A run that succeeds.  Under a valid configuration, when the promise of
    [bluebookify] holds a result: the loop went through accepted turns
    only, up to the end of the spans; the corrections it gathered answer
    the spans one for one (the same ids, each once), none of them blank;
    the replacement of a span is the citation of the correction that
    carries its id; the text of the result is the input with every span
    replaced by its replacement and the rest copied; the corrections of
    the result are the audit records of the spans whose replacement
    differs from their text, in span order; and [unchanged] is set exactly
    when no replacement differs, in which case the text is the input. *)
Theorem successful_run (input : str) (options : BluebookifyOptions LlmOptions)
    (llmFn : LlmFn World) (w : World) (r : run World) (res : BluebookifyResult) :
  valid_configuration resolveLlm options llmFn ->
  bluebookify resolveLlm input (Some options) w = Some r ->
  outcome r = Ok res ->
  exists s,
    reached llmFn (rules options) (spans_of input options)
      (to_index (batchSize_of options)) (loop_entry (spans_of input options) w) s /\
    length (spans_of input options) <= ls_i s /\
    calls r = ls_sent s /\ world r = ls_world s /\
    Permutation (map cor_id (ls_all s)) (map ctx_num (spans_of input options)) /\
    (forall k, In k (ls_all s) -> blank (cor_citation k) = false) /\
    (forall k c, In k (ls_all s) -> In c (spans_of input options) ->
       cor_id k = ctx_num c -> replacement_of (ls_all s) c = cor_citation k) /\
    text res = spliced input 0 (spans_of input options) (replacement_of (ls_all s)) /\
    corrections res =
      map (audit_of (ls_all s))
          (filter (is_changed (ls_all s)) (spans_of input options)) /\
    (unchanged res = true <->
     forall c, In c (spans_of input options) ->
       replacement_of (ls_all s) c = ctx_original c) /\
    (unchanged res = true -> text res = input).
Proof.
  intros Hvalid Hrun Hres.
  rewrite (bluebookify_valid World LlmOptions resolveLlm input options llmFn w Hvalid) in Hrun.
  cbv zeta in Hrun.
  set (spans := spans_of input options) in *.
  pose proof (extractCitations_laid_out input (to_index (contextSize_of options))) as Hlay.
  fold (spans_of input options) in Hlay. fold spans in Hlay.
  assert (Hnd : NoDup (map ctx_id spans)).
  { unfold spans, spans_of. rewrite extractCitations_ids. apply seq_NoDup. }
  assert (Hend : forall s : loop_state World,
            reached llmFn (rules options) spans (to_index (batchSize_of options))
              (loop_entry spans w) s ->
            length spans <= ls_i s ->
            calls r = ls_sent s -> world r = ls_world s ->
            outcome r =
              (a <- applyCorrections input spans (ls_all s) ;;
               Ok {| text := ar_text a; corrections := appliedCorrections a;
                     unchanged := length (appliedCorrections a) =? 0 |}) ->
            exists s',
              reached llmFn (rules options) spans (to_index (batchSize_of options))
                (loop_entry spans w) s' /\
              length spans <= ls_i s' /\
              calls r = ls_sent s' /\ world r = ls_world s' /\
              Permutation (map cor_id (ls_all s')) (map ctx_num spans) /\
              (forall k, In k (ls_all s') -> blank (cor_citation k) = false) /\
              (forall k c, In k (ls_all s') -> In c spans ->
                 cor_id k = ctx_num c -> replacement_of (ls_all s') c = cor_citation k) /\
              text res = spliced input 0 spans (replacement_of (ls_all s')) /\
              corrections res =
                map (audit_of (ls_all s')) (filter (is_changed (ls_all s')) spans) /\
              (unchanged res = true <->
               forall c, In c spans -> replacement_of (ls_all s') c = ctx_original c) /\
              (unchanged res = true -> text res = input)).
  { intros s Hreach Hi Hcalls Hworld Hout.
    assert (Hone : one_each spans (ls_all s)).
    { rewrite <- (firstn_all2 spans Hi).
      apply (reached_one_each World llmFn (rules options) spans
               (to_index (batchSize_of options)) _ s Hnd Hreach).
      simpl. repeat split; try constructor; intros ? []. }
    destruct Hone as [Hids [Hdup Hblank]].
    rewrite (applyCorrections_ok input (ls_all s) spans Hlay Hids) in Hout.
    simpl in Hout. rewrite Hres in Hout. injection Hout as ->.
    exists s. simpl.
    assert (Hunch : (length (map (audit_of (ls_all s))
                               (filter (is_changed (ls_all s)) spans)) =? 0) = true <->
                    forall c, In c spans -> replacement_of (ls_all s) c = ctx_original c).
    { rewrite <- unchanged_spans, length_map.
      destruct (filter _ spans); simpl; split; congruence. }
    repeat match goal with |- _ /\ _ => split end; try assumption; try reflexivity.
    - apply NoDup_Permutation; [assumption | now apply ids_distinct |].
      intros id. split; intros H.
      + apply in_map_iff in H as [k [<- Hk]].
        destruct (proj2 Hids k Hk) as [c [Hc ->]]. now apply in_map.
      + apply in_map_iff in H as [c [<- Hc]].
        destruct (proj1 Hids c Hc) as [k [Hk <-]]. now apply in_map.
    - intros k c Hk _ E. now apply replacement_of_unique.
    - intros H. pose proof (proj1 Hunch H) as H'.
      now rewrite (spliced_original input 0 spans _ Hlay H'). }
  destruct (Nat.eqb_spec (length spans) 0) as [Z|NZ].
  - injection Hrun as <-. simpl in Hres.
    apply (Hend (loop_entry spans w)); simpl; try reflexivity; try lia.
    + apply reached_here.
    + destruct spans; [|discriminate Z]. reflexivity.
  - destruct (batch_loop _ _ _ _ _ _ _ _ _) as [[[sent w'] [all|e]]|] eqn:L;
      [| |discriminate].
    + injection Hrun as <-. simpl in Hres.
      apply batch_loop_ok in L as [s [Hreach [Hi [<- [<- <-]]]]].
      now apply (Hend s).
    + injection Hrun as <-. discriminate Hres.
Qed.

End Outcome.

(** The run on three citations in batches of two, with replies that
    return every citation as it is. *)
Lemma successful_run_witness :
  exists r res,
    bluebookify (resolve_to (scripted_oracle three_good_replies)) three_citations
      (Some (options_with_batchSize 2)) 0 = Some r /\
    outcome r = Ok res /\
    (unchanged res = true -> text res = three_citations).
Proof.
  destruct (bluebookify (resolve_to (scripted_oracle three_good_replies)) three_citations
              (Some (options_with_batchSize 2)) 0) as [r|] eqn:E;
    [|vm_compute in E; discriminate E].
  destruct (outcome r) as [res|e] eqn:O.
  - exists r, res. split; [reflexivity|]. split; [exact O|].
    destruct (successful_run nat unit (resolve_to (scripted_oracle three_good_replies))
                three_citations (options_with_batchSize 2)
                (scripted_oracle three_good_replies) 0 r res) as [s H].
    + repeat split; vm_compute; reflexivity.
    + exact E.
    + exact O.
    + apply H.
  - exfalso. vm_compute in E. injection E as <-. discriminate O.
Defined.

Section Failure.

Variable World : Type.
Variable LlmOptions : Type.
Variable resolveLlm : BluebookifyOptions LlmOptions -> result (LlmFn World).

(** The run from a state of the loop whose call is rejected. *)
Lemma run_rejected (input : str) (options : BluebookifyOptions LlmOptions)
    (llmFn : LlmFn World) (w : World) (s : loop_state World)
    (response : result str) (w' : World) (e : error) :
  valid_configuration resolveLlm options llmFn ->
  reached llmFn (rules options) (spans_of input options)
    (to_index (batchSize_of options)) (loop_entry (spans_of input options) w) s ->
  ls_i s < length (spans_of input options) ->
  llmFn (buildMessages
           (slice (spans_of input options) (ls_i s)
              (ls_i s + to_index (batchSize_of options)))
           (rules options)) (ls_world s) = (response, w') ->
  check_reply (slice (spans_of input options) (ls_i s)
                 (ls_i s + to_index (batchSize_of options))) response = Err e ->
  bluebookify resolveLlm input (Some options) w =
  Some {| calls := ls_sent s ++
                   [buildMessages
                      (slice (spans_of input options) (ls_i s)
                         (ls_i s + to_index (batchSize_of options)))
                      (rules options)];
          world := w'; outcome := Err e |}.
Proof.
  intros Hvalid Hreach Hi Hcall Hcheck.
  pose proof (batchSize_positive _ _ (proj1 Hvalid)) as Hb.
  rewrite (bluebookify_valid World LlmOptions resolveLlm input options llmFn w Hvalid).
  cbv zeta.
  destruct (Nat.eqb_spec (length (spans_of input options)) 0) as [Z|NZ]; [lia|].
  change (batch_loop llmFn (rules options) (spans_of input options)
            (to_index (batchSize_of options)) (length (spans_of input options)) 0 [] [] w)
    with (batch_loop llmFn (rules options) (spans_of input options)
            (to_index (batchSize_of options))
            (ls_fuel (loop_entry (spans_of input options) w))
            (ls_i (loop_entry (spans_of input options) w))
            (ls_all (loop_entry (spans_of input options) w))
            (ls_sent (loop_entry (spans_of input options) w))
            (ls_world (loop_entry (spans_of input options) w))).
  rewrite (reached_same_result World llmFn (rules options) (spans_of input options)
             (to_index (batchSize_of options)) Hb _ _ Hreach).
  rewrite (rejected_turn World llmFn (rules options) (spans_of input options)
             (to_index (batchSize_of options)) Hb s response w' e).
  - reflexivity.
  - apply (reached_fuel World llmFn (rules options) (spans_of input options)
             (to_index (batchSize_of options)) Hb _ _ Hreach). simpl. lia.
  - assumption.
  - assumption.
  - assumption.
Qed.

(** X5.  A call that fails ends the run.  At any batch that the loop reaches,
    when the oracle throws, or returns a reply that [parseResponse]
    refuses, the run fails with that very error: the requests sent are
    those up to this call, no later batch is requested, and no text is
    returned. *)
Theorem failing_call_ends_run (input : str) (options : BluebookifyOptions LlmOptions)
    (llmFn : LlmFn World) (w : World) (s : loop_state World)
    (response : result str) (w' : World) (e : error) :
  valid_configuration resolveLlm options llmFn ->
  reached llmFn (rules options) (spans_of input options)
    (to_index (batchSize_of options)) (loop_entry (spans_of input options) w) s ->
  ls_i s < length (spans_of input options) ->
  llmFn (buildMessages
           (slice (spans_of input options) (ls_i s)
              (ls_i s + to_index (batchSize_of options)))
           (rules options)) (ls_world s) = (response, w') ->
  (response = Err e \/
   exists reply, response = Ok reply /\ parseResponse reply = Err e) ->
  bluebookify resolveLlm input (Some options) w =
  Some {| calls := ls_sent s ++
                   [buildMessages
                      (slice (spans_of input options) (ls_i s)
                         (ls_i s + to_index (batchSize_of options)))
                      (rules options)];
          world := w'; outcome := Err e |}.
Proof.
  intros Hvalid Hreach Hi Hcall Hfail.
  apply (run_rejected input options llmFn w s response w' e); try assumption.
  apply check_reply_err.
  destruct Hfail as [H | [reply [H1 H2]]]; [now left|].
  right. exists reply. split; [assumption | now left].
Qed.

(** X6.  Where a failed run failed.  Under a valid configuration, when the
    promise of [bluebookify] holds an error, the error comes from the last
    call that was made: the loop went through accepted turns up to a batch
    whose call threw this error, or whose reply [parseResponse] or
    [validateBatchIds] refused with it.  The corrections gathered by a
    loop that reaches its end always pass [applyCorrections]. *)
Theorem failed_run_origin (input : str) (options : BluebookifyOptions LlmOptions)
    (llmFn : LlmFn World) (w : World) (r : run World) (e : error) :
  valid_configuration resolveLlm options llmFn ->
  bluebookify resolveLlm input (Some options) w = Some r ->
  outcome r = Err e ->
  exists s response,
    reached llmFn (rules options) (spans_of input options)
      (to_index (batchSize_of options)) (loop_entry (spans_of input options) w) s /\
    ls_i s < length (spans_of input options) /\
    llmFn (buildMessages
             (slice (spans_of input options) (ls_i s)
                (ls_i s + to_index (batchSize_of options)))
             (rules options)) (ls_world s) = (response, world r) /\
    calls r = ls_sent s ++
              [buildMessages
                 (slice (spans_of input options) (ls_i s)
                    (ls_i s + to_index (batchSize_of options)))
                 (rules options)] /\
    (response = Err e \/
     exists reply, response = Ok reply /\
       (parseResponse reply = Err e \/
        exists cs, parseResponse reply = Ok cs /\
          validateBatchIds cs
            (new_Set (map ctx_num
                        (slice (spans_of input options) (ls_i s)
                           (ls_i s + to_index (batchSize_of options))))) = Err e)).
Proof.
  intros Hvalid Hrun Hres.
  rewrite (bluebookify_valid World LlmOptions resolveLlm input options llmFn w Hvalid) in Hrun.
  cbv zeta in Hrun.
  destruct (Nat.eqb_spec (length (spans_of input options)) 0) as [Z|NZ].
  { injection Hrun as <-. discriminate Hres. }
  destruct (batch_loop _ _ _ _ _ _ _ _ _) as [[[sent w'] [all|e']]|] eqn:L;
    [| |discriminate].
  - exfalso. injection Hrun as <-. simpl in Hres.
    apply batch_loop_ok in L as [s [Hreach [Hi [<- _]]]].
    assert (Hone : one_each (spans_of input options) (ls_all s)).
    { rewrite <- (firstn_all2 (spans_of input options) Hi).
      apply (reached_one_each World llmFn (rules options) (spans_of input options)
               (to_index (batchSize_of options))
               (loop_entry (spans_of input options) w) s); [|exact Hreach|].
      - unfold spans_of. rewrite extractCitations_ids. apply seq_NoDup.
      - simpl. repeat split; try constructor; intros ? []. }
    rewrite (applyCorrections_ok input (ls_all s) (spans_of input options)) in Hres.
    + discriminate Hres.
    + apply extractCitations_laid_out.
    + apply Hone.
  - injection Hrun as <-. simpl in Hres. injection Hres as ->.
    apply batch_loop_err in L as [s [response [Hreach [Hi [Hcall [Hcheck ->]]]]]].
    exists s, response. simpl. repeat split; try assumption.
    now apply check_reply_err.
Qed.

End Failure.

(** The oracle throws at the first of two batches: one request, the error
    of the oracle. *)
Lemma failing_call_ends_run_witness :
  bluebookify (resolve_to throwing_oracle) three_citations
    (Some (options_with_batchSize 2)) 0 =
  Some {| calls := [] ++
                   [buildMessages
                      (slice (spans_of three_citations (options_with_batchSize 2)) 0
                         (0 + to_index (batchSize_of (options_with_batchSize 2))))
                      None];
          world := 1; outcome := Err (Thrown (lit "timeout")) |}.
Proof.
  apply (failing_call_ends_run nat unit (resolve_to throwing_oracle) three_citations
           (options_with_batchSize 2) throwing_oracle 0
           (loop_entry (spans_of three_citations (options_with_batchSize 2)) 0)
           (Err (Thrown (lit "timeout"))) 1 (Thrown (lit "timeout"))).
  - repeat split; vm_compute; reflexivity.
  - apply reached_here.
  - vm_compute. lia.
  - reflexivity.
  - now left.
Defined.

(** A first reply that holds no array: the run fails at its only call. *)
Lemma failed_run_origin_witness :
  exists r e s response,
    bluebookify (resolve_to (scripted_oracle [lit "sorry"])) three_citations
      (Some (options_with_batchSize 2)) 0 = Some r /\
    outcome r = Err e /\
    reached (scripted_oracle [lit "sorry"]) None
      (spans_of three_citations (options_with_batchSize 2))
      (to_index (batchSize_of (options_with_batchSize 2)))
      (loop_entry (spans_of three_citations (options_with_batchSize 2)) 0) s /\
    calls r = ls_sent s ++
              [buildMessages
                 (slice (spans_of three_citations (options_with_batchSize 2)) (ls_i s)
                    (ls_i s + to_index (batchSize_of (options_with_batchSize 2))))
                 None] /\
    scripted_oracle [lit "sorry"]
      (buildMessages
         (slice (spans_of three_citations (options_with_batchSize 2)) (ls_i s)
            (ls_i s + to_index (batchSize_of (options_with_batchSize 2))))
         None) (ls_world s) = (response, world r).
Proof.
  destruct (bluebookify (resolve_to (scripted_oracle [lit "sorry"])) three_citations
              (Some (options_with_batchSize 2)) 0) as [r|] eqn:E;
    [|vm_compute in E; discriminate E].
  destruct (outcome r) as [res|e] eqn:O.
  - exfalso. vm_compute in E. injection E as <-. discriminate O.
  - destruct (failed_run_origin nat unit (resolve_to (scripted_oracle [lit "sorry"]))
                three_citations (options_with_batchSize 2)
                (scripted_oracle [lit "sorry"]) 0 r e)
      as [s [response [H1 [H2 [H3 [H4 H5]]]]]].
    + repeat split; vm_compute; reflexivity.
    + exact E.
    + exact O.
    + exists r, e, s, response. repeat split; assumption.
Defined.

(* ================================================================== *)
(** * [Array.prototype.sort]: the order of the result *)
(* ================================================================== *)

Section Sorting.

Variable A : Type.
Variable cmp : A -> A -> Z.

(** [a] may come before [b]. *)
Local Abbreviation before a b := ((cmp a b <= 0)%Z).

Hypothesis cmp_total : forall a b, before a b \/ before b a.
Hypothesis cmp_trans : forall a b c, before a b -> before b c -> before a c.

Lemma insert_by_sorted (x : A) (l : list A) :
  StronglySorted (fun a b => before a b) l ->
  StronglySorted (fun a b => before a b) (insert_by cmp x l).
Proof.
  induction l as [|y l IH]; simpl; intros H.
  - constructor; constructor.
  - apply StronglySorted_inv in H as [Hl Hy].
    destruct (Z.leb_spec (cmp x y) 0) as [L|L].
    + constructor; [now constructor|].
      constructor; [assumption|].
      eapply Forall_impl; [|exact Hy]. intros a Ha. now apply (cmp_trans x y a).
    + constructor; [now apply IH|].
      assert (Hyx : before y x) by (destruct (cmp_total x y); [lia | assumption]).
      rewrite Forall_forall in *. intros a Ha.
      apply (Permutation_in _ (Permutation_sym (insert_by_perm cmp x l))) in Ha.
      destruct Ha as [<-|Ha]; [assumption | now apply Hy].
Qed.

Lemma sort_by_sorted (l : list A) :
  StronglySorted (fun a b => before a b) (sort_by cmp l).
Proof.
  induction l as [|x l IH]; simpl; [constructor | now apply insert_by_sorted].
Qed.

(** Two sorted lists with the same elements, none of which the comparator
    leaves beside another, are the same list. *)
Lemma sorted_unique (l1 l2 : list A) :
  (forall a b, In a l1 -> In b l1 -> before a b -> before b a -> a = b) ->
  StronglySorted (fun a b => before a b) l1 ->
  StronglySorted (fun a b => before a b) l2 ->
  Permutation l1 l2 -> l1 = l2.
Proof.
  revert l2. induction l1 as [|x l1 IH]; intros l2 Hanti S1 S2 P.
  - apply Permutation_nil in P. now subst.
  - destruct l2 as [|y l2]; [apply Permutation_sym, Permutation_nil in P; discriminate|].
    apply StronglySorted_inv in S1 as [S1 F1]. apply StronglySorted_inv in S2 as [S2 F2].
    rewrite Forall_forall in F1, F2.
    assert (E : x = y).
    { assert (Hy : In y (x :: l1))
        by (apply (Permutation_in _ (Permutation_sym P)); now left).
      assert (Hx : In x (y :: l2)) by (apply (Permutation_in _ P); now left).
      destruct Hy as [Hy|Hy]; [assumption|].
      destruct Hx as [Hx|Hx]; [now symmetry|].
      apply Hanti; [now left | now right | now apply F1 | now apply F2]. }
    subst y. f_equal. apply IH; try assumption.
    + intros a b Ha Hb. apply Hanti; now right.
    + now apply Permutation_cons_inv in P.
Qed.

Lemma sort_by_unique (l1 l2 : list A) :
  (forall a b, In a l1 -> In b l1 -> before a b -> before b a -> a = b) ->
  Permutation l1 l2 -> sort_by cmp l1 = sort_by cmp l2.
Proof.
  intros Hanti P. apply sorted_unique.
  - intros a b Ha Hb. apply Hanti.
    + now apply (Permutation_in _ (Permutation_sym (sort_by_perm cmp l1))).
    + now apply (Permutation_in _ (Permutation_sym (sort_by_perm cmp l1))).
  - apply sort_by_sorted.
  - apply sort_by_sorted.
  - rewrite <- (sort_by_perm cmp l1), <- (sort_by_perm cmp l2). exact P.
Qed.

End Sorting.

(* ================================================================== *)
(** * [applyCorrections]: the two validation loops *)
(* ================================================================== *)

Lemma num_eqb_sym (a b : number) : num_eqb a b = num_eqb b a.
Proof.
  destruct (num_eqb a b) eqn:E; symmetry.
  - apply num_eqb_eq in E. subst. apply num_eqb_refl.
  - apply num_eqb_neq. apply num_eqb_neq in E. congruence.
Qed.

(** The keys of a [Map] come in the order of their first [set]. *)
Lemma map_keys_set (m : jsmap) (k : number) (v : str) :
  map_keys (map_set m k v) = set_add (map_keys m) k.
Proof.
  unfold set_add, set_has, map_keys.
  induction m as [|[k' v'] m IH]; simpl; [reflexivity|].
  rewrite (num_eqb_sym k k').
  destruct (num_eqb k' k); simpl; [reflexivity|].
  rewrite IH. destruct (existsb (num_eqb k) (map fst m)); reflexivity.
Qed.

Lemma map_keys_correction_map (corrections : list CitationCorrection) :
  map_keys (correction_map corrections) = new_Set (map cor_id corrections).
Proof.
  unfold correction_map, new_Set.
  change (@nil number) with (map_keys []) at 1.
  generalize (@nil (number * str)) as m.
  induction corrections as [|c l IH]; intros m; simpl; [reflexivity|].
  now rewrite IH, map_keys_set.
Qed.

(** A [Set] built from a list holds the first occurrences in the order of
    the list, so the first element with a property is the same in both. *)
Lemma find_fold_set_add (P : number -> bool) (l : list number) (s : jsset) :
  find P (fold_left set_add l s) =
  match find P s with Some x => Some x | None => find P l end.
Proof.
  revert s; induction l as [|a l IH]; intros s; simpl.
  - destruct (find P s); reflexivity.
  - rewrite IH. unfold set_add. destruct (set_has s a) eqn:E.
    + destruct (find P s) as [x|] eqn:F; [reflexivity|].
      apply set_has_In in E. apply (find_none _ _ F) in E. now rewrite E.
    + rewrite find_app. destruct (find P s); [reflexivity|]. simpl.
      destruct (P a); reflexivity.
Qed.

Lemma find_new_Set (P : number -> bool) (l : list number) :
  find P (new_Set l) = find P l.
Proof. unfold new_Set. now rewrite find_fold_set_add. Qed.

(** The first element with a property, by what comes before it. *)
Lemma find_first {A : Type} (P : A -> bool) (l1 : list A) (x : A) (l2 : list A) :
  (forall y, In y l1 -> P y = false) -> P x = true -> find P (l1 ++ x :: l2) = Some x.
Proof.
  intros H1 Hx. rewrite find_app, (proj2 (find_none_iff P l1) H1). simpl. now rewrite Hx.
Qed.

Lemma map_has_correction (corrections : list CitationCorrection) (id : number) :
  map_has (correction_map corrections) id = true <->
  exists k, In k corrections /\ cor_id k = id.
Proof.
  unfold map_has, correction_map. rewrite map_get_fold. simpl.
  destruct (find _ (rev corrections)) as [k|] eqn:F.
  - split; [intros _ | reflexivity].
    apply find_some in F as [Hk E]. exists k. split; [now apply in_rev | now apply num_eqb_eq].
  - split; [discriminate|]. intros [k [Hk E]]. exfalso.
    apply find_none with (x := k) in F; [|now apply in_rev in Hk].
    rewrite E, num_eqb_refl in F. discriminate.
Qed.

(** X7.  [applyCorrections] returns a result exactly when the ids of the
    corrections are the ids of the spans, whatever the text and the
    ranges of the spans. *)
Theorem applyCorrections_accepts (text : str) (spans : list CitationContext)
    (corrections : list CitationCorrection) :
  (exists r, applyCorrections text spans corrections = Ok r) <->
  ids_match spans corrections.
Proof.
  unfold applyCorrections. split.
  - intros [r H].
    destruct (find _ (new_Set (map ctx_num spans))) as [id|] eqn:F; [discriminate|].
    destruct (find _ (map_keys (correction_map corrections))) as [id|] eqn:G; [discriminate|].
    rewrite find_new_Set in F. rewrite map_keys_correction_map, find_new_Set in G.
    split.
    + intros c Hc. apply find_none with (x := ctx_num c) in F; [|now apply in_map].
      apply negb_false_iff in F. now apply map_has_correction in F.
    + intros k Hk. apply find_none with (x := cor_id k) in G; [|now apply in_map].
      apply negb_false_iff, set_has_In, In_new_Set, in_map_iff in G as [c [E Hc]].
      exists c. now split.
  - intros Hids.
    rewrite (no_missing_correction corrections spans Hids).
    rewrite (no_unknown_correction corrections spans Hids).
    destruct (fold_left apply_change _ _) as [result applied]. eexists. reflexivity.
Qed.

(** X8.  The errors of [applyCorrections].  A span without a correction comes
    first: the error names the id of the first such span, in span order,
    whatever else is wrong.  When every span has a correction, the error
    names the first id, in the order of the corrections, that no span
    carries. *)
Theorem applyCorrections_rejects (text : str) (spans : list CitationContext)
    (corrections : list CitationCorrection) :
  (forall l1 c l2,
     spans = l1 ++ c :: l2 ->
     (forall d, In d l1 -> exists k, In k corrections /\ cor_id k = ctx_num d) ->
     (forall k, In k corrections -> cor_id k <> ctx_num c) ->
     applyCorrections text spans corrections = Err (MissingCorrection (ctx_num c))) /\
  (forall k1 k k2,
     (forall c, In c spans -> exists k', In k' corrections /\ cor_id k' = ctx_num c) ->
     corrections = k1 ++ k :: k2 ->
     (forall k', In k' k1 -> exists c, In c spans /\ cor_id k' = ctx_num c) ->
     (forall c, In c spans -> ctx_num c <> cor_id k) ->
     applyCorrections text spans corrections = Err (UnknownCorrectionId (cor_id k))).
Proof.
  split.
  - intros l1 c l2 -> Hbefore Hnone. unfold applyCorrections.
    rewrite find_new_Set, map_app. simpl.
    rewrite (find_first _ (map ctx_num l1) (ctx_num c)); [reflexivity | |].
    + intros id Hid. apply in_map_iff in Hid as [d [<- Hd]].
      apply negb_false_iff. apply map_has_correction. now apply Hbefore.
    + apply negb_true_iff.
      destruct (map_has (correction_map corrections) (ctx_num c)) eqn:E; [|reflexivity].
      apply map_has_correction in E as [k' [Hk' E]]. exfalso. exact (Hnone k' Hk' E).
  - intros k1 k k2 Hall -> Hbefore Hnone. unfold applyCorrections.
    assert (F : find (fun id => negb (map_has (correction_map (k1 ++ k :: k2)) id))
                  (new_Set (map ctx_num spans)) = None).
    { apply find_none_iff. intros id Hid.
      apply In_new_Set, in_map_iff in Hid as [c [<- Hc]].
      apply negb_false_iff. apply map_has_correction. now apply Hall. }
    rewrite F. rewrite map_keys_correction_map, find_new_Set, map_app. simpl.
    rewrite (find_first _ (map cor_id k1) (cor_id k)); [reflexivity | |].
    + intros id Hid. apply in_map_iff in Hid as [k' [<- Hk']].
      apply negb_false_iff, set_has_In, In_new_Set.
      destruct (Hbefore k' Hk') as [c [Hc ->]]. now apply in_map.
    + apply negb_true_iff.
      destruct (set_has (new_Set (map ctx_num spans)) (cor_id k)) eqn:E; [|reflexivity].
      apply set_has_In, In_new_Set, in_map_iff in E as [c [E Hc]].
      exfalso. exact (Hnone c Hc E).
Qed.

(** Corrections for the ids 0 and 7 when the spans carry 0 and 1: the
    error is about the span 1 that has no correction, not about the 7. *)
Lemma applyCorrections_rejects_witness :
  applyCorrections sample_text sample_spans
    [ {| cor_id := num_of_nat 0; cor_citation := lit "A" |};
      {| cor_id := num_of_nat 7; cor_citation := lit "B" |} ] =
  Err (MissingCorrection (num_of_nat 1)).
Proof.
  apply (proj1 (applyCorrections_rejects sample_text sample_spans
                  [ {| cor_id := num_of_nat 0; cor_citation := lit "A" |};
                    {| cor_id := num_of_nat 7; cor_citation := lit "B" |} ])
           [ {| ctx_id := 0; ctx_original := lit "AAA"; ctx_before := [];
                ctx_after := lit "then"; ctx_start := 0; ctx_end := 3 |} ]
           {| ctx_id := 1; ctx_original := lit "BBB"; ctx_before := lit "then";
              ctx_after := lit "end"; ctx_start := 9; ctx_end := 12 |}
           []).
  - reflexivity.
  - intros d [<-|[]].
    exists {| cor_id := num_of_nat 0; cor_citation := lit "A" |}. split; [now left | reflexivity].
  - intros k [<-|[<-|[]]]; simpl; intros H; apply num_of_nat_inj in H; discriminate H.
Defined.

(* ================================================================== *)
(** * [applyCorrections]: the audit records and the length of the text *)
(* ================================================================== *)

Lemma slice_last_length (s : str) (n : nat) : length (slice_last s n) <= n.
Proof. unfold slice_last. rewrite length_skipn. lia. Qed.

Lemma snippet_length (a o r z : str) :
  length (a ++ lit "[" ++ o ++ [arrow] ++ r ++ lit "]" ++ z) =
  length a + length o + length r + length z + 3.
Proof.
  change (lit "[") with [91%N]. change (lit "]") with [93%N].
  rewrite !length_app. cbn [length]. lia.
Qed.

(** X9.  The audit records.  For spans laid out over the text and corrections
    with the same ids, [applyCorrections] records one entry for every span
    whose correction differs from its text, in span order and for no other
    span.  An entry holds the start of the span, the text found there in
    the input, the correction, which is another text, and a snippet: the
    last 30 code units of [before], then the old and the new text between
    brackets with an arrow between them, then the first 30 code units of
    [after]. *)
Theorem audit_records (text : str) (spans : list CitationContext)
    (corrections : list CitationCorrection) :
  spans_laid_out text 0 spans ->
  ids_match spans corrections ->
  exists r,
    applyCorrections text spans corrections = Ok r /\
    Forall2
      (fun c a =>
         position a = ctx_start c /\
         original a = slice text (position a) (position a + length (original a)) /\
         correction_for corrections c = Some (replacement a) /\
         replacement a <> original a /\
         context a =
           slice_last (ctx_before c) 30 ++ lit "[" ++ original a ++ [arrow] ++
           replacement a ++ lit "]" ++ slice (ctx_after c) 0 30 /\
         length (context a) <= 63 + length (original a) + length (replacement a))
      (filter (is_changed corrections) spans) (appliedCorrections r) /\
    (forall c, In c spans ->
       (is_changed corrections c = true <->
        correction_for corrections c <> Some (ctx_original c))).
Proof.
  intros Hlay Hids. eexists. split; [apply applyCorrections_ok; assumption|].
  simpl. split.
  - assert (G : forall l, (forall c, In c l -> In c spans /\ is_changed corrections c = true) ->
              Forall2
                (fun c a =>
                   position a = ctx_start c /\
                   original a = slice text (position a) (position a + length (original a)) /\
                   correction_for corrections c = Some (replacement a) /\
                   replacement a <> original a /\
                   context a =
                     slice_last (ctx_before c) 30 ++ lit "[" ++ original a ++ [arrow] ++
                     replacement a ++ lit "]" ++ slice (ctx_after c) 0 30 /\
                   length (context a) <= 63 + length (original a) + length (replacement a))
                l (map (audit_of corrections) l)).
    { induction l as [|c l IH]; intros Hl; simpl; constructor.
      - destruct (Hl c (or_introl eq_refl)) as [Hc Hch].
        destruct (laid_out_each text 0 spans c Hlay Hc) as [S1 [S2 S3]].
        destruct (correction_for_Some corrections c (proj1 Hids c Hc)) as [x Hx].
        simpl. split; [reflexivity|]. split; [|split; [|split; [|split]]].
        + rewrite S3 at 1. f_equal. rewrite S3, slice_length; lia.
        + unfold replacement_of. now rewrite Hx.
        + unfold is_changed in Hch. apply negb_true_iff in Hch.
          intros E. apply str_eqb_eq in E. congruence.
        + reflexivity.
        + change (length (slice_last (ctx_before c) 30 ++ lit "[" ++ ctx_original c ++
                            [arrow] ++ replacement_of corrections c ++ lit "]" ++
                            slice (ctx_after c) 0 30) <=
                  63 + length (ctx_original c) + length (replacement_of corrections c)).
          rewrite snippet_length.
          pose proof (slice_last_length (ctx_before c) 30).
          pose proof (slice_length_bound (ctx_after c) 0 30). lia.
      - apply IH. intros d Hd. apply Hl. now right. }
    apply G. intros c Hc. apply filter_In in Hc. exact Hc.
  - intros c Hc.
    destruct (correction_for_Some corrections c (proj1 Hids c Hc)) as [x Hx].
    unfold is_changed, replacement_of. rewrite Hx. rewrite negb_true_iff. split.
    + intros E [= ->]. now rewrite str_eqb_refl in E.
    + intros N. destruct (str_eqb x (ctx_original c)) eqn:E; [|reflexivity].
      apply str_eqb_eq in E. congruence.
Qed.

Lemma audit_records_witness :
  exists r,
    applyCorrections sample_text sample_spans sample_corrections = Ok r /\
    map replacement (appliedCorrections r) = [lit "AAAAAAA"; lit "B"].
Proof.
  destruct (audit_records sample_text sample_spans sample_corrections
              sample_laid_out sample_ids_match) as [r [E _]].
  exists r. split; [exact E|].
  rewrite (applyCorrections_ok sample_text sample_corrections sample_spans
             sample_laid_out sample_ids_match) in E.
  injection E as <-. reflexivity.
Defined.

Lemma spliced_length (text : str) (corrections : list CitationCorrection)
    (lo : nat) (spans : list CitationContext) :
  spans_laid_out text lo spans -> lo <= length text ->
  length (spliced text lo spans (replacement_of corrections)) +
  list_sum (map (fun c => length (ctx_original c)) (filter (is_changed corrections) spans)) =
  length text - lo +
  list_sum (map (fun c => length (replacement_of corrections c))
              (filter (is_changed corrections) spans)).
Proof.
  revert lo; induction spans as [|c spans IH]; intros lo H Hlo; simpl.
  - unfold slice_from. rewrite length_skipn. lia.
  - destruct H as [H1 [[H2 [H3 H4]] H5]].
    specialize (IH _ H5 H3).
    rewrite !length_app, slice_length by lia.
    assert (Ho : length (ctx_original c) = ctx_end c - ctx_start c)
      by (rewrite H4; apply slice_length; lia).
    destruct (is_changed corrections c) eqn:Hch; simpl.
    + lia.
    + unfold is_changed in Hch. apply negb_false_iff, str_eqb_eq in Hch.
      rewrite Hch. lia.
Qed.

(** X10.  The length of the corrected text: the length of the input, less the
    lengths of the texts that were replaced, plus the lengths of their
    replacements. *)
Theorem corrected_length (text : str) (spans : list CitationContext)
    (corrections : list CitationCorrection) :
  spans_laid_out text 0 spans ->
  ids_match spans corrections ->
  exists r,
    applyCorrections text spans corrections = Ok r /\
    length (ar_text r) +
      list_sum (map (fun a => length (original a)) (appliedCorrections r)) =
    length text +
      list_sum (map (fun a => length (replacement a)) (appliedCorrections r)).
Proof.
  intros Hlay Hids. eexists. split; [apply applyCorrections_ok; assumption|].
  simpl. rewrite !map_map. simpl.
  pose proof (spliced_length text corrections 0 spans Hlay ltac:(lia)) as H.
  rewrite Nat.sub_0_r in H. exact H.
Qed.

Lemma corrected_length_witness :
  exists r,
    applyCorrections sample_text sample_spans sample_corrections = Ok r /\
    length (ar_text r) + 6 = length sample_text + 8.
Proof.
  destruct (corrected_length sample_text sample_spans sample_corrections
              sample_laid_out sample_ids_match) as [r [E L]].
  exists r. split; [exact E|].
  rewrite (applyCorrections_ok sample_text sample_corrections sample_spans
             sample_laid_out sample_ids_match) in E.
  injection E as <-. exact L.
Defined.

(* ================================================================== *)
(** * [applyCorrections]: spans given in any order *)
(* ================================================================== *)

Lemma laid_out_same_start (text : str) (lo : nat) (spans : list CitationContext)
    (c d : CitationContext) :
  spans_laid_out text lo spans -> In c spans -> In d spans ->
  ctx_start c = ctx_start d -> c = d.
Proof.
  revert lo; induction spans as [|x spans IH]; intros lo H Hc Hd E; [contradiction|].
  destruct H as [_ [[Hx _] Hrest]].
  destruct Hc as [<-|Hc], Hd as [<-|Hd]; try reflexivity.
  - pose proof (laid_out_starts text _ _ Hrest d Hd). lia.
  - pose proof (laid_out_starts text _ _ Hrest c Hc). lia.
  - exact (IH _ Hrest Hc Hd E).
Qed.

Lemma build_changes_In (m : jsmap) (spans : list CitationContext) (ch : change) :
  In ch (build_changes m spans) ->
  In (ch_context ch) spans /\
  ch_replacement ch = map_get_bang m (ctx_num (ch_context ch)).
Proof.
  unfold build_changes. intros H. apply in_flat_map in H as [c [Hc H]].
  destruct (str_eqb _ _); [contradiction|].
  destruct H as [<-|[]]. simpl. now split.
Qed.

Lemma ids_match_perm (spans spans' : list CitationContext)
    (corrections : list CitationCorrection) :
  Permutation spans spans' -> ids_match spans corrections -> ids_match spans' corrections.
Proof.
  intros P [H1 H2]. split.
  - intros c Hc. apply H1. now apply (Permutation_in _ (Permutation_sym P)).
  - intros k Hk. destruct (H2 k Hk) as [c [Hc E]]. exists c.
    split; [now apply (Permutation_in _ P) | exact E].
Qed.

(** X11.  The spans need not be given from left to right.  For spans that can be
    laid out over the text and corrections with the same ids,
    [applyCorrections] returns the same text and the same records, in
    ascending order of position, in whatever order the spans are given:
    the sort by descending start puts the changes in the one order in
    which the splices do not disturb each other. *)
Theorem applyCorrections_any_order (text : str) (spans spans' : list CitationContext)
    (corrections : list CitationCorrection) :
  spans_laid_out text 0 spans ->
  Permutation spans spans' ->
  ids_match spans corrections ->
  applyCorrections text spans' corrections =
  Ok {| ar_text := spliced text 0 spans (replacement_of corrections);
        appliedCorrections :=
          map (audit_of corrections) (filter (is_changed corrections) spans) |}.
Proof.
  intros Hlay P Hids.
  rewrite <- (applyCorrections_ok text corrections spans Hlay Hids).
  pose proof (ids_match_perm _ _ _ P Hids) as Hids'.
  unfold applyCorrections.
  rewrite (no_missing_correction corrections spans Hids),
          (no_unknown_correction corrections spans Hids),
          (no_missing_correction corrections spans' Hids'),
          (no_unknown_correction corrections spans' Hids').
  assert (E : sort_by by_start_desc (build_changes (correction_map corrections) spans') =
              sort_by by_start_desc (build_changes (correction_map corrections) spans)).
  { apply sort_by_unique.
    - intros a b0. unfold by_start_desc. lia.
    - intros a b0 c. unfold by_start_desc. lia.
    - intros a b0 Ha Hb. unfold by_start_desc. intros L1 L2.
      apply build_changes_In in Ha as [Ha Ra]. apply build_changes_In in Hb as [Hb Rb].
      assert (X : ch_context a = ch_context b0).
      { apply (laid_out_same_start text 0 spans); try assumption.
        - now apply (Permutation_in _ (Permutation_sym P)).
        - now apply (Permutation_in _ (Permutation_sym P)).
        - lia. }
      destruct a as [ca ra], b0 as [cb rb]. simpl in *. subst. reflexivity.
    - unfold build_changes. apply Permutation_flat_map. now apply Permutation_sym. }
  now rewrite E.
Qed.

(** The two spans of the sample, the right one first. *)
Lemma applyCorrections_any_order_witness :
  applyCorrections sample_text (rev sample_spans) sample_corrections =
  Ok {| ar_text := spliced sample_text 0 sample_spans (replacement_of sample_corrections);
        appliedCorrections :=
          map (audit_of sample_corrections)
              (filter (is_changed sample_corrections) sample_spans) |}.
Proof.
  apply (applyCorrections_any_order sample_text sample_spans (rev sample_spans)
           sample_corrections sample_laid_out).
  - apply Permutation_rev.
  - exact sample_ids_match.
Defined.

(* ================================================================== *)
(** * [extractCitations]: where the spans come from *)
(* ================================================================== *)

Lemma build_contexts_In (text : str) (contextSize id : nat) (l : list PatternMatch)
    (c : CitationContext) :
  In c (build_contexts text contextSize id l) ->
  exists m, In m l /\ ctx_start c = pm_start m /\ ctx_end c = pm_end m.
Proof.
  revert id; induction l as [|m l IH]; intros id H; simpl in H; [contradiction|].
  destruct H as [<-|H].
  - exists m. simpl. auto.
  - destruct (IH _ H) as [m' [Hm' E]]. exists m'. split; [now right | exact E].
Qed.

Lemma build_contexts_of (text : str) (contextSize id : nat) (l : list PatternMatch)
    (m : PatternMatch) :
  In m l ->
  exists c, In c (build_contexts text contextSize id l) /\
            ctx_start c = pm_start m /\ ctx_end c = pm_end m.
Proof.
  revert id; induction l as [|x l IH]; intros id H; [contradiction|].
  destruct H as [<-|H]; simpl.
  - eexists. split; [left; reflexivity|]. simpl. auto.
  - destruct (IH (S id) H) as [c [Hc E]]. exists c. split; [now right | exact E].
Qed.

(** X12.  The context width changes the windows and nothing else: the ids, the
    texts and the ranges of the spans are the same for every width. *)
Theorem spans_independent_of_contextSize (text : str) (contextSize contextSize' : nat) :
  map span_range (extractCitations text contextSize) =
  map span_range (extractCitations text contextSize').
Proof.
  unfold extractCitations. generalize 0 as id.
  induction (citation_spans text) as [|m l IH]; intros id; simpl; [reflexivity|].
  now rewrite (IH (S id)).
Qed.

(** ** The order of the sorted matches *)

Lemma by_start_total (a b : PatternMatch) :
  (by_start_then_longest a b <= 0)%Z \/ (by_start_then_longest b a <= 0)%Z.
Proof.
  unfold by_start_then_longest.
  destruct (Z.eqb_spec (Z.of_nat (pm_start a) - Z.of_nat (pm_start b)) 0);
    destruct (Z.eqb_spec (Z.of_nat (pm_start b) - Z.of_nat (pm_start a)) 0); lia.
Qed.

Lemma by_start_trans (a b c : PatternMatch) :
  (by_start_then_longest a b <= 0)%Z -> (by_start_then_longest b c <= 0)%Z ->
  (by_start_then_longest a c <= 0)%Z.
Proof.
  unfold by_start_then_longest.
  destruct (Z.eqb_spec (Z.of_nat (pm_start a) - Z.of_nat (pm_start b)) 0);
    destruct (Z.eqb_spec (Z.of_nat (pm_start b) - Z.of_nat (pm_start c)) 0);
    destruct (Z.eqb_spec (Z.of_nat (pm_start a) - Z.of_nat (pm_start c)) 0); lia.
Qed.

Lemma by_start_le (a b : PatternMatch) :
  (by_start_then_longest a b <= 0)%Z -> pm_start a <= pm_start b.
Proof.
  unfold by_start_then_longest.
  destruct (Z.eqb_spec (Z.of_nat (pm_start a) - Z.of_nat (pm_start b)) 0); lia.
Qed.

Section Merging.

Variable text : str.

Lemma covers_trans (x y z : PatternMatch) : covers x y -> covers y z -> covers x z.
Proof. unfold covers. lia. Qed.

(** One turn of the merging loop on a match that starts no earlier than
    the spans gathered so far: the spans still begin and end with citation
    matches, what was covered stays covered, and the match is covered. *)
Lemma merge_step_grows (merged : list PatternMatch) (m : PatternMatch) :
  citation_match text (pm_start m) (pm_end m) ->
  (forall x, In x merged -> pm_start x <= pm_start m) ->
  (forall x, In x merged -> grown_from_matches text x) ->
  (forall x, In x (merge_step text merged m) -> grown_from_matches text x) /\
  (forall x, In x merged -> exists y, In y (merge_step text merged m) /\ covers y x) /\
  (exists y, In y (merge_step text merged m) /\ covers y m) /\
  (forall y, In y (merge_step text merged m) ->
     pm_start y = pm_start m \/ exists x, In x merged /\ pm_start y = pm_start x).
Proof.
  intros Hm Hstart Hgrown. unfold merge_step.
  destruct merged as [|last earlier].
  - split; [|split; [|split]].
    + intros x [<-|[]]. split; [now exists (pm_end m) | exists (pm_start m); now split].
    + intros x [].
    + exists m. split; [now left | unfold covers; lia].
    + intros y [<-|[]]. now left.
  - destruct (Nat.leb_spec (pm_start m) (pm_end last)) as [A|A].
    + destruct (Nat.ltb_spec (pm_end last) (pm_end m)) as [B|B].
      * pose proof (Hstart last (or_introl eq_refl)) as Hl.
        split; [|split; [|split]].
        -- intros x [<-|Hx]; [|apply Hgrown; now right]. split; simpl.
           ++ apply (Hgrown last). now left.
           ++ exists (pm_start m). now split.
        -- intros x [<-|Hx].
           ++ eexists. split; [left; reflexivity|]. unfold covers; simpl. lia.
           ++ exists x. split; [now right | unfold covers; lia].
        -- eexists. split; [left; reflexivity|]. unfold covers; simpl. lia.
        -- intros y [<-|Hy]; right.
           ++ exists last. split; [now left | reflexivity].
           ++ exists y. split; [now right | reflexivity].
      * pose proof (Hstart last (or_introl eq_refl)) as Hl.
        split; [|split; [|split]].
        -- assumption.
        -- intros x Hx. exists x. split; [assumption | unfold covers; lia].
        -- exists last. split; [now left | unfold covers; lia].
        -- intros y Hy. right. exists y. now split.
    + split; [|split; [|split]].
      * intros x [<-|Hx]; [|now apply Hgrown].
        split; [now exists (pm_end m) | exists (pm_start m); now split].
      * intros x Hx. exists x. split; [now right | unfold covers; lia].
      * exists m. split; [now left | unfold covers; lia].
      * intros y [<-|Hy]; [now left|]. right. exists y. now split.
Qed.

Lemma merge_loop_grows (sorted : list PatternMatch) :
  StronglySorted (fun a b => (by_start_then_longest a b <= 0)%Z) sorted ->
  (forall m, In m sorted -> citation_match text (pm_start m) (pm_end m)) ->
  forall merged,
    (forall x m, In x merged -> In m sorted -> pm_start x <= pm_start m) ->
    (forall x, In x merged -> grown_from_matches text x) ->
    (forall x, In x (fold_left (merge_step text) sorted merged) ->
       grown_from_matches text x) /\
    (forall x, In x merged \/ In x sorted ->
       exists y, In y (fold_left (merge_step text) sorted merged) /\ covers y x).
Proof.
  induction sorted as [|m sorted IH]; intros Hsorted Hmatch merged Hstart Hgrown; simpl.
  - split; [assumption|]. intros x [Hx|[]]. exists x. split; [assumption | unfold covers; lia].
  - apply StronglySorted_inv in Hsorted as [Hsorted Hm]. rewrite Forall_forall in Hm.
    destruct (merge_step_grows merged m) as [G1 [G2 [G3 G4]]].
    + apply Hmatch. now left.
    + intros x Hx. apply (Hstart x m Hx). now left.
    + assumption.
    + destruct (IH Hsorted (fun m' Hm' => Hmatch m' (or_intror Hm'))
                  (merge_step text merged m)) as [I1 I2].
      * intros y m' Hy Hm'. destruct (G4 y Hy) as [E | [x [Hx E]]]; rewrite E.
        -- apply by_start_le. now apply Hm.
        -- apply (Hstart x m' Hx). now right.
      * assumption.
      * split; [assumption|].
        intros x [Hx|[<-|Hx]].
        -- destruct (G2 x Hx) as [y [Hy Cy]].
           destruct (I2 y (or_introl Hy)) as [z [Hz Cz]].
           exists z. split; [assumption | exact (covers_trans _ _ _ Cz Cy)].
        -- destruct G3 as [y [Hy Cy]].
           destruct (I2 y (or_introl Hy)) as [z [Hz Cz]].
           exists z. split; [assumption | exact (covers_trans _ _ _ Cz Cy)].
        -- apply I2. now right.
Qed.

End Merging.

Section Origins.

Variable text : str.

Local Abbreviation allMatches := (flat_map (all_matches text) patterns).
Local Abbreviation merged :=
  (merge_matches text (sort_by by_start_then_longest allMatches)).

Lemma patterns_not_nullable (p : regex) : In p patterns -> nullable p = false.
Proof. intros [<-|[<-|[<-|[<-|[]]]]]; reflexivity. Qed.

Lemma allMatches_citations (m : PatternMatch) :
  In m allMatches -> citation_match text (pm_start m) (pm_end m).
Proof.
  intros H. apply in_flat_map in H as [p [Hp Hm]].
  destruct (all_matches_sound text p (patterns_not_nullable p Hp)) as [F _].
  rewrite Forall_forall in F. destruct (F m Hm) as [M _].
  exists p. now split.
Qed.

Lemma merged_grown :
  (forall x, In x merged -> grown_from_matches text x) /\
  (forall m, In m allMatches -> exists y, In y merged /\ covers y m).
Proof.
  destruct (merge_loop_grows text (sort_by by_start_then_longest allMatches)
              (sort_by_sorted _ _ by_start_total by_start_trans allMatches)) with (merged := @nil PatternMatch)
    as [G1 G2].
  - intros m Hm. apply allMatches_citations.
    now apply (Permutation_in _ (Permutation_sym (sort_by_perm by_start_then_longest allMatches))).
  - intros x m [].
  - intros x [].
  - unfold merge_matches. split.
    + intros x Hx. apply G1. now apply in_rev.
    + intros m Hm.
      destruct (G2 m) as [y [Hy C]].
      * right. now apply (Permutation_in _ (sort_by_perm by_start_then_longest allMatches)).
      * exists y. split; [now apply in_rev in Hy | exact C].
Qed.

(** A fused span keeps its end and begins no later; it begins with the
    citation match it began with, or with a signal that ends at that
    match or one code unit before it. *)
Lemma fused_span (x : PatternMatch) :
  grown_from_matches text x ->
  let f := fuse_signals text (all_matches text SIGNAL_RE) x in
  covers f x /\ citation_span text (pm_start f) (pm_end f).
Proof.
  intros [[e He] [s [Hs Hse]]] f. subst f.
  destruct (all_matches_sound text SIGNAL_RE eq_refl) as [F [O _]].
  destruct (fuse_signals_result text 0 _ x O) as [-> | [sg [Hin [Hcond ->]]]].
  - split; [unfold covers; lia|]. split.
    + exists s. now split.
    + left. now exists e.
  - rewrite Forall_forall in F. destruct (F sg Hin) as [Msg _].
    pose proof (in_order_nonempty _ _ O) as NE. rewrite Forall_forall in NE.
    destruct (NE sg Hin) as [_ Hne]. simpl.
    split; [unfold covers; simpl; lia|]. split.
    + exists s. split; [lia | assumption].
    + right. exists (pm_end sg), (pm_start x), e.
      split; [assumption|]. split; [|assumption]. destruct Hcond; [left | right]; lia.
Qed.

Lemma extracted_citation_span (contextSize : nat) (c : CitationContext) :
  In c (extractCitations text contextSize) ->
  citation_span text (ctx_start c) (ctx_end c).
Proof.
  intros Hc. unfold extractCitations in Hc.
  apply build_contexts_In in Hc as [f [Hf [-> ->]]].
  unfold citation_spans in Hf. apply in_map_iff in Hf as [x [<- Hx]].
  apply fused_span. now apply (proj1 merged_grown).
Qed.

(** X13.  Where the spans come from.  Every span that [extractCitations] returns
    ends where a match of a citation pattern inside it ends, and begins
    where a match of a citation pattern begins, or with a match of the
    signal pattern that ends at the start of a match of a citation pattern
    or one code unit before it: a signal alone is never a span, and
    nothing is returned that holds no citation. *)
Theorem spans_hold_citations (contextSize : nat) (c : CitationContext) :
  In c (extractCitations text contextSize) ->
  citation_span text (ctx_start c) (ctx_end c).
Proof.
  intros Hc. unfold extractCitations in Hc.
  apply build_contexts_In in Hc as [f [Hf [-> ->]]].
  unfold citation_spans in Hf. apply in_map_iff in Hf as [x [<- Hx]].
  apply fused_span. now apply (proj1 merged_grown).
Qed.

Lemma found_match_in_span (contextSize : nat) (p : regex) (m : PatternMatch) :
  In p patterns -> In m (all_matches text p) ->
  exists c, In c (extractCitations text contextSize) /\
            ctx_start c <= pm_start m /\ pm_end m <= ctx_end c.
Proof.
  intros Hp Hm.
  destruct (proj2 merged_grown m) as [y [Hy Cy]].
  { apply in_flat_map. exists p. now split. }
  destruct (fused_span y (proj1 merged_grown y Hy)) as [Cf _].
  destruct (build_contexts_of text contextSize 0 (citation_spans text)
              (fuse_signals text (all_matches text SIGNAL_RE) y)) as [c [Hc [Es Ee]]].
  { unfold citation_spans. now apply in_map. }
  exists c. split; [exact Hc|]. rewrite Es, Ee.
  unfold covers in *. lia.
Qed.

(** X14.  No match is lost.  Every match that the loops over the four citation
    patterns find lies inside one of the spans that [extractCitations]
    returns: merging and signal fusion only widen. *)
Theorem found_matches_covered (contextSize : nat) (p : regex) (m : PatternMatch) :
  In p patterns -> In m (all_matches text p) ->
  exists c, In c (extractCitations text contextSize) /\
            ctx_start c <= pm_start m /\ pm_end m <= ctx_end c.
Proof.
  intros Hp Hm.
  destruct (proj2 merged_grown m) as [y [Hy Cy]].
  { apply in_flat_map. exists p. now split. }
  destruct (fused_span y (proj1 merged_grown y Hy)) as [Cf _].
  destruct (build_contexts_of text contextSize 0 (citation_spans text)
              (fuse_signals text (all_matches text SIGNAL_RE) y)) as [c [Hc [Es Ee]]].
  { unfold citation_spans. now apply in_map. }
  exists c. split; [exact Hc|]. rewrite Es, Ee.
  unfold covers in *. lia.
Qed.

End Origins.

(** The second span of the sample begins with the signal. *)
Lemma spans_hold_citations_witness :
  citation_span signal_between (ctx_start second_span) (ctx_end second_span).
Proof.
  apply (spans_hold_citations signal_between 100 second_span).
  vm_compute. right. left. reflexivity.
Defined.

(** The match of [ID_RE] at the start of the sample. *)
Lemma found_matches_covered_witness :
  exists c, In c (extractCitations signal_between 100) /\
            ctx_start c <= 0 /\ 8 <= ctx_end c.
Proof.
  apply (found_matches_covered signal_between 100 ID_RE
           {| pm_text := lit "Id. at 5"; pm_start := 0; pm_end := 8 |}).
  - right. right. right. left. reflexivity.
  - vm_compute. left. reflexivity.
Defined.

(* ================================================================== *)
(** * The matcher finds a match where there is one *)
(* ================================================================== *)

Lemma star_loop_stop {A : Type} (body : nat -> (nat -> option A) -> option A)
    (k : nat -> option A) (fuel i : nat) :
  k i <> None -> star_loop body k fuel i <> None.
Proof.
  intros H. destruct fuel as [|fuel]; simpl; [assumption|].
  destruct (body i _); [discriminate | assumption].
Qed.

(** A continuation that succeeds wherever another one does serves as well. *)
Lemma star_loop_mono {A : Type} (body : nat -> (nat -> option A) -> option A)
    (k1 k2 : nat -> option A) :
  (forall i c1 c2, (forall j, c1 j <> None -> c2 j <> None) ->
     body i c1 <> None -> body i c2 <> None) ->
  (forall j, k1 j <> None -> k2 j <> None) ->
  forall fuel i, star_loop body k1 fuel i <> None -> star_loop body k2 fuel i <> None.
Proof.
  intros Hbody Hk. induction fuel as [|fuel IH]; intros i; simpl; [apply Hk|].
  destruct (body i (fun j => if i <? j then star_loop body k1 fuel j else None)) eqn:E1.
  - intros _.
    assert (X : body i (fun j => if i <? j then star_loop body k2 fuel j else None) <> None).
    { apply (Hbody i (fun j => if i <? j then star_loop body k1 fuel j else None)).
      - intros j. destruct (i <? j); [apply IH | congruence].
      - congruence. }
    destruct (body i (fun j => if i <? j then star_loop body k2 fuel j else None));
      congruence.
  - intros H. apply Hk in H.
    destruct (body i (fun j => if i <? j then star_loop body k2 fuel j else None));
      [discriminate | assumption].
Qed.

Lemma rmatch_mono {A : Type} (input : str) (r : regex) :
  forall (i : nat) (k1 k2 : nat -> option A),
    (forall j, k1 j <> None -> k2 j <> None) ->
    rmatch input r i k1 <> None -> rmatch input r i k2 <> None.
Proof.
  induction r as [|c|r1 IH1 r2 IH2|r1 IH1 r2 IH2|r1 IH1| | |]; intros i k1 k2 H;
    cbn [rmatch].
  - apply H.
  - destruct (nth_error input i) as [x|]; [|congruence].
    destruct (cls_mem x c); [apply H | congruence].
  - apply IH1. intros j. now apply IH2.
  - destruct (rmatch input r1 i k1) eqn:E1.
    + intros _.
      assert (X : rmatch input r1 i k2 <> None) by (apply (IH1 i k1 k2 H); congruence).
      destruct (rmatch input r1 i k2); congruence.
    + intros H2. apply (IH2 i k1 k2 H) in H2.
      destruct (rmatch input r1 i k2); [discriminate | assumption].
  - apply star_loop_mono; [|assumption].
    intros i' c1 c2 Hc. now apply IH1.
  - destruct (at_word_boundary input i); [apply H | congruence].
  - destruct (i =? 0); [apply H | congruence].
  - destruct (i =? length input); [apply H | congruence].
Qed.

(** More turns than needed do no harm. *)
Lemma star_loop_more_fuel {A : Type} (input : str) (r : regex)
    (k : nat -> option A) (fuel fuel' : nat) :
  fuel <= fuel' ->
  forall i, star_loop (rmatch input r) k fuel i <> None ->
            star_loop (rmatch input r) k fuel' i <> None.
Proof.
  revert fuel'. induction fuel as [|fuel IH]; intros fuel' L i.
  - simpl. apply star_loop_stop.
  - destruct fuel' as [|fuel']; [lia|]. simpl.
    destruct (rmatch input r i
                (fun j => if i <? j then star_loop (rmatch input r) k fuel j else None)) eqn:E1.
    + intros _.
      assert (X : rmatch input r i
                    (fun j => if i <? j then star_loop (rmatch input r) k fuel' j else None)
                  <> None).
      { apply (rmatch_mono input r i
                 (fun j => if i <? j then star_loop (rmatch input r) k fuel j else None)).
        - intros j. destruct (i <? j); [apply IH; lia | congruence].
        - congruence. }
      destruct (rmatch input r i
                  (fun j => if i <? j then star_loop (rmatch input r) k fuel' j else None))
        eqn:E2; congruence.
    + intros H.
      destruct (rmatch input r i
                  (fun j => if i <? j then star_loop (rmatch input r) k fuel' j else None));
        [discriminate | assumption].
Qed.

Section Completeness.

Variable input : str.

Lemma matches_in_input (r : regex) (i j : nat) :
  matches input r i j -> i < j -> i < length input /\ j <= length input.
Proof.
  intros M L. destruct (matches_first input r i j M L) as [c [E _]].
  assert (i < length input) by (apply nth_error_Some; congruence).
  split; [assumption|]. apply (matches_bounds input r i j M). lia.
Qed.

(** Whatever the continuation accepts at the end of a match, the matcher
    does not fail. *)
Lemma rmatch_complete (r : regex) (i j : nat) :
  matches input r i j ->
  forall (A : Type) (k : nat -> option A), k j <> None -> rmatch input r i k <> None.
Proof.
  induction 1 as [ i | c i x E M | r1 r2 i j l M1 IH1 M2 IH2 | r1 r2 i j M IH
                 | r1 r2 i j M IH | r i | r i j l M1 IH1 L M2 IH2 | i B | | ];
    intros A k Hk; cbn [rmatch].
  - assumption.
  - now rewrite E, M.
  - apply IH1. now apply IH2.
  - specialize (IH A k Hk). destruct (rmatch input r1 i k); congruence.
  - specialize (IH A k Hk). destruct (rmatch input r1 i k); [discriminate | assumption].
  - now apply star_loop_stop.
  - destruct (matches_in_input r i j M1 L) as [Hi Hj].
    destruct (length input - i) as [|fuel] eqn:F; [lia|]. simpl.
    assert (X : rmatch input r i
                  (fun j' => if i <? j' then star_loop (rmatch input r) k fuel j' else None)
                <> None).
    { apply IH1. destruct (Nat.ltb_spec i j) as [_|C]; [|lia].
      apply (star_loop_more_fuel input r k (length input - j) fuel); [lia|].
      specialize (IH2 A k Hk). cbn [rmatch] in IH2. exact IH2. }
    destruct (rmatch input r i
                (fun j' => if i <? j' then star_loop (rmatch input r) k fuel j' else None))
      eqn:E2; congruence.
  - now rewrite B.
  - assumption.
  - now rewrite Nat.eqb_refl.
Qed.

Lemma match_at_complete (r : regex) (i j : nat) :
  matches input r i j -> match_at input r i <> None.
Proof. intros M. apply (rmatch_complete r i j M). discriminate. Qed.

Lemma search_from_finds (r : regex) (fuel i s : nat) :
  match_at input r s <> None -> i <= s <= i + fuel ->
  exists s' e', search_from input r fuel i = Some (s', e') /\ i <= s' <= s.
Proof.
  intros Hs. revert i. induction fuel as [|fuel IH]; intros i L; simpl.
  - assert (s = i) as -> by lia.
    destruct (match_at input r i) as [e|]; [|congruence].
    exists i, e. split; [reflexivity | lia].
  - destruct (match_at input r i) as [e|] eqn:E.
    + exists i, e. split; [reflexivity | lia].
    + assert (i <> s) by (intros ->; congruence).
      destruct (IH (S i)) as [s' [e' [F B]]]; [lia|].
      exists s', e'. split; [assumption | lia].
Qed.

(** [exec] finds a match that begins at or before any position where the
    pattern has one. *)
Lemma exec_finds (r : regex) (lastIndex s e : nat) :
  matches input r s e -> lastIndex <= s -> s <= length input ->
  exists s' e', exec input r lastIndex = Some (s', e') /\ lastIndex <= s' <= s.
Proof.
  intros M L B. unfold exec.
  destruct (Nat.ltb_spec (length input) lastIndex); [lia|].
  apply search_from_finds; [now apply (match_at_complete r s e) | lia].
Qed.

(** The loop over the matches of a pattern leaves no position where the
    pattern has a match outside the matches it collects. *)
Lemma exec_loop_covers (r : regex) (fuel lastIndex : nat) (l : list PatternMatch)
    (s e : nat) :
  nullable r = false ->
  exec_loop input r fuel lastIndex = Some l ->
  matches input r s e -> lastIndex <= s ->
  exists m, In m l /\ pm_start m <= s < pm_end m.
Proof.
  intros Hnull Hloop M. revert lastIndex l Hloop.
  pose proof (matches_nonempty input r s e M Hnull) as Hne.
  destruct (matches_in_input r s e M Hne) as [Hs _].
  induction fuel as [|fuel IH]; intros lastIndex l Hloop L; simpl in Hloop; [discriminate|].
  destruct (exec_finds r lastIndex s e M L ltac:(lia)) as [s' [e' [E B]]].
  rewrite E in Hloop.
  destruct (exec_loop input r fuel e') as [l'|] eqn:E'; [|discriminate].
  injection Hloop as <-.
  destruct (Nat.lt_ge_cases s e') as [C|C].
  - eexists. split; [left; reflexivity|]. simpl. lia.
  - destruct (IH e' l' E' C) as [m [Hm Bm]]. exists m. split; [now right | assumption].
Qed.

End Completeness.

(* ================================================================== *)
(** * [extractCitations]: nothing that matches is left out *)
(* ================================================================== *)

(** X15.  Every place where a citation pattern matches is inside a span.  If
    the code units of the text from [s] up to [e] are a match of one of
    the four citation patterns, whether the loops stop there or not, then
    [s] lies in one of the spans that [extractCitations] returns. *)
Theorem citation_matches_extracted (text : str) (contextSize s e : nat) :
  citation_match text s e ->
  exists c, In c (extractCitations text contextSize) /\ ctx_start c <= s < ctx_end c.
Proof.
  intros [p [Hp M]].
  pose proof (patterns_not_nullable p Hp) as Hnull.
  destruct (exec_loop_covers text p (S (length text)) 0 (all_matches text p) s e Hnull
              (all_matches_total text p Hnull) M ltac:(lia)) as [m [Hm B]].
  destruct (found_match_in_span text contextSize p m Hp Hm) as [c [Hc [C1 C2]]].
  exists c. split; [assumption | lia].
Qed.

(** The match of [ID_RE] at the start of the sample. *)
Lemma citation_matches_extracted_witness :
  exists c, In c (extractCitations signal_between 100) /\ ctx_start c <= 0 < ctx_end c.
Proof.
  apply (citation_matches_extracted signal_between 100 0 8).
  exists ID_RE. split.
  - right. right. right. left. reflexivity.
  - apply match_at_sound. vm_compute. reflexivity.
Defined.

(* ================================================================== *)
(** * [extractCitations]: what every citation holds *)
(* ================================================================== *)

Lemma cls_subset_mem (c : char) (a b : cls) :
  cls_subset a b = true -> cls_mem c a = true -> cls_mem c b = true.
Proof.
  unfold cls_subset, cls_mem. intros S H.
  apply existsb_exists in H as [x [Hx Hc]].
  rewrite forallb_forall in S. specialize (S x Hx).
  apply existsb_exists in S as [y [Hy Hxy]].
  apply existsb_exists. exists y. split; [assumption|].
  unfold in_range in *.
  apply andb_true_iff in Hc as [C1 C2]. apply andb_true_iff in Hxy as [X1 X2].
  apply N.leb_le in C1, C2, X1, X2. apply andb_true_iff. split; apply N.leb_le; lia.
Qed.

Lemma must_have_sound (input : str) (k : cls) (r : regex) (i j : nat) :
  matches input r i j -> must_have k r = true ->
  exists p c, i <= p < j /\ nth_error input p = Some c /\ cls_mem c k = true.
Proof.
  induction 1 as [ | k' i c E M | r1 r2 i j l M1 IH1 M2 IH2 | r1 r2 i j M IH
                 | r1 r2 i j M IH | | r i j l M1 IH1 L M2 IH2 | | | ];
    simpl; intros Hk; try discriminate.
  - exists i, c. split; [lia|]. split; [assumption|].
    now apply (cls_subset_mem c k' k).
  - pose proof (matches_bounds input _ _ _ M1) as [B1 _].
    pose proof (matches_bounds input _ _ _ M2) as [B2 _].
    apply orb_true_iff in Hk as [Hk|Hk].
    + destruct (IH1 Hk) as [p [c [B Hc]]]. exists p, c. split; [lia | assumption].
    + destruct (IH2 Hk) as [p [c [B Hc]]]. exists p, c. split; [lia | assumption].
  - apply andb_true_iff in Hk as [Hk _]. now apply IH.
  - apply andb_true_iff in Hk as [_ Hk]. now apply IH.
Qed.

Lemma citation_needs (text : str) (s e : nat) :
  citation_match text s e ->
  s < e /\
  (exists p x, s <= p < e /\ nth_error text p = Some x /\ cls_mem x (ch ".") = true) /\
  (exists x, nth_error text s = Some x /\ cls_mem x (upper ++ digit) = true).
Proof.
  intros [p [Hp M]].
  pose proof (matches_nonempty text p s e M (patterns_not_nullable p Hp)) as Hne.
  split; [assumption|]. split.
  - apply (must_have_sound text (ch ".") p s e M).
    destruct Hp as [<-|[<-|[<-|[<-|[]]]]]; vm_compute; reflexivity.
  - destruct (matches_first text p s e M Hne) as [x [E Hx]].
    exists x. split; [assumption|].
    apply (cls_subset_mem x (first_of p)); [|assumption].
    destruct Hp as [<-|[<-|[<-|[<-|[]]]]]; vm_compute; reflexivity.
Qed.

(** X16.  What every citation holds.  Each of the four citation patterns matches
    only text that holds a period and that begins with a capital letter or
    a digit.  So every span that [extractCitations] returns holds a period
    and a capital letter or a digit, and a text without a period, or
    without any capital letter and digit, has no span at all. *)
Theorem spans_need_period_and_capital (text : str) (contextSize : nat) :
  (forall c, In c (extractCitations text contextSize) ->
     (exists p x, ctx_start c <= p < ctx_end c /\ nth_error text p = Some x /\
                  cls_mem x (ch ".") = true) /\
     (exists p x, ctx_start c <= p < ctx_end c /\ nth_error text p = Some x /\
                  cls_mem x (upper ++ digit) = true)) /\
  ((forall x, In x text -> cls_mem x (ch ".") = false) ->
   extractCitations text contextSize = []) /\
  ((forall x, In x text -> cls_mem x (upper ++ digit) = false) ->
   extractCitations text contextSize = []).
Proof.
  assert (H : forall c, In c (extractCitations text contextSize) ->
     (exists p x, ctx_start c <= p < ctx_end c /\ nth_error text p = Some x /\
                  cls_mem x (ch ".") = true) /\
     (exists p x, ctx_start c <= p < ctx_end c /\ nth_error text p = Some x /\
                  cls_mem x (upper ++ digit) = true)).
  { intros c Hc.
    destruct (extracted_citation_span text contextSize c Hc) as [[s [Hs Hm]] _].
    destruct (citation_needs text s (ctx_end c) Hm) as [Hne [[p [x [B Hx]]] [y [Ey Hy]]]].
    split.
    - exists p, x. split; [lia | assumption].
    - exists s, y. split; [lia|]. now split. }
  split; [exact H|]. split.
  - intros Hno. destruct (extractCitations text contextSize) as [|c l] eqn:E; [reflexivity|].
    exfalso. destruct (H c (or_introl eq_refl)) as [[p [x [_ [Ex Hx]]]] _].
    apply nth_error_In in Ex. rewrite (Hno x Ex) in Hx. discriminate.
  - intros Hno. destruct (extractCitations text contextSize) as [|c l] eqn:E; [reflexivity|].
    exfalso. destruct (H c (or_introl eq_refl)) as [_ [p [x [_ [Ex Hx]]]]].
    apply nth_error_In in Ex. rewrite (Hno x Ex) in Hx. discriminate.
Qed.

(** A signal, capital letters, no period: no span. *)
Lemma spans_need_period_and_capital_witness :
  extractCitations signal_alone 100 = [].
Proof.
  apply (proj1 (proj2 (spans_need_period_and_capital signal_alone 100))).
  intros x Hx. unfold signal_alone in Hx. simpl in Hx.
  repeat (destruct Hx as [<-|Hx]; [reflexivity|]). destruct Hx.
Defined.

(* ================================================================== *)
(** * [extractCitations]: the signal before a citation *)
(* ================================================================== *)

(** The loop over the signals stops at the first signal that ends at the
    start of the citation or one code unit before it. *)
Lemma fuse_signals_earliest (text : str) (lo : nat) (signals : list PatternMatch)
    (x sg : PatternMatch) :
  in_order lo signals -> In sg signals ->
  pm_end sg = pm_start x \/ S (pm_end sg) = pm_start x ->
  pm_start (fuse_signals text signals x) <= pm_start sg.
Proof.
  revert lo; induction signals as [|s1 signals IH]; intros lo O Hin Hcond; [contradiction|].
  destruct O as [O1 [O2 O3]].
  change (fuse_signals text (s1 :: signals) x)
    with (fuse_signals text signals (fuse_signal text x s1)).
  unfold fuse_signal.
  destruct ((pm_end s1 =? pm_start x) || (S (pm_end s1) =? pm_start x)) eqn:E.
  - rewrite fuse_signals_skip.
    + simpl. destruct Hin as [<-|Hin]; [lia|].
      pose proof (in_order_nonempty _ _ O3) as NE. rewrite Forall_forall in NE.
      specialize (NE sg Hin). lia.
    + simpl. eapply Forall_impl; [|exact (in_order_nonempty _ _ O3)].
      simpl. intros; lia.
  - destruct Hin as [<-|Hin].
    + exfalso. apply orb_false_iff in E as [E1 E2].
      apply Nat.eqb_neq in E1, E2. lia.
    + now apply (IH _ O3).
Qed.

(** X17.  The signal before a citation.  Every span that [extractCitations]
    returns goes back to a position [s0] where a citation match begins.
    When the loop over the signal pattern found no signal that ends at
    [s0] or one code unit before it, the span begins at [s0]; otherwise it
    begins where the earliest such signal begins. *)
Theorem signal_before_citation_fused (text : str) (contextSize : nat)
    (c : CitationContext) :
  In c (extractCitations text contextSize) ->
  exists s0,
    ctx_start c <= s0 /\
    (exists e, citation_match text s0 e) /\
    (forall sg, In sg (all_matches text SIGNAL_RE) ->
       pm_end sg = s0 \/ S (pm_end sg) = s0 -> ctx_start c <= pm_start sg < s0) /\
    (ctx_start c = s0 \/
     exists sg, In sg (all_matches text SIGNAL_RE) /\
                (pm_end sg = s0 \/ S (pm_end sg) = s0) /\
                ctx_start c = pm_start sg).
Proof.
  intros Hc. unfold extractCitations in Hc.
  apply build_contexts_In in Hc as [f [Hf [-> _]]].
  unfold citation_spans in Hf. apply in_map_iff in Hf as [x [<- Hx]].
  destruct (proj1 (merged_grown text) x Hx) as [Hstart _].
  destruct (all_matches_sound text SIGNAL_RE eq_refl) as [_ [O _]].
  pose proof (in_order_nonempty _ _ O) as NE. rewrite Forall_forall in NE.
  exists (pm_start x). split; [|split; [assumption|split]].
  - destruct (fuse_signals_result text 0 _ x O) as [-> | [sg [Hin [Hcond ->]]]];
      [lia|]. simpl. specialize (NE sg Hin). lia.
  - intros sg Hin Hcond. split.
    + now apply (fuse_signals_earliest text 0 _ x sg O).
    + specialize (NE sg Hin). lia.
  - destruct (fuse_signals_result text 0 _ x O) as [-> | [sg [Hin [Hcond ->]]]];
      [now left|].
    right. exists sg. simpl. now repeat split.
Qed.

Lemma signal_before_citation_fused_witness :
  exists s0,
    ctx_start second_span <= s0 /\
    (exists e, citation_match signal_between s0 e) /\
    (ctx_start second_span = s0 \/
     exists sg, In sg (all_matches signal_between SIGNAL_RE) /\
                (pm_end sg = s0 \/ S (pm_end sg) = s0) /\
                ctx_start second_span = pm_start sg).
Proof.
  destruct (signal_before_citation_fused signal_between 100 second_span)
    as [s0 [H1 [H2 [_ H4]]]].
  - vm_compute. right. left. reflexivity.
  - exists s0. now repeat split.
Defined.

(* ================================================================== *)
(** * [prompt.ts]: the requests of the batches *)
(* ================================================================== *)

Lemma join_app (sep : str) (l1 l2 : list str) :
  l1 <> [] -> l2 <> [] -> join sep (l1 ++ l2) = join sep l1 ++ sep ++ join sep l2.
Proof.
  intros H1 H2. induction l1 as [|p l1 IH]; [congruence|].
  destruct l1 as [|p' t].
  - simpl. destruct l2 as [|q l2]; [congruence | reflexivity].
  - change (join sep ((p :: p' :: t) ++ l2))
      with (p ++ sep ++ join sep ((p' :: t) ++ l2)).
    rewrite IH by discriminate.
    change (join sep (p :: p' :: t)) with (p ++ sep ++ join sep (p' :: t)).
    now rewrite <- !app_assoc.
Qed.

Lemma batch_of_slice (contexts : list CitationContext) (b j : nat) :
  batch_of contexts b j = firstn b (skipn (j * b) contexts).
Proof.
  unfold batch_of. rewrite <- slice_clip. unfold slice. f_equal. lia.
Qed.

(** The lines of the first [j] batches, joined, are the lines of the
    spans before batch [j]. *)
Lemma batch_lines (contexts : list CitationContext) (b j : nat) :
  1 <= b -> j <= ceil_div (length contexts) b ->
  join nl (map (fun i => lines (map context_line (batch_of contexts b i))) (seq 0 j)) =
  lines (map context_line (firstn (j * b) contexts)).
Proof.
  intros Hb. induction j as [|j IH]; intros Hj; [reflexivity|].
  assert (Hlt : j * b < length contexts).
  { destruct (Nat.le_gt_cases (length contexts) (j * b)) as [C|C]; [|exact C].
    apply (ceil_div_le _ _ _ Hb) in C. lia. }
  assert (Hnext : firstn (S j * b) contexts = firstn (j * b) contexts ++ batch_of contexts b j).
  { rewrite batch_of_slice. replace (S j * b) with (j * b + b) by lia. apply firstn_plus. }
  assert (Hbatch : batch_of contexts b j <> []).
  { rewrite batch_of_slice. intros E. apply (f_equal (@length _)) in E.
    rewrite length_firstn, length_skipn in E. simpl in E. lia. }
  rewrite seq_S, map_app, Hnext, map_app. simpl.
  destruct j as [|j].
  - reflexivity.
  - unfold lines in *.
    rewrite (join_app nl (map context_line (firstn (S j * b) contexts))).
    + rewrite (join_app nl (map _ (seq 0 (S j)))).
      * rewrite IH by lia. reflexivity.
      * rewrite seq_S, map_app. now destruct (map _ (seq 0 j)).
      * discriminate.
    + intros E. apply (f_equal (@length _)) in E.
      rewrite length_map, length_firstn in E. simpl in E. lia.
    + intros E. apply map_eq_nil in E. contradiction.
Qed.

(** X18.  Batching cuts the request at line ends and nowhere else.  For a batch
    size from 1 on, every request has the same system message, and the
    user messages of the batches, put together with line feeds between
    them, are the user message of the one request that would hold all the
    spans: every span is sent once, in order, in the words it would have
    without batches. *)
Theorem batch_requests_partition (contexts : list CitationContext) (b : nat)
    (rules : option str) :
  1 <= b ->
  join nl (map user_message (batch_requests contexts b rules)) =
    user_message (buildMessages contexts rules) /\
  (forall m, In m (batch_requests contexts b rules) ->
     system_message m = system_message (buildMessages contexts rules) /\
     length m = 2).
Proof.
  intros Hb. split.
  - unfold batch_requests. rewrite map_map. simpl.
    rewrite (batch_lines contexts b _ Hb (le_n _)).
    rewrite firstn_all2; [reflexivity|].
    now apply (ceil_div_le _ _ _ Hb).
  - intros m Hm. unfold batch_requests in Hm.
    apply in_map_iff in Hm as [i [<- _]]. now split.
Qed.

(** Three spans in batches of two. *)
Lemma batch_requests_partition_witness :
  join nl (map user_message
             (batch_requests (extractCitations three_citations 100) 2 None)) =
  user_message (buildMessages (extractCitations three_citations 100) None).
Proof.
  apply (batch_requests_partition (extractCitations three_citations 100) 2 None).
  lia.
Defined.

(* ================================================================== *)
(** * [parseResponse]: white space around the reply *)
(* ================================================================== *)

Lemma trimStart_app_blank (pre x : str) :
  blank pre = true -> trimStart (pre ++ x) = trimStart x.
Proof.
  unfold blank. induction pre as [|c pre IH]; simpl; intros H; [reflexivity|].
  apply andb_true_iff in H as [Hc H]. rewrite Hc. now apply IH.
Qed.

Lemma trimEnd_app_blank (x post : str) :
  blank post = true -> trimEnd (x ++ post) = trimEnd x.
Proof.
  intros H. unfold trimEnd. rewrite rev_app_distr, trimStart_app_blank; [reflexivity|].
  unfold blank in *. now rewrite forallb_rev.
Qed.

Lemma trimStart_app (s post : str) :
  blank s = false -> trimStart (s ++ post) = trimStart s ++ post.
Proof.
  unfold blank. induction s as [|c s IH]; simpl; intros H; [discriminate|].
  destruct (is_space c); simpl in H; [now apply IH | reflexivity].
Qed.

Lemma trim_padding (pre s post : str) :
  blank pre = true -> blank post = true -> trim (pre ++ s ++ post) = trim s.
Proof.
  intros Hpre Hpost. unfold trim. rewrite (trimStart_app_blank pre _ Hpre).
  destruct (blank s) eqn:E.
  - assert (B : blank (s ++ post) = true)
      by (unfold blank in *; rewrite forallb_app, E, Hpost; reflexivity).
    unfold blank in *. apply trimStart_nil_iff in B, E. now rewrite B, E.
  - rewrite (trimStart_app s post E). now apply trimEnd_app_blank.
Qed.

(** X19.  White space around a reply does not count: [parseResponse] gives the
    same corrections, or the same error, for a reply and for the reply
    with spaces, tabs or line ends before and after it. *)
Theorem parseResponse_ignores_padding (pre response post : str) :
  blank pre = true -> blank post = true ->
  parseResponse (pre ++ response ++ post) = parseResponse response.
Proof.
  intros Hpre Hpost. unfold parseResponse, strip_fences.
  now rewrite (trim_padding pre response post Hpre Hpost).
Qed.

Lemma parseResponse_ignores_padding_witness :
  parseResponse (lit "  " ++ two_records ++ nl) = parseResponse two_records.
Proof.
  apply (parseResponse_ignores_padding (lit "  ") two_records nl); reflexivity.
Defined.

(* ================================================================== *)
(** * [applyCorrections]: the corrections by id *)
(* ================================================================== *)

Lemma spliced_ext (text : str) (f g : CitationContext -> str)
    (pos : nat) (spans : list CitationContext) :
  (forall c, In c spans -> f c = g c) ->
  spliced text pos spans f = spliced text pos spans g.
Proof.
  revert pos; induction spans as [|c spans IH]; intros pos H; simpl; [reflexivity|].
  rewrite (H c (or_introl eq_refl)), (IH (ctx_end c)); [reflexivity|].
  intros d Hd. apply H. now right.
Qed.

(** X20.  The corrections are looked up by id.  For spans laid out over the
    text and corrections with the same ids, no id twice, the order of the
    corrections does not matter; and when an id comes twice, the later
    correction is the one that counts. *)
Theorem corrections_looked_up_by_id (text : str) (spans : list CitationContext)
    (corrections : list CitationCorrection) :
  spans_laid_out text 0 spans ->
  ids_match spans corrections ->
  (forall corrections',
     NoDup (map cor_id corrections) -> Permutation corrections corrections' ->
     applyCorrections text spans corrections' =
     applyCorrections text spans corrections) /\
  (forall k c,
     In c spans -> cor_id k = ctx_num c ->
     exists r,
       applyCorrections text spans (corrections ++ [k]) = Ok r /\
       ar_text r = spliced text 0 spans (replacement_of (corrections ++ [k])) /\
       replacement_of (corrections ++ [k]) c = cor_citation k).
Proof.
  intros Hlay Hids. split.
  - intros cs' Hnd P.
    assert (Hids' : ids_match spans cs').
    { destruct Hids as [H1 H2]. split.
      - intros c Hc. destruct (H1 c Hc) as [k [Hk E]]. exists k.
        split; [now apply (Permutation_in _ P) | exact E].
      - intros k Hk. apply H2. now apply (Permutation_in _ (Permutation_sym P)). }
    assert (Hnd' : NoDup (map cor_id cs')).
    { apply (Permutation_NoDup (Permutation_map cor_id P) Hnd). }
    assert (E : forall c, In c spans -> replacement_of cs' c = replacement_of corrections c).
    { intros c Hc. destruct (proj1 Hids c Hc) as [k [Hk Ek]].
      rewrite (replacement_of_unique corrections k c Hnd Hk Ek).
      apply (replacement_of_unique cs' k c Hnd'); [|exact Ek].
      now apply (Permutation_in _ P). }
    rewrite (applyCorrections_ok text cs' spans Hlay Hids').
    rewrite (applyCorrections_ok text corrections spans Hlay Hids).
    f_equal. f_equal.
    + now apply spliced_ext.
    + assert (F : filter (is_changed cs') spans = filter (is_changed corrections) spans).
      { apply filter_ext_in. intros c Hc. unfold is_changed. now rewrite (E c Hc). }
      rewrite F. apply map_ext_in. intros c Hc. apply filter_In in Hc as [Hc _].
      unfold audit_of. now rewrite (E c Hc).
  - intros k c Hc Ek.
    assert (Hids' : ids_match spans (corrections ++ [k])).
    { destruct Hids as [H1 H2]. split.
      - intros d Hd. destruct (H1 d Hd) as [k' [Hk' E]]. exists k'.
        split; [apply in_or_app; now left | exact E].
      - intros k' Hk'. apply in_app_or in Hk' as [Hk'|[<-|[]]]; [now apply H2|].
        exists c. now split. }
    eexists. split; [apply (applyCorrections_ok text _ spans Hlay Hids')|].
    split; [reflexivity|].
    unfold replacement_of, correction_for. rewrite rev_app_distr. simpl.
    now rewrite Ek, num_eqb_refl.
Qed.

(** The corrections of the sample in the other order. *)
Lemma corrections_looked_up_by_id_witness :
  applyCorrections sample_text sample_spans (rev sample_corrections) =
  applyCorrections sample_text sample_spans sample_corrections.
Proof.
  apply (proj1 (corrections_looked_up_by_id sample_text sample_spans sample_corrections
                  sample_laid_out sample_ids_match)).
  - simpl. constructor.
    + intros [H|[]]. apply num_of_nat_inj in H. discriminate H.
    + constructor; [intros [] | constructor].
  - apply Permutation_rev.
Defined.

(* ================================================================== *)
(** * From the request to the reply and back *)
(* ================================================================== *)

(** ** The id, printed and read *)

(** The digits that [String(n)] prints: at least one, no leading zero
    unless [n] is 0, and read back they give [n]. *)
Lemma digits_fuel_read (fuel : nat) :
  forall (n : nat) (acc : str), n < fuel ->
  exists ds,
    digits_fuel fuel n acc = ds ++ acc /\
    (exists d t, ds = d :: t /\ Json.is_digit d = true /\ (d = 48%N -> n = 0 /\ t = [])) /\
    (forall rest v count,
       Json.read_digits (ds ++ rest) v count =
       Json.read_digits rest (v * 10 ^ Z.of_nat (length ds) + Z.of_nat n)%Z
         (count + length ds)).
Proof.
  induction fuel as [|fuel IH]; intros n acc Hn; [lia|]. cbn [digits_fuel].
  assert (Hd : n mod 10 < 10) by (apply Nat.mod_upper_bound; lia).
  assert (Dig : Json.is_digit (48 + N.of_nat (n mod 10))%N = true).
  { unfold Json.is_digit. apply andb_true_iff. split; apply N.leb_le; lia. }
  assert (Val : Z.of_N (48 + N.of_nat (n mod 10) - 48)%N = Z.of_nat (n mod 10)) by lia.
  destruct (Nat.ltb_spec n 10) as [L|L].
  - exists [(48 + N.of_nat (n mod 10))%N]. split; [reflexivity|]. split.
    + eexists. exists []. split; [reflexivity|]. split; [assumption|].
      intros E. rewrite Nat.mod_small in E by assumption. split; [lia | reflexivity].
    + intros rest v count. cbn [app Json.read_digits length]. rewrite Dig, Val.
      rewrite Nat.mod_small by assumption.
      f_equal; try lia.
  - assert (Hq : n / 10 < fuel).
    { pose proof (Nat.Div0.div_lt_upper_bound n 10 n). lia. }
    destruct (IH (n / 10) ((48 + N.of_nat (n mod 10))%N :: acc) Hq)
      as [ds [E [[d [t [Eds [Hdig Hzero]]]] Hread]]].
    exists (ds ++ [(48 + N.of_nat (n mod 10))%N]). split; [|split].
    + rewrite E, <- app_assoc. reflexivity.
    + exists d, (t ++ [(48 + N.of_nat (n mod 10))%N]). subst ds. split; [reflexivity|].
      split; [assumption|]. intros Ez. destruct (Hzero Ez) as [Z0 _].
      exfalso. assert (1 <= n / 10) by (apply Nat.div_le_lower_bound; lia). lia.
    + intros rest v count. rewrite <- app_assoc. cbn [app].
      rewrite Hread. cbn [Json.read_digits]. rewrite Dig, Val.
      rewrite length_app. cbn [length].
      f_equal; [|lia].
      rewrite Nat2Z.inj_add. change (Z.of_nat 1) with 1%Z.
      rewrite Z.pow_add_r by lia.
      pose proof (Nat.div_mod_eq n 10) as Hdm.
      assert (Zn : Z.of_nat n = (10 * Z.of_nat (n / 10) + Z.of_nat (n mod 10))%Z) by lia.
      rewrite Zn. ring.
Qed.

Lemma number_value_integer (z : Z) :
  Json.number_value false z 0 0 0 = num_of_Z z.
Proof.
  unfold Json.number_value, num_of_Z. apply Q2Qc_eq_iff.
  cbn [Z.of_nat Z.pow Z.to_pos Qpower]. unfold Qeq, Qmult, inject_Z. simpl. lia.
Qed.

(** The id of a span, as the request prints it, is read back by
    [JSON.parse] as the number of that id. *)
Lemma read_number_id (n : nat) (r : str) :
  Json.read_number (nat_to_str n ++ 44%N :: r) = Some (num_of_nat n, 44%N :: r).
Proof.
  unfold nat_to_str.
  destruct (digits_fuel_read (S n) n [] ltac:(lia))
    as [ds [E [[d [t [Eds [Hdig Hzero]]]] Hread]]].
  rewrite E, app_nil_r. clear E.
  assert (Hlo : (48 <= d)%N /\ (d <= 57)%N).
  { unfold Json.is_digit in Hdig. apply andb_true_iff in Hdig as [H1 H2].
    apply N.leb_le in H1, H2. now split. }
  unfold Json.read_number. subst ds. cbn [app].
  destruct (N.eqb_spec d 45) as [C|_]; [lia|].
  assert (Hint : Json.read_int (d :: t ++ 44%N :: r) = Some (Z.of_nat n, 44%N :: r)).
  { unfold Json.read_int. destruct (N.eqb_spec d 48) as [Z0|NZ].
    - destruct (Hzero Z0) as [-> ->]. reflexivity.
    - rewrite Hdig.
      change (d :: t ++ 44%N :: r) with ((d :: t) ++ 44%N :: r).
      rewrite Hread. cbn [Json.read_digits].
      change (Json.is_digit 44%N) with false. cbv iota.
      rewrite Z.mul_0_l, Z.add_0_l. reflexivity. }
  rewrite Hint.
  change (Json.read_frac (44%N :: r)) with (Some (0%Z, 0, 44%N :: r)).
  cbv beta iota.
  change (Json.read_exp (44%N :: r)) with (Some (0%Z, 44%N :: r)).
  cbv beta iota. now rewrite number_value_integer.
Qed.

(** ** A plain string, written and read *)

Lemma read_string_plain (s rest : str) :
  plain s = true -> Json.read_string (s ++ 34%N :: rest) = Some (s, rest).
Proof.
  unfold plain. induction s as [|c s IH]; intros H.
  - reflexivity.
  - cbn [forallb] in H. apply andb_true_iff in H as [Hc H].
    apply andb_true_iff in Hc as [Hc H92]. apply andb_true_iff in Hc as [H32 H34].
    apply negb_true_iff in H32, H34, H92.
    cbn [app Json.read_string]. rewrite H34, H32, H92, (IH H). reflexivity.
Qed.

(** ** A record, written and read *)

Lemma read_value_id (fuel n : nat) (r : str) :
  Json.read_value (S fuel) (nat_to_str n ++ 44%N :: r) =
  Some (JNumber (num_of_nat n), 44%N :: r).
Proof.
  pose proof (read_number_id n r) as Hnum.
  unfold nat_to_str in *.
  destruct (digits_fuel_read (S n) n [] ltac:(lia))
    as [ds [E [[d [t [Eds [Hdig _]]]] _]]].
  rewrite E, app_nil_r in *. clear E. subst ds.
  unfold Json.is_digit in Hdig. apply andb_true_iff in Hdig as [H1 H2].
  apply N.leb_le in H1, H2.
  cbn [Json.read_value app].
  assert (W : Json.skip_ws (d :: t ++ 44%N :: r) = d :: t ++ 44%N :: r).
  { cbn [Json.skip_ws]. unfold Json.is_ws.
    destruct (N.eqb_spec d 32); [lia|]. destruct (N.eqb_spec d 9); [lia|].
    destruct (N.eqb_spec d 10); [lia|]. destruct (N.eqb_spec d 13); [lia|]. reflexivity. }
  rewrite W.
  destruct (N.eqb_spec d 91); [lia|]. destruct (N.eqb_spec d 123); [lia|].
  destruct (N.eqb_spec d 34); [lia|]. destruct (N.eqb_spec d 116); [lia|].
  destruct (N.eqb_spec d 102); [lia|]. destruct (N.eqb_spec d 110); [lia|].
  cbn [app] in Hnum. now rewrite Hnum.
Qed.

Lemma record_text (answer : CitationContext -> str) (c : CitationContext) (rest : str) :
  record_for answer c ++ rest =
  123%N :: 34%N ::
    (lit "id" ++ 34%N :: 58%N ::
      (nat_to_str (ctx_id c) ++ 44%N :: 34%N ::
        (lit "citation" ++ 34%N :: 58%N :: 34%N ::
          (answer c ++ 34%N :: 125%N :: rest)))).
Proof.
  unfold record_for, reply_record, dquote. rewrite <- !app_assoc. reflexivity.
Qed.

Lemma read_value_object (fuel : nat) (X : str) :
  Json.read_value (S fuel) (123%N :: 34%N :: X) =
  match Json.read_members fuel (34%N :: X) with
  | Some (members, r) => Some (JObject members, r)
  | None => None
  end.
Proof. reflexivity. Qed.

Lemma read_value_string (fuel : nat) (s rest : str) :
  plain s = true ->
  Json.read_value (S fuel) (34%N :: s ++ 34%N :: rest) = Some (JString s, rest).
Proof.
  intros H.
  change (Json.read_value (S fuel) (34%N :: s ++ 34%N :: rest))
    with (match Json.read_string (s ++ 34%N :: rest) with
          | Some (t, r) => Some (JString t, r)
          | None => None
          end).
  now rewrite (read_string_plain s rest H).
Qed.

(** A member of an object: the key, the colon, and the value that the
    reader of values finds after it. *)
Lemma read_members_key (fuel : nat) (key X : str) :
  plain key = true ->
  Json.read_members (S fuel) (34%N :: key ++ 34%N :: 58%N :: X) =
  match Json.read_value fuel X with
  | Some (v, r3) =>
      match Json.skip_ws r3 with
      | c :: r4 =>
          if N.eqb c 44 then
            match Json.read_members fuel r4 with
            | Some (ms, r5) => Some ((key, v) :: ms, r5)
            | None => None
            end
          else if N.eqb c 125 then Some ([(key, v)], r4)
          else None
      | [] => None
      end
  | None => None
  end.
Proof.
  intros H.
  change (Json.read_members (S fuel) (34%N :: key ++ 34%N :: 58%N :: X))
    with (match Json.read_string (key ++ 34%N :: 58%N :: X) with
          | Some (key', r1) =>
              match Json.skip_ws r1 with
              | colon :: r2 =>
                  if N.eqb colon 58 then
                    match Json.read_value fuel r2 with
                    | Some (v, r3) =>
                        match Json.skip_ws r3 with
                        | c :: r4 =>
                            if N.eqb c 44 then
                              match Json.read_members fuel r4 with
                              | Some (ms, r5) => Some ((key', v) :: ms, r5)
                              | None => None
                              end
                            else if N.eqb c 125 then Some ([(key', v)], r4)
                            else None
                        | [] => None
                        end
                    | None => None
                    end
                  else None
              | [] => None
              end
          | None => None
          end).
  rewrite (read_string_plain key (58%N :: X) H). reflexivity.
Qed.

(** A record of the reply format reads as an object with the id of the
    span and its citation. *)
Lemma read_record (fuel : nat) (answer : CitationContext -> str)
    (c : CitationContext) (rest : str) :
  plain (answer c) = true ->
  Json.read_value (S (S (S (S fuel)))) (record_for answer c ++ rest) =
  Some (record_value answer c, rest).
Proof.
  intros Hp. rewrite record_text, read_value_object.
  rewrite (read_members_key _ (lit "id")) by reflexivity.
  rewrite read_value_id.
  change (Json.skip_ws (44%N :: 34%N ::
            lit "citation" ++ 34%N :: 58%N :: 34%N :: answer c ++ 34%N :: 125%N :: rest))
    with (44%N :: 34%N ::
            (lit "citation" ++ 34%N :: 58%N :: 34%N :: (answer c ++ 34%N :: 125%N :: rest))).
  cbv beta iota. change (N.eqb 44%N 44%N) with true. cbv beta iota.
  rewrite (read_members_key _ (lit "citation")) by reflexivity.
  rewrite (read_value_string _ (answer c) _ Hp).
  reflexivity.
Qed.

(** ** The reply, written and read *)

Lemma read_elements_step (fuel : nat) (s : str) :
  Json.read_elements (S fuel) s =
  match Json.read_value fuel s with
  | Some (v, r) =>
      match Json.skip_ws r with
      | c :: r' =>
          if N.eqb c 44 then
            match Json.read_elements fuel r' with
            | Some (vs, r'') => Some (v :: vs, r'')
            | None => None
            end
          else if N.eqb c 93 then Some ([v], r')
          else None
      | [] => None
      end
  | None => None
  end.
Proof. reflexivity. Qed.

Lemma read_elements_records (answer : CitationContext -> str) (t : list CitationContext) :
  forall (c : CitationContext) (fuel : nat) (rest : str),
    (forall x, In x (c :: t) -> plain (answer x) = true) ->
    Json.read_elements (S (S (S (S (S (length t + fuel))))))
      (join (lit ",") (map (record_for answer) (c :: t)) ++ 93%N :: rest) =
    Some (map (record_value answer) (c :: t), rest).
Proof.
  induction t as [|c' t IH]; intros c fuel rest Hp; rewrite read_elements_step.
  - cbn [map join]. rewrite (read_record _ answer c _ (Hp c (or_introl eq_refl))).
    reflexivity.
  - change (join (lit ",") (map (record_for answer) (c :: c' :: t)) ++ 93%N :: rest)
      with ((record_for answer c ++ lit "," ++
             join (lit ",") (map (record_for answer) (c' :: t))) ++ 93%N :: rest).
    rewrite <- !app_assoc.
    rewrite (read_record _ answer c _ (Hp c (or_introl eq_refl))).
    change (lit "," ++ join (lit ",") (map (record_for answer) (c' :: t)) ++ 93%N :: rest)
      with (44%N :: (join (lit ",") (map (record_for answer) (c' :: t)) ++ 93%N :: rest)).
    change (Json.skip_ws
              (44%N :: (join (lit ",") (map (record_for answer) (c' :: t)) ++ 93%N :: rest)))
      with (44%N :: (join (lit ",") (map (record_for answer) (c' :: t)) ++ 93%N :: rest)).
    cbv beta iota. change (N.eqb 44%N 44%N) with true. cbv beta iota.
    change (S (S (S (S (length (c' :: t) + fuel)))))
      with (S (S (S (S (S (length t + fuel)))))).
    rewrite (IH c' fuel rest) by (intros x Hx; apply Hp; now right).
    reflexivity.
Qed.

Lemma join_length (sep : str) (parts : list str) :
  (forall p, In p parts -> 2 <= length p) -> 2 * length parts <= length (join sep parts).
Proof.
  induction parts as [|p parts IH]; intros H; [simpl; lia|].
  pose proof (H p (or_introl eq_refl)).
  destruct parts as [|q parts]; [simpl; lia|].
  change (join sep (p :: q :: parts)) with (p ++ sep ++ join sep (q :: parts)).
  rewrite !length_app.
  specialize (IH (fun x Hx => H x (or_intror Hx))).
  cbn [length] in *. lia.
Qed.

Lemma record_for_length (answer : CitationContext -> str) (c : CitationContext) :
  2 <= length (record_for answer c).
Proof.
  unfold record_for, reply_record. rewrite !length_app.
  change (length (lit "{")) with 1. change (length dquote) with 1. lia.
Qed.

Lemma read_value_array (fuel : nat) (X : str) :
  Json.read_value (S fuel) (91%N :: 123%N :: X) =
  match Json.read_elements fuel (123%N :: X) with
  | Some (items, r) => Some (JArray items, r)
  | None => None
  end.
Proof. reflexivity. Qed.

(** [JSON.parse] reads such a reply as the array of its records. *)
Lemma parse_reply_for (answer : CitationContext -> str) (batch : list CitationContext) :
  (forall c, In c batch -> plain (answer c) = true) ->
  parse_array (reply_for answer batch) = Some (map (record_value answer) batch).
Proof.
  intros Hp. destruct batch as [|c t]; [reflexivity|].
  unfold parse_array, Json.parse.
  set (s := reply_for answer (c :: t)).
  assert (Hlen : length t + 4 <= length s).
  { unfold s, reply_for. rewrite !length_app.
    change (length (lit "[")) with 1. change (length (lit "]")) with 1.
    pose proof (join_length (lit ",") (map (record_for answer) (c :: t))) as J.
    rewrite length_map in J. cbn [length] in J.
    assert (X : 2 * S (length t) <=
                length (join (lit ",") (map (record_for answer) (c :: t)))).
    { apply J. intros p Hin. apply in_map_iff in Hin as [x [<- _]].
      apply record_for_length. }
    lia. }
  replace (2 * length s + 2)
    with (S (S (S (S (S (S (length t + (2 * length s - length t - 4))))))))
    by lia.
  assert (Es : s = 91%N :: 123%N ::
                 skipn 1 (join (lit ",") (map (record_for answer) (c :: t)) ++ lit "]")).
  { unfold s, reply_for. cbn [map].
    destruct t as [|c' t']; reflexivity. }
  rewrite Es, read_value_array.
  assert (Eb : 123%N :: skipn 1 (join (lit ",") (map (record_for answer) (c :: t)) ++ lit "]") =
               join (lit ",") (map (record_for answer) (c :: t)) ++ 93%N :: []).
  { cbn [map]. destruct t as [|c' t']; reflexivity. }
  rewrite Eb, (read_elements_records answer t c _ [] Hp).
  reflexivity.
Qed.

Lemma corrections_for_ids (answer : CitationContext -> str) (batch : list CitationContext) :
  map cor_id (corrections_for answer batch) = map ctx_num batch.
Proof. unfold corrections_for. rewrite map_map. reflexivity. Qed.

Lemma corrections_for_match (answer : CitationContext -> str)
    (batch : list CitationContext) :
  ids_match batch (corrections_for answer batch).
Proof.
  unfold corrections_for. split.
  - intros c Hc. eexists. split; [apply in_map; exact Hc | reflexivity].
  - intros k Hk. apply in_map_iff in Hk as [c [<- Hc]]. exists c. now split.
Qed.

Lemma validated_ids_of (answer : CitationContext -> str) (batch : list CitationContext) :
  validateBatchIds (corrections_for answer batch) (new_Set (map ctx_num batch)) = Ok tt.
Proof.
  apply validateBatchIds_passes.
  - intros k Hk. apply In_new_Set. rewrite <- (corrections_for_ids answer).
    now apply in_map.
  - intros id Hid. apply (proj1 (In_new_Set _ _)) in Hid.
    rewrite <- (corrections_for_ids answer) in Hid.
    apply in_map_iff in Hid as [k [E Hk]]. now exists k.
Qed.

Lemma parseResponse_reply_for (answer : CitationContext -> str)
    (batch : list CitationContext) :
  NoDup (map ctx_id batch) ->
  (forall c, In c batch -> plain (answer c) = true /\ blank (answer c) = false) ->
  parseResponse (reply_for answer batch) = Ok (corrections_for answer batch).
Proof.
  intros Hnd Hans. unfold parseResponse.
  rewrite (strip_array (reply_for answer batch)
             (join (lit ",") (map (record_for answer) batch))) by reflexivity.
  rewrite (find_array_strict _ _ (parse_reply_for answer batch
                                    (fun c Hc => proj1 (Hans c Hc)))).
  cbn [bind]. apply validate_items_ok. split; [|split; [|split]].
  - unfold corrections_of, corrections_for. clear.
    induction batch as [|c batch IH]; simpl; constructor; [reflexivity | exact IH].
  - intros k Hk. unfold corrections_for in Hk. apply in_map_iff in Hk as [c [<- Hc]].
    apply (Hans c Hc).
  - rewrite corrections_for_ids. now apply ids_distinct.
  - intros k _ [].
Qed.

Lemma reply_for_accepted (answer : CitationContext -> str)
    (batch : list CitationContext) :
  NoDup (map ctx_id batch) ->
  (forall c, In c batch -> plain (answer c) = true /\ blank (answer c) = false) ->
  check_reply batch (Ok (reply_for answer batch)) = Ok (corrections_for answer batch).
Proof.
  intros Hnd Hans. apply check_reply_ok. exists (reply_for answer batch).
  split; [reflexivity|]. split; [now apply parseResponse_reply_for|].
  apply validated_ids_of.
Qed.

(** X21.  A reply in the format of the prompt is accepted.  For a batch of spans
    with distinct ids, the reply that lists, in the array format of the
    prompt, every id as the request prints it with a citation that is not
    blank (and holds nothing that JSON would have to escape) passes
    [parseResponse] and [validateBatchIds]: the corrections are the
    citations of the reply under the ids of the spans, in order.  So the
    ids survive the way from the extractor through the request and the
    reply back to the pipeline, whatever their number of digits. *)
Theorem documented_reply_accepted (answer : CitationContext -> str)
    (batch : list CitationContext) :
  NoDup (map ctx_id batch) ->
  (forall c, In c batch -> plain (answer c) = true /\ blank (answer c) = false) ->
  check_reply batch (Ok (reply_for answer batch)) = Ok (corrections_for answer batch) /\
  map cor_id (corrections_for answer batch) = map ctx_num batch /\
  map cor_citation (corrections_for answer batch) = map answer batch.
Proof.
  intros Hnd Hans. split; [|split].
  - apply check_reply_ok. exists (reply_for answer batch).
    split; [reflexivity|]. split; [now apply parseResponse_reply_for|].
    apply validateBatchIds_passes.
    + intros k Hk. apply In_new_Set. rewrite <- (corrections_for_ids answer).
      now apply in_map.
    + intros id Hid. apply (proj1 (In_new_Set _ _)) in Hid.
      rewrite <- (corrections_for_ids answer) in Hid.
      apply in_map_iff in Hid as [k [E Hk]]. now exists k.
  - apply corrections_for_ids.
  - unfold corrections_for. rewrite map_map. reflexivity.
Qed.

(** The replies of the sample run are of this kind. *)
Lemma documented_reply_accepted_witness :
  check_reply (extractCitations one_statute 100)
    (Ok (reply_for (fun _ => lit "42 U.S.C. 1983") (extractCitations one_statute 100))) =
  Ok (corrections_for (fun _ => lit "42 U.S.C. 1983") (extractCitations one_statute 100)).
Proof.
  apply (documented_reply_accepted (fun _ => lit "42 U.S.C. 1983")
           (extractCitations one_statute 100)).
  - rewrite extractCitations_ids. apply seq_NoDup.
  - intros c _. split; reflexivity.
Defined.

(* ================================================================== *)
(** * A run with an oracle that answers in the format of the prompt *)
(* ================================================================== *)

Section Cooperative.

Variable answer : CitationContext -> str.
Variable rules : option str.
Variable contexts : list CitationContext.
Variable b : nat.
Hypothesis b_positive : 1 <= b.
Hypothesis ids : map ctx_id contexts = seq 0 (length contexts).
Hypothesis answers :
  forall c, In c contexts -> plain (answer c) = true /\ blank (answer c) = false.

Local Abbreviation n := (length contexts).
Local Abbreviation requests := (batch_requests contexts b rules).
Local Abbreviation oracle := (scripted_oracle (replies_for answer contexts b)).

Lemma slice_ids (lo hi : nat) : NoDup (map ctx_id (slice contexts lo hi)).
Proof.
  rewrite (slice_clip contexts lo hi), map_slice, ids.
  rewrite slice_seq by lia. apply seq_NoDup.
Qed.

Lemma slice_In {A : Type} (l : list A) (lo hi : nat) (x : A) :
  In x (slice l lo hi) -> In x l.
Proof.
  unfold slice. intros H.
  rewrite <- (firstn_skipn lo l). apply in_or_app. right.
  rewrite <- (firstn_skipn (hi - lo) (skipn lo l)). apply in_or_app. now left.
Qed.

Lemma reply_of_batch (j : nat) :
  j * b < n ->
  nth j (replies_for answer contexts b) (lit "[]") =
  reply_for answer (slice contexts (j * b) (j * b + b)).
Proof.
  intros H. unfold replies_for.
  assert (Hj : j < ceil_div n b).
  { destruct (Nat.le_gt_cases (ceil_div n b) j) as [L|L]; [|exact L].
    apply ceil_div_le in L; [lia | assumption]. }
  rewrite (nth_error_nth _ _ _ (nth_error_map_seq _ _ j Hj)).
  unfold batch_of. rewrite (slice_clip contexts (j * b) (j * b + b)).
  now replace ((j + 1) * b) with (j * b + b) by lia.
Qed.

(** The loop from the head of batch [j] on: every reply is accepted, all
    the requests are sent, and the corrections gathered are the answers
    under the ids of the spans. *)
Lemma cooperative_loop (fuel j : nat) :
  n - j * b <= fuel -> j <= ceil_div n b ->
  batch_loop oracle rules contexts b fuel (j * b)
    (corrections_for answer (firstn (j * b) contexts)) (firstn j requests) j =
  Some (requests, ceil_div n b, Ok (corrections_for answer contexts)).
Proof.
  assert (Hstop : forall j, j <= ceil_div n b -> n <= j * b ->
            (firstn j requests, j, Ok (corrections_for answer (firstn (j * b) contexts))) =
            (requests, ceil_div n b, Ok (corrections_for answer contexts))).
  { intros j' Hj L.
    assert (j' = ceil_div n b) as ->
      by (apply (ceil_div_le n b j' b_positive) in L; lia).
    rewrite (firstn_all2 contexts) by lia.
    rewrite firstn_all2; [reflexivity|].
    unfold batch_requests. rewrite length_map, length_seq. lia. }
  revert j; induction fuel as [|fuel IH]; intros j Hfuel Hj.
  - cbn [batch_loop]. destruct (Nat.leb_spec n (j * b)) as [L|L]; [|lia].
    f_equal. now apply Hstop.
  - cbn [batch_loop]. destruct (Nat.leb_spec n (j * b)) as [L|L].
    + f_equal. now apply Hstop.
    + change (oracle (buildMessages (slice contexts (j * b) (j * b + b)) rules) j)
        with (@Ok str (nth j (replies_for answer contexts b) (lit "[]")), S j).
      cbv beta iota. rewrite (reply_of_batch j L).
      rewrite (reply_for_accepted answer (slice contexts (j * b) (j * b + b))).
      * assert (Hj' : S j <= ceil_div n b).
        { destruct (Nat.le_gt_cases (ceil_div n b) j) as [C|C]; [|exact C].
          apply ceil_div_le in C; [lia | assumption]. }
        rewrite <- (firstn_snoc requests j _ (request_of_batch rules contexts b b_positive j L)).
        replace (corrections_for answer (firstn (j * b) contexts) ++
                 corrections_for answer (slice contexts (j * b) (j * b + b)))
          with (corrections_for answer (firstn (S j * b) contexts)).
        -- replace (j * b + b) with (S j * b) by lia.
           apply IH; [lia | assumption].
        -- unfold corrections_for. rewrite <- map_app. f_equal.
           replace (S j * b) with (j * b + b) by lia. rewrite firstn_plus.
           f_equal. unfold slice. f_equal. lia.
      * apply slice_ids.
      * intros c Hc. apply answers. eapply slice_In. exact Hc.
Qed.

End Cooperative.

Lemma replacement_of_answer (answer : CitationContext -> str)
    (spans : list CitationContext) (c : CitationContext) :
  NoDup (map ctx_id spans) -> In c spans ->
  replacement_of (corrections_for answer spans) c = answer c.
Proof.
  intros Hnd Hc.
  apply (replacement_of_unique (corrections_for answer spans)
           {| cor_id := ctx_num c; cor_citation := answer c |} c).
  - rewrite corrections_for_ids. now apply ids_distinct.
  - unfold corrections_for.
    now apply (in_map (fun x => {| cor_id := ctx_num x; cor_citation := answer x |})).
  - reflexivity.
Qed.

(** X22.  The whole pipeline with an oracle that answers as the prompt asks.
    Whatever the text, for options whose sizes are valid and an oracle
    that answers every batch in the format of the prompt, with a citation
    for every id that is not blank (and needs no escape in JSON): the run
    succeeds after one call per batch; the text returned is the input with
    every span replaced by the oracle's answer for it and the rest copied;
    the corrections returned are the spans whose answer is another text,
    with their start, their old text and the answer, in span order; and
    [unchanged] is set exactly when no answer is another text. *)
Theorem answers_spliced (input : str) (options : BluebookifyOptions unit)
    (answer : CitationContext -> str) :
  integer_at_least 1 (batchSize_of options) ->
  integer_at_least 0 (contextSize_of options) ->
  (forall c, In c (spans_of input options) ->
     plain (answer c) = true /\ blank (answer c) = false) ->
  exists r res,
    bluebookify
      (resolve_to (scripted_oracle
                     (replies_for answer (spans_of input options)
                        (to_index (batchSize_of options)))))
      input (Some options) 0 = Some r /\
    calls r = batch_requests (spans_of input options)
                (to_index (batchSize_of options)) (rules options) /\
    world r = ceil_div (length (spans_of input options))
                (to_index (batchSize_of options)) /\
    outcome r = Ok res /\
    text res = spliced input 0 (spans_of input options) answer /\
    map position (corrections res) =
      map ctx_start (filter (answered_otherwise answer) (spans_of input options)) /\
    map original (corrections res) =
      map ctx_original (filter (answered_otherwise answer) (spans_of input options)) /\
    map replacement (corrections res) =
      map answer (filter (answered_otherwise answer) (spans_of input options)) /\
    unchanged res = negb (existsb (answered_otherwise answer) (spans_of input options)).
Proof.
  intros Hb Hc Hans.
  set (spans := spans_of input options) in *.
  set (b := to_index (batchSize_of options)).
  set (oracle := scripted_oracle (replies_for answer spans b)).
  assert (Hvalid : valid_configuration (resolve_to oracle) options oracle).
  { split; [now apply requireInt_passes|]. split; [now apply requireInt_passes | reflexivity]. }
  pose proof (batchSize_positive _ _ (proj1 Hvalid)) as Hpos. fold b in Hpos.
  assert (Hids : map ctx_id spans = seq 0 (length spans))
    by apply extractCitations_ids.
  assert (Hnd : NoDup (map ctx_id spans)) by (rewrite Hids; apply seq_NoDup).
  pose proof (extractCitations_laid_out input (to_index (contextSize_of options))) as Hlay.
  fold (spans_of input options) in Hlay. fold spans in Hlay.
  assert (Hrepl : forall c, In c spans ->
            replacement_of (corrections_for answer spans) c = answer c)
    by (intros c Hin; now apply replacement_of_answer).
  assert (Hfilter : filter (is_changed (corrections_for answer spans)) spans =
                    filter (answered_otherwise answer) spans).
  { apply filter_ext_in. intros c Hin. unfold is_changed, answered_otherwise.
    now rewrite (Hrepl c Hin). }
  rewrite (bluebookify_valid nat unit (resolve_to oracle) input options oracle 0 Hvalid).
  cbv zeta. fold spans b.
  destruct (Nat.eqb_spec (length spans) 0) as [Z|NZ].
  - destruct spans as [|c l] eqn:E; [|discriminate Z].
    eexists. eexists. split; [reflexivity|]. cbn [calls world outcome].
    assert (C0 : ceil_div 0 b = 0) by (unfold ceil_div; apply Nat.div_small; lia).
    unfold batch_requests. cbn [length]. rewrite C0.
    repeat split; reflexivity.
  - pose proof (cooperative_loop answer (rules options) spans b Hpos Hids Hans
                  (length spans) 0 ltac:(lia) ltac:(lia)) as L.
    change (0 * b) with 0 in L. cbn [firstn] in L.
    change (corrections_for answer []) with (@nil CitationCorrection) in L.
    fold oracle in L. rewrite L.
    rewrite (applyCorrections_ok input (corrections_for answer spans) spans Hlay
               (corrections_for_match answer spans)).
    cbn [bind]. eexists. eexists. split; [reflexivity|]. cbn [calls world outcome].
    split; [reflexivity|]. split; [reflexivity|]. split; [reflexivity|].
    cbn [text corrections unchanged ar_text appliedCorrections].
    rewrite Hfilter.
    split; [now apply spliced_ext|].
    split; [rewrite map_map; reflexivity|].
    split; [rewrite map_map; reflexivity|].
    split.
    + rewrite map_map. apply map_ext_in. intros c Hin.
      apply filter_In in Hin as [Hin _]. cbn [replacement audit_of]. now apply Hrepl.
    + rewrite length_map. clear.
      induction spans as [|c l IH]; [reflexivity|]. cbn [filter existsb].
      destruct (answered_otherwise answer c); [reflexivity | exact IH].
Qed.

(** Three citations in batches of two, every one answered with the same
    text. *)
Lemma answers_spliced_witness :
  exists r res,
    bluebookify
      (resolve_to (scripted_oracle
                     (replies_for (fun _ => lit "Id.")
                        (spans_of three_citations (options_with_batchSize 2))
                        (to_index (batchSize_of (options_with_batchSize 2))))))
      three_citations (Some (options_with_batchSize 2)) 0 = Some r /\
    outcome r = Ok res /\
    text res = spliced three_citations 0
                 (spans_of three_citations (options_with_batchSize 2))
                 (fun _ => lit "Id.").
Proof.
  destruct (answers_spliced three_citations (options_with_batchSize 2)
              (fun _ => lit "Id."))
    as [r [res [H1 [_ [_ [H2 [H3 _]]]]]]].
  - exists 2%Z. split; [reflexivity | lia].
  - exists 100%Z. split; [reflexivity | lia].
  - intros c _. split; reflexivity.
  - exists r, res. now repeat split.
Defined.

(* ================================================================== *)
(** * The size of a request *)
(* ================================================================== *)

Lemma window_lengths (text : str) (contextSize : nat) (c : CitationContext) :
  In c (extractCitations text contextSize) ->
  length (ctx_before c) <= contextSize /\ length (ctx_after c) <= contextSize.
Proof.
  intros Hc. unfold extractCitations in Hc.
  apply build_contexts_windows in Hc as [-> ->].
  rewrite context_before_window, context_after_window. split.
  - unfold before_window.
    pose proof (slice_length_bound text (ctx_start c - contextSize) (ctx_start c)) as W.
    destruct (ctx_start c <=? contextSize); [lia|].
    destruct (first_space _) as [i|]; [|lia].
    pose proof (trimStart_length
                  (skipn i (slice text (ctx_start c - contextSize) (ctx_start c)))) as T.
    rewrite length_skipn in T. lia.
  - unfold after_window.
    pose proof (slice_length_bound text (ctx_end c) (ctx_end c + contextSize)) as W.
    destruct (length text <=? ctx_end c + contextSize); [lia|].
    destruct (last_space _) as [[|i]|]; try lia.
    rewrite length_firstn. lia.
Qed.

Lemma context_line_length (c : CitationContext) :
  length (context_line c) =
  11 + length (nat_to_str (ctx_id c)) + length (ctx_before c) +
  length (ctx_original c) + length (ctx_after c).
Proof.
  unfold context_line. rewrite !length_app.
  change (length (lit "[")) with 1. change (length (lit "] ")) with 2.
  change (length (lit " [")) with 2. change (length ldquo) with 1.
  change (length rdquo) with 1. lia.
Qed.

Lemma join_length_le (sep : str) (parts : list str) :
  length (join sep parts) <= list_sum (map (fun p => length p + length sep) parts).
Proof.
  induction parts as [|p parts IH]; [simpl; lia|].
  destruct parts as [|q parts]; [simpl; lia|].
  change (join sep (p :: q :: parts)) with (p ++ sep ++ join sep (q :: parts)).
  rewrite !length_app. cbn [map list_sum fold_right] in *. lia.
Qed.

(** X23.  Only the citations and their windows are sent.  Whatever the length of
    the text, the user message of a request for spans that
    [extractCitations] returned takes, for every span, at most the text of
    the span, its id, two windows of [contextSize] code units and twelve
    more code units; and each window is at most [contextSize] long. *)
Theorem request_size_bounded (text : str) (contextSize : nat) (rules : option str)
    (batch : list CitationContext) :
  (forall c, In c batch -> In c (extractCitations text contextSize)) ->
  length (user_message (buildMessages batch rules)) <=
    list_sum (map (fun c => line_bound contextSize c + 1) batch) /\
  (forall c, In c batch ->
     length (ctx_before c) <= contextSize /\ length (ctx_after c) <= contextSize).
Proof.
  intros Hin. split.
  - cbn [user_message buildMessages content]. unfold lines.
    eapply Nat.le_trans; [apply join_length_le|]. rewrite map_map.
    induction batch as [|c batch IH]; [simpl; lia|].
    cbn [map list_sum fold_right].
    specialize (IH (fun x Hx => Hin x (or_intror Hx))).
    destruct (window_lengths text contextSize c (Hin c (or_introl eq_refl))) as [B A].
    rewrite context_line_length. unfold line_bound at 1.
    unfold list_sum in IH. change (length nl) with 1 in *. lia.
  - intros c Hc. apply (window_lengths text contextSize c (Hin c Hc)).
Qed.

(** The request for the span of the sample. *)
Lemma request_size_bounded_witness :
  length (user_message (buildMessages (extractCitations one_statute 10) None)) <=
  list_sum (map (fun c => line_bound 10 c + 1) (extractCitations one_statute 10)).
Proof.
  apply (request_size_bounded one_statute 10 None (extractCitations one_statute 10)).
  intros c Hc. exact Hc.
Defined.

(* ================================================================== *)
(** * [bluebookify]: the requests of a run and the replies to them *)
(* ================================================================== *)

Lemma skipn_nth {A : Type} (l : list A) (d : A) (lo : nat) :
  lo < length l -> skipn lo l = nth lo l d :: skipn (S lo) l.
Proof.
  revert lo; induction l as [|x l IH]; intros lo H; simpl in H; [lia|].
  destruct lo as [|lo]; [reflexivity|].
  simpl. apply IH. lia.
Qed.

Lemma slice_by_index {A : Type} (l : list A) (d : A) (lo hi : nat) :
  hi <= length l -> slice l lo hi = map (fun j => nth j l d) (seq lo (hi - lo)).
Proof.
  unfold slice. remember (hi - lo) as k eqn:K.
  revert lo hi K; induction k as [|k IH]; intros lo hi K H; [reflexivity|].
  rewrite (skipn_nth l d lo) by lia. simpl. f_equal.
  apply (IH (S lo) hi); lia.
Qed.

(** The line of a span that carries its own index is the line under that
    index. *)
Lemma lines_by_index (contexts : list CitationContext) (lo hi : nat) :
  map ctx_id contexts = seq 0 (length contexts) ->
  hi <= length contexts ->
  lines (map context_line (slice contexts lo hi)) = data_message contexts lo hi.
Proof.
  intros Hids Hhi. unfold data_message.
  rewrite (slice_by_index contexts no_context lo hi Hhi), map_map.
  f_equal. apply map_ext_in. intros j Hj. apply in_seq in Hj.
  assert (E : ctx_id (nth j contexts no_context) = j).
  { rewrite <- (map_nth ctx_id contexts no_context j).
    rewrite (nth_indep _ _ 0) by (rewrite length_map; lia).
    rewrite Hids. rewrite seq_nth by lia. reflexivity. }
  unfold context_line, numbered_line. now rewrite E.
Qed.

Section Requests.

Variable World : Type.
Variable llmFn : LlmFn World.
Variable rules : option str.
Variable contexts : list CitationContext.
Variable b : nat.
Hypothesis b_positive : 1 <= b.

Local Abbreviation n := (length contexts).
Local Abbreviation requests := (batch_requests contexts b rules).

Lemma requests_length : length requests = ceil_div n b.
Proof. unfold batch_requests. now rewrite length_map, length_seq. Qed.

Lemma batch_of_slice_from (j : nat) :
  batch_of contexts b j = slice contexts (j * b) (j * b + b).
Proof.
  unfold batch_of. rewrite (slice_clip contexts (j * b) (j * b + b)).
  now replace ((j + 1) * b) with (j * b + b) by lia.
Qed.

(** After [j] accepted turns the loop is at the head of batch [j] and has
    sent the requests of the batches before it. *)
Lemma reached_requests (s0 s : loop_state World) :
  reached llmFn rules contexts b s0 s ->
  forall j0, ls_i s0 = j0 * b -> ls_sent s0 = firstn j0 requests ->
  exists j, ls_i s = j * b /\ ls_sent s = firstn j requests.
Proof.
  induction 1 as [s|s1 s2 s3 _ IH Hturn]; intros j0 Hi Hsent.
  - now exists j0.
  - destruct (IH j0 Hi Hsent) as [j [Hj Hs]].
    destruct Hturn as [fuel i all sent w w' response cs Hlt Hcall Hcheck].
    simpl in *. subst i sent. exists (S j). split; [lia|].
    symmetry. apply firstn_snoc.
    now apply request_of_batch.
Qed.

End Requests.

(** ** The first id that [validateBatchIds] objects to *)

Lemma validate_first_foreign (cs pre post : list CitationCorrection)
    (c : CitationCorrection) (ids : list number) :
  cs = pre ++ c :: post ->
  (forall c', In c' pre -> In (cor_id c') ids) ->
  ~ In (cor_id c) ids ->
  validateBatchIds cs (new_Set ids) = Err (UnexpectedBatchId (cor_id c)).
Proof.
  intros -> Hpre Hc. unfold validateBatchIds.
  rewrite (find_first _ pre c post); [reflexivity | |].
  - intros c' Hc'. apply negb_false_iff, set_has_In, In_new_Set. now apply Hpre.
  - apply negb_true_iff. destruct (set_has (new_Set ids) (cor_id c)) eqn:E; [|reflexivity].
    exfalso. apply set_has_In in E. apply (proj1 (In_new_Set _ _)) in E. contradiction.
Qed.

Lemma validate_first_missing (cs : list CitationCorrection) (ids pre post : list number)
    (id : number) :
  ids = pre ++ id :: post ->
  (forall c, In c cs -> In (cor_id c) ids) ->
  (forall id', In id' pre -> exists c, In c cs /\ cor_id c = id') ->
  (forall c, In c cs -> cor_id c <> id) ->
  validateBatchIds cs (new_Set ids) = Err (MissingBatchId id).
Proof.
  intros Hids Hall Hpre Hid. unfold validateBatchIds.
  assert (F : find (fun c => negb (set_has (new_Set ids) (cor_id c))) cs = None).
  { apply find_none_iff. intros c Hc.
    apply negb_false_iff, set_has_In, In_new_Set. now apply Hall. }
  rewrite F, find_new_Set, Hids.
  rewrite (find_first _ pre id post); [reflexivity | |].
  - intros id' Hid'. apply negb_false_iff, existsb_exists.
    destruct (Hpre id' Hid') as [c [Hc E]]. exists c.
    split; [assumption | now apply num_eqb_eq].
  - apply negb_true_iff.
    destruct (existsb (fun c => num_eqb (cor_id c) id) cs) eqn:E; [|reflexivity].
    exfalso. apply existsb_exists in E as [c [Hc E]].
    apply num_eqb_eq in E. exact (Hid c Hc E).
Qed.

(** The first element of a list that a test singles out, with what comes
    before it and after it. *)
Lemma first_such {A : Type} (P : A -> Prop) (l : list A) :
  (forall x, P x \/ ~ P x) ->
  (exists x, In x l /\ P x) ->
  exists pre x post, l = pre ++ x :: post /\ (forall y, In y pre -> ~ P y) /\ P x.
Proof.
  intros Hdec. induction l as [|a l IH]; intros [x [Hx Px]]; [contradiction|].
  destruct (Hdec a) as [Pa|Na].
  - exists [], a, l. repeat split; [intros y [] | exact Pa].
  - destruct Hx as [->|Hx]; [contradiction|].
    destruct IH as [pre [y [post [-> [Hpre Py]]]]]; [now exists x|].
    exists (a :: pre), y, post. repeat split; [|exact Py].
    intros z [<-|Hz]; [exact Na | now apply Hpre].
Qed.

Lemma In_number_dec (id : number) (ids : list number) : In id ids \/ ~ In id ids.
Proof.
  destruct (set_has ids id) eqn:E.
  - left. now apply set_has_In.
  - right. intros H. apply set_has_In in H. congruence.
Qed.

Lemma correction_or_none (cs : list CitationCorrection) (id : number) :
  (forall c, In c cs -> cor_id c <> id) \/ (exists c, In c cs /\ cor_id c = id).
Proof.
  destruct (existsb (fun c => num_eqb (cor_id c) id) cs) eqn:E.
  - right. apply existsb_exists in E as [c [Hc E]]. exists c.
    split; [assumption | now apply num_eqb_eq].
  - left. intros c Hc Heq.
    assert (X : existsb (fun c0 => num_eqb (cor_id c0) id) cs = true).
    { apply existsb_exists. exists c. split; [assumption | now apply num_eqb_eq]. }
    congruence.
Qed.

Section Batches.

Variable World : Type.
Variable LlmOptions : Type.
Variable resolveLlm : BluebookifyOptions LlmOptions -> result (LlmFn World).

(** C4, as the code has it.  At any batch that the loop reaches, for a
    reply that parses, with the ids of the batch in span order:
    - when the reply has an id that the batch does not have, there is a
      first such correction in the order of the reply, and the run fails
      at this batch with the error that names its id, whatever else is
      wrong with the reply;
    - when all the ids of the reply belong to the batch and an id of the
      batch has no correction, there is a first such id in the order of
      the batch, and the run fails with the error that names it.
    In both cases the requests sent are those up to this batch, and the
    run holds the error and no text: no correction is applied. *)
Theorem batch_reply_validated (text : str) (options : BluebookifyOptions LlmOptions)
    (llmFn : LlmFn World) (w : World) (s : loop_state World)
    (response : str) (w' : World) (cs : list CitationCorrection) :
  valid_configuration resolveLlm options llmFn ->
  reached llmFn (rules options) (spans_of text options)
    (to_index (batchSize_of options)) (loop_entry (spans_of text options) w) s ->
  ls_i s < length (spans_of text options) ->
  llmFn (buildMessages
           (slice (spans_of text options) (ls_i s)
              (ls_i s + to_index (batchSize_of options)))
           (rules options)) (ls_world s) = (Ok response, w') ->
  parseResponse response = Ok cs ->
  let batch := slice (spans_of text options) (ls_i s)
                 (ls_i s + to_index (batchSize_of options)) in
  let ids := map ctx_num batch in
  let fails_with e :=
    bluebookify resolveLlm text (Some options) w =
    Some {| calls := ls_sent s ++ [buildMessages batch (rules options)];
            world := w'; outcome := Err e |} in
  ((exists c, In c cs /\ ~ In (cor_id c) ids) ->
   exists pre c post,
     cs = pre ++ c :: post /\
     (forall c', In c' pre -> In (cor_id c') ids) /\
     ~ In (cor_id c) ids /\
     fails_with (UnexpectedBatchId (cor_id c))) /\
  (forall pre c post,
     cs = pre ++ c :: post ->
     (forall c', In c' pre -> In (cor_id c') ids) ->
     ~ In (cor_id c) ids ->
     fails_with (UnexpectedBatchId (cor_id c))) /\
  ((forall c, In c cs -> In (cor_id c) ids) ->
   (exists id, In id ids /\ forall c, In c cs -> cor_id c <> id) ->
   exists pre id post,
     ids = pre ++ id :: post /\
     (forall id', In id' pre -> exists c, In c cs /\ cor_id c = id') /\
     (forall c, In c cs -> cor_id c <> id) /\
     fails_with (MissingBatchId id)) /\
  (forall pre id post,
     ids = pre ++ id :: post ->
     (forall c, In c cs -> In (cor_id c) ids) ->
     (forall id', In id' pre -> exists c, In c cs /\ cor_id c = id') ->
     (forall c, In c cs -> cor_id c <> id) ->
     fails_with (MissingBatchId id)).
Proof.
  intros Hvalid Hreach Hi Hcall Hparse batch ids fails_with.
  assert (Hrun : forall e,
            validateBatchIds cs (new_Set ids) = Err e -> fails_with e).
  { intros e He. unfold fails_with.
    apply (run_rejected World LlmOptions resolveLlm text options llmFn w s
             (Ok response) w' e); try assumption.
    unfold check_reply. simpl. rewrite Hparse. simpl.
    fold batch. fold ids. now rewrite He. }
  assert (Foreign : forall pre c post,
            cs = pre ++ c :: post ->
            (forall c', In c' pre -> In (cor_id c') ids) ->
            ~ In (cor_id c) ids ->
            fails_with (UnexpectedBatchId (cor_id c))).
  { intros pre c post E Hpre Hc. apply Hrun.
    exact (validate_first_foreign cs pre post c ids E Hpre Hc). }
  assert (Missing : forall pre id post,
            ids = pre ++ id :: post ->
            (forall c, In c cs -> In (cor_id c) ids) ->
            (forall id', In id' pre -> exists c, In c cs /\ cor_id c = id') ->
            (forall c, In c cs -> cor_id c <> id) ->
            fails_with (MissingBatchId id)).
  { intros pre id post E Hall Hpre Hid. apply Hrun.
    exact (validate_first_missing cs ids pre post id E Hall Hpre Hid). }
  split; [|split; [exact Foreign | split; [|exact Missing]]].
  - intros Hex.
    destruct (first_such (fun c => ~ In (cor_id c) ids) cs) as [pre [c [post [E [Hpre Hc]]]]].
    + intros c. destruct (In_number_dec (cor_id c) ids); [right | left]; tauto.
    + exact Hex.
    + assert (Hpre' : forall c', In c' pre -> In (cor_id c') ids).
      { intros c' Hc'. destruct (In_number_dec (cor_id c') ids) as [Y|N]; [exact Y|].
        exfalso. exact (Hpre c' Hc' N). }
      exists pre, c, post. repeat split; try assumption.
      now apply (Foreign pre c post).
  - intros Hall Hex.
    destruct (first_such (fun id => forall c, In c cs -> cor_id c <> id) ids)
      as [pre [id [post [E [Hpre Hid]]]]].
    + intros id. destruct (correction_or_none cs id) as [N|[c [Hc Y]]]; [now left | right].
      intros H. exact (H c Hc Y).
    + exact Hex.
    + assert (Hpre' : forall id', In id' pre -> exists c, In c cs /\ cor_id c = id').
      { intros id' Hid'. destruct (correction_or_none cs id') as [N|Y]; [|exact Y].
        exfalso. exact (Hpre id' Hid' N). }
      exists pre, id, post. repeat split; try assumption.
      now apply (Missing pre id post).
Qed.

End Batches.

(** A reply with id 5 for the batch that holds id 0. *)
Lemma batch_reply_validated_witness :
  bluebookify (resolve_to (scripted_oracle [foreign_reply])) one_statute
    (Some default_options) 0 =
  Some {| calls := [] ++ [buildMessages
                            (slice (spans_of one_statute default_options) 0
                               (0 + to_index (batchSize_of default_options)))
                            None];
          world := 1;
          outcome := Err (UnexpectedBatchId (num_of_nat 5)) |}.
Proof.
  apply (proj1 (proj2
           (batch_reply_validated nat unit (resolve_to (scripted_oracle [foreign_reply]))
              one_statute default_options (scripted_oracle [foreign_reply]) 0
              (loop_entry (spans_of one_statute default_options) 0)
              foreign_reply 1
              [ {| cor_id := num_of_nat 5; cor_citation := lit "x" |} ]
              ltac:(repeat split; vm_compute; reflexivity)
              (reached_here _ _ _ _ _ _)
              ltac:(vm_compute; lia)
              eq_refl
              ltac:(vm_compute; reflexivity)))
           [] {| cor_id := num_of_nat 5; cor_citation := lit "x" |} []).
  - reflexivity.
  - intros c' [].
  - intros H. vm_compute in H. destruct H as [H|[]].
    apply (f_equal this) in H. discriminate.
Defined.

(** C4 as stated fails on a reply that is wrong in both ways: the reply
    holds id 5 and nothing for id 0, the only id of the batch, and the run
    fails with the error that names 5, not 0. *)
Lemma missing_id_counterexample :
  parseResponse foreign_reply = Ok [ {| cor_id := num_of_nat 5; cor_citation := lit "x" |} ] /\
  map ctx_id (spans_of one_statute default_options) = [0] /\
  option_map (@outcome nat)
    (bluebookify (resolve_to (scripted_oracle [foreign_reply])) one_statute
       (Some default_options) 0) = Some (Err (UnexpectedBatchId (num_of_nat 5))) /\
  num_of_nat 5 <> num_of_nat 0.
Proof.
  repeat split; try (vm_compute; reflexivity).
  intros H. apply num_of_nat_inj in H. discriminate.
Qed.

Section Sequence.

Variable World : Type.
Variable LlmOptions : Type.
Variable resolveLlm : BluebookifyOptions LlmOptions -> result (LlmFn World).

(** What the loop has gathered when it reaches the end of the spans
    passes [applyCorrections]. *)
Lemma gathered_corrections_apply (text : str) (options : BluebookifyOptions LlmOptions)
    (llmFn : LlmFn World) (w : World) (s : loop_state World) :
  reached llmFn (rules options) (spans_of text options)
    (to_index (batchSize_of options)) (loop_entry (spans_of text options) w) s ->
  length (spans_of text options) <= ls_i s ->
  exists a, applyCorrections text (spans_of text options) (ls_all s) = Ok a.
Proof.
  intros Hreach Hi.
  assert (Hone : one_each (spans_of text options) (ls_all s)).
  { rewrite <- (firstn_all2 (spans_of text options) Hi).
    apply (reached_one_each World llmFn (rules options) (spans_of text options)
             (to_index (batchSize_of options))
             (loop_entry (spans_of text options) w) s); [|exact Hreach|].
    - unfold spans_of. rewrite extractCitations_ids. apply seq_NoDup.
    - simpl. repeat split; try constructor; intros ? []. }
  eexists. apply applyCorrections_ok.
  - apply extractCitations_laid_out.
  - apply Hone.
Qed.

(** C3, as the code has it.  Under a valid configuration with batch size
    [b], on the [n] spans of the text, the run ends, and for some [k]:
    - the requests sent are, in order, those of the first [k] batches, with
      [k <= ceil (n / b)] and [1 <= k] when there is a span;
    - the request of batch [i] is the instructions and one data message,
      whose text is one line for each span with an index from [i * b] up
      to [min ((i + 1) * b) n], in this order, each line showing the index
      (which is the id of the span) with the windows and the text of the
      span, and nothing else;
    - when the run succeeds, [k = ceil (n / b)] and every reply was
      accepted;
    - when the run fails, the replies to the first [k - 1] requests were
      accepted, the reply to request [k] was not (the oracle threw, or
      [parseResponse] or [validateBatchIds] refused the reply), the error
      of the run is the error of that call, and no request follows it. *)
Theorem batches_sent_in_order (text : str) (options : BluebookifyOptions LlmOptions)
    (llmFn : LlmFn World) (w : World) :
  valid_configuration resolveLlm options llmFn ->
  let spans := spans_of text options in
  let b := to_index (batchSize_of options) in
  let n := length spans in
  let requests := batch_requests spans b (rules options) in
  exists r k,
    bluebookify resolveLlm text (Some options) w = Some r /\
    calls r = firstn k requests /\
    k <= ceil_div n b /\
    (0 < n -> 1 <= k) /\
    (forall i, i < ceil_div n b ->
       nth_error requests i =
         Some [ {| msg_role := System; content := system_prompt (rules options) |};
                {| msg_role := User;
                   content := data_message spans (i * b) (Nat.min ((i + 1) * b) n) |} ] /\
       map ctx_id (batch_of spans b i) =
         seq (i * b) (Nat.min ((i + 1) * b) n - i * b)) /\
    (forall res, outcome r = Ok res ->
       k = ceil_div n b /\
       exists s,
         reached llmFn (rules options) spans b (loop_entry spans w) s /\
         n <= ls_i s /\ ls_sent s = calls r /\ ls_world s = world r) /\
    (forall e, outcome r = Err e ->
       1 <= k /\
       exists s response,
         reached llmFn (rules options) spans b (loop_entry spans w) s /\
         ls_i s = (k - 1) * b /\ (k - 1) * b < n /\
         ls_sent s = firstn (k - 1) requests /\
         llmFn (buildMessages (batch_of spans b (k - 1)) (rules options)) (ls_world s) =
           (response, world r) /\
         check_reply (batch_of spans b (k - 1)) response = Err e).
Proof.
  intros Hvalid spans b n requests.
  pose proof (batchSize_positive _ _ (proj1 Hvalid)) as Hb. fold b in Hb.
  assert (Hids : map ctx_id spans = seq 0 n).
  { unfold spans, spans_of, n. apply extractCitations_ids. }
  assert (Htext : forall i, i < ceil_div n b ->
            nth_error requests i =
              Some [ {| msg_role := System; content := system_prompt (rules options) |};
                     {| msg_role := User;
                        content := data_message spans (i * b) (Nat.min ((i + 1) * b) n) |} ] /\
            map ctx_id (batch_of spans b i) =
              seq (i * b) (Nat.min ((i + 1) * b) n - i * b)).
  { intros i Hi. split.
    - unfold requests, batch_requests. rewrite nth_error_map_seq by exact Hi.
      unfold buildMessages, batch_of. fold n.
      rewrite (lines_by_index spans (i * b) (Nat.min ((i + 1) * b) n) Hids) by lia.
      reflexivity.
    - unfold batch_of. rewrite map_slice, Hids. fold n.
      rewrite slice_seq by lia. reflexivity. }
  rewrite (bluebookify_valid World LlmOptions resolveLlm text options llmFn w Hvalid).
  cbv zeta. fold spans b n.
  destruct (Nat.eqb_spec n 0) as [Z|NZ].
  - assert (C0 : ceil_div n b = 0).
    { rewrite Z. unfold ceil_div. apply Nat.div_small. lia. }
    eexists. exists 0. split; [reflexivity|]. simpl.
    split; [reflexivity|]. split; [lia|]. split; [lia|]. split; [exact Htext|].
    split; [|discriminate].
    intros res _. split; [now rewrite C0|].
    exists (loop_entry spans w). simpl. repeat split; try lia. apply reached_here.
  - destruct (batch_loop_sent World llmFn (rules options) spans b Hb n 0 [] w)
      as [k [w' [res [E [Hk [Hpos Hres]]]]]]; [lia | lia |].
    fold n in Hk, Hpos, Hres.
    simpl in E. fold requests in E. rewrite E.
    assert (Hlen : length (firstn k requests) = k).
    { rewrite length_firstn. unfold requests.
      rewrite (requests_length (rules options) spans b). fold n. lia. }
    destruct res as [cs|e].
    + apply batch_loop_ok in E as [s [Hreach [Hi [Hall [Hsent Hworld]]]]].
      eexists. exists k. split; [reflexivity|]. simpl.
      split; [reflexivity|]. split; [lia|]. split; [lia|]. split; [exact Htext|].
      split.
      * intros res' _. split; [now apply (Hres cs)|].
        exists s. repeat split; assumption.
      * intros e He. exfalso.
        destruct (gathered_corrections_apply text options llmFn w s Hreach Hi) as [a Ha].
        fold spans in Ha. rewrite Hall in Ha. rewrite Ha in He. discriminate He.
    + apply batch_loop_err in E as [s [response [Hreach [Hi [Hcall [Hcheck Hsent]]]]]].
      destruct (reached_requests World llmFn (rules options) spans b Hb _ _ Hreach 0)
        as [j [Hj Hs]]; [reflexivity | reflexivity |].
      assert (Hjk : k = S j).
      { apply (f_equal (@length (list Message))) in Hsent.
        rewrite Hlen, length_app, Hs, length_firstn in Hsent. simpl in Hsent.
        unfold requests in Hsent.
        rewrite (requests_length (rules options) spans b) in Hsent. fold n in Hsent.
        assert (j < ceil_div n b).
        { destruct (Nat.le_gt_cases (ceil_div n b) j) as [C|C]; [|exact C].
          apply ceil_div_le in C; [lia | assumption]. }
        lia. }
      eexists. exists k. split; [reflexivity|]. simpl.
      split; [reflexivity|]. split; [lia|]. split; [lia|]. split; [exact Htext|].
      split; [discriminate|].
      intros e' He'. injection He' as <-. split; [lia|].
      exists s, response. subst k. replace (S j - 1) with j by lia.
      rewrite (batch_of_slice_from spans b Hb j), <- Hj.
      repeat split; try assumption; lia.
Qed.

End Sequence.

(** Three spans in batches of two: two requests, and the replies to both
    are accepted. *)
Lemma batches_sent_in_order_witness :
  exists r k,
    bluebookify (resolve_to (scripted_oracle three_good_replies)) three_citations
      (Some (options_with_batchSize 2)) 0 = Some r /\
    calls r = firstn k (batch_requests (spans_of three_citations (options_with_batchSize 2))
                          2 None) /\
    k <= 2 /\
    nth_error (batch_requests (spans_of three_citations (options_with_batchSize 2)) 2 None) 1 =
      Some [ {| msg_role := System; content := system_prompt None |};
             {| msg_role := User;
                content := data_message
                             (spans_of three_citations (options_with_batchSize 2)) 2 3 |} ].
Proof.
  destruct (batches_sent_in_order nat unit (resolve_to (scripted_oracle three_good_replies))
              three_citations (options_with_batchSize 2)
              (scripted_oracle three_good_replies) 0)
    as [r [k [E [C [K [_ [T _]]]]]]].
  - repeat split; vm_compute; reflexivity.
  - exists r, k. split; [exact E|]. split; [exact C|]. split.
    + replace 2 with (ceil_div (length (spans_of three_citations (options_with_batchSize 2)))
                        (to_index (batchSize_of (options_with_batchSize 2)))) at 2
        by (vm_compute; reflexivity).
      exact K.
    + destruct (T 1) as [T1 _]; [vm_compute; lia|]. exact T1.
Defined.

(** C3 as stated fails on a run that a reply ends early: with three spans
    and batches of two, [ceil (3 / 2) = 2], but a first reply that is not an
    array stops the run after one call. *)
Lemma batch_calls_counterexample :
  option_map (fun r => length (calls r))
    (bluebookify (resolve_to (scripted_oracle [lit "sorry"])) three_citations
       (Some (options_with_batchSize 2)) 0) = Some 1 /\
  ceil_div (length (spans_of three_citations (options_with_batchSize 2)))
    (to_index (batchSize_of (options_with_batchSize 2))) = 2.
Proof. split; vm_compute; reflexivity. Qed.

(* ================================================================== *)
(** * [JSON.parse]: the lexical structure of what it accepts *)
(* ================================================================== *)

Lemma lex_app (st : lex_state) (s t : str) :
  lex st (s ++ t) = match lex st s with Some st' => lex st' t | None => None end.
Proof.
  revert st; induction s as [|c s IH]; intros st; simpl; [reflexivity|].
  destruct (lex_step st c) as [st'|]; [apply IH | reflexivity].
Qed.

Lemma quiet_step (c : char) (d : nat) :
  quiet c = true -> lex_step (LexOut, d) c = Some (LexOut, d).
Proof.
  unfold quiet. intros H.
  repeat (apply andb_true_iff in H as [H ?]).
  repeat match goal with X : negb _ = true |- _ => apply negb_true_iff in X end.
  simpl. now repeat match goal with X : N.eqb c _ = false |- _ => rewrite X; clear X end.
Qed.

Lemma all_quiet_balanced (s : str) : all_quiet s -> balanced s.
Proof.
  unfold all_quiet, balanced. induction s as [|c s IH]; intros H d; [reflexivity|].
  simpl in H. apply andb_true_iff in H as [Hc Hs].
  cbn [lex]. rewrite (quiet_step c d Hc). now apply IH.
Qed.

Lemma balanced_nil : balanced [].
Proof. intros d. reflexivity. Qed.

Lemma balanced_app (s t : str) : balanced s -> balanced t -> balanced (s ++ t).
Proof. intros Hs Ht d. now rewrite lex_app, Hs. Qed.

Lemma balanced_quiet (c : char) : quiet c = true -> balanced [c].
Proof. intros H. apply all_quiet_balanced. unfold all_quiet. simpl. now rewrite H. Qed.

Lemma balanced_string (s : str) : closes_string s -> balanced (34%N :: s).
Proof. intros H d. cbn [lex lex_step]. simpl. apply H. Qed.

Lemma balanced_array (inner : str) :
  balanced inner -> balanced (open_bracket :: inner ++ [close_bracket]).
Proof.
  intros H d. cbn [lex]. simpl. now rewrite lex_app, H.
Qed.

Lemma ws_quiet (c : char) : Json.is_ws c = true -> quiet c = true.
Proof.
  unfold Json.is_ws. intros H.
  repeat (apply orb_true_iff in H as [H|H]); apply N.eqb_eq in H; subst; reflexivity.
Qed.

Lemma ws_all_quiet (w : str) : forallb Json.is_ws w = true -> all_quiet w.
Proof.
  unfold all_quiet. induction w as [|c w IH]; simpl; intros H; [reflexivity|].
  apply andb_true_iff in H as [Hc Hw]. now rewrite (ws_quiet c Hc), IH.
Qed.

(** ** What the readers pass *)

Lemma took_refl (P : str -> Prop) (s : str) : P [] -> took P s s.
Proof. intros H. now exists []. Qed.

Lemma took_balanced_trans (s t u : str) :
  took balanced s t -> took balanced t u -> took balanced s u.
Proof.
  intros [p [-> Hp]] [q [-> Hq]]. exists (p ++ q).
  split; [now rewrite app_assoc | now apply balanced_app].
Qed.

Lemma took_quiet_trans (s t u : str) :
  took all_quiet s t -> took all_quiet t u -> took all_quiet s u.
Proof.
  intros [p [-> Hp]] [q [-> Hq]]. exists (p ++ q).
  split; [now rewrite app_assoc|].
  unfold all_quiet in *. now rewrite forallb_app, Hp, Hq.
Qed.

Lemma took_quiet_cons (c : char) (s : str) : quiet c = true -> took all_quiet (c :: s) s.
Proof. intros H. exists [c]. split; [reflexivity|]. unfold all_quiet. simpl. now rewrite H. Qed.

Lemma took_quiet_balanced (s r : str) : took all_quiet s r -> took balanced s r.
Proof. intros [p [-> Hp]]. exists p. split; [reflexivity | now apply all_quiet_balanced]. Qed.

Lemma skip_ws_split (s : str) :
  exists w, s = w ++ Json.skip_ws s /\ forallb Json.is_ws w = true.
Proof.
  induction s as [|c s [w [E W]]]; simpl.
  - now exists [].
  - destruct (Json.is_ws c) eqn:C.
    + exists (c :: w). split; [simpl; now f_equal | simpl; now rewrite C].
    + now exists [].
Qed.

Lemma skip_ws_took (s : str) : took balanced s (Json.skip_ws s).
Proof.
  destruct (skip_ws_split s) as [w [E W]]. exists w.
  split; [exact E | now apply all_quiet_balanced, ws_all_quiet].
Qed.

Lemma hex_plain (h : char) (v : N) :
  Json.hex_value h = Some v -> N.eqb h 34 = false /\ N.eqb h 92 = false.
Proof.
  unfold Json.hex_value. intros H.
  destruct (N.leb 48 h && N.leb h 57) eqn:A.
  { apply andb_true_iff in A as [A1 A2]. apply N.leb_le in A1, A2.
    split; apply N.eqb_neq; lia. }
  destruct (N.leb 65 h && N.leb h 70) eqn:B.
  { apply andb_true_iff in B as [B1 B2]. apply N.leb_le in B1, B2.
    split; apply N.eqb_neq; lia. }
  destruct (N.leb 97 h && N.leb h 102) eqn:C; [|discriminate].
  apply andb_true_iff in C as [C1 C2]. apply N.leb_le in C1, C2.
  split; apply N.eqb_neq; lia.
Qed.

Lemma lex_in_plain (c : char) (d : nat) (s : str) :
  N.eqb c 34 = false -> N.eqb c 92 = false -> lex (LexIn, d) (c :: s) = lex (LexIn, d) s.
Proof. intros H1 H2. cbn [lex lex_step]. simpl. now rewrite H1, H2. Qed.

Lemma lex_in_escape (e : char) (d : nat) (s : str) :
  lex (LexIn, d) (92%N :: e :: s) = lex (LexIn, d) s.
Proof. reflexivity. Qed.

Lemma read_string_took (n : nat) :
  forall s t r, length s <= n -> Json.read_string s = Some (t, r) -> took closes_string s r.
Proof.
  induction n as [|n IH]; intros s t r Hn H.
  - destruct s; [discriminate | simpl in Hn; lia].
  - destruct s as [|c rest]; [discriminate|]. simpl in Hn.
    cbn [Json.read_string] in H.
    destruct (N.eqb c 34) eqn:Q.
    { injection H as <- <-. apply N.eqb_eq in Q. subst c.
      exists [34%N]. split; [reflexivity | intros d; reflexivity]. }
    destruct (N.ltb c 32); [discriminate|].
    destruct (N.eqb c 92) eqn:B.
    + apply N.eqb_eq in B. subst c.
      destruct rest as [|e rest']; [discriminate|]. simpl in Hn.
      assert (Step : forall x, match Json.read_string rest' with
                               | Some (t0, r0) => Some (x :: t0, r0)
                               | None => None
                               end = Some (t, r) -> took closes_string (92%N :: e :: rest') r).
      { intros x Hx. destruct (Json.read_string rest') as [[t0 r0]|] eqn:E; [|discriminate].
        injection Hx as <- <-.
        destruct (IH rest' t0 r0 ltac:(lia) E) as [p [-> Hp]].
        exists (92%N :: e :: p). split; [reflexivity|].
        intros d. rewrite lex_in_escape. apply Hp. }
      repeat match type of H with
             | (if ?b then _ else _) = _ => destruct b; [now apply (Step _ H)|]
             end.
      destruct (N.eqb e 117); [|discriminate].
      destruct rest' as [|h1 [|h2 [|h3 [|h4 rest'']]]]; try discriminate.
      destruct (Json.hex_value h1) eqn:H1; [|discriminate].
      destruct (Json.hex_value h2) eqn:H2; [|discriminate].
      destruct (Json.hex_value h3) eqn:H3; [|discriminate].
      destruct (Json.hex_value h4) eqn:H4; [|discriminate].
      destruct (Json.read_string rest'') as [[t0 r0]|] eqn:E; [|discriminate].
      injection H as <- <-. simpl in Hn.
      destruct (IH rest'' t0 r0 ltac:(lia) E) as [p [-> Hp]].
      exists (92%N :: e :: h1 :: h2 :: h3 :: h4 :: p). split; [reflexivity|].
      intros d. rewrite lex_in_escape.
      apply hex_plain in H1 as [? ?], H2 as [? ?], H3 as [? ?], H4 as [? ?].
      rewrite !lex_in_plain by assumption. apply Hp.
    + destruct (Json.read_string rest) as [[t0 r0]|] eqn:E; [|discriminate].
      injection H as <- <-.
      destruct (IH rest t0 r0 ltac:(lia) E) as [p [-> Hp]].
      exists (c :: p). split; [reflexivity|].
      intros d. rewrite lex_in_plain by assumption. apply Hp.
Qed.

Lemma digit_quiet (c : char) : Json.is_digit c = true -> quiet c = true.
Proof.
  unfold Json.is_digit, quiet. intros H.
  apply andb_true_iff in H as [H1 H2]. apply N.leb_le in H1, H2.
  repeat (apply andb_true_iff; split); apply negb_true_iff, N.eqb_neq; lia.
Qed.

Lemma read_digits_took (s : str) :
  forall v n v' n' r, Json.read_digits s v n = (v', n', r) -> took all_quiet s r.
Proof.
  induction s as [|c s IH]; intros v n v' n' r H; simpl in H.
  - injection H as <- <- <-. now apply took_refl.
  - destruct (Json.is_digit c) eqn:D.
    + eapply took_quiet_trans; [apply took_quiet_cons, digit_quiet, D | exact (IH _ _ _ _ _ H)].
    + injection H as <- <- <-. now apply took_refl.
Qed.

Lemma read_int_took (s : str) (v : Z) (r : str) :
  Json.read_int s = Some (v, r) -> took all_quiet s r.
Proof.
  unfold Json.read_int. destruct s as [|c rest]; [discriminate|].
  destruct (N.eqb c 48) eqn:Z.
  - intros H. injection H as <- <-. apply N.eqb_eq in Z. subst c.
    now apply took_quiet_cons.
  - destruct (Json.is_digit c); [|discriminate].
    destruct (Json.read_digits (c :: rest) 0 0) as [[v' n'] r'] eqn:E.
    intros H. injection H as <- <-. exact (read_digits_took _ _ _ _ _ _ E).
Qed.

Lemma read_frac_took (s : str) (v : Z) (n : nat) (r : str) :
  Json.read_frac s = Some (v, n, r) -> took all_quiet s r.
Proof.
  unfold Json.read_frac. destruct s as [|c rest].
  - intros H. injection H as <- <- <-. now apply took_refl.
  - destruct (N.eqb c 46) eqn:P.
    + destruct (Json.read_digits rest 0 0) as [[v' n'] r'] eqn:E.
      destruct n'; [discriminate|]. intros H. injection H as <- <- <-.
      apply N.eqb_eq in P. subst c.
      eapply took_quiet_trans; [now apply took_quiet_cons|].
      exact (read_digits_took _ _ _ _ _ _ E).
    + intros H. injection H as <- <- <-. now apply took_refl.
Qed.

Lemma read_exp_took (s : str) (v : Z) (r : str) :
  Json.read_exp s = Some (v, r) -> took all_quiet s r.
Proof.
  unfold Json.read_exp. destruct s as [|c rest].
  - intros H. injection H as <- <-. now apply took_refl.
  - destruct (N.eqb c 101 || N.eqb c 69) eqn:X.
    + assert (Qc : quiet c = true).
      { apply orb_true_iff in X as [X|X]; apply N.eqb_eq in X; subst c; reflexivity. }
      assert (L : took all_quiet rest
                (snd (match rest with
                      | d :: r' =>
                          if N.eqb d 45 then (true, r')
                          else if N.eqb d 43 then (false, r') else (false, rest)
                      | [] => (false, rest)
                      end))).
      { destruct rest as [|d r']; [now apply took_refl|].
        destruct (N.eqb d 45) eqn:M.
        { apply N.eqb_eq in M. subst d. now apply took_quiet_cons. }
        destruct (N.eqb d 43) eqn:P; [|now apply took_refl].
        apply N.eqb_eq in P. subst d. now apply took_quiet_cons. }
      destruct (match rest with
                | d :: r' =>
                    if N.eqb d 45 then (true, r')
                    else if N.eqb d 43 then (false, r') else (false, rest)
                | [] => (false, rest)
                end) as [neg rest'].
      simpl in L.
      destruct (Json.read_digits rest' 0 0) as [[v' n'] r'] eqn:E.
      destruct n'; [discriminate|]. intros H. injection H as <- <-.
      eapply took_quiet_trans; [now apply took_quiet_cons|].
      eapply took_quiet_trans; [exact L | exact (read_digits_took _ _ _ _ _ _ E)].
    + intros H. injection H as <- <-. now apply took_refl.
Qed.

Lemma read_number_took (s : str) (v : number) (r : str) :
  Json.read_number s = Some (v, r) -> took all_quiet s r.
Proof.
  unfold Json.read_number.
  assert (L : took all_quiet s
              (snd (match s with
                    | c :: rest => if N.eqb c 45 then (true, rest) else (false, s)
                    | [] => (false, s)
                    end))).
  { destruct s as [|c rest]; [now apply took_refl|].
    destruct (N.eqb c 45) eqn:M; [|now apply took_refl].
    apply N.eqb_eq in M. subst c. now apply took_quiet_cons. }
  destruct (match s with
            | c :: rest => if N.eqb c 45 then (true, rest) else (false, s)
            | [] => (false, s)
            end) as [neg s1].
  simpl in L.
  destruct (Json.read_int s1) as [[int s2]|] eqn:E1; [|discriminate].
  destruct (Json.read_frac s2) as [[[frac n] s3]|] eqn:E2; [|discriminate].
  destruct (Json.read_exp s3) as [[e s4]|] eqn:E3; [|discriminate].
  intros H. injection H as <- <-.
  eapply took_quiet_trans; [exact L|].
  eapply took_quiet_trans; [exact (read_int_took _ _ _ E1)|].
  eapply took_quiet_trans; [exact (read_frac_took _ _ _ _ E2)|].
  exact (read_exp_took _ _ _ E3).
Qed.

Lemma strip_prefix_took (l s r : str) :
  all_quiet l -> Json.strip_prefix l s = Some r -> took all_quiet s r.
Proof.
  unfold all_quiet. revert s; induction l as [|a l IH]; intros s Hl H; simpl in H.
  - injection H as <-. now apply took_refl.
  - destruct s as [|b s']; [discriminate|].
    destruct (char_eqb a b) eqn:E; [|discriminate].
    apply N.eqb_eq in E. subst b.
    simpl in Hl. apply andb_true_iff in Hl as [Ha Hl].
    eapply took_quiet_trans; [now apply took_quiet_cons | exact (IH _ Hl H)].
Qed.

Lemma took_balanced_cons (c : char) (s : str) : quiet c = true -> took balanced (c :: s) s.
Proof. intros H. apply took_quiet_balanced. now apply took_quiet_cons. Qed.

(** What the three readers pass is balanced; an array is white space, its
    opening bracket, a balanced text, and its closing bracket. *)
Lemma readers_balanced (fuel : nat) :
  (forall s v r, Json.read_value fuel s = Some (v, r) ->
     took balanced s r /\
     (forall items, v = JArray items ->
        exists w inner,
          s = w ++ open_bracket :: inner ++ close_bracket :: r /\
          forallb Json.is_ws w = true /\ balanced inner)) /\
  (forall s vs r, Json.read_elements fuel s = Some (vs, r) ->
     exists inner, s = inner ++ close_bracket :: r /\ balanced inner) /\
  (forall s ms r, Json.read_members fuel s = Some (ms, r) -> took balanced s r).
Proof.
  induction fuel as [|fuel [IHv [IHe IHm]]].
  - repeat split; intros; discriminate.
  - split; [|split].
    + intros s v r H. cbn [Json.read_value] in H.
      destruct (skip_ws_split s) as [w [Es W]].
      destruct (Json.skip_ws s) as [|c rest]; [discriminate|].
      destruct (N.eqb c 91) eqn:E91.
      { apply N.eqb_eq in E91. subst c.
        assert (Arr : forall inner, balanced inner ->
                  rest = inner ++ close_bracket :: r ->
                  took balanced s r /\
                  exists w0 inner0,
                    s = w0 ++ open_bracket :: inner0 ++ close_bracket :: r /\
                    forallb Json.is_ws w0 = true /\ balanced inner0).
        { intros inner Hin Er. split.
          - exists (w ++ open_bracket :: inner ++ [close_bracket]). split.
            + rewrite Es, Er. rewrite <- !app_assoc. simpl.
              now rewrite <- !app_assoc.
            + apply balanced_app; [now apply all_quiet_balanced, ws_all_quiet|].
              now apply balanced_array.
          - exists w, inner. split; [|now split].
            rewrite Es at 1. now rewrite Er. }
        destruct (skip_ws_split rest) as [w2 [Er W2]].
        destruct (Json.skip_ws rest) as [|d rest']; [discriminate|].
        destruct (N.eqb d 93) eqn:E93.
        - injection H as <- <-. apply N.eqb_eq in E93. subst d.
          destruct (Arr w2) as [T D]; [now apply all_quiet_balanced, ws_all_quiet | exact Er |].
          split; [exact T | intros _ _; exact D].
        - destruct (Json.read_elements fuel rest) as [[items r']|] eqn:Ee; [|discriminate].
          injection H as <- <-.
          destruct (IHe _ _ _ Ee) as [inner [Ei Hin]].
          destruct (Arr inner Hin Ei) as [T D].
          split; [exact T | intros _ _; exact D]. }
      assert (Lead : took balanced s (c :: rest)).
      { exists w. split; [exact Es | now apply all_quiet_balanced, ws_all_quiet]. }
      destruct (N.eqb c 123) eqn:E123.
      { apply N.eqb_eq in E123. subst c.
        pose proof (skip_ws_took rest) as Lr.
        destruct (Json.skip_ws rest) as [|d rest']; [discriminate|].
        destruct (N.eqb d 125) eqn:E125.
        - injection H as <- <-. split; [|discriminate].
          apply N.eqb_eq in E125. subst d.
          eapply took_balanced_trans; [exact Lead|].
          eapply took_balanced_trans; [now apply took_balanced_cons|].
          eapply took_balanced_trans; [exact Lr | now apply took_balanced_cons].
        - destruct (Json.read_members fuel rest) as [[ms r']|] eqn:Em; [|discriminate].
          injection H as <- <-. split; [|discriminate].
          eapply took_balanced_trans; [exact Lead|].
          eapply took_balanced_trans; [now apply took_balanced_cons | exact (IHm _ _ _ Em)]. }
      destruct (N.eqb c 34) eqn:E34.
      { apply N.eqb_eq in E34. subst c.
        destruct (Json.read_string rest) as [[t r']|] eqn:Es'; [|discriminate].
        injection H as <- <-. split; [|discriminate].
        eapply took_balanced_trans; [exact Lead|].
        destruct (read_string_took (length rest) rest t r' (le_n _) Es') as [p [-> Hp]].
        exists (34%N :: p). split; [reflexivity | now apply balanced_string]. }
      assert (Lit : forall (x : json) (l : str) (k : char),
                c = k -> quiet k = true -> all_quiet l ->
                option_map (pair x) (Json.strip_prefix l rest) = Some (v, r) ->
                (forall items, x <> JArray items) ->
                took balanced s r /\
                (forall items, v = JArray items ->
                   exists w0 inner0,
                     s = w0 ++ open_bracket :: inner0 ++ close_bracket :: r /\
                     forallb Json.is_ws w0 = true /\ balanced inner0)).
      { intros x l k Hk Qk Ql Hl Hx.
        destruct (Json.strip_prefix l rest) as [r'|] eqn:Ep; [|discriminate].
        injection Hl as <- <-. split.
        - eapply took_balanced_trans; [exact Lead|].
          eapply took_balanced_trans; [apply took_balanced_cons; now rewrite Hk|].
          apply took_quiet_balanced. exact (strip_prefix_took _ _ _ Ql Ep).
        - intros items E. exfalso. exact (Hx items E). }
      destruct (N.eqb c 116) eqn:E116.
      { apply N.eqb_eq in E116.
        apply (Lit (JBool true) (lit "rue") 116%N E116 eq_refl eq_refl H); discriminate. }
      destruct (N.eqb c 102) eqn:E102.
      { apply N.eqb_eq in E102.
        apply (Lit (JBool false) (lit "alse") 102%N E102 eq_refl eq_refl H); discriminate. }
      destruct (N.eqb c 110) eqn:E110.
      { apply N.eqb_eq in E110.
        apply (Lit (JNull) (lit "ull") 110%N E110 eq_refl eq_refl H); discriminate. }
      destruct (Json.read_number (c :: rest)) as [[n r']|] eqn:En; [|discriminate].
      injection H as <- <-. split; [|discriminate].
      eapply took_balanced_trans; [exact Lead|].
      apply took_quiet_balanced. exact (read_number_took _ _ _ En).
    + intros s vs r H. cbn [Json.read_elements] in H.
      destruct (Json.read_value fuel s) as [[v r1]|] eqn:Ev; [|discriminate].
      destruct (IHv _ _ _ Ev) as [[p [-> Hp]] _].
      destruct (skip_ws_split r1) as [w1 [E1 W1]].
      destruct (Json.skip_ws r1) as [|c r2]; [discriminate|].
      destruct (N.eqb c 44) eqn:E44.
      * destruct (Json.read_elements fuel r2) as [[vs' r3]|] eqn:Ee; [|discriminate].
        injection H as <- <-. apply N.eqb_eq in E44. subst c.
        destruct (IHe _ _ _ Ee) as [inner [-> Hin]].
        exists (p ++ w1 ++ 44%N :: inner). split.
        -- rewrite E1. rewrite <- !app_assoc. simpl. reflexivity.
        -- apply balanced_app; [exact Hp|].
           apply balanced_app; [now apply all_quiet_balanced, ws_all_quiet|].
           change (44%N :: inner) with ([44%N] ++ inner).
           apply balanced_app; [now apply balanced_quiet | exact Hin].
      * destruct (N.eqb c 93) eqn:E93; [|discriminate].
        injection H as <- <-. apply N.eqb_eq in E93. subst c.
        exists (p ++ w1). split.
        -- rewrite E1. now rewrite <- app_assoc.
        -- apply balanced_app; [exact Hp | now apply all_quiet_balanced, ws_all_quiet].
    + intros s ms r H. cbn [Json.read_members] in H.
      pose proof (skip_ws_took s) as Ls.
      destruct (Json.skip_ws s) as [|q r0]; [discriminate|].
      destruct (N.eqb q 34) eqn:E34; [|discriminate].
      apply N.eqb_eq in E34. subst q.
      destruct (Json.read_string r0) as [[key r1]|] eqn:Es; [|discriminate].
      assert (Lk : took balanced (34%N :: r0) r1).
      { destruct (read_string_took (length r0) r0 key r1 (le_n _) Es) as [p [-> Hp]].
        exists (34%N :: p). split; [reflexivity | now apply balanced_string]. }
      pose proof (skip_ws_took r1) as L1.
      destruct (Json.skip_ws r1) as [|colon r2]; [discriminate|].
      destruct (N.eqb colon 58) eqn:E58; [|discriminate].
      apply N.eqb_eq in E58. subst colon.
      destruct (Json.read_value fuel r2) as [[v r3]|] eqn:Ev; [|discriminate].
      destruct (IHv _ _ _ Ev) as [Lv _].
      pose proof (skip_ws_took r3) as L3.
      destruct (Json.skip_ws r3) as [|c r4]; [discriminate|].
      assert (L4 : quiet c = true -> took balanced s r4).
      { intros Qc.
        eapply took_balanced_trans; [exact Ls|].
        eapply took_balanced_trans; [exact Lk|].
        eapply took_balanced_trans; [exact L1|].
        eapply took_balanced_trans; [now apply took_balanced_cons|].
        eapply took_balanced_trans; [exact Lv|].
        eapply took_balanced_trans; [exact L3 | now apply took_balanced_cons]. }
      destruct (N.eqb c 44) eqn:E44.
      * destruct (Json.read_members fuel r4) as [[ms' r5]|] eqn:Em; [|discriminate].
        injection H as <- <-. apply N.eqb_eq in E44. subst c.
        eapply took_balanced_trans; [now apply L4 | exact (IHm _ _ _ Em)].
      * destruct (N.eqb c 125) eqn:E125; [|discriminate].
        injection H as <- <-. apply N.eqb_eq in E125. subst c. now apply L4.
Qed.

(** ** A text read from inside a string *)

(** Two readers of the same text, one outside a string and one inside,
    stay on opposite sides as long as both can go on. *)
Lemma lex_opposite (s : str) :
  forall m1 d1 m2 d2 r1 r2,
    (m1 = LexOut /\ m2 = LexIn) \/ (m1 = LexIn /\ m2 = LexOut) ->
    lex (m1, d1) s = Some r1 -> lex (m2, d2) s = Some r2 ->
    (fst r1 = LexOut /\ fst r2 = LexIn) \/ (fst r1 = LexIn /\ fst r2 = LexOut).
Proof.
  induction s as [|c s IH]; intros m1 d1 m2 d2 r1 r2 Hopp H1 H2.
  - simpl in H1, H2. injection H1 as <-. injection H2 as <-. exact Hopp.
  - cbn [lex] in H1, H2.
    destruct (lex_step (m1, d1) c) as [[m1' d1']|] eqn:S1; [|discriminate].
    destruct (lex_step (m2, d2) c) as [[m2' d2']|] eqn:S2; [|discriminate].
    apply (IH m1' d1' m2' d2' r1 r2); [|assumption|assumption].
    destruct Hopp as [[-> ->]|[-> ->]]; simpl in S1, S2.
    + destruct (N.eqb c 34).
      { injection S1 as <- _. injection S2 as <- _. now right. }
      destruct (N.eqb c 92); [discriminate|].
      injection S2 as <- _.
      destruct (N.eqb c 91); [injection S1 as <- _; now left|].
      destruct (N.eqb c 93).
      * destruct d1; [discriminate|]. injection S1 as <- _. now left.
      * injection S1 as <- _. now left.
    + destruct (N.eqb c 34).
      { injection S1 as <- _. injection S2 as <- _. now left. }
      destruct (N.eqb c 92); [discriminate|].
      injection S1 as <- _.
      destruct (N.eqb c 91); [injection S2 as <- _; now right|].
      destruct (N.eqb c 93).
      * destruct d2; [discriminate|]. injection S2 as <- _. now right.
      * injection S2 as <- _. now right.
Qed.

(** A text from an opening bracket to a closing bracket that reads as an
    array is balanced between the two. *)
Lemma parsed_array_shape (inner : str) (items : list json) :
  parse_array (open_bracket :: inner ++ [close_bracket]) = Some items -> balanced inner.
Proof.
  unfold parse_array, Json.parse.
  destruct (Json.read_value _ _) as [[v rest]|] eqn:E; [|discriminate].
  destruct (Json.skip_ws rest) eqn:W; [|discriminate].
  destruct v; try discriminate. intros _.
  destruct (readers_balanced (2 * length (open_bracket :: inner ++ [close_bracket]) + 2))
    as [Hv _].
  destruct (Hv _ _ _ E) as [_ Ha].
  destruct (Ha _ eq_refl) as [w [inner' [Eq [Ww Hin]]]].
  destruct w as [|c w'].
  - simpl in Eq. injection Eq as Eq.
    apply skip_ws_all in W.
    destruct rest as [|x rest'] using rev_ind.
    + apply app_inj_tail in Eq as [-> _]. exact Hin.
    + exfalso. clear IHrest'.
      replace (inner' ++ close_bracket :: rest' ++ [x])
        with ((inner' ++ close_bracket :: rest') ++ [x]) in Eq
        by (rewrite <- app_assoc; reflexivity).
      apply app_inj_tail in Eq as [_ <-].
      rewrite forallb_app in W. apply andb_true_iff in W as [_ W].
      discriminate W.
  - exfalso. simpl in Eq. injection Eq as <- _.
    simpl in Ww. discriminate Ww.
Qed.

(** No opening bracket before the text of an array begins a text that
    reads as an array up to the end of that array: read from there, the
    array is either inside a string, which it then cannot close, or one
    level too deep for its closing bracket to be the last. *)
Lemma brackets_unrelated (P A : str) (items : list json) :
  array_text A items -> unrelated_brackets P A.
Proof.
  intros [Hparse [body HA]] j Hj.
  destruct (parse_array (skipn j P ++ A)) as [items'|] eqn:E; [|reflexivity].
  exfalso.
  assert (Hskip : skipn j P = open_bracket :: skipn (S j) P).
  { clear - Hj. revert j Hj; induction P as [|x P IH]; intros [|j] Hj;
      simpl in *; try discriminate.
    - now injection Hj as ->.
    - now apply IH. }
  rewrite Hskip, HA in E. rewrite HA in Hparse.
  apply parsed_array_shape in Hparse.
  replace ((open_bracket :: skipn (S j) P) ++ open_bracket :: body ++ [close_bracket])
    with (open_bracket :: (skipn (S j) P ++ open_bracket :: body) ++ [close_bracket]) in E
    by (simpl; now rewrite <- app_assoc).
  apply parsed_array_shape in E.
  specialize (E 0). rewrite lex_app in E.
  destruct (lex (LexOut, 0) (skipn (S j) P)) as [[m d2]|]; [|discriminate].
  destruct m.
  - cbn [lex lex_step] in E. simpl in E. rewrite (Hparse (S d2)) in E. discriminate.
  - rewrite lex_in_plain in E by reflexivity.
    destruct (lex_opposite body LexOut 0 LexIn d2 _ _ (or_introl (conj eq_refl eq_refl))
                (Hparse 0) E) as [[_ X]|[X _]]; discriminate X.
  - change (lex (LexEsc, d2) (open_bracket :: body)) with (lex (LexIn, d2) body) in E.
    destruct (lex_opposite body LexOut 0 LexIn d2 _ _ (or_introl (conj eq_refl eq_refl))
                (Hparse 0) E) as [[_ X]|[X _]]; discriminate X.
Qed.

(* ================================================================== *)
(** * [parseResponse]: an array between any prose *)
(* ================================================================== *)

Lemma trimStart_before (P X : str) :
  match X with [] => False | c :: _ => is_space c = false end ->
  trimStart (P ++ X) = trimStart P ++ X.
Proof.
  intros H. induction P as [|c P IH]; simpl.
  - destruct X as [|x X']; [contradiction|]. simpl. now rewrite H.
  - destruct (is_space c); [exact IH | reflexivity].
Qed.

Lemma trimEnd_after (Y Q : str) :
  match rev Y with [] => False | c :: _ => is_space c = false end ->
  trimEnd (Y ++ Q) = Y ++ trimEnd Q.
Proof.
  intros H. unfold trimEnd.
  rewrite rev_app_distr, (trimStart_before (rev Q) (rev Y) H).
  now rewrite rev_app_distr, rev_involutive.
Qed.

Lemma trimStart_incl (s : str) (c : char) : In c (trimStart s) -> In c s.
Proof.
  induction s as [|x s IH]; simpl; [tauto|].
  destruct (is_space x); [intros H; right; now apply IH | tauto].
Qed.

Lemma trimEnd_incl (s : str) (c : char) : In c (trimEnd s) -> In c s.
Proof.
  unfold trimEnd. intros H. apply in_rev in H. apply trimStart_incl in H.
  now apply in_rev in H.
Qed.

Section Around.

Variable A body : str.
Hypothesis A_brackets : A = open_bracket :: body ++ [close_bracket].

Lemma array_first : match A with [] => False | c :: _ => is_space c = false end.
Proof. rewrite A_brackets. reflexivity. Qed.

Lemma array_last (P : str) :
  match rev (P ++ A) with [] => False | c :: _ => is_space c = false end.
Proof.
  rewrite A_brackets.
  replace (P ++ open_bracket :: body ++ [close_bracket])
    with ((P ++ open_bracket :: body) ++ [close_bracket])
    by (rewrite <- app_assoc; reflexivity).
  rewrite rev_app_distr. reflexivity.
Qed.

Lemma array_length : length A = S (S (length body)).
Proof. rewrite A_brackets. simpl. rewrite length_app. simpl. lia. Qed.

Lemma array_at_first (P Q : str) : nth_error (P ++ A ++ Q) (length P) = Some open_bracket.
Proof.
  rewrite nth_error_app2 by lia. rewrite Nat.sub_diag, A_brackets. reflexivity.
Qed.

Lemma array_at_last (P Q : str) :
  nth_error (P ++ A ++ Q) (length P + S (length body)) = Some close_bracket.
Proof.
  rewrite nth_error_app2 by lia.
  replace (length P + S (length body) - length P) with (S (length body)) by lia.
  rewrite A_brackets. simpl.
  rewrite <- app_assoc.
  rewrite nth_error_app2 by lia. now rewrite Nat.sub_diag.
Qed.

(** [trim] removes white space of the prose only. *)
Lemma trim_around (P Q : str) :
  trim (P ++ A ++ Q) = trimStart P ++ A ++ trimEnd Q.
Proof.
  unfold trim.
  rewrite (trimStart_before P (A ++ Q)).
  - rewrite app_assoc, (trimEnd_after (trimStart P ++ A) Q (array_last _)).
    now rewrite <- app_assoc.
  - pose proof array_first as F. destruct A; [contradiction | exact F].
Qed.

(** The opening fence, if there is one, lies in the prose before. *)
Lemma opening_fence_around (P Q : str) :
  exists P', remove_first (P ++ A ++ Q) FENCE_OPEN_RE = P' ++ A ++ Q.
Proof.
  unfold remove_first.
  destruct (exec (P ++ A ++ Q) FENCE_OPEN_RE 0) as [[s e]|] eqn:E; [|now exists P].
  apply exec_sound in E as [M _].
  assert (Hs : s = 0).
  { unfold FENCE_OPEN_RE in M. cbn [seqs] in M.
    inversion M as [ | | ? ? ? j ? M1 M2 | | | | | | | ]; subst.
    now inversion M1. }
  subst s.
  assert (He : e <= length P).
  { destruct (Nat.le_gt_cases e (length P)) as [L|L]; [exact L|]. exfalso.
    destruct (matches_alphabet _ _ _ _ M (length P)) as [c [Hn Hc]]; [lia|].
    rewrite array_at_first in Hn. injection Hn as <-.
    vm_compute in Hc. discriminate. }
  exists (skipn e P). simpl.
  rewrite skipn_app. replace (e - length P) with 0 by lia. reflexivity.
Qed.

(** The closing fence, if there is one, lies in the prose after. *)
Lemma closing_fence_around (P Q : str) :
  exists k, remove_first (P ++ A ++ Q) FENCE_CLOSE_RE = P ++ A ++ firstn k Q.
Proof.
  unfold remove_first.
  destruct (exec (P ++ A ++ Q) FENCE_CLOSE_RE 0) as [[s e]|] eqn:E.
  2:{ exists (length Q). now rewrite firstn_all. }
  apply exec_sound in E as [M _].
  pose proof (matches_end _ _ _ _ M eq_refl) as ->.
  assert (Hs : length P + length A <= s).
  { destruct (Nat.le_gt_cases (length P + length A) s) as [L|L]; [exact L|]. exfalso.
    destruct (matches_alphabet _ _ _ _ M (length P + S (length body))) as [c [Hn Hc]].
    - rewrite !length_app, array_length in *. lia.
    - rewrite array_at_last in Hn. injection Hn as <-.
      vm_compute in Hc. discriminate. }
  exists (s - (length P + length A)).
  rewrite skipn_all, app_nil_r.
  rewrite app_assoc, firstn_app, firstn_all2 by (rewrite length_app; lia).
  now rewrite length_app, <- app_assoc.
Qed.

(** What [strip_fences] leaves of a reply that holds the array: prose,
    the array, and a part of the prose that came after it. *)
Lemma strip_around (P Q : str) :
  exists P' Q',
    strip_fences (P ++ A ++ Q) = P' ++ A ++ Q' /\ (forall c, In c Q' -> In c Q).
Proof.
  unfold strip_fences. rewrite trim_around.
  destruct (opening_fence_around (trimStart P) (trimEnd Q)) as [P1 ->].
  destruct (closing_fence_around P1 (trimEnd Q)) as [k ->].
  rewrite trim_around.
  exists (trimStart P1), (trimEnd (firstn k (trimEnd Q))). split; [reflexivity|].
  intros c Hc. apply trimEnd_incl in Hc.
  apply trimEnd_incl.
  rewrite <- (firstn_skipn k (trimEnd Q)). apply in_or_app. now left.
Qed.

End Around.

(** C5, as the code has it.  Let [A] be the text of a JSON array: it
    begins and ends with its brackets and reads as the array [items].
    - [parseResponse A] is the validation of [items].
    - A reply that holds [A] between any prose gives what [A] gives,
      provided the prose after [A] holds no closing bracket.  Nothing is
      asked of the prose before [A], nor of anything else in the prose
      after it: fences of any kind, backticks, quotes and bracketed
      phrases may occur; no opening bracket of the prose before [A] can
      begin a text that reads as an array.
    - In particular a fenced [A] gives what [A] gives, whatever the tag of
      the fence.
    - A reply in which no text from an opening bracket through the last
      closing bracket reads as an array fails with [NoJsonArrayFound]. *)
Theorem reply_forms (A : str) (items : list json) :
  array_text A items ->
  parseResponse A = validate_items items 0 [] /\
  (forall P Q,
     ~ In close_bracket Q ->
     parseResponse (P ++ A ++ Q) = parseResponse A) /\
  (forall tag, parseResponse (fenced tag A) = parseResponse A) /\
  (forall R,
     (forall e j,
        last_index_of close_bracket (strip_fences R) = Some e ->
        nth_error (strip_fences R) j = Some open_bracket ->
        parse_array (slice (strip_fences R) j (S e)) = None) ->
     parseResponse R = Err (NoJsonArrayFound (slice (strip_fences R) 0 200))).
Proof.
  intros HA. pose proof HA as [Hparse [body Hbody]].
  assert (Clean : parseResponse A = validate_items items 0 []).
  { unfold parseResponse. rewrite (strip_array A body Hbody).
    now rewrite (find_array_strict A items Hparse). }
  assert (Prose : forall P Q,
            ~ In close_bracket Q -> parseResponse (P ++ A ++ Q) = parseResponse A).
  { intros P Q HQ. rewrite Clean. unfold parseResponse.
    destruct (strip_around A body Hbody P Q) as [P' [Q' [Hstrip Hincl]]].
    assert (T : trimmed (P' ++ A ++ Q')).
    { rewrite <- Hstrip. unfold strip_fences. apply trim_trimmed. }
    rewrite Hstrip.
    rewrite (find_array_in_prose P' A Q' body items Hparse Hbody T); [reflexivity | |].
    - intros H. apply HQ. now apply Hincl.
    - exact (brackets_unrelated P' A items HA). }
  split; [exact Clean|]. split; [exact Prose|]. split.
  - intros tag. unfold fenced.
    replace (lit "```" ++ tag ++ nl ++ A ++ nl ++ lit "```")
      with ((lit "```" ++ tag ++ nl) ++ A ++ (nl ++ lit "```"))
      by (now rewrite <- !app_assoc).
    apply Prose. intros H. vm_compute in H. intuition discriminate.
  - intros R Hnone. unfold parseResponse, find_array.
    assert (T : trimmed (strip_fences R)) by apply trim_trimmed.
    destruct (parse_array (strip_fences R)) as [items'|] eqn:Strict.
    + exfalso. destruct (strict_is_candidate _ _ T Strict) as [e [He [H0 Hs]]].
      pose proof (Hnone e 0 He H0) as N. rewrite Hs in N. congruence.
    + destruct (last_index_of close_bracket (strip_fences R)) as [e|] eqn:He;
        [|reflexivity].
      rewrite (scan_brackets_none (strip_fences R) e e 0); [reflexivity|].
      intros j Hj. exact (Hnone e j eq_refl Hj).
Qed.

Lemma reply_alone_is_array : array_text reply_alone (items_of reply_alone).
Proof.
  split; [vm_compute; reflexivity|].
  exists (reply_record (lit "0") (lit "Id.")). reflexivity.
Qed.

(** The reply of the tests, with a bracketed phrase before the array and
    prose after it; the array in a fence with a tag of another language;
    and the array in a fence together with prose that holds bracketed
    phrases and backticks. *)
Lemma reply_forms_witness :
  parseResponse reply_after_phrase = parseResponse reply_alone /\
  parseResponse (fenced (lit "javascript") reply_alone) = parseResponse reply_alone /\
  parseResponse reply_in_noisy_prose = parseResponse reply_alone.
Proof.
  destruct (reply_forms reply_alone (items_of reply_alone) reply_alone_is_array)
    as [_ [Hprose [Hfence _]]].
  split; [|split].
  - apply (Hprose (lit "Here is [my analysis] of the citations: ") (lit " Hope this helps!")).
    vm_compute. intuition discriminate.
  - apply Hfence.
  - apply (Hprose (lit "```" ++ nl ++ lit "As [requested], see `ids` [0]: ")
             (lit " -- `done`" ++ nl ++ lit "```")).
    vm_compute. intuition discriminate.
Defined.

(** C5 as stated fails on prose after the array that holds a closing
    bracket: the last closing bracket of the reply is then in the prose,
    no candidate reads as an array, and the reply is rejected although the
    array alone is accepted. *)
Lemma trailing_bracket_counterexample :
  reply_then_note = reply_alone ++ lit " (see [note])" /\
  parseResponse reply_alone =
    Ok [ {| cor_id := num_of_nat 0; cor_citation := lit "Id." |} ] /\
  parseResponse reply_then_note = Err (NoJsonArrayFound reply_then_note).
Proof.
  split; [|split].
  - unfold reply_then_note, reply_alone. repeat (rewrite <- ?app_assoc; simpl). reflexivity.
  - vm_compute. reflexivity.
  - vm_compute. reflexivity.
Qed.

(* ================================================================== *)
(** * The contexts of a span are the text around it *)
(* ================================================================== *)

Lemma trimStart_skipn (s : str) : exists k, trimStart s = skipn k s.
Proof.
  induction s as [|c s [k IH]]; simpl.
  - now exists 0.
  - destruct (is_space c); [now exists (S k) | now exists 0].
Qed.

Lemma suffix_of_slice (text : str) (a b k : nat) :
  a <= b -> b <= length text ->
  skipn k (slice text a b) =
  slice text (b - length (skipn k (slice text a b))) b.
Proof.
  intros Hab Hb.
  destruct (Nat.le_gt_cases k (b - a)) as [L|L].
  - assert (E : skipn k (slice text a b) = slice text (a + k) b).
    { rewrite (slice_split text a (a + k) b) by lia.
      rewrite skipn_app, (slice_length text a (a + k)) by lia.
      replace (a + k - a) with k by lia.
      rewrite skipn_all2 by (rewrite slice_length; lia).
      now rewrite Nat.sub_diag. }
    rewrite E at 1. rewrite E, slice_length by lia.
    f_equal. lia.
  - rewrite skipn_all2 by (rewrite slice_length; lia).
    simpl. unfold slice. now rewrite Nat.sub_0_r, Nat.sub_diag.
Qed.

Lemma firstn_min_length {A : Type} (n : nat) (l : list A) :
  firstn (Nat.min n (length l)) l = firstn n l.
Proof.
  destruct (Nat.le_gt_cases n (length l)) as [L|L].
  - now rewrite Nat.min_l.
  - rewrite Nat.min_r by lia. rewrite firstn_all. symmetry. apply firstn_all2. lia.
Qed.

Lemma prefix_of_slice (text : str) (a b m : nat) :
  firstn m (slice text a b) =
  slice text a (a + length (firstn m (slice text a b))).
Proof.
  unfold slice. rewrite firstn_firstn.
  replace (a + length (firstn (Nat.min m (b - a)) (skipn a text)) - a)
    with (length (firstn (Nat.min m (b - a)) (skipn a text))) by lia.
  rewrite length_firstn. now rewrite firstn_min_length.
Qed.

(** X24.  The contexts of a span are the text around it.  For every span
    that [extractCitations] returns, [before], the text of the span and
    [after] are, put together, one piece of the input: the code units
    from [length before] before the start of the span up to
    [length after] after its end.  Each context is at most [contextSize]
    long; a span at the start of the text has an empty [before], a span at
    the end an empty [after], and with [contextSize = 0] both are empty. *)
Theorem contexts_are_adjacent_text (text : str) (contextSize : nat) (c : CitationContext) :
  In c (extractCitations text contextSize) ->
  slice text (ctx_start c - length (ctx_before c)) (ctx_end c + length (ctx_after c)) =
    ctx_before c ++ ctx_original c ++ ctx_after c /\
  length (ctx_before c) <= contextSize /\
  length (ctx_after c) <= contextSize /\
  (ctx_start c = 0 -> ctx_before c = []) /\
  (ctx_end c = length text -> ctx_after c = []) /\
  (contextSize = 0 -> ctx_before c = [] /\ ctx_after c = []).
Proof.
  intros Hc.
  destruct (context_windows text contextSize c Hc) as [Hb [Ha [Lb [La [E0 [E1 E2]]]]]].
  destruct (laid_out_each text 0 _ c (extractCitations_laid_out text contextSize) Hc)
    as [Hse [Hend Horig]].
  assert (Sb : ctx_before c = slice text (ctx_start c - length (ctx_before c)) (ctx_start c)).
  { assert (K : exists k, ctx_before c =
                  skipn k (slice text (ctx_start c - contextSize) (ctx_start c))).
    { rewrite Hb. unfold before_window.
      destruct (ctx_start c <=? contextSize); [now exists 0|].
      destruct (first_space _) as [i|]; [|now exists 0].
      destruct (trimStart_skipn
                  (skipn i (slice text (ctx_start c - contextSize) (ctx_start c))))
        as [k ->].
      exists (k + i). now rewrite skipn_skipn. }
    destruct K as [k K]. rewrite K at 1. rewrite K.
    apply suffix_of_slice; lia. }
  assert (Sa : ctx_after c = slice text (ctx_end c) (ctx_end c + length (ctx_after c))).
  { assert (K : exists m, ctx_after c =
                  firstn m (slice text (ctx_end c) (ctx_end c + contextSize))).
    { rewrite Ha. unfold after_window.
      destruct (length text <=? ctx_end c + contextSize).
      - exists (length (slice text (ctx_end c) (ctx_end c + contextSize))).
        now rewrite firstn_all.
      - destruct (last_space _) as [[|i]|].
        + exists (length (slice text (ctx_end c) (ctx_end c + contextSize))).
          now rewrite firstn_all.
        + now exists (S i).
        + exists (length (slice text (ctx_end c) (ctx_end c + contextSize))).
          now rewrite firstn_all. }
    destruct K as [m K]. rewrite K at 1. rewrite K.
    apply prefix_of_slice. }
  split; [|split; [exact Lb|split; [exact La|split; [exact E0|split; [exact E1|exact E2]]]]].
  rewrite (slice_split text _ (ctx_start c) _) by lia.
  rewrite (slice_split text (ctx_start c) (ctx_end c) _) by lia.
  now rewrite <- Sb, <- Horig, <- Sa.
Qed.

(** The span of the sample and its contexts of at most ten code units. *)
Lemma contexts_are_adjacent_text_witness :
  slice preamble_text (ctx_start preamble_span - length (ctx_before preamble_span))
    (ctx_end preamble_span + length (ctx_after preamble_span)) =
    ctx_before preamble_span ++ ctx_original preamble_span ++ ctx_after preamble_span /\
  length (ctx_before preamble_span) <= 10 /\
  length (ctx_after preamble_span) <= 10.
Proof.
  destruct (contexts_are_adjacent_text preamble_text 10 preamble_span) as [S [Lb [La _]]].
  - vm_compute. left. reflexivity.
  - repeat split; assumption.
Defined.
